(** * Chorgi: a shallow embedding of the composition engine of [test5.py]

    The development follows the Python source function by function:
    note utilities, chord-pool builders, the harmonic function resolver,
    the voicing transform, the smooth chord finder, the progression
    generators (template / smooth-random and 12-bar blues) and the part
    generators for melody and bass.

    Conventions.
    - A MIDI pitch is a [Z]; a list of notes is a [list Z].
    - A Python [str] is a [string]; the non-ASCII letter in the source is
      kept as its UTF-8 bytes, and [lower] only folds ASCII letters (the
      only cased letters that occur in chord names and function labels).
    - A Python [dict] used as the chord pool is an association list in
      insertion order, as [dict] iteration and [list(pool.keys())] see it.
    - Beats and averages are Python floats in the source; they are
      embedded as exact rationals [Q].  The beat values that the chord
      generators produce (4.0, 2.0 and sums of at most a few dozen of
      them) are exact in binary floating point as well.
    - The shared pseudo-random source is an explicit tape of raw draws,
      threaded through a small state monad [Rand]. *)

From Stdlib Require Import ZArith QArith Qabs Qround List String Ascii Bool Lia.
From Stdlib Require Import Permutation Sorted DecimalString.
Import ListNotations.

Local Open Scope string_scope.
Local Open Scope list_scope.
Local Open Scope Z_scope.

(** ** Python string operations used by the engine *)

Module PyStr.

(** [c.lower()] on one ASCII character. *)
Definition lower_ascii (c : ascii) : ascii :=
  let n := nat_of_ascii c in
  if (Nat.leb 65 n && Nat.leb n 90)%bool then ascii_of_nat (n + 32)%nat else c.

(** [s.lower()]. *)
Fixpoint lower (s : string) : string :=
  match s with
  | EmptyString => EmptyString
  | String c s' => String (lower_ascii c) (lower s')
  end.

(** [s.split(sep)[0]]: the text before the first occurrence of [sep]. *)
Fixpoint split_head (sep : ascii) (s : string) : string :=
  match s with
  | EmptyString => EmptyString
  | String c s' => if Ascii.eqb c sep then EmptyString else String c (split_head sep s')
  end.

(** [sub in s]. *)
Fixpoint contains (sub s : string) : bool :=
  match s with
  | EmptyString => String.prefix sub EmptyString
  | String _ s' => String.prefix sub s || contains sub s'
  end.

(** The text of [s] after its first [n] characters. *)
Fixpoint drop (n : nat) (s : string) : string :=
  match n, s with
  | O, _ => s
  | S _, EmptyString => EmptyString
  | S k, String _ s' => drop k s'
  end.

(** [s.endswith(suf)]. *)
Definition endswith (s suf : string) : bool :=
  (Nat.leb (String.length suf) (String.length s)
   && String.eqb (drop (String.length s - String.length suf)%nat s) suf)%bool.

(** [s.replace(old, new)] for a non-empty [old]: left to right, without
    overlap.  [skip] counts the characters of a match still to be
    consumed. *)
Fixpoint replace_aux (old new : string) (skip : nat) (s : string) : string :=
  match s with
  | EmptyString => EmptyString
  | String c s' =>
      match skip with
      | S k => replace_aux old new k s'
      | O =>
          if String.prefix old s
          then (new ++ replace_aux old new (String.length old - 1)%nat s')%string
          else String c (replace_aux old new 0 s')
      end
  end.

Definition replace (old new s : string) : string := replace_aux old new 0 s.

(** [str(n)] for a non-negative integer, as an f-string prints it. *)
Definition of_Z (n : Z) : string :=
  NilEmpty.string_of_uint (Nat.to_uint (Z.to_nat n)).

(** [s[:-1]]. *)
Fixpoint drop_last (s : string) : string :=
  match s with
  | EmptyString => EmptyString
  | String c EmptyString => EmptyString
  | String c s' => String c (drop_last s')
  end.

(** Truthiness of an optional string: [None] and [''] are falsy. *)
Definition truthy (o : option string) : bool :=
  match o with
  | None => false
  | Some s => negb (String.eqb s "")
  end.

End PyStr.

(** ** Key and MIDI note data *)

Definition NOTE_NAMES : list string :=
  ["C"; "C#"; "D"; "D#"; "E"; "F"; "F#"; "G"; "G#"; "A"; "A#"; "B"].

(** [NOTE_NAMES[n % 12]]. *)
Definition note_name (n : Z) : string :=
  nth (Z.to_nat (n mod 12)) NOTE_NAMES "".

Fixpoint index_of (name : string) (l : list string) (i : Z) : option Z :=
  match l with
  | [] => None
  | x :: l' => if String.eqb x name then Some i else index_of name l' (i + 1)
  end.

(** [ROOT_NOTES_MIDI = {name: 60 + i for i, name in enumerate(NOTE_NAMES)}];
    [None] stands for a missing key. *)
Definition ROOT_NOTES_MIDI (name : string) : option Z :=
  option_map (fun i => 60 + i) (index_of name NOTE_NAMES 0).

(** ** Helper functions on note lists *)

(** Python's [sorted] on integers. *)
Fixpoint insert_sorted (x : Z) (l : list Z) : list Z :=
  match l with
  | [] => [x]
  | y :: l' => if x <=? y then x :: l else y :: insert_sorted x l'
  end.

Fixpoint sorted (l : list Z) : list Z :=
  match l with
  | [] => []
  | x :: l' => insert_sorted x (sorted l')
  end.

Definition len {A} (l : list A) : Z := Z.of_nat (List.length l).

Definition calculate_inversion (root_pos_notes : list Z) (inv_num : Z) : list Z :=
  let notes := sorted root_pos_notes in
  let num_notes := len notes in
  if (inv_num <? 0) || (inv_num >=? num_notes) then notes
  else if inv_num =? 0 then notes
  else
    let notes_to_move := firstn (Z.to_nat inv_num) notes in
    let remaining_notes := skipn (Z.to_nat inv_num) notes in
    let moved_notes := map (fun note => note + 12) notes_to_move in
    sorted (remaining_notes ++ moved_notes).

Definition sum_Z (l : list Z) : Z := fold_right Z.add 0 l.

Definition get_average_pitch (notes : list Z) : Q :=
  match notes with
  | [] => 0%Q
  | _ => (inject_Z (sum_Z notes) / inject_Z (len notes))%Q
  end.

Definition transpose_notes (notes : list Z) (semitones : Z) : list Z :=
  map (fun note => note + semitones) notes.

Definition calculate_drop2_voicing (notes : list Z) : list Z :=
  match sorted notes with
  | [n0; n1; n2; n3] => sorted ([n0; n1] ++ [n3] ++ [n2 - 12])
  | _ => sorted notes
  end.

(** The transform that the specification calls [invert], read with a
    clamped index: the lowest [k] notes of the sorted input go up one
    octave and the result is sorted again. *)
Definition raise_lowest (k : nat) (notes : list Z) : list Z :=
  sorted (skipn k (sorted notes) ++ map (fun note => note + 12) (firstn k (sorted notes))).

Definition clamp (lo hi x : Z) : Z := Z.max lo (Z.min hi x).

Definition invert_clamped (notes : list Z) (inversionIndex : Z) : list Z :=
  raise_lowest (Z.to_nat (clamp 0 (len notes - 1) inversionIndex)) notes.

(** ** The pseudo-random source *)

(** The raw outcomes of the generator, in the order they are drawn.  An
    exhausted tape keeps answering 0. *)
Definition tape := list Z.

Definition Rand (A : Type) : Type := tape -> A * tape.

Definition ret {A} (a : A) : Rand A := fun t => (a, t).

Definition bind {A B} (m : Rand A) (k : A -> Rand B) : Rand B :=
  fun t => let (a, t') := m t in k a t'.

Notation "x <- m ;; k" := (bind m (fun x => k))
  (at level 61, m at next level, right associativity).
Notation "' pat <- m ;; k" := (bind m (fun x => match x with pat => k end))
  (at level 61, pat pattern, m at next level, right associativity).

Definition draw : Rand Z :=
  fun t => match t with
           | [] => (0, [])
           | x :: t' => (x, t')
           end.

(** A uniform integer in [0, n). *)
Definition randbelow (n : Z) : Rand Z := x <- draw ;; ret (x mod n).

(** [random.random()]: a multiple of 2^-53 in [0, 1). *)
Definition random_random : Rand Q :=
  x <- randbelow 9007199254740992 ;; ret (Qmake x 9007199254740992).

(** [random.randint(a, b)]: both ends included. *)
Definition random_randint (a b : Z) : Rand Z :=
  x <- randbelow (b - a + 1) ;; ret (a + x).

(** [random.choice(seq)]; [None] stands for the [IndexError] on an empty
    sequence, which every call site guards against. *)
Definition random_choice {A} (seq : list A) : Rand (option A) :=
  match seq with
  | [] => ret None
  | _ => i <- randbelow (len seq) ;; ret (nth_error seq (Z.to_nat i))
  end.

(** [pool[j] = pool[n-1]] followed by forgetting the last cell. *)
Fixpoint move_last_to {A} (j : nat) (pool : list A) {struct pool} : list A :=
  match pool with
  | [] => []
  | x :: pool' =>
      match j with
      | O => match pool' with
             | [] => []
             | _ => last pool' x :: removelast pool'
             end
      | S j' => x :: move_last_to j' pool'
      end
  end.

(** [random.sample(population, k)], by the selection-pool method:
    a position is drawn among the cells still in the pool, its content
    is selected, and the last cell takes its place. *)
Fixpoint random_sample {A} (population : list A) (k : nat) : Rand (list A) :=
  match k with
  | O => ret []
  | S k' =>
      match population with
      | [] => ret []
      | _ =>
          j <- randbelow (len population) ;;
          match nth_error population (Z.to_nat j) with
          | None => ret []
          | Some x =>
              rest <- random_sample (move_last_to (Z.to_nat j) population) k' ;;
              ret (x :: rest)
          end
      end
  end.

(** Floating-point comparisons, on the rational embedding. *)
Definition Qltb (x y : Q) : bool := negb (Qle_bool y x).
Definition Qleb (x y : Q) : bool := Qle_bool x y.

(** ** The chord pool *)

Record chord_data : Type := mk_chord {
  notes : list Z;
  function : string
}.

(** A [dict] with string keys, in insertion order. *)
Definition dict (V : Type) : Type := list (string * V).

Fixpoint dict_get {V} (d : dict V) (k : string) : option V :=
  match d with
  | [] => None
  | (k', v) :: d' => if String.eqb k' k then Some v else dict_get d' k
  end.

(** [d[k] = v]: an existing key keeps its position. *)
Fixpoint dict_set {V} (d : dict V) (k : string) (v : V) : dict V :=
  match d with
  | [] => [(k, v)]
  | (k', v') :: d' =>
      if String.eqb k' k then (k', v) :: d' else (k', v') :: dict_set d' k v
  end.

Definition dict_keys {V} (d : dict V) : list string := map fst d.

Definition dict_mem {V} (d : dict V) (k : string) : bool :=
  match dict_get d k with
  | Some _ => true
  | None => false
  end.

Definition chord_pool : Type := dict chord_data.

(** [k in d] for an optional key ([None] is never a key). *)
Definition pool_get (pool : chord_pool) (name : option string) : option chord_data :=
  match name with
  | None => None
  | Some n => dict_get pool n
  end.

Definition mem_str (x : string) (l : list string) : bool :=
  existsb (String.eqb x) l.

(** ** Scales *)

Definition get_major_scale_notes (root_midi_note : Z) : list Z :=
  map (fun i => root_midi_note + i) [0; 2; 4; 5; 7; 9; 11].

Definition get_natural_minor_scale_notes (root_midi_note : Z) : list Z :=
  map (fun i => root_midi_note + i) [0; 2; 3; 5; 7; 8; 10].

(** ** Chord pool generation *)

(** An entry of a [chord_defs] table: quality suffix and intervals. *)
Definition chord_defs_t : Type := dict (string * list Z).

(** [pool[root_name + suffix] = {'notes': sorted(root + i ...)[:cut], 'function': func}]
    when [key] is in the table; the pool is unchanged otherwise. *)
Definition add_chord (defs : chord_defs_t) (key : string) (root_name : string)
    (root_note : Z) (cut : option nat) (func : string) (pool : chord_pool) : chord_pool :=
  match dict_get defs key with
  | None => pool
  | Some (suffix, intervals) =>
      let ns := sorted (map (fun i => root_note + i) intervals) in
      let ns := match cut with
                | Some n => firstn n ns
                | None => ns
                end in
      dict_set pool (root_name ++ suffix)%string (mk_chord ns func)
  end.

(** The closing filter of every pool builder. *)
Definition limit_notes (is_extra : bool) (pool : chord_pool) : chord_pool :=
  let max_notes := if is_extra then 6 else 4 in
  filter (fun '(_, data) => len (notes data) <=? max_notes) pool.

Definition enumerate {A} (l : list A) : list (nat * A) :=
  combine (seq 0 (List.length l)) l.

(** [add_chord] for a key that may be [None] (or empty, which is falsy
    as well). *)
Definition add_chord_opt (defs : chord_defs_t) (key : option string) (root_name : string)
    (root_note : Z) (cut : option nat) (func : string) (pool : chord_pool) : chord_pool :=
  match key with
  | Some k => if PyStr.truthy key then add_chord defs k root_name root_note cut func pool else pool
  | None => pool
  end.

Definition is_extra_complexity (complexity : string) : bool :=
  String.eqb complexity "Extra (Extensions)".

(** The suffix that the major-key builders append to a roman numeral to
    form the key of its seventh (respectively ninth) chord. *)
Definition major_seventh_suffix (roman : string) : string :=
  if mem_str roman ["I"; "IV"] then "maj7"
  else if String.eqb roman "V" then "7"
  else if String.eqb roman "vii" then "m7b5"
  else "m7".

Definition major_ninth_suffix (roman : string) : string :=
  if mem_str roman ["I"; "IV"] then "maj9"
  else if String.eqb roman "V" then "9"
  else if String.eqb roman "vii" then "m9b5"
  else "m9".

Definition major_roman_numerals : list string :=
  ["I"; "ii"; "iii"; "IV"; "V"; "vi"; "vii"].

Definition minor_roman_numerals : list string :=
  ["i"; "ii"; "III"; "iv"; "v"; "VI"; "VII"].

Module ChorgiMajor.

Definition chord_defs : chord_defs_t :=
  [ ("I", ("maj", [0; 4; 7])); ("Imaj7", ("maj7", [0; 4; 7; 11]));
    ("ii", ("m", [0; 3; 7])); ("ii7", ("m7", [0; 3; 7; 10]));
    ("iii", ("m", [0; 3; 7])); ("iii7", ("m7", [0; 3; 7; 10]));
    ("IV", ("maj", [0; 4; 7])); ("IVmaj7", ("maj7", [0; 4; 7; 11]));
    ("V", ("maj", [0; 4; 7])); ("V7", ("7", [0; 4; 7; 10]));
    ("vi", ("m", [0; 3; 7])); ("vi7", ("m7", [0; 3; 7; 10]));
    ("vii", ("dim", [0; 3; 6])); ("viiø7", ("m7b5", [0; 3; 6; 10]));
    ("Imaj9", ("maj9", [0; 4; 7; 11; 14])); ("V9", ("9", [0; 4; 7; 10; 14])) ].

(** One turn of the loop over the scale degrees. *)
Definition step (scale_notes : list Z) (is_extra : bool)
    (pool : chord_pool) (it : nat * string) : chord_pool :=
  let '(degree_index, roman) := it in
  let chord_root_note := nth degree_index scale_notes 0 in
  let chord_root_name := note_name chord_root_note in
  let triad_key := roman in
  let seventh_key := (roman ++ major_seventh_suffix roman)%string in
  let pool := add_chord chord_defs triad_key chord_root_name chord_root_note None roman pool in
  let pool := add_chord chord_defs seventh_key chord_root_name chord_root_note None seventh_key pool in
  if is_extra then
    let ninth_key := (roman ++ major_ninth_suffix roman)%string in
    add_chord chord_defs ninth_key chord_root_name chord_root_note (Some 6%nat) ninth_key pool
  else pool.

End ChorgiMajor.

Definition generate_chorgi_major_chord_pool (key_root_name : string) (root_midi_note : Z)
    (complexity : string) : chord_pool :=
  let scale_notes := get_major_scale_notes root_midi_note in
  let is_extra := is_extra_complexity complexity in
  limit_notes is_extra
    (fold_left (ChorgiMajor.step scale_notes is_extra) (enumerate major_roman_numerals) []).

Module ChorgiMinor.

Definition chord_defs : chord_defs_t :=
  [ ("i", ("m", [0; 3; 7])); ("i7", ("m7", [0; 3; 7; 10]));
    ("ii", ("dim", [0; 3; 6])); ("iiø7", ("m7b5", [0; 3; 6; 10]));
    ("III", ("maj", [0; 4; 7])); ("IIImaj7", ("maj7", [0; 4; 7; 11]));
    ("iv", ("m", [0; 3; 7])); ("iv7", ("m7", [0; 3; 7; 10]));
    ("v", ("m", [0; 3; 7])); ("v7", ("m7", [0; 3; 7; 10]));
    ("VI", ("maj", [0; 4; 7])); ("VImaj7", ("maj7", [0; 4; 7; 11]));
    ("VII", ("maj", [0; 4; 7])); ("VII7", ("7", [0; 4; 7; 10]));
    ("V7(hm)", ("7", [0; 4; 7; 10]));
    ("i9", ("m9", [0; 3; 7; 10; 14])); ("V9(hm)", ("9", [0; 4; 7; 10; 14]));
    ("V7b9(hm)", ("7b9", [0; 4; 7; 10; 13]));
    ("iiø9", ("m9b5", [0; 3; 6; 10; 14])) ].

Definition seventh_suffix (roman : string) : string :=
  if String.eqb roman "v" then "7"
  else if String.eqb roman "ii" then "m7b5"
  else if String.eqb roman "VII" then "7"
  else if mem_str roman ["III"; "VI"] then "maj7"
  else "m7".

Definition harmonic_v7_key : string := "V7(hm)".
Definition harmonic_v9_key : string := "V9(hm)".
Definition harmonic_v7b9_key : string := "V7b9(hm)".

Definition step (root_midi_note : Z) (scale_notes : list Z) (is_extra : bool)
    (pool : chord_pool) (it : nat * string) : chord_pool :=
  let '(degree_index, roman) := it in
  let chord_root_note := nth degree_index scale_notes 0 in
  let chord_root_name := note_name chord_root_note in
  let is_v_chord := String.eqb roman "v" in
  let v_chord_note := root_midi_note + 7 in
  let triad_key := roman in
  let seventh_key := (roman ++ seventh_suffix roman)%string in
  let current_func := roman in
  let seventh_key := if is_v_chord then harmonic_v7_key else seventh_key in
  let chord_root_note := if is_v_chord then v_chord_note else chord_root_note in
  let chord_root_name := if is_v_chord then note_name chord_root_note else chord_root_name in
  let current_func := if is_v_chord then "V(hm)" else current_func in
  let pool := add_chord chord_defs triad_key chord_root_name chord_root_note None current_func pool in
  let is_hm := String.eqb seventh_key harmonic_v7_key in
  let v7_root_note := if is_hm then v_chord_note else chord_root_note in
  let v7_root_name := if is_hm then note_name v7_root_note else chord_root_name in
  let pool := add_chord chord_defs seventh_key v7_root_name v7_root_note None current_func pool in
  if is_extra then
    let ninth_key :=
      if is_v_chord then Some harmonic_v9_key
      else if String.eqb roman "ii" then Some "iiø9"
      else if String.eqb roman "i" then Some "i9"
      else None in
    let alt_ninth_key := if is_v_chord then Some harmonic_v7b9_key else None in
    let ext_root_note := if is_v_chord then v_chord_note else chord_root_note in
    let ext_root_name := if is_v_chord then note_name ext_root_note else chord_root_name in
    let current_func_ext := if is_v_chord then "V(hm)" else current_func in
    let pool := add_chord_opt chord_defs ninth_key ext_root_name ext_root_note (Some 6%nat)
                  current_func_ext pool in
    add_chord_opt chord_defs alt_ninth_key ext_root_name ext_root_note (Some 6%nat)
      current_func_ext pool
  else pool.

End ChorgiMinor.

Definition generate_chorgi_minor_chord_pool (key_root_name : string) (root_midi_note : Z)
    (complexity : string) : chord_pool :=
  let scale_notes := get_natural_minor_scale_notes root_midi_note in
  let is_extra := is_extra_complexity complexity in
  limit_notes is_extra
    (fold_left (ChorgiMinor.step root_midi_note scale_notes is_extra)
       (enumerate minor_roman_numerals) []).

Module JazzMajor.

Definition jazz_chord_defs : chord_defs_t :=
  [ ("Imaj7", ("maj7", [0; 4; 7; 11])); ("Imaj9", ("maj9", [0; 4; 7; 11; 14]));
    ("ii7", ("m7", [0; 3; 7; 10])); ("ii9", ("m9", [0; 3; 7; 10; 14]));
    ("V7", ("7", [0; 4; 7; 10])); ("V9", ("9", [0; 4; 7; 10; 14]));
    ("iii7", ("m7", [0; 3; 7; 10]));
    ("IVmaj7", ("maj7", [0; 4; 7; 11]));
    ("vi7", ("m7", [0; 3; 7; 10]));
    ("viiø7", ("m7b5", [0; 3; 6; 10])) ].

Definition step (scale_notes : list Z) (is_extra : bool)
    (pool : chord_pool) (it : nat * string) : chord_pool :=
  let '(degree_index, roman) := it in
  let chord_root_note := nth degree_index scale_notes 0 in
  let chord_root_name := note_name chord_root_note in
  let seventh_key := (roman ++ major_seventh_suffix roman)%string in
  let pool := add_chord jazz_chord_defs seventh_key chord_root_name chord_root_note None
                seventh_key pool in
  if is_extra then
    let ninth_key := (roman ++ major_ninth_suffix roman)%string in
    add_chord jazz_chord_defs ninth_key chord_root_name chord_root_note (Some 6%nat)
      ninth_key pool
  else pool.

End JazzMajor.

Definition generate_jazz_major_chord_pool (key_root_name : string) (root_midi_note : Z)
    (complexity : string) : chord_pool :=
  let scale_notes := get_major_scale_notes root_midi_note in
  let is_extra := is_extra_complexity complexity in
  limit_notes is_extra
    (fold_left (JazzMajor.step scale_notes is_extra) (enumerate major_roman_numerals) []).

Module JazzMinor.

Definition jazz_chord_defs : chord_defs_t :=
  [ ("i7", ("m7", [0; 3; 7; 10])); ("i9", ("m9", [0; 3; 7; 10; 14]));
    ("iiø7", ("m7b5", [0; 3; 6; 10])); ("iiø9", ("m9b5", [0; 3; 6; 10; 14]));
    ("V7(hm)", ("7", [0; 4; 7; 10])); ("V9(hm)", ("9", [0; 4; 7; 10; 14]));
    ("IIImaj7", ("maj7", [0; 4; 7; 11]));
    ("iv7", ("m7", [0; 3; 7; 10]));
    ("VImaj7", ("maj7", [0; 4; 7; 11]));
    ("VII7", ("7", [0; 4; 7; 10]));
    ("V7b9(hm)", ("7b9", [0; 4; 7; 10; 13])) ].

Definition step (root_midi_note : Z) (scale_notes : list Z) (is_extra : bool)
    (pool : chord_pool) (it : nat * string) : chord_pool :=
  let '(degree_index, roman) := it in
  let v_chord_note_hm := root_midi_note + 7 in
  let chord_root_note := nth degree_index scale_notes 0 in
  let chord_root_name := note_name chord_root_note in
  let is_v_chord := String.eqb roman "v" in
  let is_vii_chord := String.eqb roman "VII" in
  let is_ii_chord := String.eqb roman "ii" in
  let current_func := roman in
  let seventh_key :=
    if is_v_chord then "V7(hm)"
    else if is_ii_chord then "iiø7"
    else if is_vii_chord then "VII7"
    else (roman ++ (if mem_str roman ["III"; "VI"] then "maj7" else "m7"))%string in
  let is_hm := String.eqb seventh_key "V7(hm)" in
  let current_root := if is_hm then v_chord_note_hm else chord_root_note in
  let current_name := if is_hm then note_name v_chord_note_hm else chord_root_name in
  let current_func := if is_hm then "V(hm)" else current_func in
  let pool := add_chord jazz_chord_defs seventh_key current_name current_root None
                current_func pool in
  if is_extra then
    let ninth_key :=
      if is_v_chord then Some "V9(hm)"
      else if is_ii_chord then Some "iiø9"
      else if String.eqb roman "i" then Some "i9"
      else None in
    let alt_keys := if is_v_chord then ["V7b9(hm)"] else [] in
    let current_func_ext := if is_v_chord then "V(hm)" else current_func in
    let ext_root_note := current_root in
    let ext_root_name := current_name in
    let pool := add_chord_opt jazz_chord_defs ninth_key ext_root_name ext_root_note (Some 6%nat)
                  current_func_ext pool in
    fold_left
      (fun pool alt_k =>
         add_chord_opt jazz_chord_defs (Some alt_k) ext_root_name ext_root_note (Some 6%nat)
           current_func_ext pool)
      alt_keys pool
  else pool.

End JazzMinor.

Definition generate_jazz_minor_chord_pool (key_root_name : string) (root_midi_note : Z)
    (complexity : string) : chord_pool :=
  let scale_notes := get_natural_minor_scale_notes root_midi_note in
  let is_extra := is_extra_complexity complexity in
  limit_notes is_extra
    (fold_left (JazzMinor.step root_midi_note scale_notes is_extra)
       (enumerate minor_roman_numerals) []).

(** The blues pool: I7, IV7, V7 in a major key; i7, iv7 and a dominant
    V7 otherwise.  [NOTE_NAMES.index(key_root_name)] raises on an unknown
    name; that is the [None] result. *)
Definition generate_blues_chord_pool (key_root_name : string) (root_midi_note : Z)
    (key_type : string) : option chord_pool :=
  match index_of key_root_name NOTE_NAMES 0 with
  | None => None
  | Some root_note_index =>
      let chord (root_name suffix : string) (root : Z) (intervals : list Z) (func : string)
                (pool : chord_pool) :=
        dict_set pool (root_name ++ suffix)%string
          (mk_chord (sorted (map (fun i => root + i) intervals)) func) in
      let dom7_intervals := [0; 4; 7; 10] in
      if String.eqb key_type "major" then
        let i_root_note := root_midi_note in
        let i_root_name := key_root_name in
        let pool := chord i_root_name "7" i_root_note dom7_intervals "I7" [] in
        let iv_root_note := root_midi_note + 5 in
        let iv_root_name := note_name iv_root_note in
        let pool := chord iv_root_name "7" iv_root_note dom7_intervals "IV7" pool in
        let v_root_note := root_midi_note + 7 in
        let v_root_name := note_name v_root_note in
        Some (chord v_root_name "7" v_root_note dom7_intervals "V7" pool)
      else
        let m7_intervals := [0; 3; 7; 10] in
        let i_root_note := root_midi_note in
        let i_root_name := key_root_name in
        let pool := chord i_root_name "m7" i_root_note m7_intervals "i7" [] in
        let iv_root_note := root_midi_note + 5 in
        let iv_root_name := note_name iv_root_note in
        let pool := chord iv_root_name "m7" iv_root_note m7_intervals "iv7" pool in
        let v_chord_root_note := root_midi_note + 7 in
        let v_chord_root_name := note_name v_chord_root_note in
        Some (chord v_chord_root_name "7" v_chord_root_note dom7_intervals "V7" pool)
  end.

(** ** Harmonic function resolver *)

(** [label.split('(')[0]]: a function label without its parenthetical
    suffix. *)
Definition base_function (label : string) : string := PyStr.split_head "("%char label.

(** The comparison of line 450: both labels stripped, then lowered. *)
Definition function_matches (function_target pool_func : string) : bool :=
  String.eqb (PyStr.lower (base_function pool_func)) (PyStr.lower (base_function function_target)).

(** The test applied to a name when sevenths are preferred. *)
Definition has_seventh_token (m : string) : bool :=
  PyStr.contains "7" m || PyStr.contains "9" m || PyStr.contains "11" m || PyStr.contains "13" m.

Definition function_matches_of (pool : chord_pool) (function_target : string) : list string :=
  map fst (filter (fun '(_, data) => function_matches function_target (function data)) pool).

(** A pool key whose entry has the queried function. *)
Definition matching (pool : chord_pool) (function_target name : string) : Prop :=
  exists data, In (name, data) pool /\ function_matches function_target (function data) = true.

Definition _find_chord_by_function (pool : chord_pool) (function_target key_type : string)
    (prefer_seventh : bool) : Rand (option string) :=
  let matches := function_matches_of pool function_target in
  match matches with
  | [] => ret None
  | _ =>
      let sevenths := filter has_seventh_token matches in
      match prefer_seventh, sevenths with
      | true, _ :: _ => random_choice sevenths
      | _, _ => random_choice matches
      end
  end.

(** ** Voicing *)

(** Line 3027: the inversion index under "Allow Inversions".  The
    uniform draw is made only when the chord has more than one note, and
    the index is drawn only when that draw is below 0.6. *)
Definition draw_inversion (max_inv : Z) : Rand Z :=
  if max_inv >? 0 then
    u <- random_random ;;
    if Qltb u (6 # 10) then random_randint 0 max_inv else ret 0
  else ret 0.

(** The five values returned by [_apply_voicing]. *)
Record voiced : Type := mk_voiced {
  v_original : list Z;
  v_final : list Z;
  v_midi : list Z;
  v_root : option Z;
  v_display : string
}.

Definition _apply_voicing (root_pos_notes : list Z) (voicing_style base_name : string)
    (chord_octave_shift : Z) : Rand voiced :=
  match root_pos_notes with
  | [] => ret (mk_voiced [] [] [] None base_name)
  | root_note :: _ =>
      let num_n := len root_pos_notes in
      let finish (final_notes : list Z) (display_name : string) :=
        mk_voiced root_pos_notes final_notes
          (transpose_notes final_notes chord_octave_shift) (Some root_note) display_name in
      if String.eqb voicing_style "Allow Inversions" then
        let max_inv := num_n - 1 in
        inv_num <- draw_inversion max_inv ;;
        let final_notes := calculate_inversion root_pos_notes inv_num in
        let display_name :=
          if inv_num >? 0 then (base_name ++ "/Inv" ++ PyStr.of_Z inv_num)%string
          else base_name in
        ret (finish final_notes display_name)
      else if String.eqb voicing_style "Prefer Drop 2" && (num_n =? 4) then
        let drop2_notes := calculate_drop2_voicing root_pos_notes in
        match drop2_notes with
        | [] => ret (finish root_pos_notes base_name)
        | _ => ret (finish drop2_notes (base_name ++ "/D2")%string)
        end
      else ret (finish root_pos_notes base_name)
  end.

(** ** Smooth chord finder *)

(** The six values returned by [_find_next_smooth_chord]. *)
Record selection : Type := mk_selection {
  s_name : option string;
  s_original : list Z;
  s_final : list Z;
  s_midi : list Z;
  s_display : option string;
  s_root : option Z
}.

Definition selection_error : selection :=
  mk_selection (Some "ERROR") [] [] [] (Some "ERR") None.

(** [disp_name.split('/')[0]]. *)
Definition base_name_of (disp : string) : string := PyStr.split_head "/"%char disp.

Definition selection_of_voiced (v : voiced) : selection :=
  mk_selection (Some (base_name_of (v_display v))) (v_original v) (v_final v) (v_midi v)
    (Some (v_display v)) (v_root v).

(** [max(notes)]; the source only takes it of a non-empty list. *)
Definition py_max (l : list Z) : Z :=
  match l with
  | [] => 0
  | x :: l' => fold_left Z.max l' x
  end.

Definition dark_keys : list string := ["m"; "dim"; "ø"; "alt"; "b9"; "sus"].

Definition any_in (keys : list string) (s : string) : bool :=
  existsb (fun k => PyStr.contains k s) keys.

Definition is_dark (cand_name : string) : bool :=
  any_in dark_keys (PyStr.lower cand_name) && negb (any_in ["maj"; "6"] (PyStr.lower cand_name)).

Definition is_light (cand_name key_root_name : string) : bool :=
  (PyStr.contains "maj" (PyStr.lower cand_name) || PyStr.endswith cand_name key_root_name)
  && negb (any_in dark_keys (PyStr.lower cand_name)).

(** The distance of a candidate after the bias of lines 3093-3098. *)
Definition biased_distance (chord_bias cand_name key_root_name : string) (dist : Q) : Q :=
  if String.eqb chord_bias "Darker" then
    if is_dark cand_name then (dist * (7 # 10))%Q else dist
  else if String.eqb chord_bias "Lighter" then
    if is_light cand_name key_root_name then (dist * (7 # 10))%Q else dist
  else dist.

(** A running winner: the distance and the four values kept with it. *)
Record best : Type := mk_best {
  b_dist : Q;
  b_notes_voiced : list Z;
  b_name_disp : string;
  b_root : Z;
  b_orig_notes : list Z
}.

(** The loop variables of the candidate scan.  [None] is the initial
    state of a winner: distance infinity and no chord. *)
Record scan : Type := mk_scan {
  best_con : option best;
  best_uncon : option best;
  con_met : bool
}.

Definition improves (dist : Q) (b : option best) : bool :=
  match b with
  | None => true
  | Some b => Qltb dist (b_dist b)
  end.

Fixpoint foldM {A B} (f : A -> B -> Rand A) (l : list B) (a : A) : Rand A :=
  match l with
  | [] => ret a
  | x :: l' => a' <- f a x ;; foldM f l' a'
  end.

Definition is_empty {A} (l : list A) : bool :=
  match l with
  | [] => true
  | _ => false
  end.

(** Lines 3074-3100: what the loop computes for one candidate before it
    touches the winners, [None] when the candidate is skipped. *)
Definition evaluate_candidate (pool : chord_pool) (prev_avg : Q) (prev_high : Z)
    (chord_bias key_root_name voicing_style : string) (chord_octave_shift : Z)
    (cand_name : string) : Rand (option (best * bool)) :=
  match dict_get pool cand_name with
  | None => ret None
  | Some data =>
      match notes data with
      | [] => ret None
      | cur_root_bass :: _ =>
          v <- _apply_voicing (notes data) voicing_style cand_name chord_octave_shift ;;
          if is_empty (v_final v) then ret None
          else
            let cand_avg := get_average_pitch (v_final v) in
            let dist := Qabs (cand_avg - prev_avg) in
            let cand_high := py_max (v_final v) in
            let dist := biased_distance chord_bias cand_name key_root_name dist in
            let meets_con := cand_high <=? prev_high + 3 in
            ret (Some (mk_best dist (v_final v) (v_display v) cur_root_bass (v_original v),
                       meets_con))
      end
  end.

(** Lines 3101-3108: the two running winners after one candidate. *)
Definition update_winners (st : scan) (b : best) (meets_con : bool) : scan :=
  let st :=
    if meets_con
    then mk_scan (if improves (b_dist b) (best_con st) then Some b else best_con st)
           (best_uncon st) true
    else st in
  mk_scan (best_con st)
    (if improves (b_dist b) (best_uncon st) then Some b else best_uncon st)
    (con_met st).

(** One turn of the loop over the sampled candidates (lines 3073-3108). *)
Definition scan_candidate (pool : chord_pool) (prev_avg : Q) (prev_high : Z)
    (chord_bias key_root_name voicing_style : string) (chord_octave_shift : Z)
    (st : scan) (cand_name : string) : Rand scan :=
  r <- evaluate_candidate pool prev_avg prev_high chord_bias key_root_name voicing_style
         chord_octave_shift cand_name ;;
  match r with
  | None => ret st
  | Some (b, meets_con) => ret (update_winners st b meets_con)
  end.

Definition scan_init : scan := mk_scan None None false.

(** A chord picked by name, voiced, or the error tuple (the shared tail
    of the first-chord case and of the fallback of the finder). *)
Definition voice_choice (pool : chord_pool) (voicing_style : string) (chord_octave_shift : Z)
    (choice : option string) : Rand selection :=
  match choice with
  | None => ret selection_error
  | Some name =>
      if PyStr.truthy choice then
        match dict_get pool name with
        | None => ret selection_error
        | Some data =>
            match notes data with
            | [] => ret selection_error
            | root_pos =>
                v <- _apply_voicing root_pos voicing_style name chord_octave_shift ;;
                ret (selection_of_voiced v)
            end
        end
      else ret selection_error
  end.

(** [random.choice(names) if names else None]. *)
Definition choice_or_none (names : list string) : Rand (option string) :=
  match names with
  | [] => ret None
  | _ => random_choice names
  end.

Definition in_pool (pool : chord_pool) (name : option string) : bool :=
  match pool_get pool name with
  | Some _ => true
  | None => false
  end.

(** [prev if prev and prev in pool else random.choice(names) if names else None]. *)
Definition fallback_choice (pool : chord_pool) (names : list string) (prev : option string)
    : Rand (option string) :=
  if PyStr.truthy prev && in_pool pool prev then ret prev else choice_or_none names.

Definition selection_of_best (b : best) (chord_octave_shift : Z) : selection :=
  mk_selection (Some (base_name_of (b_name_disp b))) (b_orig_notes b) (b_notes_voiced b)
    (transpose_notes (b_notes_voiced b) chord_octave_shift) (Some (b_name_disp b))
    (Some (b_root b)).

(** [n != prev_name]. *)
Definition differs (prev_name : option string) (n : string) : bool :=
  match prev_name with
  | None => true
  | Some p => negb (String.eqb n p)
  end.

(** Line 3069: the names other than the previous one, or all of them. *)
Definition possible_candidates (pool_chord_names : list string) (prev_name : option string)
    : list string :=
  match filter (differs prev_name) pool_chord_names with
  | [] => pool_chord_names
  | others => others
  end.

Definition num_candidates_smooth : nat := 5.

(** A winner whose voiced notes are a non-empty list. *)
Definition usable (b : option best) : option best :=
  match b with
  | Some x => if is_empty (b_notes_voiced x) then None else Some x
  | None => None
  end.

(** Lines 3110-3131: the choice among the two winners. *)
Definition choose_winner (pool : chord_pool) (pool_chord_names : list string)
    (prev_name : option string) (voicing_style : string) (chord_octave_shift : Z)
    (st : scan) : Rand selection :=
  match (if con_met st then usable (best_con st) else None), usable (best_uncon st) with
  | Some b, _ => ret (selection_of_best b chord_octave_shift)
  | None, Some u => ret (selection_of_best u chord_octave_shift)
  | None, None =>
      c <- fallback_choice pool pool_chord_names prev_name ;;
      voice_choice pool voicing_style chord_octave_shift c
  end.

Definition _find_next_smooth_chord (pool : chord_pool) (pool_chord_names : list string)
    (prev_notes_voiced : option (list Z)) (prev_name : option string)
    (chord_bias key_root_name voicing_style : string) (chord_octave_shift : Z)
    : Rand selection :=
  match prev_notes_voiced with
  | None =>
      chosen_start <- choice_or_none pool_chord_names ;;
      voice_choice pool voicing_style chord_octave_shift chosen_start
  | Some prev =>
      let prev_avg := get_average_pitch prev in
      let prev_high := py_max prev in
      let poss_cands := possible_candidates pool_chord_names prev_name in
      match poss_cands with
      | [] => ret selection_error
      | _ =>
          let num_samp := Nat.min num_candidates_smooth (List.length poss_cands) in
          candidates <- random_sample poss_cands num_samp ;;
          st <- foldM (scan_candidate pool prev_avg prev_high chord_bias key_root_name
                         voicing_style chord_octave_shift) candidates scan_init ;;
          choose_winner pool pool_chord_names prev_name voicing_style chord_octave_shift st
      end
  end.

(** ** Progression generator *)

(** A progression slot: the 5-tuple
    [(display_name, original_notes, midi_notes, root_note, duration_beats)]. *)
Record slot : Type := mk_slot {
  display_name : string;
  original_notes : list Z;
  midi_notes : list Z;
  bass_root_note : option Z;
  duration_beats : Q
}.

Definition progression : Type := list slot.

Definition pop_sequence : list string := ["I"; "vi"; "IV"; "V"].
Definition pachelbel_sequence : list string := ["I"; "V"; "vi"; "iii"; "IV"; "I"; "IV"; "V"].
Definition ii_v_i_basic : list string := ["ii"; "V"; "I"].

(** [sequence[current_slot % len(sequence)]]. *)
Definition cycle_at (sequence : list string) (current_slot : Z) : string :=
  nth (Z.to_nat (current_slot mod len sequence)) sequence "".

(** The function required by the selected template at a slot, if any. *)
Definition template_function (prog_style : string) (current_slot : Z) : option string :=
  if String.eqb prog_style "Pop (I-vi-IV-V)" then Some (cycle_at pop_sequence current_slot)
  else if String.eqb prog_style "Pachelbel-ish" then Some (cycle_at pachelbel_sequence current_slot)
  else if String.eqb prog_style "ii-V-I Focused" then Some (cycle_at ii_v_i_basic current_slot)
  else None.

(** The variables of the generation loop that outlive one turn. *)
Record gen_state : Type := mk_gen_state {
  progression_data : progression;
  previous_chord_final_notes : option (list Z);
  previous_chord_name_base : option string
}.

Definition chords_per_bar_of (chord_rate_str : string) : Z :=
  if String.eqb chord_rate_str "1 / Bar" then 1 else 2.

Definition beats_per_chord_of (chord_rate_str : string) : Q :=
  (4 / inject_Z (chords_per_bar_of chord_rate_str))%Q.

Definition error_slot (beats_per_chord : Q) : slot :=
  mk_slot "ERROR" [] [] None beats_per_chord.

(** The six per-slot variables, all [None] at the start of a turn (an
    absent list is written [[]]: the source only tests lists for
    truthiness). *)
Definition selection_none : selection := mk_selection None [] [] [] None None.

Section Generate.

Variables (num_bars : Z) (prog_style chord_rate_str voicing_style cadence_str chord_bias : string).
Variables (pool : chord_pool) (pool_chord_names : list string).
Variables (key_type key_root_name : string) (is_minor : bool).

Let beats_per_chord : Q := beats_per_chord_of chord_rate_str.
Let chord_octave_shift : Z := -12.

(** Lines 2920-2936: a template name voiced from the pool. *)
Definition voice_template (chord_name : string) : Rand selection :=
  match dict_get pool chord_name with
  | Some data =>
      match notes data with
      | [] => ret selection_none
      | original_notes_template =>
          v <- _apply_voicing original_notes_template voicing_style chord_name
                 chord_octave_shift ;;
          ret (mk_selection (Some chord_name) (v_original v) (v_final v) (v_midi v)
                 (Some (v_display v)) (v_root v))
      end
  | None => ret selection_none
  end.

(** Lines 2938-2955: the fallback after a failed selection; [None] is
    the [break] that stops the generation. *)
Definition handle_failed (st : gen_state) (sel : selection) : Rand (option selection) :=
  if negb (PyStr.truthy (s_name sel)) || is_empty (s_original sel) || is_empty (s_final sel) then
    choice <- fallback_choice pool pool_chord_names (previous_chord_name_base st) ;;
    match choice with
    | Some chord_name =>
        if PyStr.truthy choice then
          match dict_get pool chord_name with
          | Some data =>
              match notes data with
              | [] => ret None
              | original_notes_fallback =>
                  v <- _apply_voicing original_notes_fallback voicing_style chord_name
                         chord_octave_shift ;;
                  ret (Some (mk_selection (Some chord_name) (v_original v) (v_final v)
                               (v_midi v) (Some (v_display v)) (v_root v)))
              end
          | None => ret None
          end
        else ret None
    | None => ret None
    end
  else ret (Some sel).

(** Lines 2957-2970: the slot is stored, or the error placeholder. *)
Definition store_chord (st : gen_state) (sel : selection) : gen_state :=
  match s_name sel, s_root sel with
  | Some chord_name, Some root_note =>
      if PyStr.truthy (s_name sel) && negb (is_empty (s_original sel))
         && negb (is_empty (s_midi sel)) && negb (is_empty (s_final sel))
      then
        let display_name := match s_display sel with
                            | Some d => d
                            | None => chord_name
                            end in
        mk_gen_state
          (progression_data st
             ++ [mk_slot display_name (s_original sel) (s_midi sel) (Some root_note)
                   beats_per_chord])
          (Some (s_final sel)) (Some (base_name_of chord_name))
      else mk_gen_state (progression_data st ++ [error_slot beats_per_chord]) None None
  | _, _ => mk_gen_state (progression_data st ++ [error_slot beats_per_chord]) None None
  end.

(** One turn of the [while] loop; [None] is a [break]. *)
Definition progression_step (current_slot : Z) (st : gen_state) : Rand (option gen_state) :=
  chord_name <- match template_function prog_style current_slot with
                | Some func => _find_chord_by_function pool func key_type true
                | None => ret None
                end ;;
  sel <- (if negb (PyStr.truthy chord_name) || String.eqb prog_style "Smooth Random" then
            _find_next_smooth_chord pool pool_chord_names (previous_chord_final_notes st)
              (previous_chord_name_base st) chord_bias key_root_name voicing_style
              chord_octave_shift
          else
            match chord_name with
            | Some name => voice_template name
            | None => ret selection_none
            end) ;;
  r <- handle_failed st sel ;;
  match r with
  | None => ret None
  | Some sel => ret (Some (store_chord st sel))
  end.

(** The [while current_slot < total_chord_slots] loop, [remaining] turns
    from [current_slot] on. *)
Fixpoint progression_loop (remaining : nat) (current_slot : Z) (st : gen_state)
    : Rand gen_state :=
  match remaining with
  | O => ret st
  | S remaining' =>
      r <- progression_step current_slot st ;;
      match r with
      | None => ret st
      | Some st' => progression_loop remaining' (current_slot + 1) st'
      end
  end.

(** [l[i] = x] for an index inside the list. *)
Fixpoint list_set {A} (i : nat) (x : A) (l : list A) : list A :=
  match l, i with
  | [], _ => []
  | _ :: l', O => x :: l'
  | y :: l', S i' => y :: list_set i' x l'
  end.

(** Lines 2979-2981: the tonic name adjusted to the key type. *)
Definition adjust_tonic (tonic_chord_name : option string) : option string :=
  match tonic_chord_name with
  | Some t =>
      if PyStr.truthy tonic_chord_name then
        if is_minor && negb (PyStr.endswith t "m") && negb (PyStr.endswith t "m7")
           && negb (PyStr.contains "dim" t) && negb (PyStr.contains "ø" t)
        then Some (t ++ "m")%string
        else if negb is_minor && (PyStr.endswith t "m" || PyStr.endswith t "m7")
        then Some (PyStr.replace "m" "" (PyStr.replace "m7" "" t))
        else tonic_chord_name
      else tonic_chord_name
  | None => None
  end.

Definition slot_of_voiced (v : voiced) : slot :=
  mk_slot (v_display v) (v_original v) (v_midi v) (v_root v) beats_per_chord.

(** The body shared by the two cadences: the last slot becomes the
    voiced tonic, the one before it the voiced penultimate chord. *)
Definition overwrite_ending (tonic_notes : list Z) (tonic_chord_name : string)
    (pen_notes : list Z) (pen_chord_name : string) (data : progression) : Rand progression :=
  let last_slot_idx := len data - 1 in
  t <- _apply_voicing tonic_notes voicing_style tonic_chord_name chord_octave_shift ;;
  let data := list_set (Z.to_nat last_slot_idx) (slot_of_voiced t) data in
  if last_slot_idx >? 0 then
    v <- _apply_voicing pen_notes voicing_style pen_chord_name chord_octave_shift ;;
    ret (list_set (Z.to_nat (last_slot_idx - 1)) (slot_of_voiced v) data)
  else ret data.

(** A name together with the notes of its pool entry, when the name is
    a key of the pool and the entry has notes. *)
Definition resolved (name : option string) : option (string * list Z) :=
  match name, pool_get pool name with
  | Some n, Some data => if is_empty (notes data) then None else Some (n, notes data)
  | _, _ => None
  end.

(** Lines 2975-3008. *)
Definition apply_cadence (data : progression) : Rand progression :=
  if negb (String.eqb cadence_str "Any") && (len data >=? 2) then
    tonic_chord_name <- _find_chord_by_function pool "I" key_type false ;;
    let tonic_chord_name := adjust_tonic tonic_chord_name in
    dom_chord_name <- _find_chord_by_function pool "V" key_type true ;;
    subdom_chord_name <- _find_chord_by_function pool "IV" key_type true ;;
    match String.eqb cadence_str "Authentic (V-I)",
          resolved dom_chord_name, resolved tonic_chord_name with
    | true, Some (dom, dom_notes), Some (tonic, tonic_notes) =>
        overwrite_ending tonic_notes tonic dom_notes dom data
    | _, _, _ =>
        match String.eqb cadence_str "Plagal (IV-I)",
              resolved subdom_chord_name, resolved tonic_chord_name with
        | true, Some (subdom, subdom_notes), Some (tonic, tonic_notes) =>
            overwrite_ending tonic_notes tonic subdom_notes subdom data
        | _, _, _ => ret data
        end
    end
  else ret data.

Definition _generate_progression : Rand progression :=
  let chords_per_bar := chords_per_bar_of chord_rate_str in
  let total_chord_slots := num_bars * chords_per_bar in
  st <- progression_loop (Z.to_nat total_chord_slots) 0 (mk_gen_state [] None None) ;;
  apply_cadence (progression_data st).

End Generate.

(** ** Errors *)

Inductive exn : Type := ValueError | RuntimeError | KeyError.

Inductive result (A : Type) : Type :=
  | Ok (a : A)
  | Raise (e : exn).
Arguments Ok {A} a.
Arguments Raise {A} e.

(** ** 12-bar blues *)

(** One turn of the loop over the twelve bars. *)
Definition blues_bar (pool : chord_pool) (pattern_standard : list string)
    (progression_data : progression) (bar_index : nat) : progression :=
  let chord_name := nth bar_index pattern_standard "" in
  let beats_per_chord := 4%Q in
  let chord_octave_shift := -12 in
  match dict_get pool chord_name with
  | None => progression_data
  | Some chord_data =>
      match notes chord_data with
      | [] => progression_data
                ++ [mk_slot ("ERR_EMPTY_" ++ chord_name)%string [] [] None beats_per_chord]
      | chord_root_note_for_bass :: _ =>
          let root_pos_notes := notes chord_data in
          let final_notes_for_midi := root_pos_notes in
          let midi_notes := transpose_notes final_notes_for_midi chord_octave_shift in
          progression_data
            ++ [mk_slot chord_name root_pos_notes midi_notes (Some chord_root_note_for_bass)
                  beats_per_chord]
      end
  end.

Definition _generate_12_bar_blues_progression (pool : chord_pool)
    (key_type key_root_name : string) : result progression :=
  match ROOT_NOTES_MIDI key_root_name with
  | None => Raise KeyError
  | Some root =>
      let is_minor_key := String.eqb key_type "minor" in
      let tonic_chord_name :=
        if is_minor_key then (key_root_name ++ "m7")%string else (key_root_name ++ "7")%string in
      let subdom_chord_name :=
        if is_minor_key then (note_name (root + 5) ++ "m7")%string
        else (note_name (root + 5) ++ "7")%string in
      let dom_chord_name := (note_name (root + 7) ++ "7")%string in
      let required_names := [tonic_chord_name; subdom_chord_name; dom_chord_name] in
      if negb (forallb (dict_mem pool) required_names) then Raise RuntimeError
      else
        let pattern_standard :=
          [ tonic_chord_name; tonic_chord_name; tonic_chord_name; tonic_chord_name;
            subdom_chord_name; subdom_chord_name; tonic_chord_name; tonic_chord_name;
            dom_chord_name; subdom_chord_name; tonic_chord_name; dom_chord_name ] in
        Ok (fold_left (blues_bar pool pattern_standard) (seq 0 12) [])
  end.

(** ** The generation entry point, up to the chord progression *)

(** What the run leaves in [self]: the bar count in force and the
    progression. *)
Record generation : Type := mk_generation {
  last_generated_num_bars : Z;
  generated_chords_progression : progression
}.

(** [_execute_generation_logic], steps 1 and 2.  [num_bars_req] is the
    outcome of [int(num_bars_str.split()[0])], [None] when it raises. *)
Definition _execute_generation_logic (pool_style chosen_key_name key_type complexity : string)
    (num_bars_req : option Z)
    (prog_style chord_rate voicing_style cadence chord_bias : string)
    : Rand (result generation) :=
  let num_bars := match num_bars_req with
                  | Some n => n
                  | None => 12
                  end in
  let is_minor_key := String.eqb key_type "minor" in
  let chosen_key_root_name :=
    if is_minor_key && PyStr.endswith chosen_key_name "m"
    then PyStr.drop_last chosen_key_name else chosen_key_name in
  match ROOT_NOTES_MIDI chosen_key_root_name with
  | None => ret (Raise ValueError)
  | Some chosen_key_root_midi =>
      if String.eqb prog_style "Blues (12 Bar)" then
        let num_bars := 12 in
        match generate_blues_chord_pool chosen_key_root_name chosen_key_root_midi key_type with
        | None => ret (Raise ValueError)
        | Some chord_pool =>
            if is_empty chord_pool then ret (Raise RuntimeError)
            else
              match _generate_12_bar_blues_progression chord_pool key_type chosen_key_root_name with
              | Raise e => ret (Raise e)
              | Ok data =>
                  if is_empty data then ret (Raise RuntimeError)
                  else ret (Ok (mk_generation num_bars data))
              end
        end
      else
        let chord_pool :=
          if String.eqb pool_style "Jazzy" then
            if is_minor_key
            then generate_jazz_minor_chord_pool chosen_key_root_name chosen_key_root_midi complexity
            else generate_jazz_major_chord_pool chosen_key_root_name chosen_key_root_midi complexity
          else
            if is_minor_key
            then generate_chorgi_minor_chord_pool chosen_key_root_name chosen_key_root_midi complexity
            else generate_chorgi_major_chord_pool chosen_key_root_name chosen_key_root_midi complexity in
        if is_empty chord_pool then ret (Raise RuntimeError)
        else
          let pool_chord_names := dict_keys chord_pool in
          data <- _generate_progression num_bars prog_style chord_rate voicing_style cadence
                    chord_bias chord_pool pool_chord_names key_type chosen_key_root_name
                    is_minor_key ;;
          if is_empty data then ret (Raise RuntimeError)
          else ret (Ok (mk_generation num_bars data))
  end.

(** ** Part generators: shared pieces *)

(** A melody or bass note event [(pitch, start_time, duration)]. *)
Definition note_event : Type := (Z * Q * Q)%type.

Definition event_pitch (e : note_event) : Z := fst (fst e).

(** [sorted(list(set(l)))]. *)
Definition sorted_set (l : list Z) : list Z := sorted (nodup Z.eq_dec l).

(** [scale_note_pcs = {n % 12 for n in scale_notes}].  The set is kept
    as an ascending list; the order only matters for ties in the [min]
    of the snap, and no property below depends on it. *)
Definition pcs_of (scale_notes : list Z) : list Z :=
  sorted_set (map (fun n => n mod 12) scale_notes).

(** [pitch % 12 in scale_note_pcs]. *)
Definition in_pcs (scale_note_pcs : list Z) (pitch : Z) : bool :=
  existsb (Z.eqb (pitch mod 12)) scale_note_pcs.

(** [[n + oct for n in scale_notes for oct in shifts if keep(n + oct)]],
    as a sorted set. *)
Definition extend_scale (scale_notes shifts : list Z) (keep : Z -> bool) : list Z :=
  sorted_set (filter keep (flat_map (fun n => map (fun oct => n + oct) shifts) scale_notes)).

Definition between (lo hi x : Z) : bool := (lo <=? x) && (x <=? hi).

(** [min(l, key=key)]: the first element of least key; [None] is the
    [ValueError] on an empty sequence. *)
Fixpoint min_by {A} (key : A -> Z) (l : list A) : option A :=
  match l with
  | [] => None
  | x :: l' =>
      match min_by key l' with
      | None => Some x
      | Some y => if key y <? key x then Some y else Some x
      end
  end.

Fixpoint index_of_Z (x : Z) (l : list Z) (i : Z) : option Z :=
  match l with
  | [] => None
  | y :: l' => if y =? x then Some i else index_of_Z x l' (i + 1)
  end.

(** [range(a, b)]. *)
Definition py_range (a b : Z) : list Z :=
  map (fun k => a + Z.of_nat k) (seq 0 (Z.to_nat (b - a))).

(** [int(x)] on a float: truncation toward zero. *)
Definition py_int (x : Q) : Z := if Qltb x 0 then Qceiling x else Qfloor x.

Definition Qmin (x y : Q) : Q := if Qltb y x then y else x.
Definition Qmax (x y : Q) : Q := if Qltb x y then y else x.

Definition get_stepwise_notes (current_note : Z) (extended_scale : list Z) (max_step : Z)
    : list Z :=
  match min_by (fun x => Z.abs (x - current_note)) extended_scale with
  | None => []
  | Some closest_note =>
      match index_of_Z closest_note extended_scale 0 with
      | None => []
      | Some current_idx =>
          flat_map
            (fun step =>
               if step =? 0 then []
               else
                 let idx := current_idx + step in
                 if (0 <=? idx) && (idx <? len extended_scale)
                 then [nth (Z.to_nat idx) extended_scale 0]
                 else [])
            (py_range (- max_step) (max_step + 1))
      end
  end.

(** [while pitch < lo: pitch += 12], at most [fuel] turns. *)
Fixpoint raise_until (fuel : nat) (lo pitch : Z) : Z :=
  match fuel with
  | O => pitch
  | S fuel' => if pitch <? lo then raise_until fuel' lo (pitch + 12) else pitch
  end.

(** [while pitch > hi: pitch -= 12], at most [fuel] turns. *)
Fixpoint lower_until (fuel : nat) (hi pitch : Z) : Z :=
  match fuel with
  | O => pitch
  | S fuel' => if pitch >? hi then lower_until fuel' hi (pitch - 12) else pitch
  end.

(** The two octave-folding loops in sequence.  The number of turns of
    each is bounded by the distance to the bound, which is the fuel. *)
Definition fold_into (lo hi pitch : Z) : Z :=
  let pitch := raise_until (Z.to_nat (lo - pitch)) lo pitch in
  lower_until (Z.to_nat (pitch - hi)) hi pitch.

(** The key of the snap: the circular distance in semitones between the
    class of [pitch] and the class [pc]. *)
Definition circular_distance (pitch pc : Z) : Z :=
  Z.min (Z.abs (pitch mod 12 - pc))
    (Z.min (Z.abs (pitch mod 12 - pc - 12)) (Z.abs (pitch mod 12 - pc + 12))).

(** The block shared by the six melody generators, from the two folding
    loops to the final test: [None] is [pitch = None]. *)
Definition snap_to_scale (scale_note_pcs : list Z) (min_pitch max_pitch pitch : Z) : option Z :=
  let pitch := fold_into min_pitch max_pitch pitch in
  if negb (in_pcs scale_note_pcs pitch) then
    match min_by (circular_distance pitch) scale_note_pcs with
    | None => None
    | Some closest_diatonic_pc =>
        let pitch := (pitch / 12) * 12 + closest_diatonic_pc in
        let pitch := fold_into min_pitch max_pitch pitch in
        if negb (in_pcs scale_note_pcs pitch) then None else Some pitch
    end
  else Some pitch.

(** [get_melody_rhythm_placements]. *)
Definition get_melody_rhythm_placements (melody_speed : string) : list (list (Q * Q)) :=
  if String.eqb melody_speed "Slow" then
    [ [(0, 1)]; [(0, 5 # 10)]; [(0, 2)]; [(0, 75 # 100); (75 # 100, 25 # 100)] ]%Q
  else if String.eqb melody_speed "Fast" then
    [ [(0, 25 # 100)]; [(0, 5 # 10)]; [(0, 25 # 100); (25 # 100, 25 # 100)];
      [(0, 125 # 1000); (125 # 1000, 125 # 1000)];
      [(0, 333 # 1000); (333 # 1000, 333 # 1000)];
      [(0, 25 # 100); (5 # 10, 25 # 100)];
      [(0, 166 # 1000); (166 # 1000, 166 # 1000); (333 # 1000, 166 # 1000)] ]%Q
  else
    [ [(0, 5 # 10)]; [(0, 1)]; [(0, 5 # 10); (5 # 10, 5 # 10)];
      [(0, 25 # 100); (25 # 100, 25 # 100)]; [(0, 75 # 100); (75 # 100, 25 # 100)];
      [(5 # 10, 5 # 10)] ]%Q.

(** [random.choice(l) if l else d]; the choice of a non-empty list is
    always one of its elements, [d] also covers the unreachable [None]. *)
Definition choice_or {A} (l : list A) (d : A) : Rand A :=
  match l with
  | [] => ret d
  | _ => r <- random_choice l ;; ret (match r with Some x => x | None => d end)
  end.

(** The variables that the melody generators carry from note to note. *)
Record melody_state : Type := mk_melody_state {
  melody_data : list note_event;
  last_melody_note : option Z;
  last_direction : Z;
  rest_probability : Q;
  current_abs_time_melody : Q
}.

(** Lines 573-575: the note is appended unless it was dropped. *)
Definition emit (st : melody_state) (pitch : option Z) (start duration : Q) : melody_state :=
  match pitch with
  | Some p =>
      mk_melody_state (melody_data st ++ [(p, start, duration)]) (Some p)
        (last_direction st) (rest_probability st) (current_abs_time_melody st)
  | None => st
  end.

Definition set_time (st : melody_state) (t : Q) : melody_state :=
  mk_melody_state (melody_data st) (last_melody_note st) (last_direction st)
    (rest_probability st) t.

Definition set_direction (st : melody_state) (d : Z) : melody_state :=
  mk_melody_state (melody_data st) (last_melody_note st) d
    (rest_probability st) (current_abs_time_melody st).

Definition set_rest_probability (st : melody_state) (p : Q) : melody_state :=
  mk_melody_state (melody_data st) (last_melody_note st) (last_direction st)
    p (current_abs_time_melody st).

Definition set_last (st : melody_state) (n : option Z) : melody_state :=
  mk_melody_state (melody_data st) n (last_direction st)
    (rest_probability st) (current_abs_time_melody st).

(** A [for] loop whose body may [break]: the body returns the new state
    and whether it broke. *)
Fixpoint for_break {S A} (body : S -> A -> Rand (S * bool)) (l : list A) (s : S) : Rand S :=
  match l with
  | [] => ret s
  | x :: l' =>
      r <- body s x ;;
      if snd r then ret (fst r) else for_break body l' (fst r)
  end.

(** A [while] loop run for at most [fuel] turns: the body returns the new
    state, or [None] when the loop condition fails. *)
Fixpoint while_fuel {S} (fuel : nat) (body : S -> Rand (option S)) (s : S) : Rand S :=
  match fuel with
  | O => ret s
  | S fuel' =>
      r <- body s ;;
      match r with
      | None => ret s
      | Some s' => while_fuel fuel' body s'
      end
  end.

(** The slot is skipped: lines 516-519 and their copies. *)
Definition skip_slot (st : melody_state) (duration_beats : Q) : melody_state :=
  set_time st (current_abs_time_melody st
               + (if Qltb 0 duration_beats then duration_beats else 1))%Q.

Definition melody_octave_shift_of (melody_octave : string) : Z :=
  if String.eqb melody_octave "Mid" then 12 else 24.

(** [staccato_duration if melody_style == "Staccato" else d], capped by
    the time left in the chord. *)
Definition note_duration (melody_style : string) (staccato_duration d time_remaining : Q) : Q :=
  Qmin (if String.eqb melody_style "Staccato" then staccato_duration else d) time_remaining.

(** [choice(scale_notes) + shift], the last resort of several
    generators ([60 + shift] on an empty scale). *)
Definition scale_fallback (scale_notes : list Z) (melody_octave_shift : Z) : Rand Z :=
  match scale_notes with
  | [] => ret (60 + melody_octave_shift)
  | _ => n <- choice_or scale_notes 60 ;; ret (n + melody_octave_shift)
  end.

(** The articulation after the "Pluck" override. *)
Definition pluck_style (instrument_type melody_style : string) : string :=
  if String.eqb instrument_type "Pluck" && String.eqb melody_style "Legato"
  then "Staccato" else melody_style.

Definition melody_init (rest : Q) : melody_state :=
  mk_melody_state [] None 0 rest 0.

Definition c_major_fallback : list Z := [60; 62; 64; 65; 67; 69; 71].

(** The lower and upper target pitch of a melody octave. *)
Definition target_min_of (melody_octave : string) : Z :=
  if String.eqb melody_octave "Mid" then 60 else 72.
Definition target_max_of (melody_octave : string) : Z :=
  if String.eqb melody_octave "Mid" then 84 else 96.
Definition range_min_of (melody_octave : string) : Z :=
  if String.eqb melody_octave "Mid" then 48 else 60.
Definition range_max_of (melody_octave : string) : Z :=
  if String.eqb melody_octave "Mid" then 96 else 108.

(** ** Melody: Chord Tone Focus *)

Section ChordFocus.

Variables (scale_notes : list Z) (melody_style melody_speed melody_octave instrument_type : string).

Let melody_octave_shift : Z := melody_octave_shift_of melody_octave.
Let staccato_duration : Q :=
  if String.eqb instrument_type "Pluck" then (1 # 10)%Q else (15 # 100)%Q.
Let style : string := pluck_style instrument_type melody_style.
Let melody_rhythm_placements := get_melody_rhythm_placements melody_speed.
Let scale_note_pcs : list Z := pcs_of scale_notes.
Let extended_scale : list Z :=
  extend_scale scale_notes [-24; -12; 0; 12; 24; 36] (fun _ => true).
Let min_pitch : Z := target_min_of melody_octave.
Let max_pitch : Z := target_max_of melody_octave.
Let chord_tone_weight : Q :=
  if String.eqb instrument_type "Synth Lead" then (6 # 10)%Q
  else if mem_str instrument_type ["Keys"; "Piano"] then (8 # 10)%Q
  else (7 # 10)%Q.
Let stepwise_weight : Q :=
  if String.eqb instrument_type "Synth Lead" then (4 # 10)%Q else (3 # 10)%Q.

(** Lines 546-559: the candidate pitch of one note, [None] when the
    note is skipped for want of candidates. *)
Definition chord_focus_pick (diatonic_melody_chord_notes : list Z) (st : melody_state)
    : Rand (option Z) :=
  u <- random_random ;;
  let from_chord :=
    if Qltb u chord_tone_weight && negb (is_empty diatonic_melody_chord_notes)
    then diatonic_melody_chord_notes ++ diatonic_melody_chord_notes
           ++ diatonic_melody_chord_notes
    else [] in
  from_steps <-
    match last_melody_note st with
    | Some last =>
        if negb (is_empty extended_scale) then
          u' <- random_random ;;
          if Qltb u' stepwise_weight
          then ret (get_stepwise_notes last extended_scale 2)
          else ret []
        else ret []
    | None => ret []
    end ;;
  let possible_notes := from_chord ++ from_steps in
  possible_notes <-
    (if is_empty possible_notes then
       match diatonic_melody_chord_notes with
       | [] => n <- scale_fallback scale_notes melody_octave_shift ;; ret [n]
       | _ => ret diatonic_melody_chord_notes
       end
     else ret possible_notes) ;;
  match possible_notes with
  | [] => ret None
  | _ => p <- choice_or possible_notes 0 ;; ret (Some p)
  end.

(** Lines 532-575: one placement of the rhythm of a beat. *)
Definition chord_focus_note (chord_start_time duration_beats : Q) (beat : Z)
    (diatonic_melody_chord_notes : list Z) (st : melody_state) (placement : Q * Q)
    : Rand melody_state :=
  let '(start_offset, beat_fraction_duration) := placement in
  let note_absolute_start_in_chord := (inject_Z beat + start_offset)%Q in
  if Qleb (duration_beats - (1 # 100)) note_absolute_start_in_chord then ret st
  else
    let note_start_time_abs := (chord_start_time + note_absolute_start_in_chord)%Q in
    let time_remaining_in_chord := (duration_beats - note_absolute_start_in_chord)%Q in
    let actual_duration :=
      note_duration style staccato_duration beat_fraction_duration time_remaining_in_chord in
    if Qleb actual_duration (1 # 100) then ret st
    else
      cand <- chord_focus_pick diatonic_melody_chord_notes st ;;
      match cand with
      | None => ret st
      | Some pitch =>
          ret (emit st (snap_to_scale scale_note_pcs min_pitch max_pitch pitch)
                 note_start_time_abs actual_duration)
      end.

(** Lines 526-577: one beat; the state carries [current_time_in_chord]. *)
Definition chord_focus_beat (chord_start_time duration_beats : Q)
    (diatonic_melody_chord_notes : list Z) (s : melody_state * Q) (beat : Z)
    : Rand (melody_state * Q * bool) :=
  let '(st, current_time_in_chord) := s in
  if Qleb (duration_beats - (1 # 100)) current_time_in_chord then ret (s, true)
  else
    rhythm_placement <- choice_or melody_rhythm_placements [(0, 1)%Q] ;;
    st <- foldM (chord_focus_note chord_start_time duration_beats beat
                   diatonic_melody_chord_notes) rhythm_placement st ;;
    ret ((st, (inject_Z beat + 1)%Q), false).

(** Lines 512-580: one slot of the progression. *)
Definition chord_focus_slot (st : melody_state) (s : slot) : Rand melody_state :=
  let chord_notes_original := original_notes s in
  let duration_beats := duration_beats s in
  let chord_start_time := current_abs_time_melody st in
  if is_empty chord_notes_original || Qleb duration_beats 0 then ret (skip_slot st duration_beats)
  else
    let num_beats_in_chord := py_int (duration_beats + (5 # 10)) in
    let melody_chord_notes := transpose_notes chord_notes_original melody_octave_shift in
    let diatonic_melody_chord_notes := filter (in_pcs scale_note_pcs) melody_chord_notes in
    r <- for_break (chord_focus_beat chord_start_time duration_beats
                      diatonic_melody_chord_notes)
           (py_range 0 num_beats_in_chord) (st, 0%Q) ;;
    ret (set_time (fst r) (chord_start_time + duration_beats)%Q).

Definition generate_melody_chord_focus (progression_data : progression)
    : Rand (list note_event) :=
  match scale_notes with
  | [] => ret []
  | _ =>
      st <- foldM chord_focus_slot progression_data (melody_init (35 # 100)) ;;
      ret (melody_data st)
  end.

End ChordFocus.

(** The prelude shared by Scale Walker and Leaps & Steps: the scale
    extended over the register, with C major standing in (for the
    pitch-class set as well) when nothing of the scale falls in it. *)
Definition register_scale (scale_notes : list Z) (melody_octave : string) : list Z :=
  extend_scale scale_notes [-24; -12; 0; 12; 24; 36]
    (between (range_min_of melody_octave) (range_max_of melody_octave)).

Definition walker_extended_scale (scale_notes : list Z) (melody_octave : string) : list Z :=
  match register_scale scale_notes melody_octave with
  | [] => c_major_fallback
  | ext => ext
  end.

Definition walker_pcs (scale_notes : list Z) (melody_octave : string) : list Z :=
  match register_scale scale_notes melody_octave with
  | [] => pcs_of c_major_fallback
  | _ => pcs_of scale_notes
  end.

(** The first [last_melody_note] of these two generators. *)
Definition walker_start (extended_scale : list Z) (melody_octave : string) : Rand Z :=
  let possible_starts :=
    filter (between (target_min_of melody_octave) (target_max_of melody_octave))
      extended_scale in
  match possible_starts with
  | [] => match extended_scale with
          | [] => ret (60 + melody_octave_shift_of melody_octave)
          | _ => choice_or extended_scale 0
          end
  | _ => choice_or possible_starts 0
  end.

(** [diatonic or ([random.choice(extended_scale)] if extended_scale else [])]. *)
Definition chord_or_scale (diatonic extended_scale : list Z) : Rand (list Z) :=
  match diatonic with
  | [] => match extended_scale with
          | [] => ret []
          | _ => n <- choice_or extended_scale 0 ;; ret [n]
          end
  | _ => ret diatonic
  end.

(** [l * n]. *)
Fixpoint repeat_list {A} (n : nat) (l : list A) : list A :=
  match n with
  | O => []
  | S n' => l ++ repeat_list n' l
  end.

(** ** Melody: Scale Walker *)

Section ScaleWalker.

Variables (scale_notes : list Z) (melody_style melody_speed melody_octave instrument_type : string).

Let melody_octave_shift : Z := melody_octave_shift_of melody_octave.
Let staccato_duration : Q :=
  if String.eqb instrument_type "Pluck" then (1 # 10)%Q else (15 # 100)%Q.
Let style : string := pluck_style instrument_type melody_style.
Let direction_change_prob : Q :=
  if String.eqb instrument_type "Synth Lead" then (4 # 10)%Q else (3 # 10)%Q.
Let melody_rhythm_placements := get_melody_rhythm_placements melody_speed.
Let extended_scale : list Z := walker_extended_scale scale_notes melody_octave.
Let scale_note_pcs : list Z := walker_pcs scale_notes melody_octave.
Let target_min_pitch : Z := target_min_of melody_octave.
Let target_max_pitch : Z := target_max_of melody_octave.

(** [random.choice([-1, 1])]. *)
Definition random_direction : Rand Z := choice_or [-1; 1] 1.

(** Lines 642-643: the direction before the steps are weighed. *)
Definition walker_turn (last_direction : Z) : Rand Z :=
  u <- random_random ;;
  if Qltb u direction_change_prob then
    let d := last_direction * -1 in
    if d =? 0 then random_direction else ret d
  else if last_direction =? 0 then random_direction
  else ret last_direction.

(** Lines 645-652: the neighbours of the last note, those in the
    current direction five times, the others twice. *)
Definition walker_steps (last_idx last_direction : Z) : list Z :=
  let at_step (step : Z) : list Z :=
    let idx := last_idx + step in
    if (0 <=? idx) && (idx <? len extended_scale)
    then [nth (Z.to_nat idx) extended_scale 0] else [] in
  let preferred (step : Z) : bool :=
    ((step >? 0) && (last_direction =? 1)) || ((step <? 0) && (last_direction =? -1)) in
  let pref_steps := flat_map (fun step => if preferred step then at_step step else [])
                      [-2; -1; 1; 2] in
  let other_steps := flat_map (fun step => if preferred step then [] else at_step step)
                       [-2; -1; 1; 2] in
  repeat_list 5 pref_steps ++ repeat_list 2 other_steps.

(** Lines 637-660: the candidate pitch and the direction after it. *)
Definition walker_pick (diatonic_melody_chord_notes : list Z) (st : melody_state)
    : Rand (Z * Z) :=
  r <- match last_melody_note st, extended_scale with
       | Some last, _ :: _ =>
           match min_by (fun x => Z.abs (x - last)) extended_scale with
           | Some closest_last =>
               match index_of_Z closest_last extended_scale 0 with
               | Some last_idx =>
                   d <- walker_turn (last_direction st) ;;
                   let possible := walker_steps last_idx d in
                   u <- random_random ;;
                   ret (if Qltb u (2 # 10) && negb (is_empty diatonic_melody_chord_notes)
                        then possible ++ diatonic_melody_chord_notes else possible, d)
               | None =>
                   l <- chord_or_scale diatonic_melody_chord_notes extended_scale ;;
                   ret (l, last_direction st)
               end
           | None =>
               l <- chord_or_scale diatonic_melody_chord_notes extended_scale ;;
               ret (l, last_direction st)
           end
       | _, _ =>
           l <- chord_or_scale diatonic_melody_chord_notes extended_scale ;;
           ret (l, last_direction st)
       end ;;
  let '(possible_next_notes, d) := r in
  pitch <- match possible_next_notes with
           | [] => scale_fallback scale_notes melody_octave_shift
           | _ => choice_or possible_next_notes 0
           end ;;
  let d := match last_melody_note st with
           | Some last => if pitch >? last then 1 else if pitch <? last then -1 else d
           | None => d
           end in
  ret (pitch, d).

Definition walker_note (chord_start_time duration_beats : Q) (beat : Z)
    (diatonic_melody_chord_notes : list Z) (st : melody_state) (placement : Q * Q)
    : Rand melody_state :=
  let '(start_offset, beat_fraction_duration) := placement in
  let note_absolute_start_in_chord := (inject_Z beat + start_offset)%Q in
  if Qleb (duration_beats - (1 # 100)) note_absolute_start_in_chord then ret st
  else
    let note_start_time_abs := (chord_start_time + note_absolute_start_in_chord)%Q in
    let time_remaining_in_chord := (duration_beats - note_absolute_start_in_chord)%Q in
    let actual_duration :=
      note_duration style staccato_duration beat_fraction_duration time_remaining_in_chord in
    if Qleb actual_duration (1 # 100) then ret st
    else
      r <- walker_pick diatonic_melody_chord_notes st ;;
      let '(pitch, d) := r in
      ret (emit (set_direction st d)
             (snap_to_scale scale_note_pcs target_min_pitch target_max_pitch pitch)
             note_start_time_abs actual_duration).

Definition walker_beat (chord_start_time duration_beats : Q)
    (diatonic_melody_chord_notes : list Z) (s : melody_state * Q) (beat : Z)
    : Rand (melody_state * Q * bool) :=
  let '(st, current_time_in_chord) := s in
  if Qleb (duration_beats - (1 # 100)) current_time_in_chord then ret (s, true)
  else
    rhythm_placement <- choice_or melody_rhythm_placements [(0, 1)%Q] ;;
    st <- foldM (walker_note chord_start_time duration_beats beat
                   diatonic_melody_chord_notes) rhythm_placement st ;;
    ret ((st, (inject_Z beat + 1)%Q), false).

Definition walker_slot (st : melody_state) (s : slot) : Rand melody_state :=
  let chord_notes_original := original_notes s in
  let duration_beats := duration_beats s in
  let chord_start_time := current_abs_time_melody st in
  if is_empty chord_notes_original || Qleb duration_beats 0 then ret (skip_slot st duration_beats)
  else
    let num_beats_in_chord := py_int (duration_beats + (5 # 10)) in
    let melody_chord_notes := transpose_notes chord_notes_original melody_octave_shift in
    let diatonic_melody_chord_notes := filter (in_pcs scale_note_pcs) melody_chord_notes in
    r <- for_break (walker_beat chord_start_time duration_beats diatonic_melody_chord_notes)
           (py_range 0 num_beats_in_chord) (st, 0%Q) ;;
    ret (set_time (fst r) (chord_start_time + duration_beats)%Q).

Definition generate_melody_scale_walker (progression_data : progression)
    : Rand (list note_event) :=
  match scale_notes with
  | [] => ret []
  | _ =>
      start <- walker_start extended_scale melody_octave ;;
      st <- foldM walker_slot progression_data
              (set_last (melody_init (35 # 100)) (Some start)) ;;
      ret (melody_data st)
  end.

End ScaleWalker.

(** ** Melody: Leaps & Steps *)

Section LeapsSteps.

Variables (scale_notes : list Z) (melody_style melody_speed melody_octave instrument_type : string).

Let melody_octave_shift : Z := melody_octave_shift_of melody_octave.
Let staccato_duration : Q :=
  if String.eqb instrument_type "Pluck" then (1 # 10)%Q else (15 # 100)%Q.
Let style : string := pluck_style instrument_type melody_style.
Let leap_probability : Q :=
  if String.eqb instrument_type "Synth Lead" then (6 # 10)%Q
  else if String.eqb instrument_type "Piano" then (35 # 100)%Q
  else (45 # 100)%Q.
Let melody_rhythm_placements := get_melody_rhythm_placements melody_speed.
Let extended_scale : list Z := walker_extended_scale scale_notes melody_octave.
Let scale_note_pcs : list Z := walker_pcs scale_notes melody_octave.
Let target_min_pitch : Z := target_min_of melody_octave.
Let target_max_pitch : Z := target_max_of melody_octave.

(** Lines 823-835: the candidate pitch of one note. *)
Definition leaps_pick (diatonic_leap_targets : list Z) (st : melody_state) : Rand Z :=
  u <- random_random ;;
  let use_leap :=
    Qltb u leap_probability && negb (is_empty diatonic_leap_targets)
    && match last_melody_note st with
       | Some _ => true
       | None => false
       end in
  let possible_next_notes :=
    if use_leap then
      match filter (fun n => negb (match last_melody_note st with
                                   | Some last => n =? last
                                   | None => false
                                   end)) diatonic_leap_targets with
      | [] => diatonic_leap_targets
      | others => others
      end
    else
      match last_melody_note st, extended_scale with
      | Some last, _ :: _ => get_stepwise_notes last extended_scale 1
      | _, _ => []
      end in
  possible_next_notes <-
    (match possible_next_notes with
     | [] => chord_or_scale diatonic_leap_targets extended_scale
     | _ => ret possible_next_notes
     end) ;;
  match possible_next_notes with
  | [] => scale_fallback scale_notes melody_octave_shift
  | _ => choice_or possible_next_notes 0
  end.

Definition leaps_note (chord_start_time duration_beats : Q) (beat : Z)
    (diatonic_leap_targets : list Z) (st : melody_state) (placement : Q * Q)
    : Rand melody_state :=
  let '(start_offset, beat_fraction_duration) := placement in
  let note_absolute_start_in_chord := (inject_Z beat + start_offset)%Q in
  if Qleb (duration_beats - (1 # 100)) note_absolute_start_in_chord then ret st
  else
    let note_start_time_abs := (chord_start_time + note_absolute_start_in_chord)%Q in
    let time_remaining_in_chord := (duration_beats - note_absolute_start_in_chord)%Q in
    let actual_duration :=
      note_duration style staccato_duration beat_fraction_duration time_remaining_in_chord in
    if Qleb actual_duration (1 # 100) then ret st
    else
      pitch <- leaps_pick diatonic_leap_targets st ;;
      ret (emit st (snap_to_scale scale_note_pcs target_min_pitch target_max_pitch pitch)
             note_start_time_abs actual_duration).

Definition leaps_beat (chord_start_time duration_beats : Q)
    (diatonic_leap_targets : list Z) (s : melody_state * Q) (beat : Z)
    : Rand (melody_state * Q * bool) :=
  let '(st, current_time_in_chord) := s in
  if Qleb (duration_beats - (1 # 100)) current_time_in_chord then ret (s, true)
  else
    rhythm_placement <- choice_or melody_rhythm_placements [(0, 1)%Q] ;;
    st <- foldM (leaps_note chord_start_time duration_beats beat diatonic_leap_targets)
            rhythm_placement st ;;
    ret ((st, (inject_Z beat + 1)%Q), false).

Definition leaps_slot (st : melody_state) (s : slot) : Rand melody_state :=
  let chord_notes_original := original_notes s in
  let duration_beats := duration_beats s in
  let chord_start_time := current_abs_time_melody st in
  if is_empty chord_notes_original || Qleb duration_beats 0 then ret (skip_slot st duration_beats)
  else
    let num_beats_in_chord := py_int (duration_beats + (5 # 10)) in
    let melody_chord_notes := transpose_notes chord_notes_original melody_octave_shift in
    let diatonic_leap_targets :=
      filter (fun n => in_pcs scale_note_pcs n && between target_min_pitch target_max_pitch n)
        melody_chord_notes in
    r <- for_break (leaps_beat chord_start_time duration_beats diatonic_leap_targets)
           (py_range 0 num_beats_in_chord) (st, 0%Q) ;;
    ret (set_time (fst r) (chord_start_time + duration_beats)%Q).

Definition generate_melody_leaps_steps (progression_data : progression)
    : Rand (list note_event) :=
  match scale_notes with
  | [] => ret []
  | _ =>
      start <- walker_start extended_scale melody_octave ;;
      st <- foldM leaps_slot progression_data
              (set_last (melody_init (35 # 100)) (Some start)) ;;
      ret (melody_data st)
  end.

End LeapsSteps.

(** ** Melody: Experimental *)

Section Experimental.

Variables (scale_notes : list Z) (melody_style melody_speed melody_octave instrument_type : string).
Variable fuel : nat.

Let melody_octave_shift : Z := melody_octave_shift_of melody_octave.
Let staccato_duration : Q :=
  if String.eqb instrument_type "Pluck" then (1 # 10)%Q else (15 # 100)%Q.
Let style : string := pluck_style instrument_type melody_style.
Let motifs : list (list Q) :=
  if String.eqb instrument_type "Pluck" then
    [ repeat (25 # 100) 4; [5 # 10; 25 # 100; 25 # 100]; repeat (125 # 1000) 8 ]%Q
  else if String.eqb melody_speed "Slow" then
    [ [1; 1; 1; 1]; [2; 1; 1]; [2; 2]; [15 # 10; 15 # 10; 1]; [4] ]%Q
  else if String.eqb melody_speed "Fast" then
    [ repeat (5 # 10) 4; repeat (25 # 100) 8; repeat_list 2 [75 # 100; 25 # 100];
      repeat_list 2 [5 # 10; 25 # 100; 25 # 100]; repeat (333 # 1000) 6 ]%Q
  else
    [ [5 # 10; 5 # 10; 1; 1]; [1; 5 # 10; 5 # 10; 1]; [1; 1; 5 # 10; 5 # 10]; repeat 1 2 ]%Q.
Let scale_note_pcs : list Z := pcs_of scale_notes.
Let extended_scale : list Z :=
  match extend_scale scale_notes [-12; 0; 12; 24]
          (between (range_min_of melody_octave) (range_max_of melody_octave)) with
  | [] => c_major_fallback
  | ext => ext
  end.
Let min_pitch : Z := target_min_of melody_octave.
Let max_pitch : Z := target_max_of melody_octave.

(** The variables of the [while] loop over one chord. *)
Record exp_state : Type := mk_exp_state {
  exp_melody : melody_state;
  exp_time : Q;
  exp_motif_index : Z;
  exp_tone_index : Z
}.

(** [l[i % len(l)]]. *)
Definition cyclic_nth {A} (l : list A) (i : Z) (d : A) : A :=
  nth (Z.to_nat (i mod len l)) l d.

(** Lines 734-742: the candidate pitch; the second component tells
    whether the chord tone index moves on. *)
Definition experimental_pick (diatonic_melody_chord_notes : list Z) (chord_tone_index : Z)
    (st : melody_state) : Rand (Z * bool) :=
  let from_chord :=
    match diatonic_melody_chord_notes with
    | [] => []
    | _ => repeat (cyclic_nth diatonic_melody_chord_notes chord_tone_index 0) 5
    end in
  from_steps <-
    match last_melody_note st, extended_scale with
    | Some last, _ :: _ =>
        u <- random_random ;;
        if Qltb u (3 # 10) then ret (get_stepwise_notes last extended_scale 3) else ret []
    | _, _ => ret []
    end ;;
  let possible_notes := from_chord ++ from_steps in
  pitch <- match possible_notes with
           | [] => scale_fallback scale_notes melody_octave_shift
           | _ => choice_or possible_notes 0
           end ;;
  ret (pitch, negb (is_empty diatonic_melody_chord_notes)).

(** Lines 720-761: one turn of the [while] loop; [None] when the chord
    is filled. *)
Definition experimental_turn (chord_start_time duration_beats : Q) (chosen_motif : list Q)
    (diatonic_melody_chord_notes : list Z) (s : exp_state) : Rand (option exp_state) :=
  let current_time_in_chord := exp_time s in
  if Qltb current_time_in_chord (duration_beats - (1 # 100)) then
    let duration := cyclic_nth chosen_motif (exp_motif_index s) 0%Q in
    let time_remaining_in_chord := (duration_beats - current_time_in_chord)%Q in
    let duration :=
      if Qltb (time_remaining_in_chord + (1 # 100)) duration
      then time_remaining_in_chord else duration in
    let note_start_time_abs := (chord_start_time + current_time_in_chord)%Q in
    let actual_duration :=
      note_duration style staccato_duration duration time_remaining_in_chord in
    if Qleb actual_duration (1 # 100) then
      ret (Some (mk_exp_state (exp_melody s) (current_time_in_chord + duration)%Q
                   (exp_motif_index s + 1) (exp_tone_index s)))
    else
      r <- experimental_pick diatonic_melody_chord_notes (exp_tone_index s) (exp_melody s) ;;
      let '(pitch, moved) := r in
      ret (Some (mk_exp_state
                   (emit (exp_melody s) (snap_to_scale scale_note_pcs min_pitch max_pitch pitch)
                      note_start_time_abs actual_duration)
                   (current_time_in_chord + duration)%Q
                   (exp_motif_index s + 1)
                   (if moved then exp_tone_index s + 1 else exp_tone_index s)))
  else ret None.

Definition experimental_slot (st : melody_state) (s : slot) : Rand melody_state :=
  let chord_notes_original := original_notes s in
  let duration_beats := duration_beats s in
  let chord_start_time := current_abs_time_melody st in
  if is_empty chord_notes_original || Qleb duration_beats 0 then ret (skip_slot st duration_beats)
  else
    let melody_chord_notes := transpose_notes chord_notes_original melody_octave_shift in
    let diatonic_melody_chord_notes :=
      filter (fun n => in_pcs scale_note_pcs n && between min_pitch max_pitch n)
        melody_chord_notes in
    chosen_motif <- choice_or motifs [] ;;
    chord_tone_index <-
      (match diatonic_melody_chord_notes with
       | [] => ret 0
       | _ => random_randint 0 (Z.max 0 (len diatonic_melody_chord_notes - 1))
       end) ;;
    r <- while_fuel fuel
           (experimental_turn chord_start_time duration_beats chosen_motif
              diatonic_melody_chord_notes)
           (mk_exp_state st 0 0 chord_tone_index) ;;
    ret (set_time (exp_melody r) (chord_start_time + duration_beats)%Q).

Definition generate_melody_experimental (progression_data : progression)
    : Rand (list note_event) :=
  match scale_notes with
  | [] => ret []
  | _ =>
      st <- foldM experimental_slot progression_data (melody_init (35 # 100)) ;;
      ret (melody_data st)
  end.

End Experimental.

(** ** Melody: Minimalist *)

Section Minimalist.

Variables (scale_notes : list Z) (melody_style melody_speed melody_octave instrument_type : string).
Variable fuel : nat.

Let melody_octave_shift : Z := melody_octave_shift_of melody_octave.
Let staccato_duration : Q :=
  if String.eqb instrument_type "Pluck" then (1 # 10)%Q else (15 # 100)%Q.
Let style : string := pluck_style instrument_type melody_style.
Let rhythm_options : list (list (Q * Q)) :=
  if String.eqb melody_speed "Slow" then
    [ [(0, 2)]; [(0, 1)]; [(0, 4)]; [(5 # 10, 1)]; [(1, 2)] ]%Q
  else if String.eqb melody_speed "Fast" then
    [ [(0, 5 # 10)]; [(0, 25 # 100)]; [(0, 1)]; [(25 # 100, 5 # 10)]; [(75 # 100, 25 # 100)] ]%Q
  else
    [ [(0, 1)]; [(0, 5 # 10); (5 # 10, 5 # 10)]; [(0, 2)]; [(5 # 10, 1)]; [(1, 1)] ]%Q.
Let initial_rest_probability : Q :=
  if mem_str instrument_type ["Piano"; "Keys"] then (45 # 100)%Q
  else if String.eqb instrument_type "Pluck" then (20 # 100)%Q else (35 # 100)%Q.
Let scale_note_pcs : list Z := pcs_of scale_notes.
Let target_min_pitch : Z := target_min_of melody_octave.
Let target_max_pitch : Z := target_max_of melody_octave.

(** Lines 893-899: the stable tones of a chord. *)
Definition stable_tones (melody_chord_notes : list Z) : list Z :=
  let stable_indices := [0; 2; 4]%nat in
  let good (n : Z) : bool :=
    in_pcs scale_note_pcs n && between target_min_pitch target_max_pitch n in
  let first :=
    flat_map (fun '(i, n) =>
                if Nat.ltb i (List.length stable_indices)
                   && existsb (Nat.eqb i) stable_indices && good n
                then [n] else [])
      (enumerate melody_chord_notes) in
  match first with
  | _ :: _ => first
  | [] =>
      match filter good melody_chord_notes with
      | _ :: _ as second => second
      | [] =>
          match filter (between target_min_pitch target_max_pitch)
                  (map (fun n => n + melody_octave_shift) scale_notes) with
          | _ :: _ as third => third
          | [] => [60 + melody_octave_shift]
          end
      end
  end.

(** The variables of the loop over one rhythm pattern; the last flag is
    the [break]. *)
Definition minimalist_note (chord_start_time duration_beats pattern_start_in_chord : Q)
    (diatonic_stable_tones : list Z) (s : melody_state * Z) (placement : Q * Q)
    : Rand (melody_state * Z * bool) :=
  let '(st, notes_played_in_pattern) := s in
  let '(start_offset, beat_fraction_duration) := placement in
  let note_start_in_chord := (pattern_start_in_chord + start_offset)%Q in
  let time_remaining_in_chord := (duration_beats - note_start_in_chord)%Q in
  if Qleb (duration_beats - (1 # 100)) note_start_in_chord then ret (s, true)
  else
    let note_start_time_abs := (chord_start_time + note_start_in_chord)%Q in
    let actual_duration :=
      note_duration style staccato_duration beat_fraction_duration time_remaining_in_chord in
    if Qleb actual_duration (1 # 100) then ret (s, false)
    else
      pitch <- choice_or diatonic_stable_tones 0 ;;
      let snapped := snap_to_scale scale_note_pcs target_min_pitch target_max_pitch pitch in
      ret ((emit st snapped note_start_time_abs actual_duration,
            match snapped with
            | Some _ => notes_played_in_pattern + 1
            | None => notes_played_in_pattern
            end), false).

(** Lines 901-945: one turn of the [while] loop over a chord; the state
    carries [current_time_in_chord]. *)
Definition minimalist_turn (chord_start_time duration_beats : Q)
    (diatonic_stable_tones : list Z) (s : melody_state * Q) : Rand (option (melody_state * Q)) :=
  let '(st, current_time_in_chord) := s in
  if Qltb current_time_in_chord (duration_beats - (1 # 100)) then
    u <- random_random ;;
    if Qltb u (rest_probability st) then
      rest_duration <- choice_or [5 # 10; 1; 15 # 10; 2]%Q 1%Q ;;
      let time_remaining := (duration_beats - current_time_in_chord)%Q in
      ret (Some (st, (current_time_in_chord + Qmin rest_duration time_remaining)%Q))
    else
      rhythm_placement <- choice_or rhythm_options [(0, 1)%Q] ;;
      let total_rhythm_dur := fold_right (fun p acc => (snd p + acc)%Q) 0%Q rhythm_placement in
      let pattern_start_in_chord := current_time_in_chord in
      r <- for_break (minimalist_note chord_start_time duration_beats pattern_start_in_chord
                        diatonic_stable_tones) rhythm_placement (st, 0) ;;
      let '(st, notes_played_in_pattern) := r in
      let current_time_in_chord :=
        Qmin (pattern_start_in_chord + total_rhythm_dur)%Q duration_beats in
      let rest :=
        if notes_played_in_pattern =? 0
        then Qmin (8 # 10) (rest_probability st + (1 # 10))%Q
        else (35 # 100)%Q in
      ret (Some (set_rest_probability st rest, current_time_in_chord))
  else ret None.

Definition minimalist_slot (st : melody_state) (s : slot) : Rand melody_state :=
  let chord_notes_original := original_notes s in
  let duration_beats := duration_beats s in
  let chord_start_time := current_abs_time_melody st in
  if is_empty chord_notes_original || Qleb duration_beats 0 then ret (skip_slot st duration_beats)
  else
    let melody_chord_notes := transpose_notes chord_notes_original melody_octave_shift in
    let diatonic_stable_tones := stable_tones melody_chord_notes in
    r <- while_fuel fuel
           (minimalist_turn chord_start_time duration_beats diatonic_stable_tones) (st, 0%Q) ;;
    ret (set_time (fst r) (chord_start_time + duration_beats)%Q).

Definition generate_melody_minimalist (progression_data : progression)
    : Rand (list note_event) :=
  match scale_notes with
  | [] => ret []
  | _ =>
      st <- foldM minimalist_slot progression_data (melody_init initial_rest_probability) ;;
      ret (melody_data st)
  end.

End Minimalist.

(** ** Melody: Sustained Lead *)

Section SustainedLead.

Variables (scale_notes : list Z) (melody_style melody_speed melody_octave instrument_type : string).

Let melody_octave_shift : Z := melody_octave_shift_of melody_octave.
Let is_pluck : bool := String.eqb instrument_type "Pluck".
Let staccato_duration : Q := if is_pluck then (1 # 10)%Q else (15 # 100)%Q.
Let style : string := if is_pluck then "Staccato" else melody_style.
Let rhythm_patterns : list (list (Q * Q)) :=
  if is_pluck then
    [ repeat (0, 25 # 100) 4; repeat (0, 125 # 1000) 8 ]%Q
  else if String.eqb melody_speed "Slow" then
    [ [(0, 1)]; [(0, 5 # 10); (5 # 10, 5 # 10)]; [(0, 75 # 100); (75 # 100, 25 # 100)] ]%Q
  else if String.eqb melody_speed "Fast" then
    [ repeat (0, 25 # 100) 4;
      repeat_list 2 [(0, 5 # 10); (5 # 10, 25 # 100); (75 # 100, 25 # 100)];
      [(0, 1)] ]%Q
  else
    [ [(0, 5 # 10)]; repeat (0, 25 # 100) 2;
      [(0, 33 # 100); (33 # 100, 33 # 100); (66 # 100, 34 # 100)] ]%Q.
Let scale_note_pcs : list Z := pcs_of scale_notes.
Let target_min_pitch : Z := target_min_of melody_octave.
Let target_max_pitch : Z := target_max_of melody_octave.
Let deviation_prob : Q :=
  if mem_str instrument_type ["Piano"; "Keys"] then (2 # 10)%Q else (3 # 10)%Q.

Definition sustained_good (n : Z) : bool :=
  in_pcs scale_note_pcs n && between target_min_pitch target_max_pitch n.

(** Lines 1002-1008: the candidate pitch of one note. *)
Definition sustained_pick (target_pitch : Z) (diatonic_melody_chord_notes : list Z) : Rand Z :=
  u <- random_random ;;
  if Qltb u deviation_prob && (len diatonic_melody_chord_notes >? 1) then
    match filter (fun n => negb (n =? target_pitch)) diatonic_melody_chord_notes with
    | [] => ret target_pitch
    | other_diatonic_tones => choice_or other_diatonic_tones 0
    end
  else if negb (in_pcs scale_note_pcs target_pitch)
  then scale_fallback scale_notes melody_octave_shift
  else ret target_pitch.

Definition sustained_note (chord_start_time duration_beats : Q) (target_pitch : Z)
    (diatonic_melody_chord_notes : list Z) (st : melody_state) (placement : Q * Q)
    : Rand melody_state :=
  let '(start_frac, dur_frac) := placement in
  let note_start_in_chord := (duration_beats * start_frac)%Q in
  let note_dur_beats := (duration_beats * dur_frac)%Q in
  let note_start_time_abs := (chord_start_time + note_start_in_chord)%Q in
  let time_remaining_in_chord := (duration_beats - note_start_in_chord)%Q in
  let actual_duration :=
    note_duration style staccato_duration note_dur_beats time_remaining_in_chord in
  if Qleb actual_duration (1 # 100) then ret st
  else
    pitch <- sustained_pick target_pitch diatonic_melody_chord_notes ;;
    ret (emit st (snap_to_scale scale_note_pcs target_min_pitch target_max_pitch pitch)
           note_start_time_abs actual_duration).

Definition sustained_slot (st : melody_state) (s : slot) : Rand melody_state :=
  let chord_notes_original := original_notes s in
  let duration_beats := duration_beats s in
  let chord_start_time := current_abs_time_melody st in
  match bass_root_note s with
  | None => ret (skip_slot st duration_beats)
  | Some root_note_for_bass =>
      if is_empty chord_notes_original || Qleb duration_beats 0
      then ret (skip_slot st duration_beats)
      else
        let melody_chord_notes := transpose_notes chord_notes_original melody_octave_shift in
        let diatonic_melody_chord_notes := filter sustained_good melody_chord_notes in
        let target_pitch_options :=
          filter sustained_good (transpose_notes [root_note_for_bass] melody_octave_shift) in
        target_pitch <-
          (match target_pitch_options with
           | [] =>
               match diatonic_melody_chord_notes with
               | [] => scale_fallback scale_notes melody_octave_shift
               | _ => choice_or diatonic_melody_chord_notes 0
               end
           | p :: _ => ret p
           end) ;;
        rhythm_placement <- choice_or rhythm_patterns [(0, 1)%Q] ;;
        st <- foldM (sustained_note chord_start_time duration_beats target_pitch
                       diatonic_melody_chord_notes) rhythm_placement st ;;
        ret (set_time st (chord_start_time + duration_beats)%Q)
  end.

Definition generate_melody_sustained_lead (progression_data : progression)
    : Rand (list note_event) :=
  match scale_notes with
  | [] => ret []
  | _ =>
      st <- foldM sustained_slot progression_data (melody_init (35 # 100)) ;;
      ret (melody_data st)
  end.

End SustainedLead.

(** ** Bass: Standard and RnB *)

(** The variables of a bass generator: the notes so far and the time
    cursor. *)
Definition bass_state : Type := (list note_event * Q)%type.

(** Lines 1036-1037 and their copies: a slot without root or duration
    only moves the cursor. *)
Definition bass_skip (st : bass_state) (duration_beats : Q) : bass_state :=
  (fst st, (snd st + (if Qltb 0 duration_beats then duration_beats else 1))%Q).

Definition bass_standard_slot (st : bass_state) (s : slot) : bass_state :=
  let bass_octave_shift := -24 in
  let min_bass := 28 in
  let max_bass := 60 in
  let duration_beats := duration_beats s in
  let current_abs_time_bass := snd st in
  match bass_root_note s with
  | None => bass_skip st duration_beats
  | Some chord_root_note =>
      if Qleb duration_beats 0 then bass_skip st duration_beats
      else
        let bass_note_pitch := fold_into min_bass max_bass (chord_root_note + bass_octave_shift) in
        let data :=
          if Qleb (1 # 10) duration_beats
          then fst st ++ [(bass_note_pitch, current_abs_time_bass,
                           Qmax (1 # 10) (duration_beats * (9 # 10))%Q)]
          else fst st in
        (data, (current_abs_time_bass + duration_beats)%Q)
  end.

Definition generate_bass_standard (progression_data : progression) (scale_notes : list Z)
    : list note_event :=
  fst (fold_left bass_standard_slot progression_data ([], 0%Q)).

Definition rnb_rhythms : list (list (Q * Q)) :=
  [ [(0, 75 # 100)]; [(0, 5 # 10); (5 # 10, 5 # 10)];
    [(0, 75 # 100); (75 # 100, 25 # 100)]; [(0, 15 # 10)] ]%Q.

(** Lines 1165-1172: one note of the chosen rhythm. *)
Definition bass_rnb_note (current_abs_time_bass duration_beats : Q) (root_pitch fifth_pitch : Z)
    (data : list note_event) (placement : Q * Q) : Rand (list note_event) :=
  let '(start_offset_beats, dur_beats) := placement in
  let note_start_abs := (current_abs_time_bass + start_offset_beats)%Q in
  u <- random_random ;;
  let pitch := if Qltb u (7 # 10) then root_pitch else fifth_pitch in
  let actual_duration := Qmin dur_beats (duration_beats - start_offset_beats)%Q in
  if Qltb note_start_abs (current_abs_time_bass + duration_beats)%Q
     && Qltb (5 # 100) actual_duration
  then ret (data ++ [(pitch, note_start_abs, (actual_duration * (9 # 10))%Q)])
  else ret data.

Definition bass_rnb_slot (st : bass_state) (s : slot) : Rand bass_state :=
  let bass_octave_shift := -24 in
  let min_bass := 28 in
  let max_bass := 65 in
  let duration_beats := duration_beats s in
  let current_abs_time_bass := snd st in
  match bass_root_note s with
  | None => ret (bass_skip st duration_beats)
  | Some chord_root_note =>
      if Qleb duration_beats 0 then ret (bass_skip st duration_beats)
      else
        let root_pitch := fold_into min_bass max_bass (chord_root_note + bass_octave_shift) in
        let fifth_pitch := root_pitch + 7 in
        let fifth_pitch := if fifth_pitch >? max_bass then fifth_pitch - 12 else fifth_pitch in
        chosen_rhythm <- choice_or rnb_rhythms [] ;;
        data <- foldM (bass_rnb_note current_abs_time_bass duration_beats root_pitch fifth_pitch)
                  chosen_rhythm (fst st) ;;
        ret (data, (current_abs_time_bass + duration_beats)%Q)
  end.

Definition generate_bass_rnb (progression_data : progression) (scale_notes : list Z)
    : Rand (list note_event) :=
  st <- foldM bass_rnb_slot progression_data ([], 0%Q) ;;
  ret (fst st).

(** *** Vocabulary of the part-generator properties *)

(** The pitch class of [pitch] is one of the scale's. *)
Definition on_scale (scale_notes : list Z) (pitch : Z) : Prop :=
  exists n, In n scale_notes /\ pitch mod 12 = n mod 12.

(** Every note of [data] has its pitch class in [scale_note_pcs]. *)
Definition notes_in_pcs (scale_note_pcs : list Z) (data : list note_event) : Prop :=
  Forall (fun e => in_pcs scale_note_pcs (event_pitch e) = true) data.

(** Some note of the scale, in some octave of the shift list, falls in
    the register that Scale Walker and Leaps & Steps extend it over. *)
Definition scale_in_register (scale_notes : list Z) (melody_octave : string) : Prop :=
  register_scale scale_notes melody_octave <> [].

(** The class of [pitch] is the class of a slot root raised by one of
    [intervals]. *)
Definition follows_roots (intervals : list Z) (progression_data : progression) (pitch : Z)
    : Prop :=
  exists s root i,
    In s progression_data /\ bass_root_note s = Some root /\ In i intervals
    /\ pitch mod 12 = (root + i) mod 12.

(** The melody state only holds notes of the pitch-class set. *)
Definition melody_ok (scale_note_pcs : list Z) (st : melody_state) : Prop :=
  notes_in_pcs scale_note_pcs (melody_data st).

(** ** Spread voicing *)

(** [calculate_spread_voicing]: the second highest note goes up one
    octave; fewer than three notes are only sorted. *)
Definition calculate_spread_voicing (notes : list Z) : list Z :=
  if len notes <? 3 then sorted notes
  else
    let notes_sorted := sorted notes in
    let num_notes := len notes_sorted in
    let note_to_raise := nth (Z.to_nat (num_notes - 2)) notes_sorted 0 in
    let remaining_notes :=
      firstn (Z.to_nat (num_notes - 2)) notes_sorted
      ++ skipn (Z.to_nat (num_notes - 1)) notes_sorted in
    sorted (remaining_notes ++ [note_to_raise + 12]).

(** ** Arpeggiator patterns *)

(** [range(a, b, -1)]. *)
Definition py_range_down (a b : Z) : list Z :=
  map (fun k => a - Z.of_nat k) (seq 0 (Z.to_nat (a - b))).

Definition get_ascending_pattern (num_notes : Z) : list Z :=
  if num_notes <=? 0 then [] else py_range 0 num_notes.

Definition get_descending_pattern (num_notes : Z) : list Z :=
  if num_notes <=? 0 then [] else py_range_down (num_notes - 1) (-1).

Definition get_up_down_pattern (num_notes : Z) : list Z :=
  if num_notes <=? 0 then []
  else
    let up_part := py_range 0 num_notes in
    let down_part := py_range_down (num_notes - 2) (-1) in
    up_part ++ down_part.

(** [[f() for _ in range(n)]] for a randomised [f]. *)
Fixpoint replicateM {A} (n : nat) (m : Rand A) : Rand (list A) :=
  match n with
  | O => ret []
  | S n' => x <- m ;; rest <- replicateM n' m ;; ret (x :: rest)
  end.

Definition get_random_notes_pattern (num_notes : Z) : Rand (list Z) :=
  if num_notes <=? 0 then ret []
  else
    pattern_len <- choice_or [8; 12; 16] 8 ;;
    replicateM (Z.to_nat pattern_len) (random_randint 0 (num_notes - 1)).

(** Lines 185-188: [while low <= high].  The gap [high - low] shrinks by
    two each turn, so [num_notes] turns are enough. *)
Fixpoint converge (fuel : nat) (indices : list Z) (low high : Z) (pattern : list Z)
    : list Z :=
  match fuel with
  | O => pattern
  | S fuel' =>
      if low <=? high then
        let pattern := pattern ++ [nth (Z.to_nat low) indices 0] in
        let pattern :=
          if negb (low =? high) then pattern ++ [nth (Z.to_nat high) indices 0]
          else pattern in
        converge fuel' indices (low + 1) (high - 1) pattern
      else pattern
  end.

(** Lines 193-195: [while left >= 0 and right < num_notes]. *)
Fixpoint diverge (fuel : nat) (indices : list Z) (num_notes left right : Z)
    (pattern : list Z) : list Z :=
  match fuel with
  | O => pattern
  | S fuel' =>
      if (left >=? 0) && (right <? num_notes) then
        diverge fuel' indices num_notes (left - 1) (right + 1)
          (pattern ++ [nth (Z.to_nat left) indices 0; nth (Z.to_nat right) indices 0])
      else pattern
  end.

(** Lines 181-195: the pattern before it is repeated. *)
Definition converge_diverge_base (num_notes : Z) : Rand (list Z) :=
  let indices := py_range 0 num_notes in
  use_converge <- choice_or [true; false] true ;;
  if use_converge : bool then
    ret (converge (Z.to_nat num_notes) indices 0 (num_notes - 1) [])
  else
    let mid := num_notes / 2 in
    if num_notes mod 2 =? 1 then
      ret (diverge (Z.to_nat num_notes) indices num_notes (mid - 1) (mid + 1)
             [nth (Z.to_nat mid) indices 0])
    else
      ret (diverge (Z.to_nat num_notes) indices num_notes (mid - 1) mid []).

(** Line 198: [while len(full_pattern) < target_len:
    full_pattern.extend(pattern)].  A non-empty pattern needs at most
    [target_len] turns; the base pattern of a positive [num_notes] is
    never empty. *)
Fixpoint fill_pattern (fuel : nat) (pattern full_pattern : list Z) (target_len : Z)
    : list Z :=
  match fuel with
  | O => full_pattern
  | S fuel' =>
      if len full_pattern <? target_len
      then fill_pattern fuel' pattern (full_pattern ++ pattern) target_len
      else full_pattern
  end.

Definition get_converge_diverge_pattern (num_notes : Z) : Rand (list Z) :=
  if num_notes <=? 0 then ret []
  else
    pattern <- converge_diverge_base num_notes ;;
    let target_len := 8 in
    let full_pattern := fill_pattern (Z.to_nat target_len) pattern [] target_len in
    ret (firstn (Z.to_nat target_len) full_pattern).

(** [arp_pattern_functions_map], in its insertion order. *)
Definition arp_pattern_functions_map : dict (Z -> Rand (list Z)) :=
  [ ("Ascending", fun n => ret (get_ascending_pattern n));
    ("Descending", fun n => ret (get_descending_pattern n));
    ("Up-Down", fun n => ret (get_up_down_pattern n));
    ("Random Notes", get_random_notes_pattern);
    ("Converge/Diverge", get_converge_diverge_pattern) ].

Definition arp_pattern_functions_list : list (Z -> Rand (list Z)) :=
  map snd arp_pattern_functions_map.

(** ** Bass: Pop, Hip Hop and 808 *)

(** Lines 1127-1138: one beat of the Pop bass.  The generator is only
    consulted on an odd beat of a chord of two beats or more. *)
Definition bass_pop_beat (current_abs_time_bass duration_beats : Q) (root_pitch : Z)
    (data : list note_event) (beat : Z) : Rand (list note_event) :=
  let max_bass := 60 in
  let note_start := (current_abs_time_bass + inject_Z beat)%Q in
  pitch <- (if (beat mod 2 =? 1) && Qleb 2 duration_beats
            then u <- random_random ;;
                 ret (if Qltb u (3 # 10) then Z.min (root_pitch + 12) max_bass
                      else root_pitch)
            else ret root_pitch) ;;
  if Qltb note_start (current_abs_time_bass + duration_beats)%Q then
    let actual_duration :=
      Qmin (9 # 10) (current_abs_time_bass + duration_beats - note_start)%Q in
    if Qltb (5 # 100) actual_duration
    then ret (data ++ [(pitch, note_start, actual_duration)])
    else ret data
  else ret data.

Definition bass_pop_slot (st : bass_state) (s : slot) : Rand bass_state :=
  let bass_octave_shift := -24 in
  let min_bass := 28 in
  let max_bass := 60 in
  let duration_beats := duration_beats s in
  let current_abs_time_bass := snd st in
  match bass_root_note s with
  | None => ret (bass_skip st duration_beats)
  | Some chord_root_note =>
      if Qleb duration_beats 0 then ret (bass_skip st duration_beats)
      else
        let root_pitch := fold_into min_bass max_bass (chord_root_note + bass_octave_shift) in
        let num_beats := py_int (duration_beats + (5 # 10))%Q in
        data <- foldM (bass_pop_beat current_abs_time_bass duration_beats root_pitch)
                  (py_range 0 num_beats) (fst st) ;;
        ret (data, (current_abs_time_bass + duration_beats)%Q)
  end.

Definition generate_bass_pop (progression_data : progression) (scale_notes : list Z)
    : Rand (list note_event) :=
  st <- foldM bass_pop_slot progression_data ([], 0%Q) ;;
  ret (fst st).

Definition hip_hop_rhythms : list (list (Q * Q)) :=
  [ [(0, 75 # 100)]; [(5 # 10, 75 # 100)]; [(0, 4 # 10); (5 # 10, 4 # 10)];
    [(75 # 100, 75 # 100)] ]%Q.

(** Lines 1198-1203: one note of the chosen rhythm. *)
Definition bass_hip_hop_note (current_abs_time_bass duration_beats : Q) (root_pitch : Z)
    (data : list note_event) (placement : Q * Q) : list note_event :=
  let '(start_offset_beats, dur_beats) := placement in
  let note_start_abs := (current_abs_time_bass + start_offset_beats)%Q in
  let actual_duration :=
    Qmin (dur_beats * (9 # 10))%Q (duration_beats - start_offset_beats)%Q in
  if Qltb note_start_abs (current_abs_time_bass + duration_beats)%Q
     && Qltb (5 # 100) actual_duration
  then data ++ [(root_pitch, note_start_abs, actual_duration)]
  else data.

Definition bass_hip_hop_slot (st : bass_state) (s : slot) : Rand bass_state :=
  let bass_octave_shift := -24 in
  let min_bass := 28 in
  let max_bass := 55 in
  let duration_beats := duration_beats s in
  let current_abs_time_bass := snd st in
  match bass_root_note s with
  | None => ret (bass_skip st duration_beats)
  | Some chord_root_note =>
      if Qleb duration_beats 0 then ret (bass_skip st duration_beats)
      else
        let root_pitch := fold_into min_bass max_bass (chord_root_note + bass_octave_shift) in
        chosen_rhythm <- choice_or hip_hop_rhythms [] ;;
        ret (fold_left (bass_hip_hop_note current_abs_time_bass duration_beats root_pitch)
               chosen_rhythm (fst st),
             (current_abs_time_bass + duration_beats)%Q)
  end.

Definition generate_bass_hip_hop (progression_data : progression) (scale_notes : list Z)
    : Rand (list note_event) :=
  st <- foldM bass_hip_hop_slot progression_data ([], 0%Q) ;;
  ret (fst st).

(** The 808 bass only folds upwards; what is still above the register
    is clamped to its top. *)
Definition bass_808_slot (st : bass_state) (s : slot) : bass_state :=
  let bass_octave_shift := -36 in
  let min_bass := 20 in
  let max_bass := 48 in
  let duration_beats := duration_beats s in
  let current_abs_time_bass := snd st in
  match bass_root_note s with
  | None => bass_skip st duration_beats
  | Some chord_root_note =>
      if Qleb duration_beats 0 then bass_skip st duration_beats
      else
        let root_pitch := chord_root_note + bass_octave_shift in
        let root_pitch := raise_until (Z.to_nat (min_bass - root_pitch)) min_bass root_pitch in
        let root_pitch := Z.max min_bass (Z.min root_pitch max_bass) in
        let note_start_time := current_abs_time_bass in
        let actual_duration := Qmax (5 # 10) (duration_beats * (98 # 100))%Q in
        (fst st ++ [(root_pitch, note_start_time, actual_duration)],
         (current_abs_time_bass + duration_beats)%Q)
  end.

Definition generate_bass_808 (progression_data : progression) (scale_notes : list Z)
    : list note_event :=
  fst (fold_left bass_808_slot progression_data ([], 0%Q)).

(** ** Bass: Walking *)

Record walking_state : Type := mk_walking_state {
  walking_data : list note_event;
  walking_time : Q;
  last_bass_note : option Z
}.

(** Lines 1058-1059: the scale over the bass register (a fifth above
    its top included), with two fallbacks. *)
Definition walking_extended_scale (scale_notes : list Z) : list Z :=
  let min_bass := 28 in
  let max_bass := 60 in
  let scale_note_pcs := pcs_of scale_notes in
  let extended_bass_scale :=
    extend_scale scale_notes [-36; -24; -12] (between min_bass (max_bass + 7)) in
  if is_empty extended_bass_scale then
    let in_register := filter (in_pcs scale_note_pcs) (py_range min_bass (max_bass + 1)) in
    if is_empty in_register then [36; 38; 40; 41; 43; 45; 47] else in_register
  else extended_bass_scale.

(** [l.remove(x)]: the first occurrence goes. *)
Fixpoint list_remove (x : Z) (l : list Z) : list Z :=
  match l with
  | [] => []
  | y :: l' => if y =? x then l' else y :: list_remove x l'
  end.

(** Lines 1080-1093: one step of the walk; the state is the notes of the
    slot so far and the note the walk stands on. *)
Definition walking_step (extended_bass_scale : list Z) (acc : list Z * Z) (step : Z)
    : Rand (list Z * Z) :=
  let min_bass := 28 in
  let max_bass := 60 in
  let '(notes_for_chord_slot, current_note_for_walk) := acc in
  let possible_steps := get_stepwise_notes current_note_for_walk extended_bass_scale 2 in
  if is_empty possible_steps then
    ret (notes_for_chord_slot ++ [current_note_for_walk], current_note_for_walk)
  else
    next_note <- choice_or possible_steps current_note_for_walk ;;
    next_note <- (if (next_note =? current_note_for_walk) && (len possible_steps >? 1)
                  then choice_or (list_remove next_note possible_steps) next_note
                  else ret next_note) ;;
    let next_note := Z.max min_bass (Z.min max_bass next_note) in
    ret (notes_for_chord_slot ++ [next_note], next_note).

(** Lines 1096-1104: the notes of the slot go out as quarter notes. *)
Definition walking_emit (current_abs_time_bass duration_beats : Q)
    (acc : list note_event * option Z) (ip : nat * Z) : list note_event * option Z :=
  let '(i, pitch) := ip in
  let beat_duration := 1%Q in
  let note_start_time := (current_abs_time_bass + inject_Z (Z.of_nat i) * beat_duration)%Q in
  let actual_duration := (beat_duration * (95 # 100))%Q in
  if Qltb note_start_time (current_abs_time_bass + duration_beats)%Q then
    let actual_duration :=
      Qmin actual_duration (current_abs_time_bass + duration_beats - note_start_time)%Q in
    if Qltb (1 # 100) actual_duration
    then (fst acc ++ [(pitch, note_start_time, actual_duration)], Some pitch)
    else acc
  else acc.

Definition walking_skip (st : walking_state) (duration_beats : Q) : walking_state :=
  mk_walking_state (walking_data st)
    (walking_time st + (if Qltb 0 duration_beats then duration_beats else 1))%Q
    (last_bass_note st).

(** One slot of the walking bass.  The assignment of line 1071 is
    overwritten at line 1078 before it is read, so the walk always
    starts on the scale note closest to the folded root.  The extended
    scale is never empty, so [min] always answers. *)
Definition bass_walking_slot (extended_bass_scale : list Z) (st : walking_state) (s : slot)
    : Rand walking_state :=
  let bass_octave_shift := -24 in
  let min_bass := 28 in
  let max_bass := 60 in
  let duration_beats := duration_beats s in
  let current_abs_time_bass := walking_time st in
  match bass_root_note s with
  | None => ret (walking_skip st duration_beats)
  | Some chord_root_note =>
      if is_empty (original_notes s) || Qleb duration_beats 0
      then ret (walking_skip st duration_beats)
      else
        let target_root_pitch :=
          fold_into min_bass max_bass (chord_root_note + bass_octave_shift) in
        match min_by (fun x => Z.abs (x - target_root_pitch)) extended_bass_scale with
        | None => ret st
        | Some closest_root_in_scale =>
            let num_steps := py_int (duration_beats + (5 # 10))%Q in
            if num_steps <=? 0 then
              ret (mk_walking_state (walking_data st)
                     (current_abs_time_bass + duration_beats)%Q (last_bass_note st))
            else
              walk <- foldM (walking_step extended_bass_scale) (py_range 1 num_steps)
                        ([closest_root_in_scale], closest_root_in_scale) ;;
              let out :=
                fold_left (walking_emit current_abs_time_bass duration_beats)
                  (enumerate (fst walk)) (walking_data st, last_bass_note st) in
              ret (mk_walking_state (fst out)
                     (current_abs_time_bass + duration_beats)%Q (snd out))
        end
  end.

Definition generate_bass_walking (progression_data : progression) (scale_notes : list Z)
    : Rand (list note_event) :=
  match scale_notes with
  | [] => ret []
  | _ =>
      st <- foldM (bass_walking_slot (walking_extended_scale scale_notes)) progression_data
              (mk_walking_state [] 0 None) ;;
      ret (walking_data st)
  end.

(** ** Arpeggio *)

(** An arpeggio note [(pitch, start_time, duration, velocity)]. *)
Definition arp_event : Type := (Z * Q * Q * Z)%type.

Definition arp_pitch (e : arp_event) : Z := fst (fst (fst e)).
Definition arp_duration (e : arp_event) : Q := snd (fst e).
Definition arp_velocity (e : arp_event) : Z := snd e.

(** Lines 3188-3195: the octave copies of the chord notes. *)
Definition arp_oct_shifts (arp_octave_selection : string) : list Z :=
  if PyStr.contains "+1 Octave" arp_octave_selection then [0; 12]
  else if PyStr.contains "-1 Octave" arp_octave_selection then [0; -12]
  else if PyStr.contains "+2 Octaves" arp_octave_selection then [0; 12; 24]
  else if PyStr.contains "-2 Octaves" arp_octave_selection then [0; -12; -24]
  else if PyStr.contains "+3 Octaves" arp_octave_selection then [0; 12; 24; 36]
  else if PyStr.contains "-3 Octaves" arp_octave_selection then [0; -12; -24; -36]
  else [0].

(** [random.choice(arp_pattern_functions_list or [get_ascending_pattern])]. *)
Definition random_pattern_function : Rand (Z -> Rand (list Z)) :=
  let ascending := fun n => ret (get_ascending_pattern n) in
  choice_or (if is_empty arp_pattern_functions_list then [ascending]
             else arp_pattern_functions_list) ascending.

(** Lines 3197-3201: the pattern function of the whole run; [None] when
    it is chosen per chord. *)
Definition arp_pattern_function (arp_style_selection : string)
    : Rand (option (Z -> Rand (list Z))) :=
  if String.eqb arp_style_selection "Random (Consistent)" then
    f <- random_pattern_function ;; ret (Some f)
  else if String.eqb arp_style_selection "Random (Per Bar)" then ret None
  else
    match dict_get arp_pattern_functions_map arp_style_selection with
    | Some f => ret (Some f)
    | None => f <- random_pattern_function ;; ret (Some f)
    end.

(** The variables of the inner loop: the notes so far, the pattern
    counter and the time inside the chord. *)
Definition arp_loop_state : Type := (list arp_event * Z * Q)%type.

(** Lines 3233-3250: one turn of [while time_in_chord < duration_beats -
    0.01]; [None] when the condition fails or the body breaks. *)
Definition arp_note (arp_pool patt_indices : list Z) (chord_start_time duration_beats : Q)
    (st : arp_loop_state) : Rand (option arp_loop_state) :=
  let volume_arp := 95 in
  let pool_size := len arp_pool in
  let '(data, patt_idx_ctr, time_in_chord) := st in
  if Qltb time_in_chord (duration_beats - (1 # 100))%Q then
    note_dur <- choice_or [5 # 10; 25 # 100]%Q (5 # 10)%Q ;;
    let act_dur := Qmin note_dur (duration_beats - time_in_chord)%Q in
    if Qleb act_dur (1 # 100) then ret None
    else
      let note_start_abs := (chord_start_time + time_in_chord)%Q in
      let cur_patt_idx := patt_idx_ctr mod len patt_indices in
      let note_idx := nth (Z.to_nat cur_patt_idx) patt_indices 0 in
      if (0 <=? note_idx) && (note_idx <? pool_size) then
        let pitch := nth (Z.to_nat note_idx) arp_pool 0 in
        r <- random_randint (-5) 5 ;;
        let vel := Z.max 0 (Z.min 127 (volume_arp + r)) in
        ret (Some (data ++ [(pitch, note_start_abs, act_dur, vel)],
                   patt_idx_ctr + 1, (time_in_chord + note_dur)%Q))
      else ret (Some (data, patt_idx_ctr + 1, (time_in_chord + note_dur)%Q))
  else ret None.

Section Arpeggio.

Variables (arp_style_selection : string) (scale_note_pcs oct_shifts : list Z)
  (patt_func : option (Z -> Rand (list Z))) (fuel : nat).

(** Lines 3212-3219: the chord notes of the scale, or the chord root
    alone if it is of the scale; [None] when the chord is skipped. *)
Definition diatonic_notes_in_chord (chord_notes_orig : list Z) : option (list Z) :=
  let diatonic := sorted (filter (in_pcs scale_note_pcs) chord_notes_orig) in
  if is_empty diatonic then
    match chord_notes_orig with
    | root_note :: _ => if in_pcs scale_note_pcs root_note then Some [root_note] else None
    | [] => None
    end
  else Some diatonic.

(** Lines 3207-3252: one chord of the progression. *)
Definition arp_slot (st : list arp_event * Q) (s : slot) : Rand (list arp_event * Q) :=
  let chord_notes_orig := original_notes s in
  let duration_beats := duration_beats s in
  let chord_start_time := snd st in
  let skip := ret (fst st, (chord_start_time + duration_beats)%Q) in
  if is_empty chord_notes_orig || Qleb duration_beats 0 then
    ret (fst st, (chord_start_time + (if Qltb 0 duration_beats then duration_beats else 1))%Q)
  else
    match diatonic_notes_in_chord chord_notes_orig with
    | None => skip
    | Some diatonic =>
        let arp_pool := extend_scale diatonic oct_shifts (between 0 127) in
        let pool_size := len arp_pool in
        if pool_size =? 0 then skip
        else
          bar_patt_func <-
            (if String.eqb arp_style_selection "Random (Per Bar)"
             then f <- random_pattern_function ;; ret (Some f)
             else ret patt_func) ;;
          let bar_patt_func :=
            match bar_patt_func with
            | None => fun n => ret (get_ascending_pattern n)
            | Some f => f
            end in
          patt_indices <- bar_patt_func pool_size ;;
          if is_empty patt_indices then skip
          else
            r <- while_fuel fuel (arp_note arp_pool patt_indices chord_start_time duration_beats)
                   (fst st, 0, 0%Q) ;;
            ret (fst (fst r), (chord_start_time + duration_beats)%Q)
    end.

End Arpeggio.

(** [_generate_arpeggio], as a function of the stored progression; the
    inner loop of each chord runs for at most [fuel] turns. *)
Definition _generate_arpeggio (arp_style_selection arp_octave_selection : string)
    (scale_notes : list Z) (fuel : nat) (generated_chords_progression : progression)
    : Rand (list arp_event) :=
  match scale_notes with
  | [] => ret []
  | _ =>
      let scale_note_pcs := pcs_of scale_notes in
      let oct_shifts := arp_oct_shifts arp_octave_selection in
      patt_func <- arp_pattern_function arp_style_selection ;;
      st <- foldM (arp_slot arp_style_selection scale_note_pcs oct_shifts patt_func fuel)
              generated_chords_progression ([], 0%Q) ;;
      ret (fst st)
  end.

(** ** The generation entry point: the parts *)

Definition melody_generator : Type :=
  list Z -> string -> string -> string -> string -> progression -> Rand (list note_event).

Definition bass_generator : Type := progression -> list Z -> Rand (list note_event).

(** [melody_func_map] (lines 2817-2825); the two generators with a
    [while] loop run it for at most [fuel] turns. *)
Definition melody_func_map (fuel : nat) : dict melody_generator :=
  [ ("Chord Tone Focus", generate_melody_chord_focus);
    ("Scale Walker", generate_melody_scale_walker);
    ("Experimental",
     fun scale_notes melody_style melody_speed melody_octave instrument_type =>
       generate_melody_experimental scale_notes melody_style melody_speed melody_octave
         instrument_type fuel);
    ("Leaps & Steps", generate_melody_leaps_steps);
    ("Minimalist",
     fun scale_notes melody_style melody_speed melody_octave instrument_type =>
       generate_melody_minimalist scale_notes melody_style melody_speed melody_octave
         instrument_type fuel);
    ("Sustained Lead", generate_melody_sustained_lead) ].

(** Lines 2826-2833: the melody generator of a style name; "Random
    Style" draws one, an unknown name gets Chord Tone Focus. *)
Definition select_melody_func (fuel : nat) (melody_gen_style : string) : Rand melody_generator :=
  let melody_func := dict_get (melody_func_map fuel) melody_gen_style in
  if String.eqb melody_gen_style "Random Style" then
    let valid_funcs := map snd (melody_func_map fuel) in
    choice_or valid_funcs generate_melody_chord_focus
  else
    match melody_func with
    | Some f => ret f
    | None => ret generate_melody_chord_focus
    end.

(** [bass_func_map] (lines 2841-2848). *)
Definition bass_func_map : dict bass_generator :=
  [ ("Standard", fun progression_data scale_notes =>
                   ret (generate_bass_standard progression_data scale_notes));
    ("Walking (Jazz)", generate_bass_walking);
    ("Pop", generate_bass_pop);
    ("RnB", generate_bass_rnb);
    ("Hip Hop", generate_bass_hip_hop);
    ("808", fun progression_data scale_notes =>
              ret (generate_bass_808 progression_data scale_notes)) ].

(** [bass_func_map.get(bass_style, generate_bass_standard)]. *)
Definition select_bass_func (bass_style : string) : bass_generator :=
  match dict_get bass_func_map bass_style with
  | Some f => f
  | None => fun progression_data scale_notes =>
              ret (generate_bass_standard progression_data scale_notes)
  end.

(** What steps 3 and 4 of the entry point leave in [self]. *)
Record parts : Type := mk_parts {
  generated_arp_midi_data : list arp_event;
  generated_melody_midi_data : list note_event;
  generated_bass_midi_data : list note_event
}.

(** Lines 2805-2857: the scale of the key, then arpeggio, melody and
    bass over the progression just generated, each only if asked for.
    The scale of a key is never empty, so the guard of line 2808 never
    fires. *)
Definition generate_parts (is_minor_key : bool) (chosen_key_root_midi : Z)
    (bass_style arp_style arp_octave melody_gen_style melody_octave melody_articulation
       melody_speed melody_instrument : string)
    (include_arp include_melody include_bass : bool) (fuel : nat)
    (generated_chords_progression : progression) : Rand parts :=
  let scale_notes :=
    if is_minor_key then get_natural_minor_scale_notes chosen_key_root_midi
    else get_major_scale_notes chosen_key_root_midi in
  arp <- (if include_arp
          then _generate_arpeggio arp_style arp_octave scale_notes fuel
                 generated_chords_progression
          else ret []) ;;
  melody <- (if include_melody
             then melody_func <- select_melody_func fuel melody_gen_style ;;
                  melody_func scale_notes melody_articulation melody_speed melody_octave
                    melody_instrument generated_chords_progression
             else ret []) ;;
  bass <- (if include_bass
           then select_bass_func bass_style generated_chords_progression scale_notes
           else ret []) ;;
  ret (mk_parts arp melody bass).

(** ** MIDI writing *)

(** The calls that the writer makes on its [MIDIFile] object. *)
Inductive midi_call : Type :=
  | addTrackName (track : Z) (time : Q) (trackName : string)
  | addTempo (track : Z) (time : Q) (tempo : Z)
  | addText (track : Z) (time : Q) (text : string)
  | addNote (track channel pitch : Z) (time duration : Q) (volume : Z).

(** The [MIDIFile] object when it is written out: the number of tracks
    it was created with and the calls made on it, in order. *)
Record midi_file : Type := mk_midi_file {
  numTracks : Z;
  midi_calls : list midi_call
}.

(** Lines 3258-3261: [(track_map, num_tracks)]; a part gets a track
    when it is asked for and has notes. *)
Definition midi_track_map (include_arp include_melody include_bass : bool)
    (arp : list arp_event) (melody bass : list note_event) : dict Z * Z :=
  let st := ([("chords", 0)], 1, 1) in
  let add (wanted : bool) (key : string) (st : dict Z * Z * Z) :=
    let '(track_map, num_tracks, current_track_index) := st in
    if wanted then (dict_set track_map key current_track_index, num_tracks + 1,
                    current_track_index + 1)
    else st in
  let st := add (include_bass && negb (is_empty bass)) "bass" st in
  let st := add (include_arp && negb (is_empty arp)) "arp" st in
  let st := add (include_melody && negb (is_empty melody)) "melody" st in
  (fst (fst st), snd (fst st)).

(** Lines 3275-3288: one chord of the chords track; the state is the
    calls so far and the time cursor. *)
Definition write_chord (chord_track_idx : Z) (st : list midi_call * Q) (s : slot)
    : list midi_call * Q :=
  let chan := 0 in
  let vol_chord := 85 in
  let '(calls, time_cursor) := st in
  let duration_beats := duration_beats s in
  if Qleb duration_beats 0 then st
  else
    let calls :=
      if negb (is_empty (midi_notes s)) then
        calls
        ++ [addText chord_track_idx time_cursor
              (if String.eqb (display_name s) "" then "Chord" else display_name s)]
        ++ map (fun pitch => addNote chord_track_idx chan pitch time_cursor duration_beats
                               vol_chord)
             (filter (between 0 127) (midi_notes s))
      else calls in
    (calls, (time_cursor + duration_beats)%Q).

(** Lines 3312-3314: one melody note; the velocity is only drawn for a
    note that is written. *)
Definition write_melody_note (melody_track_idx : Z) (calls : list midi_call) (e : note_event)
    : Rand (list midi_call) :=
  let chan := 0 in
  let vol_melody := 100 in
  let '(pitch, time, dur) := e in
  if between 0 127 pitch && Qltb (1 # 1000) dur then
    r <- random_randint (-5) 5 ;;
    ret (calls ++ [addNote melody_track_idx chan pitch time dur
                     (Z.max 0 (Z.min 127 (vol_melody + r)))])
  else ret calls.

(** [_execute_write_midi_file], up to the file object that is written
    out.  The stored key, style and parts are arguments. *)
Definition _execute_write_midi_file (last_generated_key last_style_selection : string)
    (generated_chords_progression : progression) (generated_arp_midi_data : list arp_event)
    (generated_melody_midi_data generated_bass_midi_data : list note_event)
    (include_arp include_melody include_bass : bool) (melody_style melody_speed : string)
    (bpm_value : Z) (embed_tempo : bool) : Rand midi_file :=
  let '(track_map, num_tracks) :=
    midi_track_map include_arp include_melody include_bass generated_arp_midi_data
      generated_melody_midi_data generated_bass_midi_data in
  let chan := 0 in
  let start_time := 0%Q in
  let vol_bass := 110 in
  let key_and_style := (last_generated_key ++ " " ++ last_style_selection)%string in
  let chord_track_idx := match dict_get track_map "chords" with
                         | Some i => i
                         | None => 0
                         end in
  let calls := [addTrackName chord_track_idx start_time
                  ("Chords (" ++ key_and_style ++ ")")%string] in
  let calls := if embed_tempo then calls ++ [addTempo chord_track_idx start_time bpm_value]
               else calls in
  let calls := fst (fold_left (write_chord chord_track_idx) generated_chords_progression
                      (calls, start_time)) in
  let calls :=
    match dict_get track_map "bass" with
    | Some bass_track_idx =>
        calls
        ++ [addTrackName bass_track_idx start_time ("Bass (" ++ key_and_style ++ ")")%string]
        ++ map (fun e : note_event =>
                  let '(pitch, time, dur) := e in
                  addNote bass_track_idx chan pitch time dur vol_bass)
             (filter (fun e : note_event =>
                        let '(pitch, time, dur) := e in
                        between 0 127 pitch && Qltb (1 # 100) dur)
                generated_bass_midi_data)
    | None => calls
    end in
  let calls :=
    match dict_get track_map "arp" with
    | Some arp_track_idx =>
        calls
        ++ [addTrackName arp_track_idx start_time ("Arp (" ++ key_and_style ++ ")")%string]
        ++ map (fun e : arp_event =>
                  let '(pitch, time, dur, vel) := e in
                  addNote arp_track_idx chan pitch time dur vel)
             (filter (fun e : arp_event =>
                        let '(pitch, time, dur, vel) := e in
                        between 0 127 pitch && Qltb (1 # 1000) dur)
                generated_arp_midi_data)
    | None => calls
    end in
  calls <-
    match dict_get track_map "melody" with
    | Some melody_track_idx =>
        foldM (write_melody_note melody_track_idx) generated_melody_midi_data
          (calls
           ++ [addTrackName melody_track_idx start_time
                 ("Melody (" ++ key_and_style ++ " " ++ melody_style ++ " " ++ melody_speed
                  ++ ")")%string])
    | None => ret calls
    end ;;
  ret (mk_midi_file num_tracks calls).

(** ** Vocabulary of the properties *)

(** The harmonic plan of the twelve bars. *)
Definition blues_pattern {A} (tonic subdom dom : A) : list A :=
  [tonic; tonic; tonic; tonic; subdom; subdom; tonic; tonic; dom; subdom; tonic; dom].

(** The key name that the caller builds from root and type (line 2597). *)
Definition key_name_of (key_root_name key_type : string) : string :=
  (key_root_name ++ (if String.eqb key_type "minor" then "m" else ""))%string.

(** A slot that carries a pool chord in root position over a whole bar:
    named by the pool key, original notes as stored, MIDI notes one
    octave below them, first stored note as bass root, four beats. *)
Definition root_position_slot (pool : chord_pool) (s : slot) : Prop :=
  exists data,
    dict_get pool (display_name s) = Some data
    /\ original_notes s = notes data
    /\ midi_notes s = map (fun note => note - 12) (notes data)
    /\ bass_root_note s = hd_error (notes data)
    /\ duration_beats s = 4%Q.

Definition pitch_class (n : Z) : Z := n mod 12.

(** Same number of notes and the same multiset of pitch classes. *)
Definition same_pitch_classes (a b : list Z) : Prop :=
  List.length a = List.length b
  /\ Permutation (map pitch_class a) (map pitch_class b).

(** A postcondition that holds of the value of a randomised computation
    whatever the tape. *)
Definition always {A} (m : Rand A) (P : A -> Prop) : Prop :=
  forall t, P (fst (m t)).

(** What [_apply_voicing] guarantees at the playback shift, for every
    style and every tape: the original notes are the input, the MIDI
    notes are the final notes one octave down, and both carry the pitch
    classes of the input. *)
Definition voiced_ok (root_pos_notes : list Z) (v : voiced) : Prop :=
  v_original v = root_pos_notes
  /\ v_midi v = transpose_notes (v_final v) (-12)
  /\ same_pitch_classes (v_final v) root_pos_notes
  /\ same_pitch_classes (v_midi v) root_pos_notes
  /\ v_root v = hd_error root_pos_notes.

Definition selection_ok (sel : selection) : Prop :=
  same_pitch_classes (s_midi sel) (s_original sel).

Definition best_ok (b : option best) : Prop :=
  match b with
  | Some b => same_pitch_classes (b_notes_voiced b) (b_orig_notes b)
  | None => True
  end.

Definition scan_ok (st : scan) : Prop := best_ok (best_con st) /\ best_ok (best_uncon st).

(** A slot of the expected duration whose MIDI notes carry the pitch
    classes of its original notes. *)
Definition slot_ok (beats_per_chord : Q) (s : slot) : Prop :=
  duration_beats s = beats_per_chord
  /\ same_pitch_classes (midi_notes s) (original_notes s).

(** A pool every entry of which has a non-empty name and notes. *)
Definition valid_pool (pool : chord_pool) : Prop :=
  pool <> []
  /\ forall name data, In (name, data) pool -> name <> "" /\ notes data <> [].

(** [a] is the value of [m] on some tape. *)
Definition outcome {A} (m : Rand A) (a : A) : Prop := exists t, fst (m t) = a.

Definition sum_beats (data : progression) : Q :=
  fold_right (fun s acc => (duration_beats s + acc)%Q) 0%Q data.

(** The pool is valid and the names passed along are its keys. *)
Definition well_formed_pool (pool : chord_pool) (pool_chord_names : list string) : Prop :=
  valid_pool pool /\ pool_chord_names = dict_keys pool.

(** A selection that keeps the pitch classes; a [break] only happens on
    a pool that is not well formed. *)
Definition selection_opt_ok (pool : chord_pool) (pool_chord_names : list string)
    (r : option selection) : Prop :=
  match r with
  | Some sel => selection_ok sel
  | None => ~ well_formed_pool pool pool_chord_names
  end.

(** One turn appends exactly one good slot, or breaks on a pool that is
    not well formed. *)
Definition step_post (beats_per_chord : Q) (pool : chord_pool) (pool_chord_names : list string)
    (st : gen_state) (r : option gen_state) : Prop :=
  match r with
  | Some st' =>
      exists s, progression_data st' = progression_data st ++ [s] /\ slot_ok beats_per_chord s
  | None => ~ well_formed_pool pool pool_chord_names
  end.


(** The boolean reading of [valid_pool]. *)
Definition valid_poolb (pool : chord_pool) : bool :=
  negb (is_empty pool)
  && forallb (fun e => negb (String.eqb (fst e) "") && negb (is_empty (notes (snd e)))) pool.

(** The pool that the entry point builds for a style other than blues. *)
Definition pool_for (pool_style : string) (is_minor_key : bool) (key_root_name : string)
    (root_midi_note : Z) (complexity : string) : chord_pool :=
  if String.eqb pool_style "Jazzy" then
    if is_minor_key
    then generate_jazz_minor_chord_pool key_root_name root_midi_note complexity
    else generate_jazz_major_chord_pool key_root_name root_midi_note complexity
  else
    if is_minor_key
    then generate_chorgi_minor_chord_pool key_root_name root_midi_note complexity
    else generate_chorgi_major_chord_pool key_root_name root_midi_note complexity.

(** *** Vocabulary of the smooth chord finder *)

(** The scan of a list of evaluated candidates, without the random
    draws that produced the evaluations. *)
Definition scan_evals (evals : list (best * bool)) (st : scan) : scan :=
  fold_left (fun st e => update_winners st (fst e) (snd e)) evals st.

(** The evaluated candidates that meet the voice-leading constraint. *)
Definition constrained (evals : list (best * bool)) : list (best * bool) :=
  filter snd evals.

(** The candidates among which the winner is chosen: the constrained
    ones when there is one, all of them otherwise. *)
Definition winner_scope (evals : list (best * bool)) : list (best * bool) :=
  match constrained evals with
  | [] => evals
  | c => c
  end.

(** [w] is one of [scope] and no member of [scope] is closer. *)
Definition is_min_of (w : best) (scope : list (best * bool)) : Prop :=
  (exists m, In (w, m) scope)
  /\ forall x m, In (x, m) scope -> (b_dist w <= b_dist x)%Q.

(** What the scan holds after the candidates [seen]. *)
Definition winner_inv (seen : list (best * bool)) (st : scan) : Prop :=
  con_met st = negb (is_empty (constrained seen))
  /\ match best_uncon st with
     | None => seen = []
     | Some u => is_min_of u seen
     end
  /\ match best_con st with
     | None => constrained seen = []
     | Some b => is_min_of b (constrained seen)
     end.

(** The evaluation of the candidate [cand_name] against the previous
    voiced notes [prev]: the candidate is a pool key with notes, [v] is a
    voicing of it, the distance is the bias-adjusted difference of the
    average pitches, and the flag tells whether its highest voiced note
    is at most 3 semitones above the previous highest. *)
Definition evaluation_of (pool : chord_pool) (prev : list Z)
    (chord_bias key_root_name voicing_style cand_name : string) (e : best * bool) : Prop :=
  exists data root v,
    dict_get pool cand_name = Some data
    /\ hd_error (notes data) = Some root
    /\ outcome (_apply_voicing (notes data) voicing_style cand_name (-12)) v
    /\ v_final v <> []
    /\ e = (mk_best
              (biased_distance chord_bias cand_name key_root_name
                 (Qabs (get_average_pitch (v_final v) - get_average_pitch prev)))
              (v_final v) (v_display v) root (v_original v),
            py_max (v_final v) <=? py_max prev + 3).

(** *** Vocabulary of the bass and arpeggio properties *)

Definition event_start (e : note_event) : Q := snd (fst e).
Definition event_duration (e : note_event) : Q := snd e.

(** The slot has a root and a positive duration: the bass generators
    play on it. *)
Definition playable (s : slot) : bool :=
  match bass_root_note s with
  | Some _ => negb (Qleb (duration_beats s) 0)
  | None => false
  end.

(** The start of each slot when the first starts at [t]. *)
Fixpoint slot_starts (t : Q) (l : progression) : list Q :=
  match l with
  | [] => []
  | s :: l' => t :: slot_starts (t + duration_beats s)%Q l'
  end.

(** An arpeggio note as the properties want it: a MIDI pitch of the
    scale, a velocity within five of 95, and a duration of at most an
    eighth note that is not negligible. *)
Definition arp_event_ok (scale_note_pcs : list Z) (e : arp_event) : Prop :=
  0 <= arp_pitch e <= 127
  /\ in_pcs scale_note_pcs (arp_pitch e) = true
  /\ 90 <= arp_velocity e <= 100
  /\ (1 # 100 < arp_duration e)%Q /\ (arp_duration e <= 5 # 10)%Q.

(** *** Vocabulary of the pool properties *)

(** Strictly ascending. *)
Fixpoint ascendingb (l : list Z) : bool :=
  match l with
  | [] => true
  | x :: l' =>
      match l' with
      | [] => true
      | y :: _ => (x <? y) && ascendingb l'
      end
  end.

(** The shape of a pool chord: strictly ascending notes, three of them
    at least and [max_notes] at most, and a name that begins with the
    name of the lowest note. *)
Definition chord_shape (max_notes : Z) (name : string) (data : chord_data) : Prop :=
  LocallySorted Z.lt (notes data)
  /\ 3 <= len (notes data) <= max_notes
  /\ exists root, hd_error (notes data) = Some root
                  /\ String.prefix (note_name root) name = true.

Definition chord_shapeb (max_notes : Z) (e : string * chord_data) : bool :=
  ascendingb (notes (snd e))
  && (3 <=? len (notes (snd e))) && (len (notes (snd e)) <=? max_notes)
  && match notes (snd e) with
     | root :: _ => String.prefix (note_name root) (fst e)
     | [] => false
     end.

(** The harmonic content of a pool: function and notes of each entry,
    in the order of the pool. *)
Definition pool_content (pool : chord_pool) : list (string * list Z) :=
  map (fun e => (function (snd e), notes (snd e))) pool.

(** The scale of a key. *)
Definition key_scale (is_minor_key : bool) (root_midi_note : Z) : list Z :=
  if is_minor_key then get_natural_minor_scale_notes root_midi_note
  else get_major_scale_notes root_midi_note.

Definition diatonic_chordb (scale_notes : list Z) (data : chord_data) : bool :=
  forallb (in_pcs (pcs_of scale_notes)) (notes data).

(** *** Vocabulary of the MIDI writer properties *)

Definition call_track (c : midi_call) : Z :=
  match c with
  | addTrackName track _ _ => track
  | addTempo track _ _ => track
  | addText track _ _ => track
  | addNote track _ _ _ _ _ => track
  end.

(** A call on a track of the file; a note has a MIDI pitch and a
    duration that is not negligible. *)
Definition call_ok (num_tracks : Z) (c : midi_call) : Prop :=
  0 <= call_track c < num_tracks
  /\ match c with
     | addNote _ channel pitch _ duration _ =>
         channel = 0 /\ 0 <= pitch <= 127 /\ (0 < duration)%Q
     | _ => True
     end.

(** The part is asked for and has notes. *)
Definition part_written {A} (include : bool) (data : list A) : bool :=
  include && negb (is_empty data).

Definition count_true (l : list bool) : Z := len (filter (fun b => b) l).

(** *** Vocabulary of the chord names along a progression *)

(** No pool name holds a slash: cutting a name at its first slash gives
    the name back. *)
Definition plain_names (pool : chord_pool) : Prop :=
  forall name, In name (dict_keys pool) -> base_name_of name = name.

Definition plain_namesb (pool : chord_pool) : bool :=
  forallb (fun name => String.eqb (base_name_of name) name) (dict_keys pool).

(** The selection carries the pool chord [name], voiced. *)
Definition selection_names (pool : chord_pool) (sel : selection) (name : string) : Prop :=
  s_name sel = Some name
  /\ In name (dict_keys pool) /\ name <> ""
  /\ (exists disp, s_display sel = Some disp /\ base_name_of disp = name)
  /\ s_original sel <> [] /\ s_final sel <> [] /\ s_midi sel <> [] /\ s_root sel <> None.

(** The slot carries the pool chord [name]. *)
Definition slot_names (pool : chord_pool) (s : slot) (name : string) : Prop :=
  In name (dict_keys pool) /\ base_name_of (display_name s) = name.

(** The template of the style asks, at this slot, for a function that
    the pool does not offer, or the style has no template: the slot is
    left to the smooth chord finder. *)
Definition left_to_finder (pool : chord_pool) (prog_style : string) (current_slot : Z) : Prop :=
  forall func, template_function prog_style current_slot = Some func ->
               forall m, ~ matching pool func m.

(** The pool has a name other than [p]. *)
Definition has_other_name (pool : chord_pool) (p : string) : Prop :=
  exists n, In n (dict_keys pool) /\ n <> p.

(** The chord of the slot answers the template: if the style has a
    template and the pool offers the function it asks for at this slot,
    the chord [name] has that function. *)
Definition follows_template (pool : chord_pool) (prog_style : string) (current_slot : Z)
    (name : string) : Prop :=
  forall func, template_function prog_style current_slot = Some func ->
               (exists m, matching pool func m) -> matching pool func name.

(** The chord of a slot left to the finder is not the previous chord
    [prev], when the pool has another name. *)
Definition avoids_previous (pool : chord_pool) (prog_style : string) (current_slot : Z)
    (prev : option string) (name : string) : Prop :=
  left_to_finder pool prog_style current_slot ->
  forall p, prev = Some p -> has_other_name pool p -> name <> p.

(** One turn of the generation loop on a valid pool: a slot is stored,
    it carries a pool chord, and the loop variables remember it. *)
Definition named_step (pool : chord_pool) (prog_style : string) (current_slot : Z)
    (st : gen_state) (r : option gen_state) : Prop :=
  exists st' s name,
    r = Some st'
    /\ progression_data st' = progression_data st ++ [s]
    /\ slot_names pool s name
    /\ previous_chord_name_base st' = Some name
    /\ previous_chord_final_notes st' <> None
    /\ follows_template pool prog_style current_slot name
    /\ (previous_chord_final_notes st <> None ->
        avoids_previous pool prog_style current_slot (previous_chord_name_base st) name).

(** The slots that the loop appends from [current_slot] on, seen from
    the state [st] it starts in. *)
Definition named_slots (pool : chord_pool) (prog_style : string) (current_slot : Z)
    (st : gen_state) (ext : progression) : Prop :=
  (forall k s, nth_error ext k = Some s ->
     slot_names pool s (base_name_of (display_name s))
     /\ follows_template pool prog_style (current_slot + Z.of_nat k)
          (base_name_of (display_name s)))
  /\ (forall k s1 s2, nth_error ext k = Some s1 -> nth_error ext (S k) = Some s2 ->
        avoids_previous pool prog_style (current_slot + Z.of_nat (S k))
          (Some (base_name_of (display_name s1))) (base_name_of (display_name s2)))
  /\ (forall s, nth_error ext 0 = Some s ->
        previous_chord_final_notes st <> None ->
        avoids_previous pool prog_style current_slot (previous_chord_name_base st)
          (base_name_of (display_name s))).
(** * Properties *)

(** *** Facts about [sorted] *)

Lemma insert_sorted_perm x l : Permutation (x :: l) (insert_sorted x l).
Proof.
  induction l as [|y l IH]; simpl.
  - apply Permutation_refl.
  - destruct (x <=? y).
    + apply Permutation_refl.
    + eapply Permutation_trans; [apply perm_swap|].
      now apply perm_skip.
Qed.

Lemma sorted_perm l : Permutation l (sorted l).
Proof.
  induction l as [|x l IH]; simpl.
  - constructor.
  - eapply Permutation_trans; [|apply insert_sorted_perm].
    now apply perm_skip.
Qed.

Lemma sorted_length l : List.length (sorted l) = List.length l.
Proof. symmetry. apply Permutation_length, sorted_perm. Qed.

Lemma insert_sorted_ascending x l :
  LocallySorted Z.le l -> LocallySorted Z.le (insert_sorted x l).
Proof.
  induction 1 as [|a|a b l Hs IH Hab]; simpl.
  - constructor.
  - destruct (Z.leb_spec x a); constructor; try constructor; lia.
  - destruct (Z.leb_spec x a).
    + constructor; [constructor; assumption | lia].
    + simpl in IH. destruct (Z.leb_spec x b).
      * constructor; [assumption | lia].
      * constructor; [assumption | lia].
Qed.

Lemma sorted_ascending l : LocallySorted Z.le (sorted l).
Proof.
  induction l; simpl; [constructor | now apply insert_sorted_ascending].
Qed.

Lemma insert_sorted_head x l :
  LocallySorted Z.le (x :: l) -> insert_sorted x l = x :: l.
Proof.
  destruct l as [|y l]; simpl; [reflexivity|].
  intros H. inversion H; subst.
  destruct (Z.leb_spec x y); [reflexivity | lia].
Qed.

Lemma sorted_fixpoint l : LocallySorted Z.le l -> sorted l = l.
Proof.
  induction l as [|x l IH]; simpl; intros H; [reflexivity|].
  assert (Hl : LocallySorted Z.le l) by (inversion H; subst; [constructor | assumption]).
  rewrite (IH Hl). now apply insert_sorted_head.
Qed.

Lemma sorted_idempotent l : sorted (sorted l) = sorted l.
Proof. apply sorted_fixpoint, sorted_ascending. Qed.

(** ** Inversion: the index guard *)

(** C6 (as stated, refuted): an index at or beyond the number of notes
    is not clamped to the last inversion.  On the C major triad, index 3
    gives back the root position, whereas clamping to 2 would give the
    second inversion. *)
Lemma calculate_inversion_not_clamped :
  calculate_inversion [60; 64; 67] 3 = [60; 64; 67] /\
  invert_clamped [60; 64; 67] 3 = [67; 72; 76] /\
  calculate_inversion [60; 64; 67] 3 <> invert_clamped [60; 64; 67] 3.
Proof. repeat split; try reflexivity. discriminate. Qed.

(** C6 (amended): for every note list and every integer index,
    [calculate_inversion] returns the sorted input when the index is
    outside [0, len-1] (negative, or at or beyond the number of notes),
    and for an index k inside that range it returns the sorted result of
    raising the lowest k notes by 12 semitones; index 0 is the identity
    on the sorted input. *)
Theorem calculate_inversion_guarded (notes : list Z) (inv_num : Z) :
  calculate_inversion notes inv_num =
    (if (0 <=? inv_num) && (inv_num <? len notes)
     then raise_lowest (Z.to_nat inv_num) notes
     else sorted notes)
  /\ calculate_inversion notes 0 = sorted notes.
Proof.
  unfold calculate_inversion, raise_lowest, len.
  rewrite sorted_length.
  split.
  - destruct (Z.ltb_spec inv_num 0) as [Hneg|Hnn]; simpl.
    + destruct (Z.leb_spec 0 inv_num); [lia | reflexivity].
    + destruct (Z.leb_spec 0 inv_num); [|lia]. simpl.
      destruct (Z.geb_spec inv_num (Z.of_nat (List.length notes))) as [Hge|Hlt].
      * destruct (Z.ltb_spec inv_num (Z.of_nat (List.length notes))); [lia | reflexivity].
      * destruct (Z.ltb_spec inv_num (Z.of_nat (List.length notes))); [|lia].
        destruct (Z.eqb_spec inv_num 0) as [->|Hnz]; [|reflexivity].
        simpl. rewrite app_nil_r. symmetry. apply sorted_idempotent.
  - simpl. destruct (0 >=? Z.of_nat (List.length notes)); reflexivity.
Qed.

(** ** Voicing *)

(** C9: for every non-empty root-position note list, "Root Position"
    voicing is the identity: the original notes and the final voiced
    notes are the input, the display name is the base name with nothing
    appended, the MIDI notes are the input transposed by the playback
    octave shift, the root is the first input note, and no random draw
    is consumed. *)
Theorem root_position_voicing_identity
    (root_pos_notes : list Z) (base_name : string) (chord_octave_shift : Z) (t : tape) :
  root_pos_notes <> [] ->
  _apply_voicing root_pos_notes "Root Position" base_name chord_octave_shift t =
    (mk_voiced root_pos_notes root_pos_notes
       (map (fun note => note + chord_octave_shift) root_pos_notes)
       (hd_error root_pos_notes) base_name, t).
Proof.
  intros Hne. destruct root_pos_notes as [|root rest]; [contradiction|].
  reflexivity.
Qed.

(** The C major triad under "Root Position": nothing changes but the
    register of the MIDI notes. *)
Lemma root_position_voicing_identity_witness :
  _apply_voicing [60; 64; 67] "Root Position" "Cmaj" (-12) [5; 9] =
    (mk_voiced [60; 64; 67] [60; 64; 67] [48; 52; 55] (Some 60) "Cmaj", [5; 9]).
Proof.
  apply (root_position_voicing_identity [60; 64; 67] "Cmaj" (-12) [5; 9]).
  discriminate.
Defined.


Lemma randbelow_range (n : Z) (t : tape) : 0 < n -> 0 <= fst (randbelow n t) < n.
Proof.
  intros Hn. unfold randbelow, bind, draw, ret.
  destruct t; simpl; apply Z.mod_pos_bound; assumption.
Qed.

Lemma random_randint_range (a b : Z) (t : tape) :
  a <= b -> a <= fst (random_randint a b t) <= b.
Proof.
  intros Hab. unfold random_randint, bind.
  pose proof (randbelow_range (b - a + 1) t ltac:(lia)) as H.
  destruct (randbelow (b - a + 1) t) as [x t']. simpl in *. lia.
Qed.






(** ** Random choices stay inside the sequence *)

Lemma random_choice_some {A} (l : list A) (t : tape) :
  l <> [] -> exists x, fst (random_choice l t) = Some x /\ In x l.
Proof.
  intros Hne. destruct l as [|a l]; [contradiction|].
  unfold random_choice, bind, ret.
  pose proof (randbelow_range (len (a :: l)) t) as Hr.
  destruct (randbelow (len (a :: l)) t) as [i t']. simpl fst in *.
  assert (Hi : (Z.to_nat i < List.length (a :: l))%nat).
  { unfold len in Hr. specialize (Hr ltac:(simpl; lia)). lia. }
  destruct (nth_error (a :: l) (Z.to_nat i)) eqn:E.
  - exists a0. split; [reflexivity|]. eapply nth_error_In; eassumption.
  - apply nth_error_None in E. lia.
Qed.


(** ** Harmonic function resolver *)

Lemma function_matches_of_spec (pool : chord_pool) (function_target name : string) :
  In name (function_matches_of pool function_target) <-> matching pool function_target name.
Proof.
  unfold function_matches_of, matching. rewrite in_map_iff. split.
  - intros ((n, d) & Hn & Hin). simpl in Hn. subst n.
    apply filter_In in Hin. destruct Hin as [Hin Hm]. eauto.
  - intros (d & Hin & Hm). exists (name, d). split; [reflexivity|].
    apply filter_In. auto.
Qed.


(** ** 12-bar blues *)

(** One key: the existential witnesses are computed, then every
    equation is checked by evaluation. *)
Ltac blues_slot :=
  match goal with
  | |- exists data, dict_get ?pool ?name = Some data /\ _ =>
      let d := eval vm_compute in (dict_get pool name) in
      match d with
      | Some ?data => exists data; repeat split; vm_compute; reflexivity
      end
  end.

Ltac blues_case :=
  match goal with
  | |- exists root pool tonic subdom dom,
         ROOT_NOTES_MIDI ?k = _ /\ generate_blues_chord_pool _ _ ?ty = _ /\ _ =>
      let r := eval vm_compute in (ROOT_NOTES_MIDI k) in
      match r with
      | Some ?root =>
          let p := eval vm_compute in (generate_blues_chord_pool k root ty) in
          match p with
          | Some ?pool =>
              let ks := eval vm_compute in (dict_keys pool) in
              match ks with
              | [?a; ?b; ?c] => exists root, pool, a, b, c
              end
          end
      end
  end;
  split; [vm_compute; reflexivity|];
  split; [vm_compute; reflexivity|];
  split; [vm_compute; reflexivity|];
  split; [vm_compute; reflexivity|];
  intros;
  match goal with
  | |- exists data, ?e = _ /\ _ =>
      let v := eval vm_compute in (fst e) in
      match v with
      | Ok (mk_generation _ ?d) => exists d
      end
  end;
  split; [vm_compute; reflexivity|];
  split; [reflexivity|];
  split; [vm_compute; reflexivity|];
  repeat (constructor; [blues_slot|]); constructor.

(** The blues run in every key: the pool has three chords, and the
    entry point returns twelve root-position slots in the fixed order
    without touching the tape. *)
Lemma blues_run (key_root_name key_type : string) :
  In key_root_name NOTE_NAMES ->
  key_type = "major" \/ key_type = "minor" ->
  exists root pool tonic subdom dom,
    ROOT_NOTES_MIDI key_root_name = Some root
    /\ generate_blues_chord_pool key_root_name root key_type = Some pool
    /\ dict_keys pool = [tonic; subdom; dom]
    /\ map (fun e => function (snd e)) pool =
         (if String.eqb key_type "minor" then ["i7"; "iv7"; "V7"] else ["I7"; "IV7"; "V7"])
    /\ forall pool_style complexity num_bars_req chord_rate voicing_style cadence chord_bias t,
         exists data,
           _execute_generation_logic pool_style (key_name_of key_root_name key_type) key_type
             complexity num_bars_req "Blues (12 Bar)" chord_rate voicing_style cadence
             chord_bias t = (Ok (mk_generation 12 data), t)
           /\ List.length data = 12%nat
           /\ map display_name data = blues_pattern tonic subdom dom
           /\ Forall (root_position_slot pool) data.
Proof.
  intros Hroot Htype.
  unfold root_position_slot.
  simpl in Hroot.
  destruct Htype as [-> | ->];
    repeat (destruct Hroot as [<- | Hroot]; [blues_case|]); contradiction.
Qed.

(** C1: for every key root and key type, the "Blues (12 Bar)" style sets
    the bar count to 12 whatever was requested, and yields exactly 12
    slots of 4 beats that follow I-I-I-I-IV-IV-I-I-V-IV-I-V over the
    three chord names of the blues pool, every chord in root position
    (stored notes unchanged, MIDI notes one octave below, no suffix on
    the name), without consuming any random draw; in A minor the names
    are Am7 x4, Dm7 x2, Am7 x2, E7, Dm7, Am7, E7. *)
Theorem blues_progression_fixed_pattern :
  (forall key_root_name key_type,
     In key_root_name NOTE_NAMES ->
     key_type = "major" \/ key_type = "minor" ->
     exists root pool tonic subdom dom,
       ROOT_NOTES_MIDI key_root_name = Some root
       /\ generate_blues_chord_pool key_root_name root key_type = Some pool
       /\ dict_keys pool = [tonic; subdom; dom]
       /\ map (fun e => function (snd e)) pool =
            (if String.eqb key_type "minor" then ["i7"; "iv7"; "V7"] else ["I7"; "IV7"; "V7"])
       /\ forall pool_style complexity num_bars_req chord_rate voicing_style cadence chord_bias t,
            exists data,
              _execute_generation_logic pool_style (key_name_of key_root_name key_type) key_type
                complexity num_bars_req "Blues (12 Bar)" chord_rate voicing_style cadence
                chord_bias t = (Ok (mk_generation 12 data), t)
              /\ List.length data = 12%nat
              /\ map display_name data = blues_pattern tonic subdom dom
              /\ Forall (root_position_slot pool) data)
  /\ (forall pool_style complexity num_bars_req chord_rate voicing_style cadence chord_bias t,
        exists data,
          fst (_execute_generation_logic pool_style "Am" "minor" complexity num_bars_req
                 "Blues (12 Bar)" chord_rate voicing_style cadence chord_bias t)
            = Ok (mk_generation 12 data)
          /\ map display_name data =
               ["Am7"; "Am7"; "Am7"; "Am7"; "Dm7"; "Dm7"; "Am7"; "Am7"; "E7"; "Dm7"; "Am7"; "E7"]).
Proof.
  split.
  - exact blues_run.
  - intros. eexists. split; reflexivity.
Qed.

(** A blues run in A minor with four bars, two chords per bar and a
    cadence requested: none of them is taken into account. *)
Lemma blues_progression_fixed_pattern_witness :
  exists data,
    fst (_execute_generation_logic "Jazzy" "Am" "minor" "Extra (Extensions)" (Some 4)
           "Blues (12 Bar)" "2 / Bar" "Allow Inversions" "Plagal (IV-I)" "Darker" [1; 2; 3])
      = Ok (mk_generation 12 data)
    /\ map display_name data =
         ["Am7"; "Am7"; "Am7"; "Am7"; "Dm7"; "Dm7"; "Am7"; "Am7"; "E7"; "Dm7"; "Am7"; "E7"].
Proof.
  exact (proj2 blues_progression_fixed_pattern "Jazzy" "Extra (Extensions)" (Some 4) "2 / Bar"
           "Allow Inversions" "Plagal (IV-I)" "Darker" [1; 2; 3]).
Defined.

(** ** Reasoning about randomised computations *)

Lemma always_ret {A} (a : A) (P : A -> Prop) : P a -> always (ret a) P.
Proof. intros H t. exact H. Qed.

Lemma always_bind {A B} (m : Rand A) (k : A -> Rand B) (P : A -> Prop) (Q : B -> Prop) :
  always m P -> (forall a, P a -> always (k a) Q) -> always (bind m k) Q.
Proof.
  intros Hm Hk t. unfold bind. specialize (Hm t).
  destruct (m t) as [a t']. simpl in Hm. apply Hk. exact Hm.
Qed.

Lemma always_weaken {A} (m : Rand A) (P Q : A -> Prop) :
  always m P -> (forall a, P a -> Q a) -> always m Q.
Proof. intros Hm HPQ t. apply HPQ, Hm. Qed.

Lemma always_true {A} (m : Rand A) : always m (fun _ => True).
Proof. intros t. exact I. Qed.

Lemma always_foldM {A B} (f : A -> B -> Rand A) (I : A -> Prop) (l : list B) :
  (forall a x, I a -> always (f a x) I) ->
  forall a, I a -> always (foldM f l a) I.
Proof.
  intros Hf. induction l as [|x l IH]; intros a Ha; simpl.
  - apply always_ret. exact Ha.
  - eapply always_bind; [apply Hf; exact Ha|]. intros a' Ha'. apply IH. exact Ha'.
Qed.

(** ** Pitch classes under the note transforms *)

Lemma pitch_class_up (n : Z) : pitch_class (n + 12) = pitch_class n.
Proof.
  unfold pitch_class. replace (n + 12) with (n + 1 * 12) by lia.
  apply Z.mod_add. lia.
Qed.

Lemma pitch_class_down (n : Z) : pitch_class (n - 12) = pitch_class n.
Proof.
  unfold pitch_class. replace (n - 12) with (n + (-1) * 12) by lia.
  apply Z.mod_add. lia.
Qed.

Lemma map_pitch_class_up (l : list Z) :
  map pitch_class (map (fun note => note + 12) l) = map pitch_class l.
Proof.
  rewrite map_map. apply map_ext. intros. apply pitch_class_up.
Qed.

Lemma map_pitch_class_octave_down (l : list Z) :
  map pitch_class (transpose_notes l (-12)) = map pitch_class l.
Proof.
  unfold transpose_notes. rewrite map_map. apply map_ext. intros a.
  change (a + -12) with (a - 12). apply pitch_class_down.
Qed.

Lemma same_pitch_classes_refl (l : list Z) : same_pitch_classes l l.
Proof. split; [reflexivity | apply Permutation_refl]. Qed.

Lemma same_pitch_classes_trans (a b c : list Z) :
  same_pitch_classes a b -> same_pitch_classes b c -> same_pitch_classes a c.
Proof.
  intros [L1 P1] [L2 P2]. split; [congruence | eapply Permutation_trans; eassumption].
Qed.

Lemma same_pitch_classes_of_perm (a b : list Z) :
  Permutation (map pitch_class a) (map pitch_class b) -> same_pitch_classes a b.
Proof.
  intros H. split; [|exact H].
  apply Permutation_length in H. rewrite !length_map in H. exact H.
Qed.

Lemma sorted_same_pitch_classes (l : list Z) : same_pitch_classes (sorted l) l.
Proof.
  apply same_pitch_classes_of_perm, Permutation_map, Permutation_sym, sorted_perm.
Qed.

Lemma calculate_inversion_same_pitch_classes (l : list Z) (inv_num : Z) :
  same_pitch_classes (calculate_inversion l inv_num) l.
Proof.
  unfold calculate_inversion.
  destruct ((inv_num <? 0) || (inv_num >=? len (sorted l))); [apply sorted_same_pitch_classes|].
  destruct (inv_num =? 0); [apply sorted_same_pitch_classes|].
  eapply same_pitch_classes_trans; [apply sorted_same_pitch_classes|].
  eapply same_pitch_classes_trans; [|apply sorted_same_pitch_classes].
  apply same_pitch_classes_of_perm.
  rewrite map_app, map_pitch_class_up, <- map_app.
  apply Permutation_map.
  eapply Permutation_trans; [apply Permutation_app_comm|].
  rewrite firstn_skipn. apply Permutation_refl.
Qed.

Lemma calculate_drop2_voicing_same_pitch_classes (l : list Z) :
  same_pitch_classes (calculate_drop2_voicing l) l.
Proof.
  unfold calculate_drop2_voicing.
  pose proof (sorted_same_pitch_classes l) as Hs.
  destruct (sorted l) as [|n0 [|n1 [|n2 [|n3 [|n4 r]]]]]; try exact Hs.
  eapply same_pitch_classes_trans; [apply sorted_same_pitch_classes|].
  eapply same_pitch_classes_trans; [|exact Hs].
  apply same_pitch_classes_of_perm. simpl.
  rewrite pitch_class_down.
  do 2 apply perm_skip. apply perm_swap.
Qed.

Lemma transpose_octave_down_same_pitch_classes (l : list Z) :
  same_pitch_classes (transpose_notes l (-12)) l.
Proof.
  apply same_pitch_classes_of_perm. rewrite map_pitch_class_octave_down.
  apply Permutation_refl.
Qed.


(** ** Voicing keeps the pitch classes *)

Lemma apply_voicing_ok (root_pos_notes : list Z) (voicing_style base_name : string) :
  always (_apply_voicing root_pos_notes voicing_style base_name (-12)) (voiced_ok root_pos_notes).
Proof.
  unfold _apply_voicing.
  destruct root_pos_notes as [|root rest].
  - apply always_ret. unfold voiced_ok. simpl.
    repeat split; try reflexivity; apply Permutation_refl.
  - set (l := root :: rest).
    assert (Hfin : forall final name, same_pitch_classes final l ->
                   voiced_ok l (mk_voiced l final (transpose_notes final (-12)) (Some root) name)).
    { intros final name Hf. unfold voiced_ok. simpl.
      split; [reflexivity|]. split; [reflexivity|]. split; [exact Hf|].
      split; [|reflexivity].
      eapply same_pitch_classes_trans;
        [apply transpose_octave_down_same_pitch_classes | exact Hf]. }
    destruct (String.eqb voicing_style "Allow Inversions").
    + eapply always_bind; [apply always_true|]. intros inv_num _.
      apply always_ret. apply Hfin. apply calculate_inversion_same_pitch_classes.
    + destruct (String.eqb voicing_style "Prefer Drop 2" && (len l =? 4))%bool.
      * pose proof (calculate_drop2_voicing_same_pitch_classes l) as Hd.
        destruct (calculate_drop2_voicing l) as [|d ds].
        -- apply always_ret. apply Hfin. apply same_pitch_classes_refl.
        -- apply always_ret. apply Hfin. exact Hd.
      * apply always_ret. apply Hfin. apply same_pitch_classes_refl.
Qed.

Lemma voiced_ok_final_nonempty (l : list Z) (v : voiced) :
  voiced_ok l v -> l <> [] -> v_final v <> [] /\ v_midi v <> [] /\ v_original v <> []
                              /\ v_root v <> None.
Proof.
  intros (Ho & Hm & [Lf _] & [Lm _] & Hr) Hne.
  destruct l as [|x l]; [contradiction|].
  repeat split.
  - intros E. rewrite E in Lf. discriminate.
  - intros E. rewrite E in Lm. discriminate.
  - rewrite Ho. discriminate.
  - rewrite Hr. discriminate.
Qed.

Lemma selection_error_ok : selection_ok selection_error.
Proof. apply same_pitch_classes_refl. Qed.

Lemma selection_none_ok : selection_ok selection_none.
Proof. apply same_pitch_classes_refl. Qed.

Lemma voice_choice_ok (pool : chord_pool) (voicing_style : string) (choice : option string) :
  always (voice_choice pool voicing_style (-12) choice) selection_ok.
Proof.
  unfold voice_choice.
  destruct choice as [name|]; [|apply always_ret, selection_error_ok].
  destruct (PyStr.truthy (Some name)); [|apply always_ret, selection_error_ok].
  destruct (dict_get pool name) as [data|]; [|apply always_ret, selection_error_ok].
  destruct (notes data) as [|n ns] eqn:En; [apply always_ret, selection_error_ok|].
  eapply always_bind; [apply apply_voicing_ok|].
  intros v (Ho & Hm & Hf & Hmidi & Hr). apply always_ret.
  unfold selection_ok, selection_of_voiced. simpl. rewrite Ho. exact Hmidi.
Qed.

(** A candidate that is evaluated has non-empty voiced notes, which carry
    the pitch classes of its original notes. *)
Lemma evaluate_candidate_ok (pool : chord_pool) (prev_avg : Q) (prev_high : Z)
    (chord_bias key_root_name voicing_style cand_name : string) :
  always (evaluate_candidate pool prev_avg prev_high chord_bias key_root_name voicing_style
            (-12) cand_name)
    (fun r => match r with
              | Some (b, _) => best_ok (Some b) /\ b_notes_voiced b <> []
              | None => True
              end).
Proof.
  unfold evaluate_candidate.
  destruct (dict_get pool cand_name) as [data|]; [|apply always_ret; exact I].
  destruct (notes data) as [|n ns] eqn:En; [apply always_ret; exact I|].
  eapply always_bind; [apply apply_voicing_ok|].
  intros v (Ho & Hm & Hf & Hmidi & Hr).
  destruct (v_final v) as [|f fs] eqn:Ef; simpl is_empty; cbv iota.
  - apply always_ret. exact I.
  - apply always_ret. simpl. rewrite Ho. split; [exact Hf | discriminate].
Qed.

Lemma update_winners_ok (st : scan) (b : best) (meets_con : bool) :
  scan_ok st -> best_ok (Some b) -> scan_ok (update_winners st b meets_con).
Proof.
  intros [Hc Hu] Hb. unfold update_winners, scan_ok.
  destruct meets_con; simpl.
  - destruct (improves (b_dist b) (best_con st)), (improves (b_dist b) (best_uncon st));
      split; assumption.
  - destruct (improves (b_dist b) (best_uncon st)); split; assumption.
Qed.

Lemma scan_candidate_ok (pool : chord_pool) (prev_avg : Q) (prev_high : Z)
    (chord_bias key_root_name voicing_style : string) (st : scan) (cand_name : string) :
  scan_ok st ->
  always (scan_candidate pool prev_avg prev_high chord_bias key_root_name voicing_style (-12)
            st cand_name) scan_ok.
Proof.
  intros Hst. unfold scan_candidate.
  eapply always_bind; [apply evaluate_candidate_ok|].
  intros [[b m]|] Hr; apply always_ret; [|exact Hst].
  apply update_winners_ok; [exact Hst | apply Hr].
Qed.

Lemma selection_of_best_ok (b : best) : best_ok (Some b) -> selection_ok (selection_of_best b (-12)).
Proof.
  intros Hb. unfold selection_ok, selection_of_best. simpl.
  eapply same_pitch_classes_trans; [apply transpose_octave_down_same_pitch_classes|exact Hb].
Qed.

Lemma usable_ok (b : option best) : best_ok b -> best_ok (usable b).
Proof.
  destruct b as [x|]; simpl; [|trivial].
  destruct (is_empty (b_notes_voiced x)); simpl; trivial.
Qed.

Lemma choose_winner_ok (pool : chord_pool) (pool_chord_names : list string)
    (prev_name : option string) (voicing_style : string) (st : scan) :
  scan_ok st ->
  always (choose_winner pool pool_chord_names prev_name voicing_style (-12) st) selection_ok.
Proof.
  intros [Hc Hu]. unfold choose_winner.
  apply usable_ok in Hc. apply usable_ok in Hu.
  destruct (con_met st); [destruct (usable (best_con st)) as [b|]|].
  - apply always_ret, selection_of_best_ok; exact Hc.
  - destruct (usable (best_uncon st)) as [u|].
    + apply always_ret, selection_of_best_ok; exact Hu.
    + eapply always_bind; [apply always_true|]. intros c _. apply voice_choice_ok.
  - destruct (usable (best_uncon st)) as [u|].
    + apply always_ret, selection_of_best_ok; exact Hu.
    + eapply always_bind; [apply always_true|]. intros c _. apply voice_choice_ok.
Qed.

Lemma find_next_smooth_chord_ok (pool : chord_pool) (pool_chord_names : list string)
    (prev_notes_voiced : option (list Z)) (prev_name : option string)
    (chord_bias key_root_name voicing_style : string) :
  always (_find_next_smooth_chord pool pool_chord_names prev_notes_voiced prev_name chord_bias
            key_root_name voicing_style (-12)) selection_ok.
Proof.
  unfold _find_next_smooth_chord.
  destruct prev_notes_voiced as [prev|].
  - destruct (possible_candidates pool_chord_names prev_name) as [|c cs] eqn:Ep.
    + apply always_ret, selection_error_ok.
    + eapply always_bind; [apply always_true|]. intros candidates _.
      eapply always_bind.
      * apply always_foldM with (I := scan_ok).
        -- intros a x Ha. apply scan_candidate_ok. exact Ha.
        -- split; exact I.
      * intros st Hst. apply choose_winner_ok. exact Hst.
  - eapply always_bind; [apply always_true|]. intros c _. apply voice_choice_ok.
Qed.

(** ** Dictionary facts *)

Lemma dict_get_in {V} (d : dict V) (k : string) (v : V) :
  dict_get d k = Some v -> In (k, v) d.
Proof.
  induction d as [|[k' v'] d IH]; simpl; [discriminate|].
  destruct (String.eqb_spec k' k) as [->|Hne].
  - intros [= ->]. left. reflexivity.
  - intros H. right. apply IH. exact H.
Qed.

Lemma dict_keys_get {V} (d : dict V) (k : string) :
  In k (dict_keys d) -> exists v, dict_get d k = Some v.
Proof.
  induction d as [|[k' v'] d IH]; simpl; [contradiction|].
  intros [->|Hin].
  - rewrite String.eqb_refl. eauto.
  - destruct (String.eqb k' k); [eauto | apply IH; exact Hin].
Qed.

Lemma truthy_some (n : string) : PyStr.truthy (Some n) = true <-> n <> "".
Proof.
  unfold PyStr.truthy. destruct (String.eqb_spec n ""); simpl; split; congruence.
Qed.

Lemma always_conj {A} (m : Rand A) (P Q : A -> Prop) :
  always m P -> always m Q -> always m (fun a => P a /\ Q a).
Proof. intros HP HQ t. split; [apply HP | apply HQ]. Qed.

Lemma always_under {A} (m : Rand A) (V : Prop) (Q : A -> Prop) :
  (V -> always m Q) -> always m (fun a => V -> Q a).
Proof. intros H t HV. apply H. exact HV. Qed.

Lemma always_random_choice {A} (l : list A) :
  l <> [] -> always (random_choice l) (fun r => exists x, r = Some x /\ In x l).
Proof. intros Hne t. apply random_choice_some. exact Hne. Qed.

(** ** The generation loop *)

Section GenerateFacts.

Variables (prog_style chord_rate_str voicing_style cadence_str chord_bias : string).
Variables (pool : chord_pool) (pool_chord_names : list string).
Variables (key_type key_root_name : string) (is_minor : bool).

Let beats_per_chord : Q := beats_per_chord_of chord_rate_str.

Let well_formed : Prop := well_formed_pool pool pool_chord_names.

Lemma valid_pool_get (name : string) (data : chord_data) :
  valid_pool pool -> dict_get pool name = Some data -> name <> "" /\ notes data <> [].
Proof. intros [_ Hv] Hg. apply Hv. apply dict_get_in. exact Hg. Qed.

Lemma fallback_choice_valid (prev : option string) :
  well_formed ->
  always (fallback_choice pool pool_chord_names prev)
    (fun c => exists n d, c = Some n /\ dict_get pool n = Some d /\ n <> "" /\ notes d <> []).
Proof.
  intros [Hv ->]. unfold fallback_choice.
  destruct (PyStr.truthy prev && in_pool pool prev)%bool eqn:E.
  - apply always_ret. apply andb_prop in E. destruct E as [Ht Hin].
    destruct prev as [p|]; [|discriminate].
    unfold in_pool, pool_get in Hin. destruct (dict_get pool p) as [d|] eqn:Eg; [|discriminate].
    exists p, d. destruct (valid_pool_get p d Hv Eg). auto.
  - unfold choice_or_none.
    assert (Hne : dict_keys pool <> []).
    { destruct Hv as [Hp _]. destruct pool; [contradiction | discriminate]. }
    destruct (dict_keys pool) as [|k ks] eqn:Ek; [contradiction|].
    eapply always_weaken; [apply always_random_choice; discriminate|].
    intros r (x & -> & Hin). rewrite <- Ek in Hin.
    destruct (dict_keys_get pool x Hin) as [d Hd].
    exists x, d. destruct (valid_pool_get x d Hv Hd). auto.
Qed.

Let selection_opt_ok := selection_opt_ok pool pool_chord_names.

Lemma voice_template_ok (chord_name : string) :
  always (voice_template voicing_style pool chord_name) selection_ok.
Proof.
  unfold voice_template.
  destruct (dict_get pool chord_name) as [data|]; [|apply always_ret, selection_none_ok].
  destruct (notes data) as [|n ns] eqn:En; [apply always_ret, selection_none_ok|].
  eapply always_bind; [apply apply_voicing_ok|].
  intros v (Ho & Hm & Hf & Hmidi & Hr). apply always_ret.
  unfold selection_ok. simpl. rewrite Ho. exact Hmidi.
Qed.

Lemma handle_failed_ok (st : gen_state) (sel : selection) :
  selection_ok sel ->
  always (handle_failed voicing_style pool pool_chord_names st sel) selection_opt_ok.
Proof.
  intros Hsel. unfold handle_failed.
  destruct (negb (PyStr.truthy (s_name sel)) || is_empty (s_original sel)
            || is_empty (s_final sel))%bool; [|apply always_ret; exact Hsel].
  eapply always_bind.
  { apply always_under with (V := well_formed). apply fallback_choice_valid. }
  intros choice Hchoice.
  assert (Hbreak : well_formed -> forall n, choice = Some n ->
                   PyStr.truthy choice = true /\
                   exists d x xs, dict_get pool n = Some d /\ notes d = x :: xs).
  { intros Hwf n ->. destruct (Hchoice Hwf) as (n' & d & [= <-] & Hg & Hn & Hd).
    split; [apply truthy_some; exact Hn|].
    destruct (notes d) as [|x xs] eqn:En; [contradiction|]. eauto. }
  destruct choice as [chord_name|].
  - destruct (PyStr.truthy (Some chord_name)) eqn:Et.
    + destruct (dict_get pool chord_name) as [data|] eqn:Eg.
      * destruct (notes data) as [|n ns] eqn:En.
        -- apply always_ret. intros Hwf.
           destruct (Hbreak Hwf _ eq_refl) as (_ & d & x & xs & Hg & Hd). congruence.
        -- eapply always_bind; [apply apply_voicing_ok|].
           intros v (Ho & Hm & Hf & Hmidi & Hr). apply always_ret.
           unfold selection_opt_ok, selection_ok. simpl. rewrite Ho. exact Hmidi.
      * apply always_ret. intros Hwf.
        destruct (Hbreak Hwf _ eq_refl) as (_ & d & x & xs & Hg & Hd). congruence.
    + apply always_ret. intros Hwf. destruct (Hbreak Hwf _ eq_refl) as (Ht & _). congruence.
  - apply always_ret. intros Hwf. destruct (Hchoice Hwf) as (n & d & Hn & _). discriminate.
Qed.

Lemma store_chord_ok (st : gen_state) (sel : selection) :
  selection_ok sel ->
  exists s, progression_data (store_chord chord_rate_str st sel) = progression_data st ++ [s]
            /\ slot_ok beats_per_chord s.
Proof.
  intros Hsel. unfold store_chord.
  assert (Herr : slot_ok beats_per_chord (error_slot (beats_per_chord_of chord_rate_str))).
  { split; [reflexivity | apply same_pitch_classes_refl]. }
  destruct (s_name sel) as [chord_name|]; [destruct (s_root sel) as [root_note|]|];
    try (eexists; split; [reflexivity | exact Herr]).
  destruct (_ && _)%bool; eexists; (split; [reflexivity|]); [|exact Herr].
  split; [reflexivity | exact Hsel].
Qed.

Let step_post := step_post beats_per_chord pool pool_chord_names.

Lemma progression_step_ok (current_slot : Z) (st : gen_state) :
  always (progression_step prog_style chord_rate_str voicing_style chord_bias pool
            pool_chord_names key_type key_root_name current_slot st) (step_post st).
Proof.
  unfold progression_step.
  eapply always_bind; [apply always_true|]. intros chord_name _.
  eapply always_bind with (P := selection_ok).
  { destruct (negb (PyStr.truthy chord_name) || String.eqb prog_style "Smooth Random")%bool.
    - apply find_next_smooth_chord_ok.
    - destruct chord_name; [apply voice_template_ok | apply always_ret, selection_none_ok]. }
  intros sel Hsel.
  eapply always_bind; [apply handle_failed_ok; exact Hsel|].
  intros [sel'|] Hr; apply always_ret; [|exact Hr].
  apply store_chord_ok. exact Hr.
Qed.

Lemma progression_loop_ok (remaining : nat) :
  forall (current_slot : Z) (st : gen_state),
    always (progression_loop prog_style chord_rate_str voicing_style chord_bias pool
              pool_chord_names key_type key_root_name remaining current_slot st)
      (fun st' => exists ext,
         progression_data st' = progression_data st ++ ext
         /\ Forall (slot_ok beats_per_chord) ext
         /\ (List.length ext <= remaining)%nat
         /\ (well_formed -> List.length ext = remaining)).
Proof.
  induction remaining as [|n IH]; intros current_slot st; simpl.
  - apply always_ret. exists []. rewrite app_nil_r. repeat split; auto.
  - eapply always_bind; [apply progression_step_ok|].
    intros [st'|] Hstep.
    + destruct Hstep as (s & Hs & Hok).
      eapply always_weaken; [apply IH|].
      intros st'' (ext & Hext & Hall & Hle & Hwf).
      exists (s :: ext). rewrite Hext, Hs, <- app_assoc. simpl.
      repeat split; [constructor; assumption | lia | intros Hw; rewrite (Hwf Hw); reflexivity].
    + apply always_ret. exists []. rewrite app_nil_r.
      repeat split; [constructor | simpl; lia | intros Hw; contradiction].
Qed.

End GenerateFacts.

(** ** Cadence *)

Lemma bind_run {A B} (m : Rand A) (k : A -> Rand B) (t : tape) :
  bind m k t = k (fst (m t)) (snd (m t)).
Proof. unfold bind. destruct (m t). reflexivity. Qed.

Lemma outcome_run {A} (m : Rand A) (t : tape) : outcome m (fst (m t)).
Proof. exists t. reflexivity. Qed.

Lemma list_set_length {A} (i : nat) (x : A) (l : list A) :
  List.length (list_set i x l) = List.length l.
Proof.
  revert i. induction l as [|y l IH]; intros [|i]; simpl; try reflexivity.
  rewrite IH. reflexivity.
Qed.

Lemma list_set_Forall {A} (P : A -> Prop) (i : nat) (x : A) (l : list A) :
  Forall P l -> P x -> Forall P (list_set i x l).
Proof.
  intros Hl Hx. revert i. induction Hl as [|y l Hy Hl IH]; intros [|i]; simpl;
    constructor; auto.
Qed.

Lemma list_set_two {A} (p : list A) (a b x y : A) :
  list_set (List.length p) y (list_set (List.length p + 1) x (p ++ [a; b])) = p ++ [y; x].
Proof. induction p as [|z p IH]; simpl; [reflexivity | rewrite IH; reflexivity]. Qed.

(** A list of at least two elements, split before its last two. *)
Lemma split_last_two {A} (l : list A) :
  (2 <= List.length l)%nat ->
  exists a b, l = firstn (List.length l - 2) l ++ [a; b].
Proof.
  intros Hlen.
  pose proof (firstn_skipn (List.length l - 2) l) as Hsplit.
  pose proof (length_skipn (List.length l - 2) l) as Hsk.
  destruct (skipn (List.length l - 2) l) as [|a [|b [|c r]]]; simpl in Hsk; try lia.
  exists a, b. symmetry. exact Hsplit.
Qed.

Lemma overwrite_last_two {A} (l : list A) (x y : A) :
  (2 <= List.length l)%nat ->
  list_set (List.length l - 2) y (list_set (List.length l - 1) x l)
  = firstn (List.length l - 2) l ++ [y; x].
Proof.
  intros Hlen. destruct (split_last_two l Hlen) as (a & b & Hl).
  set (p := firstn (List.length l - 2) l) in *.
  assert (Hp : List.length p = (List.length l - 2)%nat).
  { unfold p. rewrite length_firstn. lia. }
  replace (List.length l - 1)%nat with (List.length p + 1)%nat by lia.
  rewrite <- Hp. rewrite Hl at 1. apply list_set_two.
Qed.

Lemma Forall_prefix {A} (P : A -> Prop) (n : nat) (l : list A) :
  Forall P l -> Forall P (firstn n l).
Proof.
  intros H. revert n. induction H as [|x l Hx Hl IH]; intros [|n]; simpl; constructor; auto.
Qed.

Lemma firstn_app_exact {A} (l r : list A) (n : nat) :
  n = List.length l -> firstn n (l ++ r) = l.
Proof.
  intros ->. rewrite firstn_app, Nat.sub_diag, firstn_all. simpl. apply app_nil_r.
Qed.

Lemma overwrite_ending_run (chord_rate_str voicing_style : string)
    (tonic_notes : list Z) (tonic : string) (pen_notes : list Z) (pen : string)
    (data : progression) (t : tape) :
  2 <= len data ->
  exists vt vp,
    outcome (_apply_voicing tonic_notes voicing_style tonic (-12)) vt
    /\ outcome (_apply_voicing pen_notes voicing_style pen (-12)) vp
    /\ fst (overwrite_ending chord_rate_str voicing_style tonic_notes tonic pen_notes pen data t)
       = firstn (List.length data - 2) data
           ++ [slot_of_voiced chord_rate_str vp; slot_of_voiced chord_rate_str vt].
Proof.
  intros Hlen. unfold overwrite_ending. rewrite bind_run.
  set (r1 := _apply_voicing tonic_notes voicing_style tonic (-12) t).
  destruct (Z.gtb_spec (len data - 1) 0) as [_|Hle]; [|lia].
  rewrite bind_run.
  set (r2 := _apply_voicing pen_notes voicing_style pen (-12) (snd r1)).
  exists (fst r1), (fst r2).
  split; [apply outcome_run|]. split; [apply outcome_run|].
  unfold ret. simpl fst.
  unfold len in *.
  replace (Z.to_nat (Z.of_nat (List.length data) - 1 - 1)) with (List.length data - 2)%nat by lia.
  replace (Z.to_nat (Z.of_nat (List.length data) - 1)) with (List.length data - 1)%nat by lia.
  apply overwrite_last_two. lia.
Qed.


Lemma slot_of_voiced_ok (chord_rate_str : string) (l : list Z) (v : voiced) :
  voiced_ok l v -> slot_ok (beats_per_chord_of chord_rate_str) (slot_of_voiced chord_rate_str v).
Proof.
  intros (Ho & Hm & Hf & Hmidi & Hr). split; [reflexivity|].
  simpl. rewrite Ho. exact Hmidi.
Qed.

Lemma outcome_apply_voicing_ok (l : list Z) (voicing_style name : string) (v : voiced) :
  outcome (_apply_voicing l voicing_style name (-12)) v -> voiced_ok l v.
Proof. intros [t <-]. apply apply_voicing_ok. Qed.

Section CadenceFacts.

Variables (chord_rate_str voicing_style cadence_str : string).
Variables (pool : chord_pool) (key_type : string) (is_minor : bool).

Let cadence := apply_cadence chord_rate_str voicing_style cadence_str pool key_type is_minor.

(** The step either leaves the progression alone or rewrites its last
    two slots with two voiced chords. *)
Lemma apply_cadence_cases (data : progression) (t : tape) :
  fst (cadence data t) = data
  \/ (2 <= len data
      /\ exists tonic_notes tonic pen_notes pen vt vp,
           outcome (_apply_voicing tonic_notes voicing_style tonic (-12)) vt
           /\ outcome (_apply_voicing pen_notes voicing_style pen (-12)) vp
           /\ fst (cadence data t)
              = firstn (List.length data - 2) data
                  ++ [slot_of_voiced chord_rate_str vp; slot_of_voiced chord_rate_str vt]).
Proof.
  unfold cadence, apply_cadence.
  destruct (negb (String.eqb cadence_str "Any"));
    destruct (Z.geb_spec (len data) 2) as [Hlen|Hlt]; cbn [andb];
    try (left; reflexivity).
  rewrite !bind_run.
  set (ft := adjust_tonic is_minor _). set (fd := fst (_find_chord_by_function pool "V" _ _ _)).
  set (fs := fst (_find_chord_by_function pool "IV" _ _ _)).
  set (t3 := snd (_find_chord_by_function pool "IV" _ _ _)).
  assert (Hover : forall tn tonic pn pen,
            2 <= len data /\
            exists tonic_notes tonic0 pen_notes pen0 vt vp,
              outcome (_apply_voicing tonic_notes voicing_style tonic0 (-12)) vt
              /\ outcome (_apply_voicing pen_notes voicing_style pen0 (-12)) vp
              /\ fst (overwrite_ending chord_rate_str voicing_style tn tonic pn pen data t3)
                 = firstn (List.length data - 2) data
                     ++ [slot_of_voiced chord_rate_str vp; slot_of_voiced chord_rate_str vt]).
  { intros tn tonic pn pen. split; [lia|].
    destruct (overwrite_ending_run chord_rate_str voicing_style tn tonic pn pen data t3
                ltac:(lia)) as (vt & vp & H1 & H2 & H3).
    exists tn, tonic, pn, pen, vt, vp. auto. }
  destruct (String.eqb cadence_str "Authentic (V-I)");
    destruct (String.eqb cadence_str "Plagal (IV-I)");
    destruct (resolved pool fd) as [[d dn]|]; destruct (resolved pool ft) as [[tc tn]|];
    destruct (resolved pool fs) as [[s sn]|];
    first [left; reflexivity | right; apply Hover].
Qed.

Lemma apply_cadence_length (data : progression) (t : tape) :
  List.length (fst (cadence data t)) = List.length data.
Proof.
  destruct (apply_cadence_cases data t) as [->|(Hlen & tn & tc & pn & p & vt & vp & _ & _ & ->)];
    [reflexivity|].
  rewrite length_app, length_firstn. unfold len in Hlen. simpl. lia.
Qed.

Lemma apply_cadence_frame (data : progression) (t : tape) :
  firstn (List.length data - 2) (fst (cadence data t)) = firstn (List.length data - 2) data.
Proof.
  destruct (apply_cadence_cases data t) as [->|(Hlen & tn & tc & pn & p & vt & vp & _ & _ & ->)];
    [reflexivity|].
  rewrite firstn_app_exact; [reflexivity|].
  rewrite length_firstn. lia.
Qed.

Lemma apply_cadence_slots_ok (data : progression) (t : tape) :
  Forall (slot_ok (beats_per_chord_of chord_rate_str)) data ->
  Forall (slot_ok (beats_per_chord_of chord_rate_str)) (fst (cadence data t)).
Proof.
  intros Hall.
  destruct (apply_cadence_cases data t) as [->|(Hlen & tn & tc & pn & p & vt & vp & H1 & H2 & ->)];
    [exact Hall|].
  apply Forall_app. split; [apply Forall_prefix; exact Hall|].
  repeat constructor; eapply slot_of_voiced_ok, outcome_apply_voicing_ok; eassumption.
Qed.

End CadenceFacts.




(** ** Pitch classes of the generated slots *)

Lemma generate_progression_slots_ok
    (num_bars : Z) (prog_style chord_rate_str voicing_style cadence_str chord_bias : string)
    (pool : chord_pool) (pool_chord_names : list string) (key_type key_root_name : string)
    (is_minor : bool) :
  always (_generate_progression num_bars prog_style chord_rate_str voicing_style cadence_str
            chord_bias pool pool_chord_names key_type key_root_name is_minor)
    (fun data =>
       Forall (slot_ok (beats_per_chord_of chord_rate_str)) data
       /\ (List.length data <= Z.to_nat (num_bars * chords_per_bar_of chord_rate_str))%nat
       /\ (well_formed_pool pool pool_chord_names ->
           List.length data = Z.to_nat (num_bars * chords_per_bar_of chord_rate_str))).
Proof.
  unfold _generate_progression.
  eapply always_bind; [apply progression_loop_ok|].
  intros st (ext & Hext & Hall & Hle & Hwf). simpl in Hext. subst ext. intros t.
  rewrite apply_cadence_length.
  split; [apply apply_cadence_slots_ok; exact Hall|]. split; assumption.
Qed.

Lemma blues_bar_ok (pool : chord_pool) (pattern : list string) (acc : progression)
    (bar_index : nat) :
  Forall (slot_ok 4%Q) acc -> Forall (slot_ok 4%Q) (blues_bar pool pattern acc bar_index).
Proof.
  intros Hacc. unfold blues_bar.
  destruct (dict_get pool (nth bar_index pattern "")) as [data|]; [|exact Hacc].
  destruct (notes data) as [|n ns] eqn:En.
  - apply Forall_app. split; [exact Hacc|].
    constructor; [|constructor]. split; [reflexivity | apply same_pitch_classes_refl].
  - apply Forall_app. split; [exact Hacc|].
    constructor; [|constructor]. split; [reflexivity|]. cbn [midi_notes original_notes].
    apply transpose_octave_down_same_pitch_classes.
Qed.

Lemma blues_progression_slots_ok (pool : chord_pool) (key_type key_root_name : string) :
  match _generate_12_bar_blues_progression pool key_type key_root_name with
  | Ok data => Forall (slot_ok 4%Q) data
  | Raise _ => True
  end.
Proof.
  unfold _generate_12_bar_blues_progression.
  destruct (ROOT_NOTES_MIDI key_root_name) as [root|]; [|exact I].
  destruct (negb (forallb _ _)); [exact I|].
  set (pattern := _ :: _).
  assert (H : forall l acc, Forall (slot_ok 4%Q) acc ->
                            Forall (slot_ok 4%Q) (fold_left (blues_bar pool pattern) l acc)).
  { induction l as [|i l IH]; intros acc Hacc; simpl; [exact Hacc|].
    apply IH. apply blues_bar_ok. exact Hacc. }
  apply H. constructor.
Qed.

(** C10: in every progression that the generation entry point yields
    (template, smooth-random or blues, cadence included), in every
    progression of [_generate_progression] on any pool, and in every
    progression of the blues generator on any pool, each slot's MIDI
    notes have the same length and the same multiset of pitch classes
    (mod 12) as its original notes. *)
Theorem midi_notes_keep_pitch_classes :
  (forall pool_style chosen_key_name key_type complexity num_bars_req prog_style chord_rate
          voicing_style cadence chord_bias t,
     match fst (_execute_generation_logic pool_style chosen_key_name key_type complexity
                  num_bars_req prog_style chord_rate voicing_style cadence chord_bias t) with
     | Ok g => Forall (fun s => same_pitch_classes (midi_notes s) (original_notes s))
                 (generated_chords_progression g)
     | Raise _ => True
     end)
  /\ (forall num_bars prog_style chord_rate_str voicing_style cadence_str chord_bias pool
             pool_chord_names key_type key_root_name is_minor t,
        Forall (fun s => same_pitch_classes (midi_notes s) (original_notes s))
          (fst (_generate_progression num_bars prog_style chord_rate_str voicing_style
                  cadence_str chord_bias pool pool_chord_names key_type key_root_name
                  is_minor t)))
  /\ (forall pool key_type key_root_name,
        match _generate_12_bar_blues_progression pool key_type key_root_name with
        | Ok data => Forall (fun s => same_pitch_classes (midi_notes s) (original_notes s)) data
        | Raise _ => True
        end).
Proof.
  assert (Hweak : forall bpc data, Forall (slot_ok bpc) data ->
            Forall (fun s => same_pitch_classes (midi_notes s) (original_notes s)) data).
  { intros bpc data H. eapply Forall_impl; [|exact H]. intros s [_ Hs]. exact Hs. }
  assert (Hgen : forall num_bars prog_style chord_rate_str voicing_style cadence_str chord_bias
                        pool pool_chord_names key_type key_root_name is_minor t,
            Forall (fun s => same_pitch_classes (midi_notes s) (original_notes s))
              (fst (_generate_progression num_bars prog_style chord_rate_str voicing_style
                      cadence_str chord_bias pool pool_chord_names key_type key_root_name
                      is_minor t))).
  { intros. eapply Hweak. apply generate_progression_slots_ok. }
  assert (Hblues : forall pool key_type key_root_name,
            match _generate_12_bar_blues_progression pool key_type key_root_name with
            | Ok data => Forall (fun s => same_pitch_classes (midi_notes s) (original_notes s)) data
            | Raise _ => True
            end).
  { intros. pose proof (blues_progression_slots_ok pool key_type key_root_name) as H.
    destruct (_generate_12_bar_blues_progression pool key_type key_root_name); [|exact I].
    eapply Hweak. exact H. }
  split; [|split; assumption].
  intros. unfold _execute_generation_logic.
  destruct (ROOT_NOTES_MIDI _) as [midi|]; [|exact I].
  destruct (String.eqb prog_style "Blues (12 Bar)").
  - destruct (generate_blues_chord_pool _ midi key_type) as [bp|]; [|exact I].
    destruct (is_empty bp); [exact I|].
    match goal with
    | |- context [_generate_12_bar_blues_progression ?p ?k ?r] =>
        pose proof (Hblues p k r) as H;
        destruct (_generate_12_bar_blues_progression p k r) as [data|e]
    end; [|exact I].
    destruct (is_empty data); [exact I | exact H].
  - match goal with
    | |- context [is_empty ?p] => destruct (is_empty p)
    end; [exact I|].
    rewrite bind_run.
    match goal with
    | |- context [_generate_progression ?a ?b ?c ?d ?e ?f ?g ?h ?i ?j ?k t] =>
        pose proof (Hgen a b c d e f g h i j k t) as H;
        destruct (_generate_progression a b c d e f g h i j k t) as [data t']
    end.
    simpl fst in *. simpl snd.
    destruct (is_empty data); [exact I | exact H].
Qed.

(** ** Length and beats of a progression *)

Lemma valid_poolb_sound (pool : chord_pool) : valid_poolb pool = true -> valid_pool pool.
Proof.
  unfold valid_poolb, valid_pool. intros H. apply andb_prop in H. destruct H as [Hne Hall].
  split.
  - destruct pool; [discriminate | discriminate].
  - intros name data Hin. rewrite forallb_forall in Hall.
    specialize (Hall _ Hin). simpl in Hall. apply andb_prop in Hall. destruct Hall as [Hn Hd].
    split.
    + intros ->. discriminate.
    + intros E. rewrite E in Hd. discriminate.
Qed.

Lemma sum_beats_constant (d : Q) (data : progression) :
  Forall (fun s => duration_beats s = d) data ->
  (sum_beats data == inject_Z (len data) * d)%Q.
Proof.
  induction 1 as [|s l Hs Hl IH]; unfold len; simpl.
  - ring.
  - rewrite IH, Hs. unfold len.
    rewrite Zpos_P_of_succ_nat, <- Z.add_1_r, inject_Z_plus. ring.
Qed.

Lemma chords_per_bar_cases (chord_rate_str : string) :
  chords_per_bar_of chord_rate_str = 1 \/ chords_per_bar_of chord_rate_str = 2.
Proof. unfold chords_per_bar_of. destruct (String.eqb _ _); auto. Qed.

Lemma bars_times_beats (num_bars : Z) (chord_rate_str : string) :
  (inject_Z (num_bars * chords_per_bar_of chord_rate_str) * beats_per_chord_of chord_rate_str
   == inject_Z num_bars * 4)%Q.
Proof.
  unfold beats_per_chord_of.
  destruct (chords_per_bar_cases chord_rate_str) as [-> | ->];
    rewrite inject_Z_mult; field.
Qed.

(** The non-blues generator on a valid pool whose keys are the names. *)
Lemma generate_progression_shape
    (num_bars : Z) (prog_style chord_rate_str voicing_style cadence_str chord_bias : string)
    (pool : chord_pool) (key_type key_root_name : string) (is_minor : bool) (t : tape) :
  valid_pool pool -> 0 <= num_bars ->
  let data := fst (_generate_progression num_bars prog_style chord_rate_str voicing_style
                     cadence_str chord_bias pool (dict_keys pool) key_type key_root_name
                     is_minor t) in
  len data = num_bars * chords_per_bar_of chord_rate_str
  /\ Forall (fun s => duration_beats s = beats_per_chord_of chord_rate_str) data
  /\ (sum_beats data == inject_Z num_bars * 4)%Q.
Proof.
  intros Hv Hnb data.
  destruct (generate_progression_slots_ok num_bars prog_style chord_rate_str voicing_style
              cadence_str chord_bias pool (dict_keys pool) key_type key_root_name is_minor t)
    as (Hall & _ & Hlen).
  fold data in Hall, Hlen.
  specialize (Hlen (conj Hv eq_refl)).
  assert (Hl : len data = num_bars * chords_per_bar_of chord_rate_str).
  { unfold len. rewrite Hlen.
    destruct (chords_per_bar_cases chord_rate_str) as [-> | ->]; lia. }
  assert (Hd : Forall (fun s => duration_beats s = beats_per_chord_of chord_rate_str) data).
  { eapply Forall_impl; [|exact Hall]. intros s [Hs _]. exact Hs. }
  split; [exact Hl|]. split; [exact Hd|].
  rewrite (sum_beats_constant _ _ Hd), Hl. apply bars_times_beats.
Qed.

(** Every pool that the entry point builds for a key root of
    [NOTE_NAMES] is valid, whatever the pool style, key type and
    complexity. *)
Lemma pool_for_valid (pool_style : string) (is_minor_key : bool) (key_root_name complexity : string) :
  In key_root_name NOTE_NAMES ->
  exists root,
    ROOT_NOTES_MIDI key_root_name = Some root
    /\ valid_pool (pool_for pool_style is_minor_key key_root_name root complexity).
Proof.
  intros Hin. simpl in Hin.
  repeat (destruct Hin as [<- | Hin];
          [eexists; split; [reflexivity|];
           apply valid_poolb_sound;
           unfold pool_for, generate_jazz_minor_chord_pool, generate_jazz_major_chord_pool,
             generate_chorgi_minor_chord_pool, generate_chorgi_major_chord_pool;
           destruct (String.eqb pool_style "Jazzy"); destruct is_minor_key;
           destruct (is_extra_complexity complexity); vm_compute; reflexivity|]).
  contradiction.
Qed.

(** The entry point recovers the key root from the key name. *)
Lemma key_root_recovered (key_root_name key_type : string) :
  In key_root_name NOTE_NAMES ->
  (if String.eqb key_type "minor" && PyStr.endswith (key_name_of key_root_name key_type) "m"
   then PyStr.drop_last (key_name_of key_root_name key_type)
   else key_name_of key_root_name key_type) = key_root_name.
Proof.
  intros Hin. unfold key_name_of. simpl in Hin.
  destruct (String.eqb key_type "minor");
    repeat (destruct Hin as [<- | Hin]; [reflexivity|]); contradiction.
Qed.

Lemma execute_non_blues
    (pool_style key_root_name key_type complexity : string) (num_bars : Z)
    (prog_style chord_rate voicing_style cadence chord_bias : string) (t : tape) :
  In key_root_name NOTE_NAMES -> 1 <= num_bars -> prog_style <> "Blues (12 Bar)" ->
  exists root data,
    ROOT_NOTES_MIDI key_root_name = Some root
    /\ data = fst (_generate_progression num_bars prog_style chord_rate voicing_style cadence
                     chord_bias
                     (pool_for pool_style (String.eqb key_type "minor") key_root_name root
                        complexity)
                     (dict_keys (pool_for pool_style (String.eqb key_type "minor")
                                   key_root_name root complexity))
                     key_type key_root_name (String.eqb key_type "minor") t)
    /\ fst (_execute_generation_logic pool_style (key_name_of key_root_name key_type) key_type
              complexity (Some num_bars) prog_style chord_rate voicing_style cadence chord_bias t)
       = Ok (mk_generation num_bars data)
    /\ len data = num_bars * chords_per_bar_of chord_rate
    /\ Forall (fun s => duration_beats s = beats_per_chord_of chord_rate) data
    /\ (sum_beats data == inject_Z num_bars * 4)%Q.
Proof.
  intros Hin Hnb Hstyle.
  destruct (pool_for_valid pool_style (String.eqb key_type "minor") key_root_name complexity Hin)
    as (root & Hroot & Hvalid).
  set (pool := pool_for pool_style (String.eqb key_type "minor") key_root_name root complexity)
    in *.
  exists root. eexists. split; [exact Hroot|]. split; [reflexivity|].
  pose proof (generate_progression_shape num_bars prog_style chord_rate voicing_style cadence
                chord_bias pool key_type key_root_name (String.eqb key_type "minor") t
                Hvalid ltac:(lia)) as Hshape.
  cbv zeta in Hshape.
  set (data := fst (_generate_progression _ _ _ _ _ _ _ _ _ _ _ _)) in *.
  split; [|exact Hshape].
  unfold _execute_generation_logic.
  rewrite (key_root_recovered key_root_name key_type Hin), Hroot.
  apply String.eqb_neq in Hstyle. rewrite Hstyle.
  change (if String.eqb pool_style "Jazzy" then _ else _) with pool.
  assert (Hpool : is_empty pool = false).
  { destruct Hvalid as [Hne _]. destruct pool; [contradiction | reflexivity]. }
  rewrite Hpool. rewrite bind_run. fold data.
  assert (Hdata : is_empty data = false).
  { destruct Hshape as [Hl _].
    destruct data; [|reflexivity].
    unfold len in Hl. simpl in Hl.
    destruct (chords_per_bar_cases chord_rate) as [E | E]; rewrite E in Hl; lia. }
  rewrite Hdata. reflexivity.
Qed.

(** C2 (as stated, refuted): the blues path ignores the chord rate.
    With "2 / Bar" requested, a blues run still yields 12 slots of 4
    beats: the slot count is not numBars * chordsPerBar = 24 and no slot
    lasts 4.0 / chordsPerBar = 2 beats. *)
Lemma blues_ignores_chord_rate :
  exists data,
    fst (_execute_generation_logic "Chorgi" "C" "major" "Standard (Triads/7ths)" (Some 12)
           "Blues (12 Bar)" "2 / Bar" "Root Position" "Any" "Standard" [])
      = Ok (mk_generation 12 data)
    /\ chords_per_bar_of "2 / Bar" = 2
    /\ len data = 12
    /\ len data <> 12 * chords_per_bar_of "2 / Bar"
    /\ Forall (fun s => duration_beats s = 4%Q
                        /\ ~ (duration_beats s == 4 / inject_Z (chords_per_bar_of "2 / Bar"))%Q)
         data.
Proof.
  eexists. split; [reflexivity|].
  split; [reflexivity|]. split; [reflexivity|]. split; [discriminate|].
  repeat constructor; discriminate.
Qed.

(** C2 (amended): outside the blues path, on every valid pool, the
    progression has exactly numBars * chordsPerBar slots (chordsPerBar
    is 1 or 2), each of exactly 4 / chordsPerBar beats, and the beats
    sum to numBars * 4; the same holds of what the entry point returns
    for every key and every style other than blues.  On the blues path
    the chord rate is not consulted: the entry point returns exactly 12
    slots of 4 beats each, 48 beats in all, with the bar count at 12. *)
Theorem progression_slots_and_beats :
  (forall num_bars prog_style chord_rate_str voicing_style cadence_str chord_bias pool
          key_type key_root_name is_minor t,
     valid_pool pool -> 0 <= num_bars ->
     let data := fst (_generate_progression num_bars prog_style chord_rate_str voicing_style
                        cadence_str chord_bias pool (dict_keys pool) key_type key_root_name
                        is_minor t) in
     let chordsPerBar := chords_per_bar_of chord_rate_str in
     (chordsPerBar = 1 \/ chordsPerBar = 2)
     /\ len data = num_bars * chordsPerBar
     /\ Forall (fun s => duration_beats s = (4 / inject_Z chordsPerBar)%Q) data
     /\ (sum_beats data == inject_Z num_bars * 4)%Q)
  /\ (forall pool_style key_root_name key_type complexity num_bars prog_style chord_rate
             voicing_style cadence chord_bias t,
        In key_root_name NOTE_NAMES -> 1 <= num_bars -> prog_style <> "Blues (12 Bar)" ->
        exists data,
          fst (_execute_generation_logic pool_style (key_name_of key_root_name key_type)
                 key_type complexity (Some num_bars) prog_style chord_rate voicing_style
                 cadence chord_bias t) = Ok (mk_generation num_bars data)
          /\ len data = num_bars * chords_per_bar_of chord_rate
          /\ Forall (fun s => duration_beats s = (4 / inject_Z (chords_per_bar_of chord_rate))%Q)
               data
          /\ (sum_beats data == inject_Z num_bars * 4)%Q)
  /\ (forall pool_style key_root_name key_type complexity num_bars_req chord_rate
             voicing_style cadence chord_bias t,
        In key_root_name NOTE_NAMES -> key_type = "major" \/ key_type = "minor" ->
        exists data,
          fst (_execute_generation_logic pool_style (key_name_of key_root_name key_type)
                 key_type complexity num_bars_req "Blues (12 Bar)" chord_rate voicing_style
                 cadence chord_bias t) = Ok (mk_generation 12 data)
          /\ len data = 12
          /\ Forall (fun s => duration_beats s = 4%Q) data
          /\ (sum_beats data == 12 * 4)%Q).
Proof.
  split; [|split].
  - intros num_bars prog_style chord_rate_str voicing_style cadence_str chord_bias pool
           key_type key_root_name is_minor t Hv Hnb data chordsPerBar.
    split; [apply chords_per_bar_cases|].
    apply (generate_progression_shape num_bars prog_style chord_rate_str voicing_style
             cadence_str chord_bias pool key_type key_root_name is_minor t Hv Hnb).
  - intros pool_style key_root_name key_type complexity num_bars prog_style chord_rate
           voicing_style cadence chord_bias t Hin Hnb Hstyle.
    destruct (execute_non_blues pool_style key_root_name key_type complexity num_bars
                prog_style chord_rate voicing_style cadence chord_bias t Hin Hnb Hstyle)
      as (root & data & _ & _ & Hrun & Hshape).
    exists data. split; [exact Hrun | exact Hshape].
  - intros pool_style key_root_name key_type complexity num_bars_req chord_rate
           voicing_style cadence chord_bias t Hin Htype.
    destruct (blues_run key_root_name key_type Hin Htype)
      as (root & pool & tonic & subdom & dom & _ & _ & _ & _ & Hrun).
    destruct (Hrun pool_style complexity num_bars_req chord_rate voicing_style cadence
                chord_bias t) as (data & Hdata & Hlen & _ & Hslots).
    exists data. rewrite Hdata.
    assert (Hd : Forall (fun s => duration_beats s = 4%Q) data).
    { eapply Forall_impl; [|exact Hslots]. intros s (d & _ & _ & _ & _ & Hs). exact Hs. }
    split; [reflexivity|]. split; [unfold len; rewrite Hlen; reflexivity|].
    split; [exact Hd|].
    rewrite (sum_beats_constant _ _ Hd). unfold len. rewrite Hlen. reflexivity.
Qed.

(** Four bars of the pop template in C major at two chords per bar:
    eight slots of two beats. *)
Lemma progression_slots_and_beats_witness :
  exists data,
    fst (_execute_generation_logic "Chorgi" "C" "major" "Standard (Triads/7ths)" (Some 4)
           "Pop (I-vi-IV-V)" "2 / Bar" "Allow Inversions" "Authentic (V-I)" "Darker"
           [3; 1; 4; 1; 5; 9; 2; 6; 5; 3; 5; 8; 9; 7; 9])
      = Ok (mk_generation 4 data)
    /\ len data = 4 * 2
    /\ Forall (fun s => duration_beats s = (4 / 2)%Q) data
    /\ (sum_beats data == 4 * 4)%Q.
Proof.
  apply (proj1 (proj2 progression_slots_and_beats) "Chorgi" "C" "major"
           "Standard (Triads/7ths)" 4 "Pop (I-vi-IV-V)" "2 / Bar" "Allow Inversions"
           "Authentic (V-I)" "Darker" [3; 1; 4; 1; 5; 9; 2; 6; 5; 3; 5; 8; 9; 7; 9]).
  - simpl. auto.
  - lia.
  - discriminate.
Defined.

(** ** The smooth chord finder *)

Lemma Qltb_true (x y : Q) : Qltb x y = true -> (x < y)%Q.
Proof.
  unfold Qltb. intros H. apply negb_true_iff in H.
  apply Qnot_le_lt. intros Hle. apply Qle_bool_iff in Hle. congruence.
Qed.

Lemma Qltb_false (x y : Q) : Qltb x y = false -> (y <= x)%Q.
Proof.
  unfold Qltb. intros H. apply negb_false_iff in H. apply Qle_bool_iff. exact H.
Qed.

Lemma constrained_app (a b : list (best * bool)) :
  constrained (a ++ b) = constrained a ++ constrained b.
Proof. apply filter_app. Qed.

Lemma is_min_of_single (b : best) (m : bool) : is_min_of b [(b, m)].
Proof.
  split; [exists m; left; reflexivity|].
  intros x m' [[= <- <-]|[]]. apply Qle_refl.
Qed.

Lemma is_min_of_keep (u b : best) (m : bool) (seen : list (best * bool)) :
  is_min_of u seen -> (b_dist u <= b_dist b)%Q -> is_min_of u (seen ++ [(b, m)]).
Proof.
  intros [[mu Hin] Hmin] Hle. split.
  - exists mu. apply in_or_app. left. exact Hin.
  - intros x m' Hx. apply in_app_or in Hx. destruct Hx as [Hx|[[= <- <-]|[]]].
    + eapply Hmin; eassumption.
    + exact Hle.
Qed.

Lemma is_min_of_replace (u b : best) (m : bool) (seen : list (best * bool)) :
  is_min_of u seen -> (b_dist b < b_dist u)%Q -> is_min_of b (seen ++ [(b, m)]).
Proof.
  intros [_ Hmin] Hlt. split.
  - exists m. apply in_or_app. right. left. reflexivity.
  - intros x m' Hx. apply in_app_or in Hx. destruct Hx as [Hx|[[= <- <-]|[]]].
    + apply Qlt_le_weak. eapply Qlt_le_trans; [exact Hlt|]. eapply Hmin; eassumption.
    + apply Qle_refl.
Qed.

(** The winner kept for a scope after one more member of it. *)
Lemma improves_min (w : option best) (b : best) (m : bool) (seen : list (best * bool)) :
  match w with
  | None => seen = []
  | Some u => is_min_of u seen
  end ->
  is_min_of (match (if improves (b_dist b) w then Some b else w) with
             | Some x => x
             | None => b
             end) (seen ++ [(b, m)])
  /\ (if improves (b_dist b) w then Some b else w) <> None.
Proof.
  intros Hw. destruct w as [u|]; simpl.
  - destruct (Qltb (b_dist b) (b_dist u)) eqn:E; (split; [|discriminate]).
    + apply is_min_of_replace with (u := u); [exact Hw | apply Qltb_true; exact E].
    + apply is_min_of_keep; [exact Hw | apply Qltb_false; exact E].
  - subst seen. split; [apply is_min_of_single | discriminate].
Qed.

Lemma update_winners_inv (seen : list (best * bool)) (st : scan) (b : best) (m : bool) :
  winner_inv seen st -> winner_inv (seen ++ [(b, m)]) (update_winners st b m).
Proof.
  intros (Hmet & Hu & Hc). unfold winner_inv, update_winners.
  rewrite constrained_app.
  destruct (improves_min (best_uncon st) b m seen Hu) as [Hu' Hu'ne].
  destruct m; cbn [constrained filter snd app].
  - destruct (improves_min (best_con st) b true (constrained seen) Hc) as [Hc' Hc'ne].
    cbn [best_con best_uncon con_met].
    split; [destruct (constrained seen); reflexivity|].
    split.
    + destruct (if improves (b_dist b) (best_uncon st) then Some b else best_uncon st);
        [exact Hu' | congruence].
    + destruct (if improves (b_dist b) (best_con st) then Some b else best_con st);
        [exact Hc' | congruence].
  - cbn [best_con best_uncon con_met]. rewrite app_nil_r.
    split; [exact Hmet|]. split; [|exact Hc].
    destruct (if improves (b_dist b) (best_uncon st) then Some b else best_uncon st);
      [exact Hu' | congruence].
Qed.

Lemma scan_evals_inv (evals : list (best * bool)) :
  forall seen st, winner_inv seen st -> winner_inv (seen ++ evals) (scan_evals evals st).
Proof.
  induction evals as [|[b m] evals IH]; intros seen st Hinv; simpl.
  - rewrite app_nil_r. exact Hinv.
  - change (seen ++ (b, m) :: evals) with (seen ++ [(b, m)] ++ evals).
    rewrite app_assoc. apply IH. apply update_winners_inv. exact Hinv.
Qed.

Lemma winner_inv_init : winner_inv [] scan_init.
Proof. repeat split. Qed.

Lemma in_last {A} (l : list A) (d : A) : l <> [] -> In (last l d) l.
Proof.
  induction l as [|x l IH]; [contradiction|]. intros _.
  destruct l as [|y l]; [left; reflexivity|].
  right. apply IH. discriminate.
Qed.

Lemma incl_removelast {A} (l : list A) : incl (removelast l) l.
Proof.
  induction l as [|x l IH]; [apply incl_refl|].
  destruct l as [|y l]; [intros z []|].
  intros z [->|Hz]; [left; reflexivity | right; apply IH; exact Hz].
Qed.

Lemma move_last_to_incl {A} (j : nat) (pool : list A) : incl (move_last_to j pool) pool.
Proof.
  revert j. induction pool as [|x pool IH]; intros j; simpl; [apply incl_refl|].
  destruct j as [|j].
  - destruct pool as [|y pool]; [intros z []|].
    intros z [<-|Hz]; right.
    + apply in_last. discriminate.
    + apply incl_removelast. exact Hz.
  - intros z [->|Hz]; [left; reflexivity | right; eapply IH; exact Hz].
Qed.

Lemma random_sample_incl {A} (k : nat) :
  forall (population : list A) (t : tape), incl (fst (random_sample population k t)) population.
Proof.
  induction k as [|k IH]; intros population t; simpl; [intros z []|].
  destruct population as [|p ps]; [intros z []|].
  rewrite bind_run.
  set (j := fst (randbelow (len (p :: ps)) t)).
  destruct (nth_error (p :: ps) (Z.to_nat j)) as [x|] eqn:E; [|intros z []].
  rewrite bind_run. simpl fst.
  intros z [<-|Hz].
  - eapply nth_error_In. exact E.
  - eapply move_last_to_incl. eapply IH. exact Hz.
Qed.


Lemma possible_candidates_incl (names : list string) (prev_name : option string) :
  incl (possible_candidates names prev_name) names.
Proof.
  unfold possible_candidates.
  destruct (filter (differs prev_name) names) as [|o os] eqn:E; [apply incl_refl|].
  rewrite <- E. intros z Hz. apply filter_In in Hz. apply Hz.
Qed.

(** The previous name is left out as soon as the pool has another name. *)
Lemma possible_candidates_exclude (names : list string) (p : string) :
  (exists n, In n names /\ n <> p) -> ~ In p (possible_candidates names (Some p)).
Proof.
  intros (n & Hn & Hne). unfold possible_candidates.
  assert (Hin : In n (filter (differs (Some p)) names)).
  { apply filter_In. split; [exact Hn|]. simpl. apply negb_true_iff, String.eqb_neq. exact Hne. }
  destruct (filter (differs (Some p)) names) as [|o os] eqn:E; [contradiction|].
  rewrite <- E. intros Hp. apply filter_In in Hp. destruct Hp as [_ Hd].
  simpl in Hd. rewrite String.eqb_refl in Hd. discriminate.
Qed.

Section SmoothFacts.

Variables (pool : chord_pool) (prev : list Z).
Variables (chord_bias key_root_name voicing_style : string).

Let evaluate := evaluate_candidate pool (get_average_pitch prev) (py_max prev) chord_bias
                  key_root_name voicing_style (-12).
Let scan1 := scan_candidate pool (get_average_pitch prev) (py_max prev) chord_bias
               key_root_name voicing_style (-12).

Lemma evaluate_candidate_some (cand_name : string) (t : tape) (e : best * bool) :
  fst (evaluate cand_name t) = Some e ->
  evaluation_of pool prev chord_bias key_root_name voicing_style cand_name e.
Proof.
  unfold evaluate, evaluate_candidate, evaluation_of.
  destruct (dict_get pool cand_name) as [data|]; [|discriminate].
  destruct (notes data) as [|root rest] eqn:En; [discriminate|].
  rewrite bind_run.
  set (v := fst (_apply_voicing (root :: rest) voicing_style cand_name (-12) t)).
  destruct (v_final v) as [|f fs] eqn:Ef; [discriminate|].
  simpl. intros [= <-].
  exists data, root, v. rewrite En, Ef.
  split; [reflexivity|]. split; [reflexivity|]. split; [apply outcome_run|].
  split; [discriminate | reflexivity].
Qed.

Lemma evaluate_candidate_none (cand_name : string) (t : tape) :
  fst (evaluate cand_name t) = None ->
  forall data, dict_get pool cand_name = Some data -> notes data = [].
Proof.
  unfold evaluate, evaluate_candidate. intros H data Hd. rewrite Hd in H.
  destruct (notes data) as [|root rest] eqn:En; [reflexivity|].
  rewrite bind_run in H.
  pose proof (apply_voicing_ok (root :: rest) voicing_style cand_name t) as Hok.
  destruct (voiced_ok_final_nonempty _ _ Hok ltac:(discriminate)) as [Hf _].
  destruct (v_final (fst (_apply_voicing (root :: rest) voicing_style cand_name (-12) t)));
    [contradiction | discriminate].
Qed.

(** The scan of the candidates is the scan of their evaluations: every
    candidate that is a pool key with notes is evaluated, in order, and
    the others are skipped. *)
Lemma scan_trace (candidates : list string) :
  forall (st : scan) (t : tape),
  exists evals : list (string * (best * bool)),
    Forall (fun ce => In (fst ce) candidates
                      /\ evaluation_of pool prev chord_bias key_root_name voicing_style
                           (fst ce) (snd ce)) evals
    /\ (forall c data, In c candidates -> dict_get pool c = Some data -> notes data <> [] ->
          exists e, In (c, e) evals)
    /\ fst (foldM scan1 candidates st t) = scan_evals (map snd evals) st.
Proof.
  induction candidates as [|c cs IH]; intros st t.
  - exists []. split; [constructor|]. split; [intros ? ? []|reflexivity].
  - simpl foldM. rewrite bind_run.
    unfold scan1 at 2 3, scan_candidate. rewrite bind_run. fold evaluate.
    destruct (fst (evaluate c t)) as [[b m]|] eqn:E.
    + destruct (IH (update_winners st b m) (snd (evaluate c t))) as (evals & Hall & Hcov & Hrun).
      exists ((c, (b, m)) :: evals). split; [|split].
      * constructor.
        -- split; [left; reflexivity | apply (evaluate_candidate_some c t); exact E].
        -- eapply Forall_impl; [|exact Hall]. intros ce [Hin He].
           split; [right; exact Hin | exact He].
      * intros c' data [<-|Hin] Hd Hn.
        -- exists (b, m). left. reflexivity.
        -- destruct (Hcov c' data Hin Hd Hn) as [e He]. exists e. right. exact He.
      * simpl. exact Hrun.
    + destruct (IH st (snd (evaluate c t))) as (evals & Hall & Hcov & Hrun).
      exists evals. split; [|split].
      * eapply Forall_impl; [|exact Hall]. intros ce [Hin He].
        split; [right; exact Hin | exact He].
      * intros c' data [<-|Hin] Hd Hn.
        -- exfalso. apply Hn. eapply evaluate_candidate_none; eassumption.
        -- apply (Hcov c' data Hin Hd Hn).
      * simpl. exact Hrun.
Qed.

End SmoothFacts.

Lemma usable_nonempty (b : best) : b_notes_voiced b <> [] -> usable (Some b) = Some b.
Proof. unfold usable. destruct (b_notes_voiced b); [contradiction | reflexivity]. Qed.

Lemma constrained_incl (evals : list (best * bool)) : incl (constrained evals) evals.
Proof. intros x Hx. apply filter_In in Hx. apply Hx. Qed.

Lemma winner_scope_incl (evals : list (best * bool)) : incl (winner_scope evals) evals.
Proof.
  unfold winner_scope. pose proof (constrained_incl evals) as H.
  destruct (constrained evals); [apply incl_refl | exact H].
Qed.

(** With at least one evaluated candidate, the choice is a minimiser of
    the winner scope. *)
Lemma choose_winner_min (pool : chord_pool) (names : list string) (prev_name : option string)
    (voicing_style : string) (st : scan) (evals : list (best * bool)) (t : tape) :
  winner_inv evals st -> evals <> [] ->
  (forall b m, In (b, m) evals -> b_notes_voiced b <> []) ->
  exists w,
    is_min_of w (winner_scope evals)
    /\ fst (choose_winner pool names prev_name voicing_style (-12) st t)
       = selection_of_best w (-12).
Proof.
  intros (Hmet & Hu & Hc) Hne Hnotes. unfold choose_winner, winner_scope.
  destruct (constrained evals) as [|c0 cs] eqn:Ec.
  - (* no candidate meets the constraint *)
    simpl in Hmet. rewrite Hmet.
    destruct (best_uncon st) as [u|]; [|contradiction].
    exists u. split; [exact Hu|].
    destruct Hu as [[m Hin] _]. rewrite (usable_nonempty u (Hnotes u m Hin)). reflexivity.
  - simpl in Hmet. rewrite Hmet.
    destruct (best_con st) as [b|]; [|discriminate].
    exists b. split; [exact Hc|].
    destruct Hc as [[m Hin] _].
    assert (Hin' : In (b, m) evals) by (apply constrained_incl; rewrite Ec; exact Hin).
    rewrite (usable_nonempty b (Hnotes b m Hin')). reflexivity.
Qed.


(** ** Part generators *)

(** *** Octave folding *)

Lemma raise_until_class (fuel : nat) (lo : Z) :
  forall pitch, (raise_until fuel lo pitch) mod 12 = pitch mod 12.
Proof.
  induction fuel as [|f IH]; intros pitch; simpl; [reflexivity|].
  destruct (pitch <? lo); [|reflexivity].
  rewrite IH. apply pitch_class_up.
Qed.

Lemma lower_until_class (fuel : nat) (hi : Z) :
  forall pitch, (lower_until fuel hi pitch) mod 12 = pitch mod 12.
Proof.
  induction fuel as [|f IH]; intros pitch; simpl; [reflexivity|].
  destruct (pitch >? hi); [|reflexivity].
  rewrite IH. apply pitch_class_down.
Qed.

Lemma fold_into_class (lo hi pitch : Z) : (fold_into lo hi pitch) mod 12 = pitch mod 12.
Proof. unfold fold_into. rewrite lower_until_class, raise_until_class. reflexivity. Qed.

(** The fuel given to the folding loops lets them run to their exit. *)
Lemma raise_until_done (fuel : nat) (lo : Z) :
  forall pitch, (Z.to_nat (lo - pitch) <= fuel)%nat -> lo <= raise_until fuel lo pitch.
Proof.
  induction fuel as [|f IH]; intros pitch Hf; simpl.
  - lia.
  - destruct (Z.ltb_spec pitch lo); [apply IH; lia | lia].
Qed.

Lemma lower_until_done (fuel : nat) (hi : Z) :
  forall pitch, (Z.to_nat (pitch - hi) <= fuel)%nat -> lower_until fuel hi pitch <= hi.
Proof.
  induction fuel as [|f IH]; intros pitch Hf; simpl.
  - lia.
  - destruct (Z.gtb_spec pitch hi); [apply IH; lia | lia].
Qed.

Lemma fold_into_below (lo hi pitch : Z) : fold_into lo hi pitch <= hi.
Proof. unfold fold_into. apply lower_until_done. lia. Qed.

(** *** Pitch-class sets *)

Lemma existsb_eqb_In (x : Z) (l : list Z) : existsb (Z.eqb x) l = true <-> In x l.
Proof.
  rewrite existsb_exists. split.
  - intros (y & Hy & E). apply Z.eqb_eq in E. subst y. exact Hy.
  - intros H. exists x. split; [exact H | apply Z.eqb_refl].
Qed.

Lemma sorted_set_In (x : Z) (l : list Z) : In x (sorted_set l) <-> In x l.
Proof.
  unfold sorted_set. split.
  - intros H. apply (Permutation_in _ (Permutation_sym (sorted_perm _))) in H.
    apply nodup_In in H. exact H.
  - intros H. apply (Permutation_in _ (sorted_perm _)). apply nodup_In. exact H.
Qed.

Lemma in_pcs_on_scale (scale_notes : list Z) (pitch : Z) :
  in_pcs (pcs_of scale_notes) pitch = true <-> on_scale scale_notes pitch.
Proof.
  unfold in_pcs, pcs_of, on_scale. rewrite existsb_eqb_In, sorted_set_In, in_map_iff.
  split; intros (n & H1 & H2); exists n; auto.
Qed.

Lemma min_by_in {A} (key : A -> Z) (l : list A) (x : A) : min_by key l = Some x -> In x l.
Proof.
  revert x. induction l as [|a l IH]; intros x; simpl; [discriminate|].
  destruct (min_by key l) as [y|].
  - destruct (key y <? key a); intros [= <-]; [right; apply IH; reflexivity | left; reflexivity].
  - intros [= <-]. left. reflexivity.
Qed.

Lemma min_by_least {A} (key : A -> Z) (l : list A) (x : A) :
  min_by key l = Some x -> forall y, In y l -> key x <= key y.
Proof.
  revert x. induction l as [|a l IH]; intros x; simpl; [discriminate|].
  destruct (min_by key l) as [m|] eqn:Em.
  - destruct (Z.ltb_spec (key m) (key a)); intros [= <-] y [<-|Hy].
    + lia.
    + apply IH; [reflexivity | exact Hy].
    + lia.
    + specialize (IH m eq_refl y Hy). lia.
  - intros [= <-] y [<-|Hy]; [lia|]. destruct l; [contradiction|].
    simpl in Em. destruct (min_by key l); [destruct (_ <? _)|]; discriminate.
Qed.

Lemma min_by_some {A} (key : A -> Z) (l : list A) : l <> [] -> exists x, min_by key l = Some x.
Proof.
  destruct l as [|a l]; [contradiction|]. intros _. simpl.
  destruct (min_by key l) as [y|]; [destruct (key y <? key a)|]; eauto.
Qed.

(** *** The snap *)

(** A pitch that leaves the snap block has its class in the set. *)
Lemma snap_to_scale_in_pcs (scale_note_pcs : list Z) (lo hi pitch p : Z) :
  snap_to_scale scale_note_pcs lo hi pitch = Some p -> in_pcs scale_note_pcs p = true.
Proof.
  unfold snap_to_scale.
  destruct (in_pcs scale_note_pcs (fold_into lo hi pitch)) eqn:E1; simpl.
  - intros [= <-]. exact E1.
  - destruct (min_by _ scale_note_pcs) as [c|]; [|discriminate].
    match goal with
    | |- context [negb ?b] => destruct b eqn:E2
    end; simpl; [|discriminate].
    intros [= <-]. exact E2.
Qed.

(** On a non-empty set of classes of [0, 12) the snap never drops: an
    on-scale pitch is kept as folded, an off-scale pitch is moved to the
    class of the set at the least circular distance. *)
Lemma snap_to_scale_nearest (scale_note_pcs : list Z) (lo hi pitch : Z) :
  scale_note_pcs <> [] ->
  (forall pc, In pc scale_note_pcs -> 0 <= pc < 12) ->
  let folded := fold_into lo hi pitch in
  exists p,
    snap_to_scale scale_note_pcs lo hi pitch = Some p
    /\ In (p mod 12) scale_note_pcs
    /\ (in_pcs scale_note_pcs folded = true -> p = folded)
    /\ (in_pcs scale_note_pcs folded = false ->
        forall pc, In pc scale_note_pcs ->
          circular_distance folded (p mod 12) <= circular_distance folded pc).
Proof.
  intros Hne Hrange folded. unfold snap_to_scale. fold folded.
  destruct (in_pcs scale_note_pcs folded) eqn:E1; simpl.
  - exists folded. split; [reflexivity|]. split; [|split; [reflexivity | discriminate]].
    apply existsb_eqb_In. exact E1.
  - destruct (min_by_some (circular_distance folded) scale_note_pcs Hne) as [c Hc].
    rewrite Hc.
    pose proof (min_by_in _ _ _ Hc) as Hin.
    set (moved := fold_into lo hi (folded / 12 * 12 + c)).
    assert (Hclass : moved mod 12 = c).
    { unfold moved. rewrite fold_into_class.
      rewrite Z.add_comm, Z.mod_add by lia. apply Z.mod_small. apply Hrange. exact Hin. }
    assert (E2 : in_pcs scale_note_pcs moved = true).
    { apply existsb_eqb_In. rewrite Hclass. exact Hin. }
    rewrite E2. simpl. exists moved. split; [reflexivity|].
    split; [rewrite Hclass; exact Hin|]. split; [discriminate|].
    intros _ pc Hpc. rewrite Hclass. eapply min_by_least; eassumption.
Qed.

(** *** Loops keep an invariant *)

Lemma always_for_break {S A} (body : S -> A -> Rand (S * bool)) (I : S -> Prop) (l : list A) :
  (forall s x, I s -> always (body s x) (fun r => I (fst r))) ->
  forall s, I s -> always (for_break body l s) I.
Proof.
  intros Hbody. induction l as [|x l IH]; intros s Hs; simpl.
  - apply always_ret. exact Hs.
  - eapply always_bind; [apply Hbody; exact Hs|].
    intros [s' b] Hs'. simpl in *. destruct b; [apply always_ret; exact Hs' | apply IH; exact Hs'].
Qed.

Lemma always_while_fuel {S} (body : S -> Rand (option S)) (I : S -> Prop) (fuel : nat) :
  (forall s, I s -> always (body s) (fun r => match r with Some s' => I s' | None => True end)) ->
  forall s, I s -> always (while_fuel fuel body s) I.
Proof.
  intros Hbody. induction fuel as [|f IH]; intros s Hs; simpl.
  - apply always_ret. exact Hs.
  - eapply always_bind; [apply Hbody; exact Hs|].
    intros [s'|] Hs'; [apply IH; exact Hs' | apply always_ret; exact Hs].
Qed.

Lemma emit_ok (scale_note_pcs : list Z) (st : melody_state) (lo hi pitch : Z) (start d : Q) :
  melody_ok scale_note_pcs st ->
  melody_ok scale_note_pcs (emit st (snap_to_scale scale_note_pcs lo hi pitch) start d).
Proof.
  intros Hst. unfold emit.
  destruct (snap_to_scale scale_note_pcs lo hi pitch) as [p|] eqn:E; [|exact Hst].
  unfold melody_ok, notes_in_pcs. simpl. apply Forall_app. split; [exact Hst|].
  constructor; [|constructor]. apply (snap_to_scale_in_pcs _ _ _ _ _ E).
Qed.

(** One step through a randomised computation whose value does not
    carry the melody state. *)
Ltac rand_step :=
  match goal with
  | |- always (ret _) _ => apply always_ret
  | |- always (bind _ _) _ => eapply always_bind; [apply always_true | intros ? _]
  | |- always (if ?c then _ else _) _ => destruct c
  | |- always (match ?x with _ => _ end) _ => destruct x
  end.

Ltac melody_note := repeat rand_step; try assumption; try (apply emit_ok; assumption).

Ltac keep_state :=
  match goal with
  | H : melody_ok _ _ |- melody_ok _ _ => exact H
  | H : melody_ok _ _ |- melody_ok _ (emit _ _ _ _) => apply emit_ok; exact H
  end.

Ltac melody_body := repeat rand_step; keep_state.

Lemma melody_init_ok (scale_note_pcs : list Z) (rest : Q) :
  melody_ok scale_note_pcs (melody_init rest).
Proof. constructor. Qed.

Lemma always_scale_guard {A B} (l : list A) (m : Rand (list B)) (P : list B -> Prop) :
  P [] -> always m P ->
  always (match l with
          | [] => ret []
          | _ :: _ => m
          end) P.
Proof. intros H0 Hm. destruct l; [apply always_ret; exact H0 | exact Hm]. Qed.

(** *** Chord Tone Focus *)

Section ChordFocusFacts.

Variables (scale_notes : list Z) (melody_style melody_speed melody_octave instrument_type : string).

Let pcs := pcs_of scale_notes.

Lemma chord_focus_note_ok (chord_start_time duration_beats : Q) (beat : Z) (diatonic : list Z)
    (st : melody_state) (placement : Q * Q) :
  melody_ok pcs st ->
  always (chord_focus_note scale_notes melody_style melody_octave instrument_type
            chord_start_time duration_beats beat diatonic st placement) (melody_ok pcs).
Proof.
  intros Hst. unfold chord_focus_note. destruct placement as [start_offset fraction].
  melody_body.
Qed.

Lemma chord_focus_slot_ok (st : melody_state) (s : slot) :
  melody_ok pcs st ->
  always (chord_focus_slot scale_notes melody_style melody_speed melody_octave instrument_type
            st s) (melody_ok pcs).
Proof.
  intros Hst. unfold chord_focus_slot.
  destruct (_ || _)%bool; [apply always_ret; exact Hst|].
  eapply always_bind.
  - apply always_for_break with (I := fun r : melody_state * Q => melody_ok pcs (fst r));
      [|exact Hst].
    intros [st' cur] beat Hst'. simpl in Hst'. unfold chord_focus_beat.
    destruct (Qleb _ _); [apply always_ret; exact Hst'|].
    eapply always_bind; [apply always_true|]. intros placement _.
    eapply always_bind.
    + apply always_foldM with (I := melody_ok pcs); [|exact Hst'].
      intros a x Ha. apply chord_focus_note_ok. exact Ha.
    + intros st'' Hst''. apply always_ret. exact Hst''.
  - intros r Hr. apply always_ret. exact Hr.
Qed.

Lemma generate_melody_chord_focus_ok (progression_data : progression) :
  always (generate_melody_chord_focus scale_notes melody_style melody_speed melody_octave
            instrument_type progression_data) (notes_in_pcs pcs).
Proof.
  unfold generate_melody_chord_focus.
  apply always_scale_guard; [constructor|].
  eapply always_bind.
  - apply always_foldM with (I := melody_ok pcs); [|apply melody_init_ok].
    intros a x Ha. apply chord_focus_slot_ok. exact Ha.
  - intros st Hst. apply always_ret. exact Hst.
Qed.

End ChordFocusFacts.

(** *** Scale Walker and Leaps & Steps *)

Section WalkerFacts.

Variables (scale_notes : list Z) (melody_style melody_speed melody_octave instrument_type : string).

Let pcs := walker_pcs scale_notes melody_octave.

Lemma walker_note_ok (chord_start_time duration_beats : Q) (beat : Z) (diatonic : list Z)
    (st : melody_state) (placement : Q * Q) :
  melody_ok pcs st ->
  always (walker_note scale_notes melody_style melody_octave instrument_type
            chord_start_time duration_beats beat diatonic st placement) (melody_ok pcs).
Proof.
  intros Hst. unfold walker_note. destruct placement as [start_offset fraction].
  destruct (Qleb _ _); [apply always_ret; exact Hst|].
  destruct (Qleb _ _); [apply always_ret; exact Hst|].
  eapply always_bind; [apply always_true|]. intros [pitch d] _.
  apply always_ret. apply emit_ok. exact Hst.
Qed.

Lemma walker_slot_ok (st : melody_state) (s : slot) :
  melody_ok pcs st ->
  always (walker_slot scale_notes melody_style melody_speed melody_octave instrument_type st s)
    (melody_ok pcs).
Proof.
  intros Hst. unfold walker_slot.
  destruct (_ || _)%bool; [apply always_ret; exact Hst|].
  eapply always_bind.
  - apply always_for_break with (I := fun r : melody_state * Q => melody_ok pcs (fst r));
      [|exact Hst].
    intros [st' cur] beat Hst'. simpl in Hst'. unfold walker_beat.
    destruct (Qleb _ _); [apply always_ret; exact Hst'|].
    eapply always_bind; [apply always_true|]. intros placement _.
    eapply always_bind.
    + apply always_foldM with (I := melody_ok pcs); [|exact Hst'].
      intros a x Ha. apply walker_note_ok. exact Ha.
    + intros st'' Hst''. apply always_ret. exact Hst''.
  - intros r Hr. apply always_ret. exact Hr.
Qed.

Lemma generate_melody_scale_walker_ok (progression_data : progression) :
  always (generate_melody_scale_walker scale_notes melody_style melody_speed melody_octave
            instrument_type progression_data) (notes_in_pcs pcs).
Proof.
  unfold generate_melody_scale_walker.
  apply always_scale_guard; [constructor|].
  eapply always_bind; [apply always_true|]. intros start _.
  eapply always_bind.
  - apply always_foldM with (I := melody_ok pcs); [|constructor].
    intros a x Ha. apply walker_slot_ok. exact Ha.
  - intros st Hst. apply always_ret. exact Hst.
Qed.

Lemma leaps_note_ok (chord_start_time duration_beats : Q) (beat : Z) (targets : list Z)
    (st : melody_state) (placement : Q * Q) :
  melody_ok pcs st ->
  always (leaps_note scale_notes melody_style melody_octave instrument_type
            chord_start_time duration_beats beat targets st placement) (melody_ok pcs).
Proof.
  intros Hst. unfold leaps_note. destruct placement as [start_offset fraction].
  destruct (Qleb _ _); [apply always_ret; exact Hst|].
  destruct (Qleb _ _); [apply always_ret; exact Hst|].
  eapply always_bind; [apply always_true|]. intros pitch _.
  apply always_ret. apply emit_ok. exact Hst.
Qed.

Lemma leaps_slot_ok (st : melody_state) (s : slot) :
  melody_ok pcs st ->
  always (leaps_slot scale_notes melody_style melody_speed melody_octave instrument_type st s)
    (melody_ok pcs).
Proof.
  intros Hst. unfold leaps_slot.
  destruct (_ || _)%bool; [apply always_ret; exact Hst|].
  eapply always_bind.
  - apply always_for_break with (I := fun r : melody_state * Q => melody_ok pcs (fst r));
      [|exact Hst].
    intros [st' cur] beat Hst'. simpl in Hst'. unfold leaps_beat.
    destruct (Qleb _ _); [apply always_ret; exact Hst'|].
    eapply always_bind; [apply always_true|]. intros placement _.
    eapply always_bind.
    + apply always_foldM with (I := melody_ok pcs); [|exact Hst'].
      intros a x Ha. apply leaps_note_ok. exact Ha.
    + intros st'' Hst''. apply always_ret. exact Hst''.
  - intros r Hr. apply always_ret. exact Hr.
Qed.

Lemma generate_melody_leaps_steps_ok (progression_data : progression) :
  always (generate_melody_leaps_steps scale_notes melody_style melody_speed melody_octave
            instrument_type progression_data) (notes_in_pcs pcs).
Proof.
  unfold generate_melody_leaps_steps.
  apply always_scale_guard; [constructor|].
  eapply always_bind; [apply always_true|]. intros start _.
  eapply always_bind.
  - apply always_foldM with (I := melody_ok pcs); [|constructor].
    intros a x Ha. apply leaps_slot_ok. exact Ha.
  - intros st Hst. apply always_ret. exact Hst.
Qed.

(** When the scale reaches the register, the active set is the set of
    the scale itself. *)
Lemma walker_pcs_in_register :
  scale_in_register scale_notes melody_octave -> pcs = pcs_of scale_notes.
Proof.
  unfold scale_in_register, pcs, walker_pcs.
  destruct (register_scale scale_notes melody_octave); [contradiction | reflexivity].
Qed.

End WalkerFacts.

(** *** Experimental, Minimalist, Sustained Lead *)

Section OtherMelodyFacts.

Variables (scale_notes : list Z) (melody_style melody_speed melody_octave instrument_type : string).
Variable fuel : nat.

Let pcs := pcs_of scale_notes.

Lemma experimental_slot_ok (st : melody_state) (s : slot) :
  melody_ok pcs st ->
  always (experimental_slot scale_notes melody_style melody_speed melody_octave instrument_type
            fuel st s) (melody_ok pcs).
Proof.
  intros Hst. unfold experimental_slot.
  destruct (_ || _)%bool; [apply always_ret; exact Hst|].
  eapply always_bind; [apply always_true|]. intros chosen_motif _.
  eapply always_bind; [apply always_true|]. intros chord_tone_index _.
  eapply always_bind.
  - apply always_while_fuel with (I := fun r => melody_ok pcs (exp_melody r)); [|exact Hst].
    intros r Hr. unfold experimental_turn.
    destruct (Qltb _ _); [|apply always_ret; exact I].
    destruct (Qleb _ _); [apply always_ret; exact Hr|].
    eapply always_bind; [apply always_true|]. intros [pitch moved] _.
    apply always_ret. simpl. apply emit_ok. exact Hr.
  - intros r Hr. apply always_ret. exact Hr.
Qed.

Lemma generate_melody_experimental_ok (progression_data : progression) :
  always (generate_melody_experimental scale_notes melody_style melody_speed melody_octave
            instrument_type fuel progression_data) (notes_in_pcs pcs).
Proof.
  unfold generate_melody_experimental.
  apply always_scale_guard; [constructor|].
  eapply always_bind.
  - apply always_foldM with (I := melody_ok pcs); [|apply melody_init_ok].
    intros a x Ha. apply experimental_slot_ok. exact Ha.
  - intros st Hst. apply always_ret. exact Hst.
Qed.

Lemma minimalist_slot_ok (st : melody_state) (s : slot) :
  melody_ok pcs st ->
  always (minimalist_slot scale_notes melody_style melody_speed melody_octave instrument_type
            fuel st s) (melody_ok pcs).
Proof.
  intros Hst. unfold minimalist_slot.
  destruct (_ || _)%bool; [apply always_ret; exact Hst|].
  eapply always_bind.
  - apply always_while_fuel with (I := fun r : melody_state * Q => melody_ok pcs (fst r));
      [|exact Hst].
    intros [st' cur] Hst'. simpl in Hst'. unfold minimalist_turn.
    destruct (Qltb _ _); [|apply always_ret; exact I].
    eapply always_bind; [apply always_true|]. intros u _.
    destruct (Qltb _ _).
    + eapply always_bind; [apply always_true|]. intros rest _. apply always_ret. exact Hst'.
    + eapply always_bind; [apply always_true|]. intros placement _.
      eapply always_bind.
      * apply always_for_break with (I := fun r : melody_state * Z => melody_ok pcs (fst r));
          [|exact Hst'].
        intros [st2 played] [start_offset fraction] Hst2. simpl in Hst2.
        unfold minimalist_note.
        destruct (Qleb _ _); [apply always_ret; exact Hst2|].
        destruct (Qleb _ _); [apply always_ret; exact Hst2|].
        eapply always_bind; [apply always_true|]. intros pitch _.
        apply always_ret. simpl. apply emit_ok. exact Hst2.
      * intros [st3 played] Hst3. apply always_ret. exact Hst3.
  - intros r Hr. apply always_ret. exact Hr.
Qed.

Lemma generate_melody_minimalist_ok (progression_data : progression) :
  always (generate_melody_minimalist scale_notes melody_style melody_speed melody_octave
            instrument_type fuel progression_data) (notes_in_pcs pcs).
Proof.
  unfold generate_melody_minimalist.
  apply always_scale_guard; [constructor|].
  eapply always_bind.
  - apply always_foldM with (I := melody_ok pcs); [|apply melody_init_ok].
    intros a x Ha. apply minimalist_slot_ok. exact Ha.
  - intros st Hst. apply always_ret. exact Hst.
Qed.

Lemma sustained_slot_ok (st : melody_state) (s : slot) :
  melody_ok pcs st ->
  always (sustained_slot scale_notes melody_style melody_speed melody_octave instrument_type
            st s) (melody_ok pcs).
Proof.
  intros Hst. unfold sustained_slot.
  destruct (bass_root_note s) as [root|]; [|apply always_ret; exact Hst].
  destruct (_ || _)%bool; [apply always_ret; exact Hst|].
  eapply always_bind; [apply always_true|]. intros target_pitch _.
  eapply always_bind; [apply always_true|]. intros placement _.
  eapply always_bind.
  - apply always_foldM with (I := melody_ok pcs); [|exact Hst].
    intros a [start_frac dur_frac] Ha. unfold sustained_note.
    destruct (Qleb _ _); [apply always_ret; exact Ha|].
    eapply always_bind; [apply always_true|]. intros pitch _.
    apply always_ret. apply emit_ok. exact Ha.
  - intros st' Hst'. apply always_ret. exact Hst'.
Qed.

Lemma generate_melody_sustained_lead_ok (progression_data : progression) :
  always (generate_melody_sustained_lead scale_notes melody_style melody_speed melody_octave
            instrument_type progression_data) (notes_in_pcs pcs).
Proof.
  unfold generate_melody_sustained_lead.
  apply always_scale_guard; [constructor|].
  eapply always_bind.
  - apply always_foldM with (I := melody_ok pcs); [|apply melody_init_ok].
    intros a x Ha. apply sustained_slot_ok. exact Ha.
  - intros st Hst. apply always_ret. exact Hst.
Qed.

End OtherMelodyFacts.

(** *** Bass *)

Lemma always_foldM_in {A B} (f : A -> B -> Rand A) (I : A -> Prop) (l : list B) :
  (forall a x, In x l -> I a -> always (f a x) I) ->
  forall a, I a -> always (foldM f l a) I.
Proof.
  induction l as [|x l IH]; intros Hf a Ha; simpl.
  - apply always_ret. exact Ha.
  - eapply always_bind; [apply Hf; [left; reflexivity | exact Ha]|].
    intros a' Ha'. apply IH; [|exact Ha'].
    intros a0 x0 Hin. apply Hf. right. exact Hin.
Qed.

Lemma bass_register_class (lo hi root shift : Z) :
  shift = -24 \/ shift = -36 -> (fold_into lo hi (root + shift)) mod 12 = root mod 12.
Proof.
  intros Hs. rewrite fold_into_class.
  destruct Hs as [-> | ->].
  - replace (root + -24) with (root + (-2) * 12) by lia. apply Z.mod_add. lia.
  - replace (root + -36) with (root + (-3) * 12) by lia. apply Z.mod_add. lia.
Qed.

(** The standard bass only plays octave foldings of slot roots. *)
Lemma generate_bass_standard_roots (progression_data : progression) (scale_notes : list Z) :
  Forall (fun e => follows_roots [0] progression_data (event_pitch e))
    (generate_bass_standard progression_data scale_notes).
Proof.
  unfold generate_bass_standard.
  set (P := fun e : note_event => follows_roots [0] progression_data (event_pitch e)).
  assert (H : forall l acc, incl l progression_data -> Forall P (fst acc) ->
                            Forall P (fst (fold_left bass_standard_slot l acc))).
  { induction l as [|s l IH]; intros acc Hincl Hacc; simpl; [exact Hacc|].
    apply IH; [intros x Hx; apply Hincl; right; exact Hx|].
    unfold bass_standard_slot.
    destruct (bass_root_note s) as [root|] eqn:Er; [|exact Hacc].
    destruct (Qleb (duration_beats s) 0); [exact Hacc|].
    destruct (Qleb (1 # 10) (duration_beats s)); simpl; [|exact Hacc].
    apply Forall_app. split; [exact Hacc|]. constructor; [|constructor].
    exists s, root, 0. split; [apply Hincl; left; reflexivity|].
    split; [exact Er|]. split; [left; reflexivity|].
    unfold event_pitch. simpl fst. rewrite Z.add_0_r.
    apply bass_register_class. left. reflexivity. }
  apply H; [apply incl_refl | constructor].
Qed.

(** The RnB bass plays octave foldings of slot roots and of the pitch a
    fifth above them. *)
Lemma generate_bass_rnb_roots (progression_data : progression) (scale_notes : list Z) :
  always (generate_bass_rnb progression_data scale_notes)
    (Forall (fun e => follows_roots [0; 7] progression_data (event_pitch e))).
Proof.
  unfold generate_bass_rnb.
  set (P := fun e : note_event => follows_roots [0; 7] progression_data (event_pitch e)).
  eapply always_bind; [|intros st Hst; apply always_ret; exact Hst].
  apply always_foldM_in with (I := fun st : bass_state => Forall P (fst st)); [|constructor].
  intros st s Hin Hst. unfold bass_rnb_slot.
  destruct (bass_root_note s) as [root|] eqn:Er; [|apply always_ret; exact Hst].
  destruct (Qleb (duration_beats s) 0); [apply always_ret; exact Hst|].
  set (root_pitch := fold_into 28 65 (root + -24)).
  assert (Hroot : root_pitch mod 12 = root mod 12)
    by (apply bass_register_class; left; reflexivity).
  set (fifth_pitch := if root_pitch + 7 >? 65 then root_pitch + 7 - 12 else root_pitch + 7).
  assert (Hfifth : fifth_pitch mod 12 = (root + 7) mod 12).
  { unfold fifth_pitch. destruct (root_pitch + 7 >? 65).
    - rewrite (pitch_class_down (root_pitch + 7) : (root_pitch + 7 - 12) mod 12 = _).
      fold (pitch_class (root_pitch + 7)). unfold pitch_class.
      rewrite Z.add_mod, Hroot, <- Z.add_mod by lia. reflexivity.
    - rewrite Z.add_mod, Hroot, <- Z.add_mod by lia. reflexivity. }
  eapply always_bind; [apply always_true|]. intros chosen_rhythm _.
  eapply always_bind; [|intros data Hdata; apply always_ret; exact Hdata].
  apply always_foldM with (I := Forall P); [|exact Hst].
  intros data [start_offset dur] Hdata. unfold bass_rnb_note.
  eapply always_bind; [apply always_true|]. intros u _.
  destruct (_ && _)%bool; apply always_ret; [|exact Hdata].
  apply Forall_app. split; [exact Hdata|]. constructor; [|constructor].
  destruct (Qltb u (7 # 10)).
  - exists s, root, 0. split; [exact Hin|]. split; [exact Er|]. split; [left; reflexivity|].
    unfold event_pitch. simpl fst. rewrite Z.add_0_r. exact Hroot.
  - exists s, root, 7. split; [exact Hin|]. split; [exact Er|].
    split; [right; left; reflexivity|].
    unfold event_pitch. simpl fst. exact Hfifth.
Qed.

(** The diatonic scales that the entry point passes to the part
    generators reach the register of both melody octaves. *)
Lemma diatonic_scale_in_register (root : Z) (melody_octave : string) :
  60 <= root <= 71 ->
  scale_in_register (get_major_scale_notes root) melody_octave
  /\ scale_in_register (get_natural_minor_scale_notes root) melody_octave.
Proof.
  intros Hroot.
  assert (H : forall scale, In root scale -> scale_in_register scale melody_octave).
  { intros scale Hin. unfold scale_in_register, register_scale, extend_scale.
    assert (Hr : In root (sorted_set
                  (filter (between (range_min_of melody_octave) (range_max_of melody_octave))
                     (flat_map (fun n => map (fun oct => n + oct) [-24; -12; 0; 12; 24; 36])
                        scale)))).
    { apply sorted_set_In. apply filter_In. split.
      - apply in_flat_map. exists root. split; [exact Hin|].
        simpl. right. right. left. lia.
      - unfold between, range_min_of, range_max_of.
        destruct (String.eqb melody_octave "Mid"); apply andb_true_intro; split;
          apply Z.leb_le; lia. }
    intros E. rewrite E in Hr. exact Hr. }
  split; apply H; simpl; left; lia.
Qed.

Lemma notes_in_pcs_on_scale (scale_notes : list Z) (data : list note_event) :
  notes_in_pcs (pcs_of scale_notes) data ->
  Forall (fun e => on_scale scale_notes (event_pitch e)) data.
Proof.
  intros H. eapply Forall_impl; [|exact H]. intros e He. apply in_pcs_on_scale. exact He.
Qed.

Lemma pcs_of_range (scale_notes : list Z) (pc : Z) : In pc (pcs_of scale_notes) -> 0 <= pc < 12.
Proof.
  unfold pcs_of. rewrite sorted_set_In, in_map_iff. intros (n & <- & _).
  apply Z.mod_pos_bound. lia.
Qed.

Lemma pcs_of_nonempty (scale_notes : list Z) : scale_notes <> [] -> pcs_of scale_notes <> [].
Proof.
  destruct scale_notes as [|n ns]; [contradiction|]. intros _ E.
  assert (H : In (n mod 12) (pcs_of (n :: ns))).
  { unfold pcs_of. apply sorted_set_In. left. reflexivity. }
  rewrite E in H. exact H.
Qed.

(** C3 (as stated, refuted): the RnB bass emits an off-scale pitch
    class.  In C major the "Chorgi" pool holds Bdim (function vii); the
    run on the tape below opens with that chord, and on its slot the RnB
    bass, drawing the fifth, plays 54 = F#, whose class 6 is not in the
    C major set {0, 2, 4, 5, 7, 9, 11}. *)
Lemma bass_rnb_emits_off_scale :
  let scale_notes := get_major_scale_notes 60 in
  exists data,
    fst (_execute_generation_logic "Chorgi" "C" "major" "Standard (Triads/7ths)" (Some 4)
           "Smooth Random" "1 / Bar" "Root Position" "Any" "Standard" [9; 0; 0; 0; 0; 0; 0; 0])
      = Ok (mk_generation 4 data)
    /\ hd_error data = Some (mk_slot "Bdim" [71; 74; 77] [59; 62; 65] (Some 71) 4)
    /\ pcs_of scale_notes = [0; 2; 4; 5; 7; 9; 11]
    /\ hd_error (map event_pitch
                   (fst (generate_bass_rnb data scale_notes [0; 9007199254740991]))) = Some 54
    /\ in_pcs (pcs_of scale_notes) 54 = false
    /\ ~ on_scale scale_notes 54.
Proof.
  eexists. split; [vm_compute; reflexivity|].
  split; [reflexivity|]. split; [reflexivity|].
  split; [vm_compute; reflexivity|]. split; [reflexivity|].
  intros H. apply in_pcs_on_scale in H. discriminate.
Qed.

(** C3 (amended): every note event emitted by a melody generator has its
    pitch class in the active scale's pitch-class set -- for Chord Tone
    Focus, Experimental, Minimalist and Sustained Lead on every scale,
    for Scale Walker and Leaps & Steps on every scale that reaches their
    register, as the diatonic scales of the twelve key roots do; a
    candidate whose class is off-scale is moved to the diatonic class at
    the least circular distance (the drop is never taken on a non-empty
    scale).  The bass generators do not snap: the Standard bass emits
    octave foldings of the slot roots, and the RnB bass octave foldings
    of the slot roots and of the pitch a fifth above them, so a bass
    note is on-scale exactly when that pitch is. *)
Theorem melody_notes_on_scale :
  (forall scale_notes melody_style melody_speed melody_octave instrument_type fuel
          progression_data t,
     Forall (fun e => on_scale scale_notes (event_pitch e))
       (fst (generate_melody_chord_focus scale_notes melody_style melody_speed melody_octave
               instrument_type progression_data t))
     /\ Forall (fun e => on_scale scale_notes (event_pitch e))
          (fst (generate_melody_experimental scale_notes melody_style melody_speed
                  melody_octave instrument_type fuel progression_data t))
     /\ Forall (fun e => on_scale scale_notes (event_pitch e))
          (fst (generate_melody_minimalist scale_notes melody_style melody_speed melody_octave
                  instrument_type fuel progression_data t))
     /\ Forall (fun e => on_scale scale_notes (event_pitch e))
          (fst (generate_melody_sustained_lead scale_notes melody_style melody_speed
                  melody_octave instrument_type progression_data t))
     /\ (scale_in_register scale_notes melody_octave ->
         Forall (fun e => on_scale scale_notes (event_pitch e))
           (fst (generate_melody_scale_walker scale_notes melody_style melody_speed
                   melody_octave instrument_type progression_data t))
         /\ Forall (fun e => on_scale scale_notes (event_pitch e))
              (fst (generate_melody_leaps_steps scale_notes melody_style melody_speed
                      melody_octave instrument_type progression_data t))))
  /\ (forall root melody_octave,
        60 <= root <= 71 ->
        scale_in_register (get_major_scale_notes root) melody_octave
        /\ scale_in_register (get_natural_minor_scale_notes root) melody_octave)
  /\ (forall scale_notes min_pitch max_pitch pitch,
        scale_notes <> [] ->
        exists p,
          snap_to_scale (pcs_of scale_notes) min_pitch max_pitch pitch = Some p
          /\ on_scale scale_notes p
          /\ (on_scale scale_notes (fold_into min_pitch max_pitch pitch) ->
              p = fold_into min_pitch max_pitch pitch)
          /\ (~ on_scale scale_notes (fold_into min_pitch max_pitch pitch) ->
              forall pc, In pc (pcs_of scale_notes) ->
                circular_distance (fold_into min_pitch max_pitch pitch) (p mod 12)
                <= circular_distance (fold_into min_pitch max_pitch pitch) pc))
  /\ (forall progression_data scale_notes t,
        Forall (fun e => follows_roots [0] progression_data (event_pitch e))
          (generate_bass_standard progression_data scale_notes)
        /\ Forall (fun e => follows_roots [0; 7] progression_data (event_pitch e))
             (fst (generate_bass_rnb progression_data scale_notes t))).
Proof.
  split; [|split; [|split]].
  - intros scale_notes melody_style melody_speed melody_octave instrument_type fuel
           progression_data t.
    split; [apply notes_in_pcs_on_scale, generate_melody_chord_focus_ok|].
    split; [apply notes_in_pcs_on_scale, generate_melody_experimental_ok|].
    split; [apply notes_in_pcs_on_scale, generate_melody_minimalist_ok|].
    split; [apply notes_in_pcs_on_scale, generate_melody_sustained_lead_ok|].
    intros Hreg.
    pose proof (walker_pcs_in_register scale_notes melody_octave Hreg) as Hpcs.
    split; apply notes_in_pcs_on_scale; rewrite <- Hpcs.
    + apply generate_melody_scale_walker_ok.
    + apply generate_melody_leaps_steps_ok.
  - exact diatonic_scale_in_register.
  - intros scale_notes min_pitch max_pitch pitch Hne.
    destruct (snap_to_scale_nearest (pcs_of scale_notes) min_pitch max_pitch pitch
                (pcs_of_nonempty scale_notes Hne) (pcs_of_range scale_notes))
      as (p & Hsnap & Hin & Hkeep & Hnear).
    exists p. split; [exact Hsnap|].
    split; [apply in_pcs_on_scale; apply existsb_eqb_In; exact Hin|].
    split.
    + intros Hon. apply Hkeep. apply in_pcs_on_scale. exact Hon.
    + intros Hoff. apply Hnear.
      destruct (in_pcs (pcs_of scale_notes) (fold_into min_pitch max_pitch pitch)) eqn:E;
        [|reflexivity].
      exfalso. apply Hoff. apply in_pcs_on_scale. exact E.
  - intros progression_data scale_notes t.
    split; [apply generate_bass_standard_roots | apply generate_bass_rnb_roots].
Qed.

(** Scale Walker and Leaps & Steps over Am - E7 in A minor: although E7
    holds G sharp, every melody note is in the natural minor scale. *)
Lemma melody_notes_on_scale_witness :
  let scale_notes := get_natural_minor_scale_notes 69 in
  let progression_data :=
    [ mk_slot "Am" [69; 72; 76] [57; 60; 64] (Some 69) 4;
      mk_slot "E7" [76; 80; 83; 86] [64; 68; 71; 74] (Some 76) 4 ] in
  let t := [0; 1; 2; 3; 4; 5; 6; 7; 8; 9; 10; 11; 12; 13; 14; 15; 16; 17; 18; 19; 20] in
  Forall (fun e => on_scale scale_notes (event_pitch e))
    (fst (generate_melody_scale_walker scale_notes "Legato" "Fast" "High" "Synth Lead"
            progression_data t))
  /\ Forall (fun e => on_scale scale_notes (event_pitch e))
       (fst (generate_melody_leaps_steps scale_notes "Legato" "Fast" "High" "Synth Lead"
               progression_data t)).
Proof.
  exact (proj2 (proj2 (proj2 (proj2
           (proj1 melody_notes_on_scale (get_natural_minor_scale_notes 69) "Legato" "Fast"
              "High" "Synth Lead" 0%nat
              [ mk_slot "Am" [69; 72; 76] [57; 60; 64] (Some 69) 4;
                mk_slot "E7" [76; 80; 83; 86] [64; 68; 71; 74] (Some 76) 4 ]
              [0; 1; 2; 3; 4; 5; 6; 7; 8; 9; 10; 11; 12; 13; 14; 15; 16; 17; 18; 19; 20]))))
           (proj2 (proj1 (proj2 melody_notes_on_scale) 69 "High" ltac:(lia)))).
Defined.

(** ** Note-list helpers *)

Lemma sum_Z_app (a b : list Z) : sum_Z (a ++ b) = sum_Z a + sum_Z b.
Proof. induction a as [|x a IH]; simpl; [reflexivity | rewrite IH; lia]. Qed.

Lemma sum_Z_perm (a b : list Z) : Permutation a b -> sum_Z a = sum_Z b.
Proof. induction 1; simpl; lia. Qed.

Lemma sum_Z_sorted (l : list Z) : sum_Z (sorted l) = sum_Z l.
Proof. symmetry. apply sum_Z_perm, sorted_perm. Qed.

Lemma len_sorted (l : list Z) : len (sorted l) = len l.
Proof. unfold len. rewrite sorted_length. reflexivity. Qed.

(** A list split around its [k]-th element. *)
Lemma split_at_nth (k : nat) (l : list Z) :
  (k < List.length l)%nat -> l = firstn k l ++ nth k l 0 :: skipn (S k) l.
Proof.
  revert l. induction k as [|k IH]; intros [|x l] Hk; simpl in *; try lia.
  - reflexivity.
  - f_equal. apply IH. lia.
Qed.

(** The notes of the spread voicing, before the last sort, against the
    sorted input. *)
Lemma spread_voicing_split (l : list Z) :
  3 <= len l ->
  exists a x b,
    l = a ++ x :: b
    /\ firstn (Z.to_nat (len l - 2)) l ++ skipn (Z.to_nat (len l - 1)) l = a ++ b
    /\ nth (Z.to_nat (len l - 2)) l 0 = x.
Proof.
  intros Hl. unfold len in *.
  exists (firstn (Z.to_nat (Z.of_nat (List.length l) - 2)) l),
         (nth (Z.to_nat (Z.of_nat (List.length l) - 2)) l 0),
         (skipn (Z.to_nat (Z.of_nat (List.length l) - 1)) l).
  split; [|split; reflexivity].
  replace (Z.to_nat (Z.of_nat (List.length l) - 1))
    with (S (Z.to_nat (Z.of_nat (List.length l) - 2))) by lia.
  apply split_at_nth. lia.
Qed.

(** X1: the spread voicing returns an ascending list with the notes and
    pitch classes of its input; with three notes or more exactly one
    note has gone up an octave (the pitches sum to 12 more), with fewer
    the pitches are unchanged. *)
Theorem calculate_spread_voicing_spec (notes : list Z) :
  LocallySorted Z.le (calculate_spread_voicing notes)
  /\ same_pitch_classes (calculate_spread_voicing notes) notes
  /\ sum_Z (calculate_spread_voicing notes)
     = sum_Z notes + (if len notes <? 3 then 0 else 12).
Proof.
  unfold calculate_spread_voicing.
  destruct (Z.ltb_spec (len notes) 3) as [Hlt | Hge].
  - split; [apply sorted_ascending|]. split; [apply sorted_same_pitch_classes|].
    rewrite sum_Z_sorted. lia.
  - split; [apply sorted_ascending|].
    destruct (spread_voicing_split (sorted notes)) as (a & x & b & Hl & Hrem & Hx);
      [rewrite len_sorted; exact Hge|].
    rewrite Hrem, Hx.
    assert (Hp : Permutation notes (a ++ x :: b))
      by (rewrite <- Hl; apply sorted_perm).
    split.
    + eapply same_pitch_classes_trans; [apply sorted_same_pitch_classes|].
      apply same_pitch_classes_of_perm.
      eapply Permutation_trans;
        [|apply Permutation_map, Permutation_sym, Hp].
      rewrite !map_app. simpl. rewrite pitch_class_up.
      rewrite <- app_assoc. apply Permutation_app_head.
      apply Permutation_sym, Permutation_cons_append.
    + rewrite sum_Z_sorted, (sum_Z_perm _ _ Hp), !sum_Z_app. simpl. lia.
Qed.

Lemma calculate_drop2_voicing_cases (notes : list Z) :
  (len notes <> 4 /\ calculate_drop2_voicing notes = sorted notes)
  \/ (len notes = 4
      /\ exists n0 n1 n2 n3,
           sorted notes = [n0; n1; n2; n3]
           /\ calculate_drop2_voicing notes = sorted [n0; n1; n3; n2 - 12]).
Proof.
  unfold calculate_drop2_voicing.
  pose proof (len_sorted notes) as Hlen. unfold len in Hlen.
  destruct (sorted notes) as [|n0 [|n1 [|n2 [|n3 [|n4 l]]]]] eqn:E; simpl in Hlen;
    try (left; split; [unfold len; lia | reflexivity]).
  right. split; [unfold len; lia|].
  exists n0, n1, n2, n3. split; reflexivity.
Qed.

(** X2: the Drop 2 voicing returns an ascending list of as many notes;
    on four notes exactly one has gone down an octave (the pitches sum
    to 12 less), on any other number the pitches are unchanged. *)
Theorem calculate_drop2_voicing_spec (notes : list Z) :
  LocallySorted Z.le (calculate_drop2_voicing notes)
  /\ len (calculate_drop2_voicing notes) = len notes
  /\ sum_Z (calculate_drop2_voicing notes)
     = sum_Z notes - (if len notes =? 4 then 12 else 0).
Proof.
  destruct (calculate_drop2_voicing_cases notes)
    as [[Hn ->] | (Hn & n0 & n1 & n2 & n3 & Hs & ->)].
  - split; [apply sorted_ascending|]. split; [apply len_sorted|].
    rewrite sum_Z_sorted. destruct (Z.eqb_spec (len notes) 4); lia.
  - split; [apply sorted_ascending|]. split.
    + rewrite len_sorted, Hn. reflexivity.
    + rewrite sum_Z_sorted, <- (sum_Z_sorted notes), Hs, Hn. simpl. lia.
Qed.

(** X3: transposing twice is transposing by the sum, and transposing by
    zero changes nothing. *)
Theorem transpose_notes_additive (notes : list Z) (a b : Z) :
  transpose_notes (transpose_notes notes a) b = transpose_notes notes (a + b)
  /\ transpose_notes notes 0 = notes.
Proof.
  unfold transpose_notes. split.
  - rewrite map_map. apply map_ext. intros x. lia.
  - rewrite <- (map_id notes) at 2. apply map_ext. intros x. lia.
Qed.

(** *** The average pitch *)


Lemma sum_Z_bounds (notes : list Z) (lo hi : Z) :
  Forall (fun n => lo <= n <= hi) notes ->
  lo * len notes <= sum_Z notes <= hi * len notes.
Proof.
  unfold len. induction 1 as [|x l Hx Hl IH]; [simpl; lia|].
  simpl sum_Z. simpl List.length. lia.
Qed.

Lemma get_average_pitch_nonempty (notes : list Z) :
  notes <> [] ->
  get_average_pitch notes = (inject_Z (sum_Z notes) / inject_Z (len notes))%Q
  /\ 0 < len notes.
Proof.
  destruct notes as [|x l]; [congruence|]. intros _.
  split; [reflexivity | unfold len; simpl; lia].
Qed.



(** X5: the average pitch of a non-empty chord lies between any bounds
    that hold of all its notes. *)
Theorem get_average_pitch_bounds (notes : list Z) (lo hi : Z) :
  notes <> [] ->
  Forall (fun n => lo <= n <= hi) notes ->
  (inject_Z lo <= get_average_pitch notes)%Q /\ (get_average_pitch notes <= inject_Z hi)%Q.
Proof.
  intros Hne Hall.
  destruct (get_average_pitch_nonempty notes Hne) as [-> Hpos].
  pose proof (sum_Z_bounds notes lo hi Hall) as [Hlo Hhi].
  assert (HposQ : (0 < inject_Z (len notes))%Q)
    by (rewrite <- (Zlt_Qlt 0); exact Hpos).
  split.
  - apply Qle_shift_div_l; [exact HposQ|].
    rewrite <- inject_Z_mult, <- Zle_Qle. exact Hlo.
  - apply Qle_shift_div_r; [exact HposQ|].
    rewrite <- inject_Z_mult, <- Zle_Qle. exact Hhi.
Qed.

(** A C major triad lies between its root and its fifth, and so does
    its average. *)
Lemma get_average_pitch_bounds_witness :
  (inject_Z 60 <= get_average_pitch [60; 64; 67]%Z)%Q
  /\ (get_average_pitch [60; 64; 67]%Z <= inject_Z 67)%Q.
Proof.
  apply get_average_pitch_bounds; [discriminate|].
  repeat constructor; lia.
Defined.

(** ** Arpeggiator patterns *)

Lemma py_range_In (a b x : Z) : In x (py_range a b) <-> a <= x < b.
Proof.
  unfold py_range. rewrite in_map_iff. split.
  - intros (k & <- & Hk). apply in_seq in Hk. lia.
  - intros H. exists (Z.to_nat (x - a)). split; [lia|]. apply in_seq. lia.
Qed.

Lemma py_range_len (a b : Z) : len (py_range a b) = Z.max 0 (b - a).
Proof. unfold len, py_range. rewrite length_map, length_seq. lia. Qed.

Lemma py_range_empty (a b : Z) : b <= a -> py_range a b = [].
Proof.
  intros H. unfold py_range. replace (Z.to_nat (b - a)) with 0%nat by lia. reflexivity.
Qed.

Lemma py_range_cons (a b : Z) : a < b -> py_range a b = a :: py_range (a + 1) b.
Proof.
  intros H. unfold py_range.
  replace (Z.to_nat (b - a)) with (S (Z.to_nat (b - (a + 1)))) by lia.
  cbn [seq map]. f_equal; [lia|].
  rewrite <- seq_shift, map_map. apply map_ext. intros k. lia.
Qed.

Lemma py_range_snoc (a b : Z) : a <= b -> py_range a (b + 1) = py_range a b ++ [b].
Proof.
  intros H. unfold py_range.
  replace (Z.to_nat (b + 1 - a)) with (S (Z.to_nat (b - a))) by lia.
  rewrite seq_S, map_app. cbn [map]. do 2 f_equal. lia.
Qed.

Lemma py_range_split (a m b : Z) :
  a <= m <= b -> py_range a b = py_range a m ++ py_range m b.
Proof.
  intros H.
  remember (Z.to_nat (m - a)) as k eqn:Ek. revert a H Ek.
  induction k as [|k IH]; intros a H Ek.
  - assert (a = m) by lia. subst a. rewrite (py_range_empty m m) by lia. reflexivity.
  - rewrite (py_range_cons a b), (py_range_cons a m) by lia.
    cbn [app]. f_equal. apply IH; lia.
Qed.

Lemma py_range_nth (n i : Z) : 0 <= i < n -> nth (Z.to_nat i) (py_range 0 n) 0 = i.
Proof.
  intros H. unfold py_range.
  rewrite (nth_indep _ 0 ((fun k => 0 + Z.of_nat k) 0%nat))
    by (rewrite length_map, length_seq; lia).
  rewrite (map_nth (fun k => 0 + Z.of_nat k)), seq_nth by lia. lia.
Qed.

Lemma py_range_down_rev (a b : Z) : py_range_down a b = rev (py_range (b + 1) (a + 1)).
Proof.
  unfold py_range_down, py_range.
  replace (Z.to_nat (a + 1 - (b + 1))) with (Z.to_nat (a - b)) by lia.
  destruct (Z.le_gt_cases a b) as [Hle | Hgt].
  - replace (Z.to_nat (a - b)) with 0%nat by lia. reflexivity.
  - remember (Z.to_nat (a - b)) as n eqn:En. revert a b Hgt En.
    induction n as [|n IH]; intros a b Hgt En; [reflexivity|].
    rewrite seq_S at 2. rewrite map_app, rev_app_distr. cbn [map rev app seq].
    f_equal; [lia|].
    rewrite <- seq_shift, map_map.
    destruct (Z.eq_dec (a - 1) b) as [E | E].
    + replace n with 0%nat by lia. reflexivity.
    + rewrite <- (IH (a - 1) b) by lia. apply map_ext. intros k. lia.
Qed.

(** X6: the descending pattern is the ascending one read backwards; the
    ascending pattern of [n] notes has [max 0 n] entries and holds
    exactly the indices [0 .. n-1]. *)
Theorem descending_pattern_reverses_ascending (num_notes : Z) :
  get_descending_pattern num_notes = rev (get_ascending_pattern num_notes)
  /\ len (get_ascending_pattern num_notes) = Z.max 0 num_notes
  /\ (forall i, In i (get_ascending_pattern num_notes) <-> 0 <= i < num_notes).
Proof.
  unfold get_descending_pattern, get_ascending_pattern.
  destruct (Z.leb_spec num_notes 0) as [Hle | Hgt].
  - split; [reflexivity|]. split; [unfold len; simpl; lia|].
    intros i. simpl. lia.
  - split; [|split].
    + rewrite py_range_down_rev. do 2 f_equal; lia.
    + rewrite py_range_len. lia.
    + intros i. apply py_range_In.
Qed.

(** X7: the up-down pattern is the ascending pattern followed by the
    descending one without its top; it reads the same backwards, has
    [max 0 (2n-1)] entries and stays inside [0 .. n-1]. *)
Theorem up_down_pattern_spec (num_notes : Z) :
  get_up_down_pattern num_notes
  = get_ascending_pattern num_notes ++ tl (get_descending_pattern num_notes)
  /\ rev (get_up_down_pattern num_notes) = get_up_down_pattern num_notes
  /\ len (get_up_down_pattern num_notes) = Z.max 0 (2 * num_notes - 1)
  /\ Forall (fun i => 0 <= i < num_notes) (get_up_down_pattern num_notes).
Proof.
  unfold get_up_down_pattern, get_ascending_pattern, get_descending_pattern.
  destruct (Z.leb_spec num_notes 0) as [Hle | Hgt].
  - split; [reflexivity|]. split; [reflexivity|].
    split; [unfold len; cbn [app List.length Z.of_nat]; lia | constructor].
  - rewrite !py_range_down_rev.
    replace (-1 + 1) with 0 by lia.
    replace (num_notes - 2 + 1) with (num_notes - 1) by lia.
    replace (num_notes - 1 + 1) with num_notes by lia.
    assert (Hup : py_range 0 num_notes = py_range 0 (num_notes - 1) ++ [num_notes - 1]).
    { rewrite <- py_range_snoc by lia. f_equal. lia. }
    split; [|split; [|split]].
    + rewrite Hup at 3. rewrite rev_app_distr. reflexivity.
    + rewrite rev_app_distr, rev_involutive, Hup.
      rewrite rev_app_distr, <- app_assoc. reflexivity.
    + unfold len. rewrite length_app, length_rev.
      pose proof (py_range_len 0 num_notes) as H1.
      pose proof (py_range_len 0 (num_notes - 1)) as H2.
      unfold len in H1, H2. lia.
    + apply Forall_app. split; apply Forall_forall; intros i Hi.
      * apply py_range_In in Hi. lia.
      * apply in_rev in Hi. apply py_range_In in Hi. lia.
Qed.

Lemma always_choice_or_in {A} (l : list A) (d : A) :
  l <> [] -> always (choice_or l d) (fun x => In x l).
Proof.
  intros Hne. destruct l as [|a l]; [congruence|]. unfold choice_or.
  eapply always_bind; [apply always_random_choice; discriminate|].
  intros r (x & -> & Hin). apply always_ret. exact Hin.
Qed.

Lemma always_replicateM {A} (m : Rand A) (P : A -> Prop) (n : nat) :
  always m P -> always (replicateM n m) (fun l => Forall P l /\ List.length l = n).
Proof.
  intros Hm. induction n as [|n IH]; simpl.
  - apply always_ret. split; [constructor | reflexivity].
  - eapply always_bind; [exact Hm|]. intros x Hx.
    eapply always_bind; [exact IH|]. intros rest [Hrest Hlen].
    apply always_ret. split; [constructor; assumption | simpl; lia].
Qed.

Lemma always_random_randint (a b : Z) :
  a <= b -> always (random_randint a b) (fun x => a <= x <= b).
Proof. intros H t. apply random_randint_range. exact H. Qed.

(** X8: whatever the generator draws, the random pattern only holds
    indices of [0 .. n-1]; it is empty for a non-positive [n] and has 8,
    12 or 16 entries otherwise. *)
Theorem random_notes_pattern_spec (num_notes : Z) :
  always (get_random_notes_pattern num_notes)
    (fun pattern =>
       Forall (fun i => 0 <= i < num_notes) pattern
       /\ (if num_notes <=? 0 then pattern = [] else In (len pattern) [8; 12; 16])).
Proof.
  unfold get_random_notes_pattern.
  destruct (Z.leb_spec num_notes 0) as [Hle | Hgt].
  - apply always_ret. split; [constructor | reflexivity].
  - eapply always_bind; [apply (always_choice_or_in [8; 12; 16] 8); discriminate|].
    intros pattern_len Hlen.
    eapply always_weaken;
      [apply always_replicateM, (always_random_randint 0 (num_notes - 1)); lia|].
    intros pattern [Hall Hl]. split.
    + eapply Forall_impl; [|exact Hall]. intros i Hi. simpl in Hi. lia.
    + unfold len. rewrite Hl. simpl in Hlen.
      destruct Hlen as [<- | [<- | [<- | []]]]; simpl; auto.
Qed.

(** *** Converge/Diverge *)

Lemma converge_perm (n : Z) (fuel : nat) :
  forall low high pattern,
    0 <= low -> high < n -> high - low + 1 <= Z.of_nat fuel ->
    Permutation (converge fuel (py_range 0 n) low high pattern)
      (pattern ++ py_range low (high + 1)).
Proof.
  induction fuel as [|fuel IH]; intros low high pattern Hlow Hhigh Hfuel.
  - cbn [converge]. rewrite py_range_empty by lia. rewrite app_nil_r.
    apply Permutation_refl.
  - cbn [converge]. destruct (Z.leb_spec low high) as [Hle | Hgt].
    + rewrite !py_range_nth by lia.
      destruct (Z.eqb_spec low high) as [-> | Hne]; cbn [negb].
      * eapply Permutation_trans; [apply IH; lia|].
        rewrite py_range_empty by lia. rewrite app_nil_r.
        rewrite (py_range_cons high (high + 1)) by lia.
        rewrite py_range_empty by lia. apply Permutation_refl.
      * eapply Permutation_trans; [apply IH; lia|].
        replace (high - 1 + 1) with high by lia.
        rewrite (py_range_cons low (high + 1)), (py_range_snoc (low + 1) high) by lia.
        rewrite <- !app_assoc. apply Permutation_app_head. cbn [app].
        apply perm_skip. apply Permutation_cons_append.
    + rewrite py_range_empty by lia. rewrite app_nil_r. apply Permutation_refl.
Qed.

Lemma diverge_perm (n : Z) (fuel : nat) :
  forall left right pattern,
    -1 <= left <= right -> left + right = n - 1 -> left + 1 <= Z.of_nat fuel ->
    Permutation (diverge fuel (py_range 0 n) n left right pattern)
      (pattern ++ py_range 0 (left + 1) ++ py_range right n).
Proof.
  induction fuel as [|fuel IH]; intros left right pattern Hleft Hsym Hfuel.
  - cbn [diverge]. rewrite (py_range_empty 0), (py_range_empty right) by lia.
    rewrite app_nil_r. apply Permutation_refl.
  - cbn [diverge]. destruct (Z.geb_spec left 0) as [Hge | Hlt]; cbn [andb].
    + destruct (Z.ltb_spec right n) as [Hr | Hr]; [|lia].
      rewrite !py_range_nth by lia.
      eapply Permutation_trans; [apply IH; lia|].
      replace (left - 1 + 1) with left by lia.
      rewrite (py_range_snoc 0 left), (py_range_cons right n) by lia.
      rewrite <- !app_assoc. apply Permutation_app_head. cbn [app].
      eapply Permutation_trans; [apply perm_skip, Permutation_middle|].
      apply (Permutation_middle (py_range 0 left) (right :: py_range (right + 1) n) left).
    + rewrite (py_range_empty 0), (py_range_empty right) by lia.
      rewrite app_nil_r. apply Permutation_refl.
Qed.

(** The pattern, before it is repeated, visits every index once. *)
Lemma converge_diverge_base_perm (num_notes : Z) :
  0 < num_notes ->
  always (converge_diverge_base num_notes)
    (fun pattern => Permutation pattern (py_range 0 num_notes)).
Proof.
  intros Hn. unfold converge_diverge_base.
  eapply always_bind; [apply always_true|]. intros use_converge _.
  destruct use_converge.
  - apply always_ret.
    eapply Permutation_trans; [apply converge_perm; lia|].
    cbn [app]. replace (num_notes - 1 + 1) with num_notes by lia.
    apply Permutation_refl.
  - pose proof (Z.div_mod num_notes 2 ltac:(lia)) as Hdiv.
    pose proof (Z.mod_pos_bound num_notes 2 ltac:(lia)) as Hmod.
    assert (Hmid : 0 <= num_notes / 2) by (apply Z.div_pos; lia).
    destruct (Z.eqb_spec (num_notes mod 2) 1) as [Hodd | Heven]; apply always_ret.
    + rewrite py_range_nth by lia.
      eapply Permutation_trans; [apply diverge_perm; lia|].
      replace (num_notes / 2 - 1 + 1) with (num_notes / 2) by lia.
      rewrite (py_range_split 0 (num_notes / 2) num_notes) by lia.
      rewrite (py_range_cons (num_notes / 2) num_notes) by lia.
      cbn [app]. apply Permutation_middle.
    + eapply Permutation_trans; [apply diverge_perm; lia|].
      replace (num_notes / 2 - 1 + 1) with (num_notes / 2) by lia.
      cbn [app]. rewrite <- py_range_split by lia. apply Permutation_refl.
Qed.

Lemma in_firstn {A} (n : nat) (l : list A) (x : A) : In x (firstn n l) -> In x l.
Proof.
  intros H. rewrite <- (firstn_skipn n l). apply in_or_app. left. exact H.
Qed.

Lemma fill_pattern_incl (pattern : list Z) (target_len : Z) (fuel : nat) :
  forall full_pattern,
    incl full_pattern pattern ->
    incl (fill_pattern fuel pattern full_pattern target_len) pattern.
Proof.
  induction fuel as [|fuel IH]; intros full Hincl; simpl; [exact Hincl|].
  destruct (len full <? target_len); [|exact Hincl].
  apply IH. apply incl_app; [exact Hincl | apply incl_refl].
Qed.

(** The fuel lets the filling loop run to its exit. *)
Lemma fill_pattern_done (pattern : list Z) (target_len : Z) (fuel : nat) :
  pattern <> [] ->
  forall full_pattern,
    target_len - len full_pattern <= Z.of_nat fuel ->
    target_len <= len (fill_pattern fuel pattern full_pattern target_len).
Proof.
  intros Hne. induction fuel as [|fuel IH]; intros full Hfuel; simpl; [lia|].
  destruct (Z.ltb_spec (len full) target_len) as [Hlt | Hge]; [|exact Hge].
  apply IH. unfold len in *. rewrite length_app.
  destruct pattern; [congruence|]. simpl. lia.
Qed.

Lemma fill_pattern_prefix (pattern : list Z) (target_len : Z) (fuel : nat) :
  forall full_pattern,
    exists rest, fill_pattern fuel pattern full_pattern target_len = full_pattern ++ rest.
Proof.
  induction fuel as [|fuel IH]; intros full; simpl.
  - exists []. rewrite app_nil_r. reflexivity.
  - destruct (len full <? target_len).
    + destruct (IH (full ++ pattern)) as [rest ->].
      exists (pattern ++ rest). rewrite app_assoc. reflexivity.
    + exists []. rewrite app_nil_r. reflexivity.
Qed.

(** X9: for a positive number of notes and whatever the generator
    draws, the converge/diverge pattern has exactly 8 entries, all of
    them indices of [0 .. n-1]; with 8 notes or fewer every index
    occurs in it.  A non-positive number of notes gives no pattern. *)
Theorem converge_diverge_pattern_spec (num_notes : Z) :
  always (get_converge_diverge_pattern num_notes)
    (fun pattern =>
       Forall (fun i => 0 <= i < num_notes) pattern
       /\ len pattern = (if num_notes <=? 0 then 0 else 8)
       /\ (num_notes <= 8 -> forall i, 0 <= i < num_notes -> In i pattern)).
Proof.
  unfold get_converge_diverge_pattern.
  destruct (Z.leb_spec num_notes 0) as [Hle | Hgt].
  - apply always_ret. split; [constructor|]. split; [reflexivity|]. intros _ i Hi. lia.
  - eapply always_bind; [apply converge_diverge_base_perm; exact Hgt|].
    intros base Hperm. apply always_ret.
    assert (Hbase : forall i, In i base <-> 0 <= i < num_notes).
    { intros i. rewrite <- py_range_In. split; intros H.
      - eapply Permutation_in; [exact Hperm | exact H].
      - eapply Permutation_in; [apply Permutation_sym; exact Hperm | exact H]. }
    assert (Hne : base <> []).
    { intros ->. destruct (Hbase 0) as [_ H]. apply H. lia. }
    assert (Hlen : len base = num_notes).
    { unfold len. rewrite (Permutation_length Hperm).
      pose proof (py_range_len 0 num_notes) as H. unfold len in H. lia. }
    pose proof (fill_pattern_done base 8 (Z.to_nat 8) Hne []
                  ltac:(unfold len; simpl; lia)) as Hdone.
    pose proof (fill_pattern_incl base 8 (Z.to_nat 8) [] ltac:(intros x [])) as Hincl.
    set (full := fill_pattern (Z.to_nat 8) base [] 8) in *.
    split; [|split].
    + apply Forall_forall. intros i Hi. apply Hbase, Hincl.
      eapply in_firstn. exact Hi.
    + unfold len in *. rewrite length_firstn. lia.
    + intros Hsmall i Hi.
      destruct (fill_pattern_prefix base 8 (Z.to_nat 7) ([] ++ base)) as [rest Hrest].
      assert (Hfull : full = base ++ rest).
      { unfold full. change (Z.to_nat 8) with (S (Z.to_nat 7)).
        cbn [fill_pattern]. change (len [] <? 8) with true. cbv iota.
        exact Hrest. }
      rewrite Hfull, firstn_app.
      apply in_or_app. left.
      rewrite firstn_all2; [apply Hbase; exact Hi|].
      unfold len in Hlen. lia.
Qed.

(** ** Bass: the other styles *)

Lemma lower_until_above (fuel : nat) (lo hi : Z) :
  lo + 11 <= hi -> forall pitch, lo <= pitch -> lo <= lower_until fuel hi pitch.
Proof.
  intros Hw. induction fuel as [|f IH]; intros pitch Hp; simpl; [exact Hp|].
  destruct (Z.gtb_spec pitch hi); [apply IH; lia | exact Hp].
Qed.

(** A register of an octave or more holds the folded pitch. *)
Lemma fold_into_range (lo hi pitch : Z) :
  lo + 11 <= hi -> lo <= fold_into lo hi pitch <= hi.
Proof.
  intros Hw. split; [|apply fold_into_below].
  unfold fold_into. apply lower_until_above; [exact Hw|].
  apply raise_until_done. lia.
Qed.

Lemma Qleb_false (x y : Q) : Qleb x y = false -> (y < x)%Q.
Proof.
  unfold Qleb. intros H. apply Qnot_le_lt. intros Hle.
  apply Qle_bool_iff in Hle. congruence.
Qed.

Lemma Qmax_lower (x y : Q) : (x <= Qmax x y)%Q.
Proof.
  unfold Qmax. destruct (Qltb x y) eqn:E; [|apply Qle_refl].
  apply Qltb_true in E. apply Qlt_le_weak. exact E.
Qed.

(** The 808 pitch: folded up into the register, or clamped to its top. *)
Lemma bass_808_pitch (root : Z) :
  let pitch := Z.max 20 (Z.min (raise_until (Z.to_nat (20 - (root + -36))) 20 (root + -36)) 48) in
  20 <= pitch <= 48 /\ (root <= 84 -> pitch mod 12 = root mod 12).
Proof.
  intros pitch. split; [unfold pitch; lia|]. intros Hroot.
  assert (Hup : forall fuel p, p <= 48 -> raise_until fuel 20 p <= 48).
  { induction fuel as [|f IH]; intros p Hp; simpl; [exact Hp|].
    destruct (Z.ltb_spec p 20); [apply IH; lia | exact Hp]. }
  pose proof (Hup (Z.to_nat (20 - (root + -36))) (root + -36) ltac:(lia)) as H48.
  pose proof (raise_until_done (Z.to_nat (20 - (root + -36))) 20 (root + -36)
                ltac:(lia)) as H20.
  unfold pitch. rewrite Z.min_l, Z.max_r by lia.
  rewrite raise_until_class.
  replace (root + -36) with (root + (-3) * 12) by lia. apply Z.mod_add. lia.
Qed.

Lemma bass_808_slot_cases (st : bass_state) (s : slot) :
  (playable s = false /\ fst (bass_808_slot st s) = fst st)
  \/ (exists root pitch,
        playable s = true /\ bass_root_note s = Some root
        /\ 20 <= pitch <= 48 /\ (root <= 84 -> pitch mod 12 = root mod 12)
        /\ bass_808_slot st s
           = (fst st ++ [(pitch, snd st, Qmax (5 # 10) (duration_beats s * (98 # 100))%Q)],
              (snd st + duration_beats s)%Q)).
Proof.
  unfold bass_808_slot, playable.
  destruct (bass_root_note s) as [root|]; [|left; split; reflexivity].
  destruct (Qleb (duration_beats s) 0); [left; split; reflexivity|].
  right. eexists root, _. split; [reflexivity|]. split; [reflexivity|].
  pose proof (bass_808_pitch root) as [Hr Hc].
  split; [exact Hr|]. split; [exact Hc|]. reflexivity.
Qed.

(** The notes of the 808 bass: count, register, duration and pitch class. *)
Lemma generate_bass_808_notes (progression_data : progression) (scale_notes : list Z) :
  List.length (generate_bass_808 progression_data scale_notes)
  = List.length (filter playable progression_data)
  /\ Forall (fun e => 20 <= event_pitch e <= 48 /\ (5 # 10 <= event_duration e)%Q)
       (generate_bass_808 progression_data scale_notes)
  /\ ((forall s root, In s progression_data -> bass_root_note s = Some root -> root <= 84) ->
      Forall (fun e => follows_roots [0] progression_data (event_pitch e))
        (generate_bass_808 progression_data scale_notes)).
Proof.
  unfold generate_bass_808.
  set (R := fun e : note_event => 20 <= event_pitch e <= 48 /\ (5 # 10 <= event_duration e)%Q).
  set (F := fun e : note_event => follows_roots [0] progression_data (event_pitch e)).
  assert (H : forall l acc,
             incl l progression_data ->
             let out := fst (fold_left bass_808_slot l acc) in
             List.length out = (List.length (fst acc) + List.length (filter playable l))%nat
             /\ (Forall R (fst acc) -> Forall R out)
             /\ ((forall s root, In s progression_data -> bass_root_note s = Some root ->
                                 root <= 84) ->
                 Forall F (fst acc) -> Forall F out)).
  { induction l as [|s l IH]; intros acc Hincl; cbn [fold_left filter].
    - cbn zeta. split; [simpl; lia|]. split; auto.
    - assert (Hs : In s progression_data) by (apply Hincl; left; reflexivity).
      assert (Hl : incl l progression_data) by (intros x Hx; apply Hincl; right; exact Hx).
      specialize (IH (bass_808_slot acc s) Hl). cbn zeta in IH |- *.
      destruct IH as (IHlen & IHR & IHF).
      destruct (bass_808_slot_cases acc s)
        as [[Hp Hfst] | (root & pitch & Hp & Hroot & Hreg & Hclass & Hslot)]; rewrite Hp.
      + rewrite Hfst in *. split; [exact IHlen|]. split; assumption.
      + rewrite Hslot in *. cbn [fst] in *. split; [|split].
        * rewrite IHlen, length_app. simpl. lia.
        * intros Hacc. apply IHR. apply Forall_app. split; [exact Hacc|].
          constructor; [|constructor]. split; [exact Hreg|].
          unfold event_duration. cbn [snd]. apply Qmax_lower.
        * intros Hroots Hacc. apply IHF; [exact Hroots|].
          apply Forall_app. split; [exact Hacc|]. constructor; [|constructor].
          exists s, root, 0. split; [exact Hs|]. split; [exact Hroot|].
          split; [left; reflexivity|].
          unfold event_pitch. cbn [fst]. rewrite Z.add_0_r.
          apply Hclass. eapply Hroots; eassumption. }
  destruct (H progression_data ([], 0%Q) (incl_refl _)) as (Hlen & HR & HF).
  split; [exact Hlen|]. split; [apply HR; constructor|].
  intros Hroots. apply HF; [exact Hroots | constructor].
Qed.

(** X10: the 808 bass plays one note on every slot that has a root and
    a positive duration and none on the others; every note lies in the
    register 20..48 and lasts half a beat or more.  The note is an
    octave folding of the slot root as long as the roots do not exceed
    84; a higher root is clamped to 48 instead of folded. *)
Theorem generate_bass_808_spec (progression_data : progression) (scale_notes : list Z) :
  List.length (generate_bass_808 progression_data scale_notes)
  = List.length (filter playable progression_data)
  /\ Forall (fun e => 20 <= event_pitch e <= 48 /\ (5 # 10 <= event_duration e)%Q)
       (generate_bass_808 progression_data scale_notes)
  /\ ((forall s root, In s progression_data -> bass_root_note s = Some root -> root <= 84) ->
      Forall (fun e => follows_roots [0] progression_data (event_pitch e))
        (generate_bass_808 progression_data scale_notes)).
Proof. exact (generate_bass_808_notes progression_data scale_notes). Qed.

(** X11: on a progression whose slots all have a root and a positive
    duration, the 808 bass starts its notes exactly where the chords
    start: the note starts are the running sums of the durations. *)
Theorem generate_bass_808_starts (progression_data : progression) (scale_notes : list Z) :
  forallb playable progression_data = true ->
  map event_start (generate_bass_808 progression_data scale_notes)
  = slot_starts 0 progression_data.
Proof.
  unfold generate_bass_808.
  assert (H : forall l acc,
             forallb playable l = true ->
             map event_start (fst (fold_left bass_808_slot l acc))
             = map event_start (fst acc) ++ slot_starts (snd acc) l).
  { induction l as [|s l IH]; intros acc Hall; cbn [fold_left slot_starts].
    - rewrite app_nil_r. reflexivity.
    - cbn [forallb] in Hall. apply andb_prop in Hall. destruct Hall as [Hs Hl].
      rewrite (IH _ Hl).
      destruct (bass_808_slot_cases acc s)
        as [[Hp _] | (root & pitch & _ & _ & _ & _ & ->)]; [congruence|].
      cbn [fst snd]. rewrite map_app, <- app_assoc. reflexivity. }
  intros Hall. rewrite (H _ _ Hall). reflexivity.
Qed.

(** Two chords of four and two beats: the bass notes start at 0 and 4. *)
Lemma generate_bass_808_starts_witness :
  map event_start
    (generate_bass_808
       [mk_slot "Cmaj" [60; 64; 67] [48; 52; 55] (Some 60) 4;
        mk_slot "Gmaj" [67; 71; 74] [55; 59; 62] (Some 67) 2] [])
  = slot_starts 0
      [mk_slot "Cmaj" [60; 64; 67] [48; 52; 55] (Some 60) 4;
       mk_slot "Gmaj" [67; 71; 74] [55; 59; 62] (Some 67) 2].
Proof. apply generate_bass_808_starts. reflexivity. Defined.

(** The Hip Hop bass only plays the folded root. *)
Lemma bass_hip_hop_note_ok (P : note_event -> Prop) (cur dur : Q) (root_pitch : Z) :
  (forall start d, (5 # 100 < d)%Q -> P (root_pitch, start, d)) ->
  forall rhythm data,
    Forall P data -> Forall P (fold_left (bass_hip_hop_note cur dur root_pitch) rhythm data).
Proof.
  intros HP. induction rhythm as [|[start_offset dur_beats] rhythm IH]; intros data Hdata;
    cbn [fold_left]; [exact Hdata|].
  apply IH. unfold bass_hip_hop_note.
  destruct (Qltb (cur + start_offset) (cur + dur)); cbn [andb]; [|exact Hdata].
  destruct (Qltb (5 # 100) _) eqn:E; [|exact Hdata].
  apply Forall_app. split; [exact Hdata|]. constructor; [|constructor].
  apply HP. apply Qltb_true. exact E.
Qed.

(** The notes of the Hip Hop bass. *)
Lemma generate_bass_hip_hop_notes (progression_data : progression) (scale_notes : list Z) :
  always (generate_bass_hip_hop progression_data scale_notes)
    (Forall (fun e => follows_roots [0] progression_data (event_pitch e)
                      /\ 28 <= event_pitch e <= 55
                      /\ (5 # 100 < event_duration e)%Q)).
Proof.
  unfold generate_bass_hip_hop.
  set (P := fun e : note_event =>
              follows_roots [0] progression_data (event_pitch e)
              /\ 28 <= event_pitch e <= 55 /\ (5 # 100 < event_duration e)%Q).
  eapply always_bind; [|intros st Hst; apply always_ret; exact Hst].
  apply always_foldM_in with (I := fun st : bass_state => Forall P (fst st)); [|constructor].
  intros st s Hin Hst. unfold bass_hip_hop_slot.
  destruct (bass_root_note s) as [root|] eqn:Er; [|apply always_ret; exact Hst].
  destruct (Qleb (duration_beats s) 0); [apply always_ret; exact Hst|].
  eapply always_bind; [apply always_true|]. intros chosen_rhythm _.
  apply always_ret. cbn [fst].
  apply bass_hip_hop_note_ok; [|exact Hst].
  intros start d Hd. split; [|split].
  - exists s, root, 0. split; [exact Hin|]. split; [exact Er|]. split; [left; reflexivity|].
    unfold event_pitch. cbn [fst]. rewrite Z.add_0_r.
    apply bass_register_class. left. reflexivity.
  - unfold event_pitch. cbn [fst]. apply fold_into_range. lia.
  - exact Hd.
Qed.

(** X12: whatever the generator draws, every note of the Hip Hop bass
    is the root of a slot folded into the register 28..55, and lasts
    more than a twentieth of a beat. *)
Theorem generate_bass_hip_hop_spec (progression_data : progression) (scale_notes : list Z) :
  always (generate_bass_hip_hop progression_data scale_notes)
    (Forall (fun e => follows_roots [0] progression_data (event_pitch e)
                      /\ 28 <= event_pitch e <= 55
                      /\ (5 # 100 < event_duration e)%Q)).
Proof. exact (generate_bass_hip_hop_notes progression_data scale_notes). Qed.

(** The notes of the Pop bass. *)
Lemma generate_bass_pop_notes (progression_data : progression) (scale_notes : list Z) :
  always (generate_bass_pop progression_data scale_notes)
    (Forall (fun e => 28 <= event_pitch e <= 60
                      /\ (follows_roots [0] progression_data (event_pitch e)
                          \/ event_pitch e = 60)
                      /\ (5 # 100 < event_duration e)%Q)).
Proof.
  unfold generate_bass_pop.
  set (P := fun e : note_event =>
              28 <= event_pitch e <= 60
              /\ (follows_roots [0] progression_data (event_pitch e) \/ event_pitch e = 60)
              /\ (5 # 100 < event_duration e)%Q).
  eapply always_bind; [|intros st Hst; apply always_ret; exact Hst].
  apply always_foldM_in with (I := fun st : bass_state => Forall P (fst st)); [|constructor].
  intros st s Hin Hst. unfold bass_pop_slot.
  destruct (bass_root_note s) as [root|] eqn:Er; [|apply always_ret; exact Hst].
  destruct (Qleb (duration_beats s) 0); [apply always_ret; exact Hst|].
  set (root_pitch := fold_into 28 60 (root + -24)).
  assert (Hreg : 28 <= root_pitch <= 60) by (apply fold_into_range; lia).
  assert (Hclass : root_pitch mod 12 = root mod 12)
    by (apply bass_register_class; left; reflexivity).
  assert (Hfollows : forall p, p mod 12 = root mod 12 -> follows_roots [0] progression_data p).
  { intros p Hp. exists s, root, 0. split; [exact Hin|]. split; [exact Er|].
    split; [left; reflexivity|]. rewrite Z.add_0_r. exact Hp. }
  eapply always_bind; [|intros data Hdata; apply always_ret; exact Hdata].
  apply always_foldM with (I := Forall P); [|exact Hst].
  intros data beat Hdata. unfold bass_pop_beat.
  eapply always_bind with
    (P := fun pitch => 28 <= pitch <= 60
                       /\ (follows_roots [0] progression_data pitch \/ pitch = 60)).
  - destruct ((beat mod 2 =? 1) && Qleb 2 (duration_beats s)).
    + eapply always_bind; [apply always_true|]. intros u _. apply always_ret.
      destruct (Qltb u (3 # 10)).
      * split; [lia|]. destruct (Z.le_gt_cases (root_pitch + 12) 60) as [Hle | Hgt].
        -- left. rewrite Z.min_l by exact Hle. apply Hfollows.
           rewrite <- Hclass. apply pitch_class_up.
        -- right. apply Z.min_r. lia.
      * split; [exact Hreg|]. left. apply Hfollows, Hclass.
    + apply always_ret. split; [exact Hreg|]. left. apply Hfollows, Hclass.
  - intros pitch [Hp Hc].
    destruct (Qltb (snd st + inject_Z beat) (snd st + duration_beats s));
      [|apply always_ret; exact Hdata].
    destruct (Qltb (5 # 100) _) eqn:E; apply always_ret; [|exact Hdata].
    apply Forall_app. split; [exact Hdata|]. constructor; [|constructor].
    split; [exact Hp|]. split; [exact Hc|]. apply Qltb_true. exact E.
Qed.

(** X13: whatever the generator draws, every note of the Pop bass lies
    in the register 28..60 and lasts more than a twentieth of a beat;
    it is the folded root of a slot, or that root an octave higher, or,
    when the octave would leave the register, the top note 60 itself. *)
Theorem generate_bass_pop_spec (progression_data : progression) (scale_notes : list Z) :
  always (generate_bass_pop progression_data scale_notes)
    (Forall (fun e => 28 <= event_pitch e <= 60
                      /\ (follows_roots [0] progression_data (event_pitch e)
                          \/ event_pitch e = 60)
                      /\ (5 # 100 < event_duration e)%Q)).
Proof. exact (generate_bass_pop_notes progression_data scale_notes). Qed.

(** ** Stepwise motion *)

Lemma index_of_Z_spec (x : Z) (l : list Z) :
  forall i j, index_of_Z x l i = Some j ->
              i <= j < i + len l /\ nth (Z.to_nat (j - i)) l 0 = x.
Proof.
  unfold len. induction l as [|y l IH]; intros i j; cbn [index_of_Z]; [discriminate|].
  destruct (Z.eqb_spec y x) as [-> | Hne].
  - intros [= <-]. split; [simpl; lia|]. rewrite Z.sub_diag. reflexivity.
  - intros H. apply IH in H. destruct H as [Hr Hn]. split; [simpl; lia|].
    replace (Z.to_nat (j - i)) with (S (Z.to_nat (j - (i + 1)))) by lia.
    exact Hn.
Qed.

(** What a stepwise move can return: a note of the scale, at a non-zero
    step from the position [current_idx]. *)
Lemma get_stepwise_notes_in (current_note : Z) (extended_scale : list Z) (max_step x : Z) :
  In x (get_stepwise_notes current_note extended_scale max_step) ->
  exists closest_note current_idx step,
    min_by (fun y => Z.abs (y - current_note)) extended_scale = Some closest_note
    /\ index_of_Z closest_note extended_scale 0 = Some current_idx
    /\ step <> 0
    /\ 0 <= current_idx + step < len extended_scale
    /\ x = nth (Z.to_nat (current_idx + step)) extended_scale 0.
Proof.
  unfold get_stepwise_notes.
  destruct (min_by _ extended_scale) as [closest|]; [|intros []].
  destruct (index_of_Z closest extended_scale 0) as [idx|] eqn:Eidx; [|intros []].
  intros H. apply in_flat_map in H. destruct H as (step & _ & H).
  destruct (Z.eqb_spec step 0) as [|Hne]; [destruct H|].
  destruct (Z.leb_spec 0 (idx + step)); cbn [andb] in H; [|destruct H].
  destruct (Z.ltb_spec (idx + step) (len extended_scale)); [|destruct H].
  destruct H as [<- | []].
  exists closest, idx, step. repeat split; first [reflexivity | assumption | lia].
Qed.

Lemma get_stepwise_notes_incl (current_note : Z) (extended_scale : list Z) (max_step : Z) :
  incl (get_stepwise_notes current_note extended_scale max_step) extended_scale.
Proof.
  intros x Hx. apply get_stepwise_notes_in in Hx.
  destruct Hx as (c & idx & step & _ & _ & _ & Hr & ->).
  apply nth_In. unfold len in Hr. lia.
Qed.

Lemma flat_map_length_le {A B} (f : A -> list B) (keep : A -> bool) (l : list A) :
  (forall a, (List.length (f a) <= (if keep a then 1 else 0))%nat) ->
  (List.length (flat_map f l) <= List.length (filter keep l))%nat.
Proof.
  intros Hf. induction l as [|a l IH]; cbn [flat_map filter]; [simpl; lia|].
  rewrite length_app. specialize (Hf a). destruct (keep a); cbn [List.length] in *; lia.
Qed.

Lemma filter_all {A} (keep : A -> bool) (l : list A) :
  (forall a, In a l -> keep a = true) -> filter keep l = l.
Proof.
  induction l as [|a l IH]; intros H; cbn [filter]; [reflexivity|].
  rewrite (H a (or_introl eq_refl)). f_equal. apply IH.
  intros b Hb. apply H. right. exact Hb.
Qed.

Lemma nonzero_steps (max_step : Z) :
  len (filter (fun step => negb (step =? 0)) (py_range (- max_step) (max_step + 1)))
  = Z.max 0 (2 * max_step).
Proof.
  destruct (Z.le_gt_cases 0 max_step) as [Hm | Hm].
  - rewrite (py_range_split (- max_step) 0 (max_step + 1)) by lia.
    rewrite (py_range_cons 0 (max_step + 1)) by lia.
    rewrite filter_app. cbn [filter Z.eqb negb].
    rewrite !filter_all.
    + unfold len. rewrite length_app.
      pose proof (py_range_len (- max_step) 0) as H1.
      pose proof (py_range_len (0 + 1) (max_step + 1)) as H2.
      unfold len in H1, H2. lia.
    + intros a Ha. apply py_range_In in Ha.
      destruct (Z.eqb_spec a 0); [lia | reflexivity].
    + intros a Ha. apply py_range_In in Ha.
      destruct (Z.eqb_spec a 0); [lia | reflexivity].
  - rewrite py_range_empty by lia. unfold len. cbn [filter List.length Z.of_nat]. lia.
Qed.

(** X14: a stepwise move only returns notes of the extended scale, at
    most [2 * max_step] of them, and none when the scale is empty. *)
Theorem get_stepwise_notes_spec (current_note : Z) (extended_scale : list Z) (max_step : Z) :
  incl (get_stepwise_notes current_note extended_scale max_step) extended_scale
  /\ len (get_stepwise_notes current_note extended_scale max_step) <= Z.max 0 (2 * max_step)
  /\ get_stepwise_notes current_note [] max_step = [].
Proof.
  split; [apply get_stepwise_notes_incl|]. split; [|reflexivity].
  rewrite <- nonzero_steps. unfold get_stepwise_notes, len.
  destruct (min_by _ extended_scale) as [closest|]; [|simpl; lia].
  destruct (index_of_Z closest extended_scale 0) as [idx|]; [|simpl; lia].
  apply inj_le. apply flat_map_length_le.
  intros step. destruct (step =? 0); cbn [negb]; [simpl; lia|].
  destruct (_ && _)%bool; simpl; lia.
Qed.

(** X15: on a scale without repeated notes, a stepwise move never
    returns the scale note closest to the current one: the walk always
    leaves the note it stands on. *)
Theorem get_stepwise_notes_moves (current_note : Z) (extended_scale : list Z)
    (max_step closest_note : Z) :
  NoDup extended_scale ->
  min_by (fun y => Z.abs (y - current_note)) extended_scale = Some closest_note ->
  ~ In closest_note (get_stepwise_notes current_note extended_scale max_step).
Proof.
  intros Hnd Hmin Hin. apply get_stepwise_notes_in in Hin.
  destruct Hin as (c & idx & step & Hc & Hidx & Hstep & Hr & Hx).
  assert (c = closest_note) by congruence. subst c.
  apply index_of_Z_spec in Hidx. destruct Hidx as [Hi Hn].
  rewrite Z.sub_0_r in Hn. unfold len in *.
  assert (E : Z.to_nat (idx + step) = Z.to_nat idx).
  { apply (proj1 (NoDup_nth extended_scale 0) Hnd); [lia | lia | congruence]. }
  lia.
Qed.

(** From E in a C major pentachord the walk offers C, D, F and G. *)
Lemma get_stepwise_notes_moves_witness :
  ~ In 64 (get_stepwise_notes 64 [60; 62; 64; 65; 67] 2).
Proof.
  apply get_stepwise_notes_moves.
  - repeat constructor; simpl; intuition lia.
  - reflexivity.
Defined.

(** ** Bass: Walking *)

Lemma is_empty_false {A} (l : list A) : is_empty l = false -> l <> [].
Proof. destruct l; [discriminate | intros _; discriminate]. Qed.

Lemma is_empty_true {A} (l : list A) : is_empty l = true -> l = [].
Proof. destruct l; [reflexivity | discriminate]. Qed.

(** The walking scale only holds notes of the scale between 28 and 67. *)
Lemma walking_extended_scale_ok (scale_notes : list Z) :
  scale_notes <> [] ->
  forall x, In x (walking_extended_scale scale_notes) ->
            28 <= x <= 67 /\ on_scale scale_notes x.
Proof.
  intros Hne x. unfold walking_extended_scale.
  destruct (is_empty (extend_scale _ _ _)) eqn:E1.
  - destruct (is_empty (filter _ _)) eqn:E2.
    + exfalso. apply is_empty_true in E2.
      destruct scale_notes as [|n ns]; [congruence|].
      pose proof (Z.mod_pos_bound n 12 ltac:(lia)) as Hm.
      assert (Hin : In (36 + n mod 12)
                      (filter (in_pcs (pcs_of (n :: ns))) (py_range 28 (60 + 1)))).
      { apply filter_In. split; [apply py_range_In; lia|].
        apply in_pcs_on_scale. exists n. split; [left; reflexivity|].
        replace (36 + n mod 12) with (n mod 12 + 3 * 12) by lia.
        rewrite Z.mod_add by lia. apply Z.mod_mod. lia. }
      rewrite E2 in Hin. exact Hin.
    + intros Hx. apply filter_In in Hx. destruct Hx as [Hr Hp].
      apply py_range_In in Hr. split; [lia|]. apply in_pcs_on_scale. exact Hp.
  - unfold extend_scale. rewrite sorted_set_In, filter_In, in_flat_map.
    intros [(n & Hn & Hoct) Hb]. unfold between in Hb.
    apply andb_prop in Hb. destruct Hb as [Hlo Hhi].
    apply Z.leb_le in Hlo. apply Z.leb_le in Hhi. split; [lia|].
    exists n. split; [exact Hn|].
    simpl in Hoct. destruct Hoct as [<- | [<- | [<- | []]]].
    + replace (n + -36) with (n + (-3) * 12) by lia. apply Z.mod_add. lia.
    + replace (n + -24) with (n + (-2) * 12) by lia. apply Z.mod_add. lia.
    + replace (n + -12) with (n + (-1) * 12) by lia. apply Z.mod_add. lia.
Qed.

(** [min] over the walking scale always answers. *)
Lemma walking_extended_scale_nonempty (scale_notes : list Z) :
  walking_extended_scale scale_notes <> [].
Proof.
  unfold walking_extended_scale.
  destruct (is_empty (extend_scale _ _ _)) eqn:E1; [|apply is_empty_false; exact E1].
  destruct (is_empty (filter _ _)) eqn:E2; [discriminate | apply is_empty_false; exact E2].
Qed.

Lemma list_remove_incl (x : Z) (l : list Z) : incl (list_remove x l) l.
Proof.
  induction l as [|y l IH]; cbn [list_remove]; [apply incl_refl|].
  destruct (y =? x).
  - intros z Hz. right. exact Hz.
  - intros z [<- | Hz]; [left; reflexivity | right; apply IH; exact Hz].
Qed.

Lemma always_choice_or {A} (l : list A) (d : A) (P : A -> Prop) :
  (forall x, In x l -> P x) -> P d -> always (choice_or l d) P.
Proof.
  intros Hl Hd. destruct l as [|a l]; [apply always_ret; exact Hd|].
  eapply always_weaken; [apply always_choice_or_in; discriminate|]. exact Hl.
Qed.

Section WalkingBass.

Variables (scale_notes : list Z) (extended_bass_scale : list Z).

Hypothesis scale_ok :
  forall x, In x extended_bass_scale -> 28 <= x <= 67 /\ on_scale scale_notes x.

(** What the walking bass may play. *)
Let playable_pitch (p : Z) : Prop := 28 <= p <= 67 /\ (on_scale scale_notes p \/ p = 60).

Lemma walking_clamp_ok (x : Z) :
  In x extended_bass_scale -> playable_pitch (Z.max 28 (Z.min 60 x)).
Proof.
  intros Hx. destruct (scale_ok x Hx) as [Hr Hs]. unfold playable_pitch.
  destruct (Z.le_gt_cases x 60).
  - rewrite Z.min_r, Z.max_r by lia. split; [lia | left; exact Hs].
  - rewrite Z.min_l, Z.max_r by lia. split; [lia | right; reflexivity].
Qed.

Lemma walking_step_ok (acc : list Z * Z) (step : Z) :
  Forall playable_pitch (fst acc) /\ playable_pitch (snd acc) ->
  always (walking_step extended_bass_scale acc step)
    (fun acc' => Forall playable_pitch (fst acc') /\ playable_pitch (snd acc')).
Proof.
  destruct acc as [notes_so_far current]. cbn [fst snd]. intros [Hnotes Hcur].
  unfold walking_step.
  pose proof (get_stepwise_notes_incl current extended_bass_scale 2) as Hincl.
  destruct (is_empty (get_stepwise_notes current extended_bass_scale 2)).
  - apply always_ret. cbn [fst snd]. split; [|exact Hcur].
    apply Forall_app. split; [exact Hnotes | constructor; [exact Hcur | constructor]].
  - set (ok := fun n => In n extended_bass_scale \/ n = current).
    eapply always_bind with (P := ok).
    { apply always_choice_or; [intros x Hx; left; apply Hincl; exact Hx | right; reflexivity]. }
    intros next_note Hnext.
    eapply always_bind with (P := ok).
    { destruct ((next_note =? current) && _)%bool; [|apply always_ret; exact Hnext].
      apply always_choice_or; [|exact Hnext].
      intros x Hx. left. apply Hincl. eapply list_remove_incl. exact Hx. }
    intros next_note' Hnext'. apply always_ret. cbn [fst snd].
    assert (Hp : playable_pitch (Z.max 28 (Z.min 60 next_note'))).
    { destruct Hnext' as [Hin | ->]; [apply walking_clamp_ok; exact Hin|].
      destruct Hcur as [Hr Hs]. unfold playable_pitch.
      destruct (Z.le_gt_cases current 60).
      - rewrite Z.min_r, Z.max_r by lia. split; [lia | exact Hs].
      - rewrite Z.min_l, Z.max_r by lia. split; [lia | right; reflexivity]. }
    split; [|exact Hp].
    apply Forall_app. split; [exact Hnotes | constructor; [exact Hp | constructor]].
Qed.

Lemma walking_emit_ok (cur dur : Q) (notes_for_chord_slot : list (nat * Z)) :
  Forall (fun ip => playable_pitch (snd ip)) notes_for_chord_slot ->
  forall acc,
    Forall (fun e => playable_pitch (event_pitch e)) (fst acc) ->
    Forall (fun e => playable_pitch (event_pitch e))
      (fst (fold_left (walking_emit cur dur) notes_for_chord_slot acc)).
Proof.
  induction 1 as [|[i pitch] l Hp Hl IH]; intros acc Hacc; cbn [fold_left]; [exact Hacc|].
  apply IH. unfold walking_emit.
  destruct (Qltb _ (cur + dur)); [|exact Hacc].
  destruct (Qltb (1 # 100) _); [|exact Hacc].
  cbn [fst]. apply Forall_app. split; [exact Hacc|].
  constructor; [exact Hp | constructor].
Qed.

Lemma bass_walking_slot_ok (st : walking_state) (s : slot) :
  Forall (fun e => playable_pitch (event_pitch e)) (walking_data st) ->
  always (bass_walking_slot extended_bass_scale st s)
    (fun st' => Forall (fun e => playable_pitch (event_pitch e)) (walking_data st')).
Proof.
  intros Hst. unfold bass_walking_slot.
  destruct (bass_root_note s) as [root|]; [|apply always_ret; exact Hst].
  destruct (is_empty (original_notes s) || Qleb (duration_beats s) 0);
    [apply always_ret; exact Hst|].
  destruct (min_by _ extended_bass_scale) as [closest|] eqn:Emin;
    [|apply always_ret; exact Hst].
  destruct (py_int _ <=? 0); [apply always_ret; exact Hst|].
  assert (Hclosest : playable_pitch closest).
  { apply min_by_in in Emin. destruct (scale_ok closest Emin) as [Hr Hs].
    split; [exact Hr | left; exact Hs]. }
  eapply always_bind.
  - apply always_foldM with
      (I := fun acc : list Z * Z => Forall playable_pitch (fst acc) /\ playable_pitch (snd acc)).
    + intros acc step Hacc. apply walking_step_ok. exact Hacc.
    + cbn [fst snd]. split; [constructor; [exact Hclosest | constructor] | exact Hclosest].
  - intros walk [Hwalk _]. apply always_ret. cbn [walking_data].
    apply walking_emit_ok; [|exact Hst].
    apply Forall_forall. intros [i p] Hip. cbn [snd].
    unfold enumerate in Hip. apply in_combine_r in Hip.
    eapply Forall_forall in Hwalk; eassumption.
Qed.

End WalkingBass.

(** The notes of the walking bass. *)
Lemma generate_bass_walking_notes (progression_data : progression) (scale_notes : list Z) :
  always (generate_bass_walking progression_data scale_notes)
    (fun data =>
       Forall (fun e => 28 <= event_pitch e <= 67
                        /\ (on_scale scale_notes (event_pitch e) \/ event_pitch e = 60)) data
       /\ (scale_notes = [] -> data = [])).
Proof.
  unfold generate_bass_walking.
  destruct scale_notes as [|n ns] eqn:E.
  - apply always_ret. split; [constructor | reflexivity].
  - rewrite <- E. assert (Hne : scale_notes <> []) by (rewrite E; discriminate).
    eapply always_bind;
      [|intros st Hst; apply always_ret; split; [exact Hst | intros H; congruence]].
    apply always_foldM with
      (I := fun st : walking_state =>
              Forall (fun e => 28 <= event_pitch e <= 67
                               /\ (on_scale scale_notes (event_pitch e) \/ event_pitch e = 60))
                (walking_data st)); [|constructor].
    intros st s Hst.
    apply (bass_walking_slot_ok scale_notes (walking_extended_scale scale_notes)
             (walking_extended_scale_ok scale_notes Hne)).
    exact Hst.
Qed.

(** X16: whatever the generator draws, every note of the walking bass
    lies between 28 and 67 and is a note of the scale, or the clamp
    value 60; without scale notes the walking bass is silent. *)
Theorem generate_bass_walking_spec (progression_data : progression) (scale_notes : list Z) :
  always (generate_bass_walking progression_data scale_notes)
    (fun data =>
       Forall (fun e => 28 <= event_pitch e <= 67
                        /\ (on_scale scale_notes (event_pitch e) \/ event_pitch e = 60)) data
       /\ (scale_notes = [] -> data = [])).
Proof. exact (generate_bass_walking_notes progression_data scale_notes). Qed.

(** ** Arpeggio *)

Lemma arp_oct_shifts_octaves (arp_octave_selection : string) :
  Forall (fun s => s mod 12 = 0) (arp_oct_shifts arp_octave_selection).
Proof.
  unfold arp_oct_shifts.
  repeat match goal with
         | |- context [if ?b then _ else _] => destruct b
         end; repeat constructor.
Qed.

Lemma in_pcs_shift (scale_note_pcs : list Z) (n s : Z) :
  s mod 12 = 0 -> in_pcs scale_note_pcs (n + s) = in_pcs scale_note_pcs n.
Proof.
  intros Hs. unfold in_pcs.
  rewrite Z.add_mod, Hs, Z.add_0_r, Z.mod_mod by lia. reflexivity.
Qed.

Lemma diatonic_notes_in_chord_ok (scale_note_pcs chord_notes_orig diatonic : list Z) :
  diatonic_notes_in_chord scale_note_pcs chord_notes_orig = Some diatonic ->
  Forall (fun n => in_pcs scale_note_pcs n = true) diatonic.
Proof.
  unfold diatonic_notes_in_chord.
  destruct (is_empty (sorted (filter (in_pcs scale_note_pcs) chord_notes_orig))).
  - destruct chord_notes_orig as [|root_note rest]; [discriminate|].
    destruct (in_pcs scale_note_pcs root_note) eqn:E; [|discriminate].
    intros [= <-]. constructor; [exact E | constructor].
  - intros [= <-]. apply Forall_forall. intros n Hn.
    apply (Permutation_in _ (Permutation_sym (sorted_perm _))) in Hn.
    apply filter_In in Hn. apply Hn.
Qed.

(** The pool of a chord: MIDI pitches of the scale. *)
Lemma arp_pool_ok (scale_note_pcs diatonic oct_shifts : list Z) (pitch : Z) :
  Forall (fun n => in_pcs scale_note_pcs n = true) diatonic ->
  Forall (fun s => s mod 12 = 0) oct_shifts ->
  In pitch (extend_scale diatonic oct_shifts (between 0 127)) ->
  0 <= pitch <= 127 /\ in_pcs scale_note_pcs pitch = true.
Proof.
  intros Hd Hs. unfold extend_scale.
  rewrite sorted_set_In, filter_In, in_flat_map.
  intros [(n & Hn & Hin) Hb]. apply in_map_iff in Hin. destruct Hin as (s & <- & Hs').
  unfold between in Hb. apply andb_prop in Hb. destruct Hb as [Hlo Hhi].
  apply Z.leb_le in Hlo. apply Z.leb_le in Hhi. split; [lia|].
  rewrite in_pcs_shift.
  - eapply Forall_forall in Hd; eassumption.
  - eapply Forall_forall in Hs; eassumption.
Qed.

Lemma Qmin_cases (x y : Q) : Qmin x y = x \/ (Qmin x y = y /\ (y < x)%Q).
Proof.
  unfold Qmin. destruct (Qltb y x) eqn:E; [right | left; reflexivity].
  split; [reflexivity | apply Qltb_true; exact E].
Qed.

Lemma arp_note_ok (scale_note_pcs arp_pool patt_indices : list Z) (start dur : Q)
    (st : arp_loop_state) :
  (forall p, In p arp_pool -> 0 <= p <= 127 /\ in_pcs scale_note_pcs p = true) ->
  Forall (arp_event_ok scale_note_pcs) (fst (fst st)) ->
  always (arp_note arp_pool patt_indices start dur st)
    (fun r => match r with
              | Some st' => Forall (arp_event_ok scale_note_pcs) (fst (fst st'))
              | None => True
              end).
Proof.
  intros Hpool. destruct st as [[data ctr] time]. cbn [fst]. intros Hdata.
  unfold arp_note.
  destruct (Qltb time (dur - (1 # 100))); [|apply always_ret; exact I].
  eapply always_bind;
    [apply (always_choice_or_in [5 # 10; 25 # 100]%Q (5 # 10)%Q); discriminate|].
  intros note_dur Hnd.
  destruct (Qleb (Qmin note_dur (dur - time)) (1 # 100)) eqn:Eact;
    [apply always_ret; exact I|].
  apply Qleb_false in Eact.
  set (note_idx := nth _ patt_indices 0).
  destruct (Z.leb_spec 0 note_idx); cbn [andb]; [|apply always_ret; exact Hdata].
  destruct (Z.ltb_spec note_idx (len arp_pool)); [|apply always_ret; exact Hdata].
  eapply always_bind; [apply (always_random_randint (-5) 5); lia|].
  intros r Hr. cbv beta in Hr. apply always_ret. cbn [fst].
  apply Forall_app. split; [exact Hdata|]. constructor; [|constructor].
  assert (Hp : In (nth (Z.to_nat note_idx) arp_pool 0) arp_pool)
    by (apply nth_In; unfold len in *; lia).
  destruct (Hpool _ Hp) as [Hrange Hpcs].
  unfold arp_event_ok, arp_pitch, arp_velocity, arp_duration. cbn [fst snd].
  split; [exact Hrange|]. split; [exact Hpcs|]. split; [lia|].
  split; [exact Eact|].
  assert (Hle : (note_dur <= 5 # 10)%Q).
  { destruct Hnd as [<- | [<- | []]]; [apply Qle_refl | discriminate]. }
  destruct (Qmin_cases note_dur (dur - time)) as [-> | [-> Hlt]]; [exact Hle|].
  eapply Qle_trans; [apply Qlt_le_weak; exact Hlt | exact Hle].
Qed.

(** The notes of the arpeggio. *)
Lemma generate_arpeggio_notes (arp_style_selection arp_octave_selection : string)
    (scale_notes : list Z) (fuel : nat) (generated_chords_progression : progression) :
  always (_generate_arpeggio arp_style_selection arp_octave_selection scale_notes fuel
            generated_chords_progression)
    (fun data => Forall (arp_event_ok (pcs_of scale_notes)) data
                 /\ (scale_notes = [] -> data = [])).
Proof.
  unfold _generate_arpeggio.
  destruct scale_notes as [|n ns] eqn:E.
  - apply always_ret. split; [constructor | reflexivity].
  - rewrite <- E.
    eapply always_bind; [apply always_true|]. intros patt_func _.
    eapply always_bind;
      [|intros st Hst; apply always_ret; split; [exact Hst | intros H; congruence]].
    apply always_foldM with
      (I := fun st : list arp_event * Q => Forall (arp_event_ok (pcs_of scale_notes)) (fst st));
      [|constructor].
    intros st s Hst. unfold arp_slot.
    destruct (is_empty (original_notes s) || Qleb (duration_beats s) 0);
      [apply always_ret; exact Hst|].
    destruct (diatonic_notes_in_chord _ _) as [diatonic|] eqn:Ed;
      [|apply always_ret; exact Hst].
    destruct (len _ =? 0); [apply always_ret; exact Hst|].
    eapply always_bind; [apply always_true|]. intros bar_patt_func _.
    eapply always_bind; [apply always_true|]. intros patt_indices _.
    destruct (is_empty patt_indices); [apply always_ret; exact Hst|].
    eapply always_bind; [|intros r Hr; apply always_ret; exact Hr].
    apply always_while_fuel with
      (I := fun r : arp_loop_state => Forall (arp_event_ok (pcs_of scale_notes)) (fst (fst r)));
      [|exact Hst].
    intros r Hr. apply arp_note_ok; [|exact Hr].
    intros p Hp. eapply arp_pool_ok; [|apply arp_oct_shifts_octaves | exact Hp].
    eapply diatonic_notes_in_chord_ok. exact Ed.
Qed.

(** X17: whatever the generator draws and however long the inner loop
    runs, every arpeggio note is a MIDI pitch (0..127) whose class is in
    the scale, with a velocity between 90 and 100 and a duration above
    a hundredth and up to half a beat; without scale notes there is no
    arpeggio. *)
Theorem generate_arpeggio_notes_diatonic (arp_style_selection arp_octave_selection : string)
    (scale_notes : list Z) (fuel : nat) (generated_chords_progression : progression) :
  always (_generate_arpeggio arp_style_selection arp_octave_selection scale_notes fuel
            generated_chords_progression)
    (fun data => Forall (arp_event_ok (pcs_of scale_notes)) data
                 /\ (scale_notes = [] -> data = [])).
Proof. exact (generate_arpeggio_notes arp_style_selection arp_octave_selection scale_notes fuel generated_chords_progression). Qed.

(** ** Scales *)

Lemma class_shift (a k : Z) : (a + 12 * k) mod 12 = a mod 12.
Proof. rewrite Z.mul_comm. apply Z.mod_add. lia. Qed.

Lemma class_distinct (a b : Z) : a mod 12 = b mod 12 -> exists k, b - a = 12 * k.
Proof.
  intros H. exists (b / 12 - a / 12).
  pose proof (Z.div_mod a 12 ltac:(lia)). pose proof (Z.div_mod b 12 ltac:(lia)). lia.
Qed.

Ltac class_eq :=
  match goal with
  | |- ?a mod 12 = ?b mod 12 =>
      first [ reflexivity
            | replace b with (a + 12 * 1) by lia; apply eq_sym, class_shift
            | replace b with (a + 12 * (-1)) by lia; apply eq_sym, class_shift ]
  end.

Ltac classes_differ H :=
  apply class_distinct in H; destruct H as [? H]; lia.

(** X18: the natural minor scale on a root has the pitch classes of the
    major scale a minor third above it, and the seven notes of either
    scale have seven different pitch classes. *)
Theorem relative_scales_share_classes (root_midi_note : Z) :
  (forall pitch,
     on_scale (get_natural_minor_scale_notes root_midi_note) pitch
     <-> on_scale (get_major_scale_notes (root_midi_note + 3)) pitch)
  /\ NoDup (map pitch_class (get_major_scale_notes root_midi_note))
  /\ NoDup (map pitch_class (get_natural_minor_scale_notes root_midi_note)).
Proof.
  split; [|split].
  - intros pitch. unfold on_scale, get_natural_minor_scale_notes, get_major_scale_notes.
    cbn [map In]. split; intros (n & Hn & Hp); rewrite Hp.
    + destruct Hn as [<- | [<- | [<- | [<- | [<- | [<- | [<- | []]]]]]]].
      * exists (root_midi_note + 3 + 9). split; [tauto | class_eq].
      * exists (root_midi_note + 3 + 11). split; [tauto | class_eq].
      * exists (root_midi_note + 3 + 0). split; [tauto | f_equal; lia].
      * exists (root_midi_note + 3 + 2). split; [tauto | f_equal; lia].
      * exists (root_midi_note + 3 + 4). split; [tauto | f_equal; lia].
      * exists (root_midi_note + 3 + 5). split; [tauto | f_equal; lia].
      * exists (root_midi_note + 3 + 7). split; [tauto | f_equal; lia].
    + destruct Hn as [<- | [<- | [<- | [<- | [<- | [<- | [<- | []]]]]]]].
      * exists (root_midi_note + 3). split; [tauto | f_equal; lia].
      * exists (root_midi_note + 5). split; [tauto | f_equal; lia].
      * exists (root_midi_note + 7). split; [tauto | f_equal; lia].
      * exists (root_midi_note + 8). split; [tauto | f_equal; lia].
      * exists (root_midi_note + 10). split; [tauto | f_equal; lia].
      * exists (root_midi_note + 0). split; [tauto | class_eq].
      * exists (root_midi_note + 2). split; [tauto | class_eq].
  - unfold get_major_scale_notes, pitch_class. cbn [map].
    repeat (constructor;
            [cbn [In]; intros H;
             repeat (destruct H as [H | H]; [classes_differ H|]); exact H|]).
    constructor.
  - unfold get_natural_minor_scale_notes, pitch_class. cbn [map].
    repeat (constructor;
            [cbn [In]; intros H;
             repeat (destruct H as [H | H]; [classes_differ H|]); exact H|]).
    constructor.
Qed.

(** ** Chord pools *)

Lemma ascendingb_sound (l : list Z) : ascendingb l = true -> LocallySorted Z.lt l.
Proof.
  induction l as [|x l IH]; [constructor|].
  destruct l as [|y l]; [constructor|].
  cbn [ascendingb]. intros H. apply andb_prop in H. destruct H as [Hxy Hl].
  constructor; [apply IH; exact Hl | apply Z.ltb_lt; exact Hxy].
Qed.

Lemma chord_shapeb_sound (max_notes : Z) (pool : chord_pool) :
  forallb (chord_shapeb max_notes) pool = true ->
  Forall (fun e => chord_shape max_notes (fst e) (snd e)) pool.
Proof.
  intros H. apply Forall_forall. intros [name data] Hin.
  rewrite forallb_forall in H. specialize (H _ Hin).
  unfold chord_shapeb in H. cbn [fst snd] in *.
  apply andb_prop in H. destruct H as [H Hname].
  apply andb_prop in H. destruct H as [H Hmax].
  apply andb_prop in H. destruct H as [Hasc Hmin].
  split; [apply ascendingb_sound; exact Hasc|].
  split; [apply Z.leb_le in Hmin; apply Z.leb_le in Hmax; lia|].
  destruct (notes data) as [|root rest]; [discriminate|].
  exists root. split; [reflexivity | exact Hname].
Qed.

Ltac pool_cases pool_style is_minor_key complexity :=
  unfold pool_for, generate_jazz_minor_chord_pool, generate_jazz_major_chord_pool,
    generate_chorgi_minor_chord_pool, generate_chorgi_major_chord_pool;
  destruct (String.eqb pool_style "Jazzy"); destruct is_minor_key;
  destruct (is_extra_complexity complexity).

(** X19: in every pool that the entry point builds for a key of
    [NOTE_NAMES], whatever the style, mode and complexity, each chord
    has strictly ascending notes, three to four of them (to five with
    extensions), and a name that begins with the name of its lowest
    note. *)
Theorem pool_chords_well_formed (pool_style : string) (is_minor_key : bool)
    (key_root_name complexity : string) :
  In key_root_name NOTE_NAMES ->
  exists root,
    ROOT_NOTES_MIDI key_root_name = Some root
    /\ Forall (fun e => chord_shape (if is_extra_complexity complexity then 5 else 4)
                          (fst e) (snd e))
         (pool_for pool_style is_minor_key key_root_name root complexity).
Proof.
  intros Hin. simpl in Hin.
  repeat (destruct Hin as [<- | Hin];
          [eexists; split; [reflexivity|];
           apply chord_shapeb_sound;
           pool_cases pool_style is_minor_key complexity; vm_compute; reflexivity|]).
  contradiction.
Qed.

(** The Jazzy pool of F sharp minor with extensions. *)
Lemma pool_chords_well_formed_witness :
  exists root,
    ROOT_NOTES_MIDI "F#" = Some root
    /\ Forall (fun e => chord_shape (if is_extra_complexity "Extra (Extensions)" then 5 else 4)
                          (fst e) (snd e))
         (pool_for "Jazzy" true "F#" root "Extra (Extensions)").
Proof. apply pool_chords_well_formed. simpl. tauto. Defined.

(** X20: the pools of the twelve keys are transpositions of each
    other: the pool of a key holds the chords of the C pool of the same
    style, mode and complexity, with the same functions in the same
    order, every note moved by the distance of the key root from 60. *)
Theorem pools_are_transpositions (pool_style : string) (is_minor_key : bool)
    (key_root_name complexity : string) :
  In key_root_name NOTE_NAMES ->
  exists root,
    ROOT_NOTES_MIDI key_root_name = Some root
    /\ pool_content (pool_for pool_style is_minor_key key_root_name root complexity)
       = map (fun c => (fst c, transpose_notes (snd c) (root - 60)))
           (pool_content (pool_for pool_style is_minor_key "C" 60 complexity)).
Proof.
  intros Hin. simpl in Hin.
  repeat (destruct Hin as [<- | Hin];
          [eexists; split; [reflexivity|];
           pool_cases pool_style is_minor_key complexity; vm_compute; reflexivity|]).
  contradiction.
Qed.

(** The Chorgi pool of A minor is that of C minor, nine semitones up. *)
Lemma pools_are_transpositions_witness :
  exists root,
    ROOT_NOTES_MIDI "A" = Some root
    /\ pool_content (pool_for "Chorgi" true "A" root "Standard (Triads/7ths)")
       = map (fun c => (fst c, transpose_notes (snd c) (root - 60)))
           (pool_content (pool_for "Chorgi" true "C" 60 "Standard (Triads/7ths)")).
Proof. apply pools_are_transpositions. simpl. tauto. Defined.

Lemma diatonic_chordb_sound (scale_notes : list Z) (skip : chord_data -> bool)
    (pool : chord_pool) :
  forallb (fun e => skip (snd e) || diatonic_chordb scale_notes (snd e)) pool = true ->
  forall name data,
    In (name, data) pool -> skip data = false ->
    Forall (on_scale scale_notes) (notes data).
Proof.
  intros H name data Hin Hskip. rewrite forallb_forall in H.
  specialize (H _ Hin). cbn [snd] in H. rewrite Hskip in H. cbn [orb] in H.
  unfold diatonic_chordb in H. rewrite forallb_forall in H.
  apply Forall_forall. intros n Hn. apply in_pcs_on_scale. apply H. exact Hn.
Qed.

(** X21: in a major key every chord of the pool, whatever the style
    and complexity, only holds notes of the key's major scale.  In a
    minor key at standard complexity the same holds of every chord but
    those of the harmonic-minor dominant (function "V(hm)"). *)
Theorem pool_chords_diatonic (pool_style : string) (is_minor_key : bool)
    (key_root_name complexity : string) :
  In key_root_name NOTE_NAMES ->
  exists root,
    ROOT_NOTES_MIDI key_root_name = Some root
    /\ forall name data,
         In (name, data) (pool_for pool_style is_minor_key key_root_name root complexity) ->
         is_minor_key = false
         \/ (is_extra_complexity complexity = false /\ function data <> "V(hm)") ->
         Forall (on_scale (key_scale is_minor_key root)) (notes data).
Proof.
  intros Hin. simpl in Hin.
  repeat (destruct Hin as [<- | Hin];
          [eexists; split; [reflexivity|];
           intros name data Hpool Hcase;
           destruct is_minor_key;
           [ destruct Hcase as [Hcase | [Hstd Hfun]]; [discriminate|];
             apply (diatonic_chordb_sound _ (fun d => String.eqb (function d) "V(hm)") _)
               with (name := name) (2 := Hpool);
             [|apply String.eqb_neq; exact Hfun];
             revert Hstd; clear;
             unfold pool_for, generate_jazz_minor_chord_pool, generate_chorgi_minor_chord_pool;
             destruct (String.eqb pool_style "Jazzy");
             destruct (is_extra_complexity complexity); intros Hstd;
             try discriminate; vm_compute; reflexivity
           | apply (diatonic_chordb_sound _ (fun _ => false) _)
               with (name := name) (2 := Hpool); [|reflexivity];
             clear;
             unfold pool_for, generate_jazz_major_chord_pool, generate_chorgi_major_chord_pool;
             destruct (String.eqb pool_style "Jazzy");
             destruct (is_extra_complexity complexity); vm_compute; reflexivity ]|]).
  contradiction.
Qed.

(** The Chorgi pool of D major with extensions. *)
Lemma pool_chords_diatonic_witness :
  exists root,
    ROOT_NOTES_MIDI "D" = Some root
    /\ forall name data,
         In (name, data) (pool_for "Chorgi" false "D" root "Extra (Extensions)") ->
         false = false
         \/ (is_extra_complexity "Extra (Extensions)" = false /\ function data <> "V(hm)") ->
         Forall (on_scale (key_scale false root)) (notes data).
Proof. apply pool_chords_diatonic. simpl. tauto. Defined.

(** *** The blues pool *)

(** X22: for every key of [NOTE_NAMES] and either mode the blues pool
    holds exactly three well-formed four-note chords, on the key root,
    a fourth above it and a fifth above it; the chord on the fifth is a
    dominant seventh in both modes. *)
Theorem blues_pool_three_chords (key_root_name key_type : string) :
  In key_root_name NOTE_NAMES ->
  exists root pool,
    ROOT_NOTES_MIDI key_root_name = Some root
    /\ generate_blues_chord_pool key_root_name root key_type = Some pool
    /\ map (fun e => hd_error (notes (snd e))) pool
       = [Some root; Some (root + 5); Some (root + 7)]
    /\ map (fun e => function (snd e)) pool
       = (if String.eqb key_type "major" then ["I7"; "IV7"; "V7"] else ["i7"; "iv7"; "V7"])
    /\ Forall (fun e => chord_shape 4 (fst e) (snd e)) pool
    /\ dict_get pool (note_name (root + 7) ++ "7")
       = Some (mk_chord (map (fun i => root + 7 + i) [0; 4; 7; 10]) "V7").
Proof.
  intros Hin. simpl in Hin.
  repeat (destruct Hin as [<- | Hin];
          [unfold generate_blues_chord_pool;
           destruct (String.eqb key_type "major");
           eexists; eexists; (split; [reflexivity|]);
           (split; [vm_compute; reflexivity|]);
           (split; [reflexivity|]); (split; [reflexivity|]);
           (split; [apply chord_shapeb_sound; vm_compute; reflexivity | reflexivity])|]).
  contradiction.
Qed.

(** The blues pool of A minor: Am7, Dm7 and E7. *)
Lemma blues_pool_three_chords_witness :
  exists root pool,
    ROOT_NOTES_MIDI "A" = Some root
    /\ generate_blues_chord_pool "A" root "minor" = Some pool
    /\ map (fun e => hd_error (notes (snd e))) pool
       = [Some root; Some (root + 5); Some (root + 7)]
    /\ map (fun e => function (snd e)) pool
       = (if String.eqb "minor" "major" then ["I7"; "IV7"; "V7"] else ["i7"; "iv7"; "V7"])
    /\ Forall (fun e => chord_shape 4 (fst e) (snd e)) pool
    /\ dict_get pool (note_name (root + 7) ++ "7")
       = Some (mk_chord (map (fun i => root + 7 + i) [0; 4; 7; 10]) "V7").
Proof. apply blues_pool_three_chords. simpl. tauto. Defined.

(** ** The entry point: errors *)




(** X24: outside the blues path, a request for zero bars or fewer on a
    known key makes the entry point raise [RuntimeError]: no chord slot
    is generated and the empty progression is refused. *)
Theorem execute_generation_no_bars
    (pool_style chosen_key_name key_type complexity : string) (num_bars : Z)
    (prog_style chord_rate voicing_style cadence chord_bias : string) (t : tape) :
  ROOT_NOTES_MIDI
    (if String.eqb key_type "minor" && PyStr.endswith chosen_key_name "m"
     then PyStr.drop_last chosen_key_name else chosen_key_name) <> None ->
  prog_style <> "Blues (12 Bar)" ->
  num_bars <= 0 ->
  fst (_execute_generation_logic pool_style chosen_key_name key_type complexity (Some num_bars)
         prog_style chord_rate voicing_style cadence chord_bias t) = Raise RuntimeError.
Proof.
  intros Hkey Hstyle Hbars. unfold _execute_generation_logic.
  set (root_name := if String.eqb key_type "minor" && PyStr.endswith chosen_key_name "m"
                    then PyStr.drop_last chosen_key_name else chosen_key_name) in *.
  destruct (ROOT_NOTES_MIDI root_name) as [root|]; [|congruence].
  apply String.eqb_neq in Hstyle. rewrite Hstyle.
  match goal with
  | |- context [is_empty ?p] => destruct (is_empty p)
  end; [reflexivity|].
  rewrite bind_run. unfold _generate_progression.
  replace (Z.to_nat (num_bars * chords_per_bar_of chord_rate)) with 0%nat
    by (destruct (chords_per_bar_cases chord_rate) as [-> | ->]; lia).
  cbn [progression_loop]. rewrite bind_run. unfold ret at 1 2. cbn [fst snd progression_data].
  unfold apply_cadence. cbn [len List.length Z.of_nat Z.geb Z.compare andb].
  rewrite Bool.andb_false_r. reflexivity.
Qed.

(** A request for zero bars in A minor. *)
Lemma execute_generation_no_bars_witness :
  fst (_execute_generation_logic "Chorgi" "Am" "minor" "Standard (Triads/7ths)" (Some 0)
         "Smooth Random" "1 / Bar" "Root Position" "Any" "Standard" [])
  = Raise RuntimeError.
Proof.
  apply execute_generation_no_bars; [vm_compute; discriminate | discriminate | lia].
Defined.

(** ** Inversions put a chord tone in the bass *)

Lemma strongly_sorted_of_ascending (l : list Z) :
  LocallySorted Z.le l -> StronglySorted Z.le l.
Proof.
  intros H. apply Sorted_StronglySorted.
  - intros a b c. apply Z.le_trans.
  - apply Sorted_LocallySorted_iff. exact H.
Qed.

Lemma strongly_sorted_skipn (k : nat) (l : list Z) :
  StronglySorted Z.le l -> StronglySorted Z.le (skipn k l).
Proof.
  revert l. induction k as [|k IH]; intros l H; [exact H|].
  destruct l as [|x l]; [constructor|]. cbn [skipn]. apply IH.
  inversion H; assumption.
Qed.

Lemma skipn_nth_error (k : nat) (l : list Z) (x : Z) :
  nth_error l k = Some x -> exists rest, skipn k l = x :: rest.
Proof.
  revert l. induction k as [|k IH]; intros [|y l] H; try discriminate.
  - injection H as ->. exists l. reflexivity.
  - cbn [skipn]. apply IH. exact H.
Qed.

(** The head of a sorted list is its least element. *)
Lemma sorted_hd_least (l : list Z) (x : Z) :
  In x l -> (forall y, In y l -> x <= y) -> hd_error (sorted l) = Some x.
Proof.
  intros Hin Hleast.
  pose proof (sorted_perm l) as Hperm.
  pose proof (strongly_sorted_of_ascending _ (sorted_ascending l)) as Hs.
  destruct (sorted l) as [|h rest].
  - apply Permutation_sym, Permutation_nil in Hperm. subst l. destruct Hin.
  - cbn [hd_error]. f_equal.
    assert (Hh : In h l)
      by (apply (Permutation_in _ (Permutation_sym Hperm)); left; reflexivity).
    assert (Hx : In x (h :: rest)) by (apply (Permutation_in _ Hperm); exact Hin).
    specialize (Hleast h Hh).
    inversion Hs as [|? ? _ Hall]; subst.
    destruct Hx as [-> | Hx]; [reflexivity|].
    rewrite Forall_forall in Hall. specialize (Hall x Hx). lia.
Qed.

(** X25: on an ascending chord that spans less than an octave, the
    inversion of index [k] has the [k]-th chord tone as its lowest
    note. *)
Theorem calculate_inversion_bass (root_pos_notes : list Z) (inv_num : Z) :
  LocallySorted Z.le root_pos_notes ->
  (forall a b, In a root_pos_notes -> In b root_pos_notes -> b - a < 12) ->
  0 <= inv_num < len root_pos_notes ->
  hd_error (calculate_inversion root_pos_notes inv_num)
  = nth_error root_pos_notes (Z.to_nat inv_num).
Proof.
  intros Hasc Hspan Hk. unfold calculate_inversion.
  rewrite (sorted_fixpoint _ Hasc).
  destruct (Z.ltb_spec inv_num 0) as [|_]; [lia|].
  destruct (Z.geb_spec inv_num (len root_pos_notes)) as [|_]; [lia|]. cbn [orb].
  destruct (Z.eqb_spec inv_num 0) as [-> | Hne].
  - destruct root_pos_notes; reflexivity.
  - unfold len in Hk.
    destruct (nth_error root_pos_notes (Z.to_nat inv_num)) as [x|] eqn:Ex;
      [|apply nth_error_None in Ex; lia].
    destruct (skipn_nth_error _ _ _ Ex) as [rest Hskip].
    pose proof (strongly_sorted_skipn (Z.to_nat inv_num) _
                  (strongly_sorted_of_ascending _ Hasc)) as Hs.
    rewrite Hskip in Hs. inversion Hs as [|? ? _ Hrest]; subst.
    assert (Hx : In x root_pos_notes) by (eapply nth_error_In; exact Ex).
    apply sorted_hd_least.
    + rewrite Hskip. left. reflexivity.
    + intros y Hy. apply in_app_or in Hy. destruct Hy as [Hy | Hy].
      * rewrite Hskip in Hy. destruct Hy as [<- | Hy]; [lia|].
        rewrite Forall_forall in Hrest. apply Hrest. exact Hy.
      * apply in_map_iff in Hy. destruct Hy as (a & <- & Ha).
        apply in_firstn in Ha. specialize (Hspan a x Ha Hx). lia.
Qed.

(** The second inversion of Cmaj7 has its fifth in the bass. *)
Lemma calculate_inversion_bass_witness :
  hd_error (calculate_inversion [60; 64; 67; 71] 2) = nth_error [60; 64; 67; 71] (Z.to_nat 2).
Proof.
  apply calculate_inversion_bass.
  - repeat constructor; lia.
  - intros a b Ha Hb. simpl in Ha, Hb. lia.
  - unfold len. simpl. lia.
Defined.

(** ** The parts of a generation *)

(** The register of the Standard bass. *)
Lemma generate_bass_standard_register (progression_data : progression) (scale_notes : list Z) :
  Forall (fun e => 28 <= event_pitch e <= 60)
    (generate_bass_standard progression_data scale_notes).
Proof.
  unfold generate_bass_standard.
  set (P := fun e : note_event => 28 <= event_pitch e <= 60).
  assert (H : forall l acc, Forall P (fst acc) ->
                            Forall P (fst (fold_left bass_standard_slot l acc))).
  { induction l as [|s l IH]; intros acc Hacc; simpl; [exact Hacc|].
    apply IH. unfold bass_standard_slot.
    destruct (bass_root_note s) as [root|]; [|exact Hacc].
    destruct (Qleb (duration_beats s) 0); [exact Hacc|].
    destruct (Qleb (1 # 10) (duration_beats s)); simpl; [|exact Hacc].
    apply Forall_app. split; [exact Hacc|]. constructor; [|constructor].
    unfold P, event_pitch. simpl fst. apply fold_into_range. lia. }
  apply H. constructor.
Qed.

(** The register of the RnB bass. *)
Lemma generate_bass_rnb_register (progression_data : progression) (scale_notes : list Z) :
  always (generate_bass_rnb progression_data scale_notes)
    (Forall (fun e => 28 <= event_pitch e <= 65)).
Proof.
  unfold generate_bass_rnb.
  set (P := fun e : note_event => 28 <= event_pitch e <= 65).
  eapply always_bind; [|intros st Hst; apply always_ret; exact Hst].
  apply always_foldM with (I := fun st : bass_state => Forall P (fst st)); [|constructor].
  intros st s Hst. unfold bass_rnb_slot.
  destruct (bass_root_note s) as [root|]; [|apply always_ret; exact Hst].
  destruct (Qleb (duration_beats s) 0); [apply always_ret; exact Hst|].
  set (root_pitch := fold_into 28 65 (root + -24)).
  assert (Hroot : 28 <= root_pitch <= 65) by (apply fold_into_range; lia).
  set (fifth_pitch := if root_pitch + 7 >? 65 then root_pitch + 7 - 12 else root_pitch + 7).
  assert (Hfifth : 28 <= fifth_pitch <= 65).
  { unfold fifth_pitch. destruct (Z.gtb_spec (root_pitch + 7) 65); lia. }
  eapply always_bind; [apply always_true|]. intros chosen_rhythm _.
  eapply always_bind; [|intros data Hdata; apply always_ret; exact Hdata].
  apply always_foldM with (I := Forall P); [|exact Hst].
  intros data [start_offset dur] Hdata. unfold bass_rnb_note.
  eapply always_bind; [apply always_true|]. intros u _.
  destruct (_ && _)%bool; apply always_ret; [|exact Hdata].
  apply Forall_app. split; [exact Hdata|]. constructor; [|constructor].
  unfold P, event_pitch. simpl fst. destruct (Qltb u (7 # 10)); assumption.
Qed.

(** Whatever its name, a bass style stays between 20 and 67. *)
Lemma select_bass_func_register (bass_style : string) (progression_data : progression)
    (scale_notes : list Z) :
  always (select_bass_func bass_style progression_data scale_notes)
    (Forall (fun e => 20 <= event_pitch e <= 67)).
Proof.
  unfold select_bass_func, bass_func_map, dict_get.
  repeat match goal with
         | |- context [String.eqb ?a bass_style] => destruct (String.eqb a bass_style)
         end.
  - apply always_ret. eapply Forall_impl; [|apply generate_bass_standard_register].
    intros e He. cbv beta in He. lia.
  - eapply always_weaken; [apply generate_bass_walking_notes|].
    intros data [H _]. eapply Forall_impl; [|exact H]. intros e He. cbv beta in He. lia.
  - eapply always_weaken; [apply generate_bass_pop_notes|].
    intros data H. eapply Forall_impl; [|exact H]. intros e He. cbv beta in He. lia.
  - eapply always_weaken; [apply generate_bass_rnb_register|].
    intros data H. eapply Forall_impl; [|exact H]. intros e He. cbv beta in He. lia.
  - eapply always_weaken; [apply generate_bass_hip_hop_notes|].
    intros data H. eapply Forall_impl; [|exact H]. intros e He. cbv beta in He. lia.
  - apply always_ret.
    destruct (generate_bass_808_notes progression_data scale_notes) as (_ & H & _).
    eapply Forall_impl; [|exact H]. intros e He. cbv beta in He. lia.
  - apply always_ret. eapply Forall_impl; [|apply generate_bass_standard_register].
    intros e He. cbv beta in He. lia.
Qed.

(** Whatever its name, a melody style only plays notes of the scale of
    a key root of [ROOT_NOTES_MIDI]. *)
Lemma select_melody_func_on_scale (fuel : nat) (melody_gen_style : string)
    (scale_notes : list Z) (melody_style melody_speed melody_octave instrument_type : string)
    (progression_data : progression) :
  scale_in_register scale_notes melody_octave ->
  always (melody_func <- select_melody_func fuel melody_gen_style ;;
          melody_func scale_notes melody_style melody_speed melody_octave instrument_type
            progression_data)
    (Forall (fun e => on_scale scale_notes (event_pitch e))).
Proof.
  intros Hreg.
  pose proof (walker_pcs_in_register scale_notes melody_octave Hreg) as Hpcs.
  assert (Hall : forall f, In f (map snd (melody_func_map fuel)) ->
                   always (f scale_notes melody_style melody_speed melody_octave
                             instrument_type progression_data)
                     (Forall (fun e => on_scale scale_notes (event_pitch e)))).
  { intros f Hf. cbn [melody_func_map map snd In] in Hf.
    destruct Hf as [<- | [<- | [<- | [<- | [<- | [<- | []]]]]]];
      (eapply always_weaken; [|intros data; apply notes_in_pcs_on_scale]).
    - apply generate_melody_chord_focus_ok.
    - rewrite <- Hpcs. apply generate_melody_scale_walker_ok.
    - apply generate_melody_experimental_ok.
    - rewrite <- Hpcs. apply generate_melody_leaps_steps_ok.
    - apply generate_melody_minimalist_ok.
    - apply generate_melody_sustained_lead_ok. }
  eapply always_bind with (P := fun f => In f (map snd (melody_func_map fuel)));
    [|exact Hall].
  unfold select_melody_func.
  destruct (String.eqb melody_gen_style "Random Style").
  - apply always_choice_or; [auto|]. left. reflexivity.
  - unfold melody_func_map, dict_get.
    repeat match goal with
           | |- context [String.eqb ?a melody_gen_style] =>
               destruct (String.eqb a melody_gen_style)
           end; apply always_ret; cbn [map snd In]; tauto.
Qed.

(** X26: for every key root of [ROOT_NOTES_MIDI] (60..71), either mode,
    and whatever the style names, the other settings, the progression
    and the draws, the parts that the entry point generates fit the
    key: every melody note is a note of the key's scale, every arpeggio
    note is a MIDI pitch of the scale with a velocity in 90..100, and
    every bass note lies between 20 and 67.  A part that is not asked
    for is empty. *)
Theorem generated_parts_fit_key (is_minor_key : bool) (chosen_key_root_midi : Z)
    (bass_style arp_style arp_octave melody_gen_style melody_octave melody_articulation
       melody_speed melody_instrument : string)
    (include_arp include_melody include_bass : bool) (fuel : nat)
    (generated_chords_progression : progression) :
  60 <= chosen_key_root_midi <= 71 ->
  always (generate_parts is_minor_key chosen_key_root_midi bass_style arp_style arp_octave
            melody_gen_style melody_octave melody_articulation melody_speed melody_instrument
            include_arp include_melody include_bass fuel generated_chords_progression)
    (fun p =>
       let scale_notes := key_scale is_minor_key chosen_key_root_midi in
       Forall (fun e => on_scale scale_notes (event_pitch e)) (generated_melody_midi_data p)
       /\ Forall (arp_event_ok (pcs_of scale_notes)) (generated_arp_midi_data p)
       /\ Forall (fun e => 20 <= event_pitch e <= 67) (generated_bass_midi_data p)
       /\ (include_arp = false -> generated_arp_midi_data p = [])
       /\ (include_melody = false -> generated_melody_midi_data p = [])
       /\ (include_bass = false -> generated_bass_midi_data p = [])).
Proof.
  intros Hroot. unfold generate_parts. fold (key_scale is_minor_key chosen_key_root_midi).
  set (scale_notes := key_scale is_minor_key chosen_key_root_midi).
  assert (Hreg : scale_in_register scale_notes melody_octave).
  { destruct (diatonic_scale_in_register chosen_key_root_midi melody_octave Hroot) as [H1 H2].
    unfold scale_notes, key_scale. destruct is_minor_key; assumption. }
  eapply always_bind with
    (P := fun arp => Forall (arp_event_ok (pcs_of scale_notes)) arp
                     /\ (include_arp = false -> arp = [])).
  { destruct include_arp.
    - eapply always_weaken; [apply generate_arpeggio_notes|].
      intros data [H _]. split; [exact H | discriminate].
    - apply always_ret. split; [constructor | reflexivity]. }
  intros arp [Harp Harp0].
  eapply always_bind with
    (P := fun melody => Forall (fun e => on_scale scale_notes (event_pitch e)) melody
                        /\ (include_melody = false -> melody = [])).
  { destruct include_melody.
    - eapply always_weaken; [apply select_melody_func_on_scale; exact Hreg|].
      intros data H. split; [exact H | discriminate].
    - apply always_ret. split; [constructor | reflexivity]. }
  intros melody [Hmel Hmel0].
  eapply always_bind with
    (P := fun bass => Forall (fun e => 20 <= event_pitch e <= 67) bass
                      /\ (include_bass = false -> bass = [])).
  { destruct include_bass.
    - eapply always_weaken; [apply select_bass_func_register|].
      intros data H. split; [exact H | discriminate].
    - apply always_ret. split; [constructor | reflexivity]. }
  intros bass [Hbass Hbass0].
  apply always_ret. cbn [generated_arp_midi_data generated_melody_midi_data
                           generated_bass_midi_data].
  repeat split; assumption.
Qed.

(** All three parts over two bars in A minor. *)
Lemma generated_parts_fit_key_witness :
  always (generate_parts true 69 "Walking (Jazz)" "Converge/Diverge" "+2 Octaves"
            "Random Style" "High" "Legato" "Fast" "Pluck" true true true 16
            [ mk_slot "Am" [69; 72; 76] [57; 60; 64] (Some 69) 4;
              mk_slot "E7" [76; 80; 83; 86] [64; 68; 71; 74] (Some 76) 4 ])
    (fun p =>
       let scale_notes := key_scale true 69 in
       Forall (fun e => on_scale scale_notes (event_pitch e)) (generated_melody_midi_data p)
       /\ Forall (arp_event_ok (pcs_of scale_notes)) (generated_arp_midi_data p)
       /\ Forall (fun e => 20 <= event_pitch e <= 67) (generated_bass_midi_data p)
       /\ (true = false -> generated_arp_midi_data p = [])
       /\ (true = false -> generated_melody_midi_data p = [])
       /\ (true = false -> generated_bass_midi_data p = [])).
Proof. apply generated_parts_fit_key. lia. Defined.

(** ** MIDI writing *)

Lemma between_spec (lo hi x : Z) : between lo hi x = true -> lo <= x <= hi.
Proof.
  unfold between. intros H. apply andb_prop in H. destruct H as [H1 H2].
  apply Z.leb_le in H1. apply Z.leb_le in H2. lia.
Qed.

Lemma Qlt_pos_trans (a d : Q) : (0 <= a)%Q -> Qltb a d = true -> (0 < d)%Q.
Proof. intros Ha H. apply Qltb_true in H. eapply Qle_lt_trans; eassumption. Qed.

Section WriterFacts.

Variables (num_tracks track : Z).
Hypothesis track_ok : 0 <= track < num_tracks.

Lemma write_chord_ok (l : progression) :
  forall st, Forall (call_ok num_tracks) (fst st) ->
             Forall (call_ok num_tracks) (fst (fold_left (write_chord track) l st)).
Proof.
  induction l as [|s l IH]; intros [calls time_cursor] Hst; cbn [fold_left]; [exact Hst|].
  apply IH. unfold write_chord. cbn [fst] in Hst.
  destruct (Qleb (duration_beats s) 0) eqn:Ed; [exact Hst|].
  apply Qleb_false in Ed. cbn [fst].
  destruct (negb (is_empty (midi_notes s))); [|exact Hst].
  apply Forall_app. split; [exact Hst|]. constructor; [split; [exact track_ok | exact I]|].
  apply Forall_forall. intros c Hc. apply in_map_iff in Hc.
  destruct Hc as (pitch & <- & Hp). apply filter_In in Hp. destruct Hp as [_ Hp].
  apply between_spec in Hp.
  split; [exact track_ok|]. split; [reflexivity|]. split; [exact Hp | exact Ed].
Qed.

Lemma bass_calls_ok (bass : list note_event) :
  Forall (call_ok num_tracks)
    (map (fun e : note_event => let '(pitch, time, dur) := e in
                                addNote track 0 pitch time dur 110)
       (filter (fun e : note_event => let '(pitch, time, dur) := e in
                                      between 0 127 pitch && Qltb (1 # 100) dur) bass)).
Proof.
  apply Forall_forall. intros c Hc. apply in_map_iff in Hc.
  destruct Hc as ([[pitch time] dur] & <- & He). apply filter_In in He.
  destruct He as [_ He]. apply andb_prop in He. destruct He as [Hp Hd].
  apply between_spec in Hp.
  split; [exact track_ok|]. split; [reflexivity|]. split; [exact Hp|].
  eapply Qlt_pos_trans; [|exact Hd]. discriminate.
Qed.

Lemma arp_calls_ok (arp : list arp_event) :
  Forall (call_ok num_tracks)
    (map (fun e : arp_event => let '(pitch, time, dur, vel) := e in
                               addNote track 0 pitch time dur vel)
       (filter (fun e : arp_event => let '(pitch, time, dur, vel) := e in
                                     between 0 127 pitch && Qltb (1 # 1000) dur) arp)).
Proof.
  apply Forall_forall. intros c Hc. apply in_map_iff in Hc.
  destruct Hc as ([[[pitch time] dur] vel] & <- & He). apply filter_In in He.
  destruct He as [_ He]. apply andb_prop in He. destruct He as [Hp Hd].
  apply between_spec in Hp.
  split; [exact track_ok|]. split; [reflexivity|]. split; [exact Hp|].
  eapply Qlt_pos_trans; [|exact Hd]. discriminate.
Qed.

Lemma write_melody_ok (melody : list note_event) (calls : list midi_call) :
  Forall (call_ok num_tracks) calls ->
  always (foldM (write_melody_note track) melody calls) (Forall (call_ok num_tracks)).
Proof.
  apply always_foldM. clear calls. intros calls [[pitch time] dur] Hcalls.
  unfold write_melody_note.
  destruct (between 0 127 pitch) eqn:Hp; cbn [andb]; [|apply always_ret; exact Hcalls].
  destruct (Qltb (1 # 1000) dur) eqn:Hd; [|apply always_ret; exact Hcalls].
  eapply always_bind; [apply always_true|]. intros r _. apply always_ret.
  apply Forall_app. split; [exact Hcalls|]. constructor; [|constructor].
  apply between_spec in Hp.
  split; [exact track_ok|]. split; [reflexivity|]. split; [exact Hp|].
  eapply Qlt_pos_trans; [|exact Hd]. discriminate.
Qed.

End WriterFacts.

(** The file that the writer builds. *)
Lemma write_midi_file_calls (last_generated_key last_style_selection : string)
    (generated_chords_progression : progression) (generated_arp_midi_data : list arp_event)
    (generated_melody_midi_data generated_bass_midi_data : list note_event)
    (include_arp include_melody include_bass : bool) (melody_style melody_speed : string)
    (bpm_value : Z) (embed_tempo : bool) :
  always (_execute_write_midi_file last_generated_key last_style_selection
            generated_chords_progression generated_arp_midi_data generated_melody_midi_data
            generated_bass_midi_data include_arp include_melody include_bass melody_style
            melody_speed bpm_value embed_tempo)
    (fun f =>
       numTracks f
       = 1 + count_true [part_written include_bass generated_bass_midi_data;
                         part_written include_arp generated_arp_midi_data;
                         part_written include_melody generated_melody_midi_data]
       /\ Forall (call_ok (numTracks f)) (midi_calls f)).
Proof.
  unfold _execute_write_midi_file, midi_track_map, part_written.
  destruct (include_bass && negb (is_empty generated_bass_midi_data));
    destruct (include_arp && negb (is_empty generated_arp_midi_data));
    destruct (include_melody && negb (is_empty generated_melody_midi_data));
    cbn [fst snd dict_set dict_get String.eqb Ascii.eqb Bool.eqb andb];
    (eapply always_bind with (P := Forall (call_ok _));
     [|intros calls Hcalls; apply always_ret; split; [reflexivity | exact Hcalls]]);
    try apply write_melody_ok; try apply always_ret; try lia;
    repeat (apply Forall_app; split);
    try (apply bass_calls_ok; lia); try (apply arp_calls_ok; lia);
    try (constructor; [split; [cbn [call_track]; lia | exact I] | constructor]);
    (apply write_chord_ok; [lia|]); cbn [fst];
    destruct embed_tempo;
    repeat (constructor; [split; [cbn [call_track]; lia | exact I]|]); constructor.
Qed.

(** X27: whatever is stored and whatever the draws, the MIDI file is
    created with one track for the chords plus one for each part that
    is asked for and has notes, and every call made on it addresses one
    of these tracks; every note written is on channel 0, has a pitch in
    0..127 and a positive duration. *)
Theorem written_midi_calls_valid (last_generated_key last_style_selection : string)
    (generated_chords_progression : progression) (generated_arp_midi_data : list arp_event)
    (generated_melody_midi_data generated_bass_midi_data : list note_event)
    (include_arp include_melody include_bass : bool) (melody_style melody_speed : string)
    (bpm_value : Z) (embed_tempo : bool) :
  always (_execute_write_midi_file last_generated_key last_style_selection
            generated_chords_progression generated_arp_midi_data generated_melody_midi_data
            generated_bass_midi_data include_arp include_melody include_bass melody_style
            melody_speed bpm_value embed_tempo)
    (fun f =>
       numTracks f
       = 1 + count_true [part_written include_bass generated_bass_midi_data;
                         part_written include_arp generated_arp_midi_data;
                         part_written include_melody generated_melody_midi_data]
       /\ Forall (call_ok (numTracks f)) (midi_calls f)).
Proof.
  exact (write_midi_file_calls last_generated_key last_style_selection
           generated_chords_progression generated_arp_midi_data generated_melody_midi_data
           generated_bass_midi_data include_arp include_melody include_bass melody_style
           melody_speed bpm_value embed_tempo).
Qed.

(** ** Display names *)

Lemma split_head_app_sep (sep : ascii) (a b : string) :
  PyStr.split_head sep a = a -> PyStr.split_head sep (a ++ String sep b) = a.
Proof.
  induction a as [|c a IH]; cbn [append PyStr.split_head].
  - intros _. rewrite Ascii.eqb_refl. reflexivity.
  - destruct (Ascii.eqb c sep); [discriminate|].
    intros [= H]. rewrite (IH H). reflexivity.
Qed.

(** The display name is the chord name, alone or followed by a suffix
    that opens with a slash. *)
Lemma apply_voicing_display (root_pos_notes : list Z) (voicing_style base_name : string)
    (chord_octave_shift : Z) :
  always (_apply_voicing root_pos_notes voicing_style base_name chord_octave_shift)
    (fun v => v_display v = base_name
              \/ exists suffix, v_display v = (base_name ++ String "/" suffix)%string).
Proof.
  unfold _apply_voicing.
  destruct root_pos_notes as [|root_note rest]; [apply always_ret; left; reflexivity|].
  destruct (String.eqb voicing_style "Allow Inversions").
  - eapply always_bind; [apply always_true|]. intros inv_num _. apply always_ret.
    cbn [v_display]. destruct (inv_num >? 0); [right | left; reflexivity].
    exists ("Inv" ++ PyStr.of_Z inv_num)%string. reflexivity.
  - destruct (String.eqb voicing_style "Prefer Drop 2" && _)%bool;
      [|apply always_ret; left; reflexivity].
    destruct (calculate_drop2_voicing (root_note :: rest));
      apply always_ret; [left; reflexivity | right].
    exists "D2". reflexivity.
Qed.

Lemma apply_voicing_base_name (root_pos_notes : list Z) (voicing_style base_name : string)
    (chord_octave_shift : Z) :
  base_name_of base_name = base_name ->
  always (_apply_voicing root_pos_notes voicing_style base_name chord_octave_shift)
    (fun v => base_name_of (v_display v) = base_name).
Proof.
  intros Hbase. eapply always_weaken; [apply apply_voicing_display|].
  intros v [-> | [suffix ->]]; [exact Hbase|].
  apply split_head_app_sep. exact Hbase.
Qed.

(** X28: the chord name survives the voicing: for a name without a
    slash, whatever the voicing style and the draws, cutting the display
    name at its first slash gives the name back, so the generator
    recovers the pool key of the chord it has just voiced. *)
Theorem voiced_display_name_round_trip (root_pos_notes : list Z)
    (voicing_style base_name : string) (chord_octave_shift : Z) :
  base_name_of base_name = base_name ->
  always (_apply_voicing root_pos_notes voicing_style base_name chord_octave_shift)
    (fun v => base_name_of (v_display v) = base_name).
Proof. exact (apply_voicing_base_name root_pos_notes voicing_style base_name chord_octave_shift). Qed.

(** Dm7 under "Allow Inversions". *)
Lemma voiced_display_name_round_trip_witness :
  always (_apply_voicing [62; 65; 69; 72] "Allow Inversions" "Dm7" (-12))
    (fun v => base_name_of (v_display v) = "Dm7").
Proof. apply voiced_display_name_round_trip. reflexivity. Defined.

(** ** Chord names along a progression *)

Lemma always_outcome {A} (m : Rand A) (P : A -> Prop) (a : A) :
  always m P -> outcome m a -> P a.
Proof. intros Hm [t <-]. apply Hm. Qed.

Lemma plain_namesb_sound (pool : chord_pool) : plain_namesb pool = true -> plain_names pool.
Proof.
  unfold plain_namesb, plain_names. rewrite forallb_forall. intros H name Hin.
  apply String.eqb_eq. apply H. exact Hin.
Qed.

Lemma transpose_notes_nonempty (l : list Z) (s : Z) : l <> [] -> transpose_notes l s <> [].
Proof. destruct l; [contradiction | discriminate]. Qed.

(** The resolver answers with a matching name, or with nothing when
    nothing matches. *)
Lemma find_chord_by_function_cases (pool : chord_pool) (function_target key_type : string)
    (prefer_seventh : bool) :
  always (_find_chord_by_function pool function_target key_type prefer_seventh)
    (fun r => match r with
              | Some name => matching pool function_target name
              | None => forall m, ~ matching pool function_target m
              end).
Proof.
  pose proof (function_matches_of_spec pool function_target) as Hspec.
  unfold _find_chord_by_function.
  destruct (function_matches_of pool function_target) as [|m0 ms] eqn:Em.
  - apply always_ret. intros m Hm. apply (proj2 (Hspec m)). exact Hm.
  - set (matches := m0 :: ms) in *.
    assert (Hall : always (random_choice matches)
                     (fun r => match r with
                               | Some name => matching pool function_target name
                               | None => forall m, ~ matching pool function_target m
                               end)).
    { eapply always_weaken; [apply always_random_choice; discriminate|].
      intros r (x & -> & Hx). apply Hspec. exact Hx. }
    destruct prefer_seventh; [|exact Hall].
    destruct (filter has_seventh_token matches) as [|s ss] eqn:Es; [exact Hall|].
    eapply always_weaken; [apply always_random_choice; discriminate|].
    intros r (x & -> & Hx). rewrite <- Es in Hx. apply filter_In in Hx.
    apply Hspec. apply Hx.
Qed.

Lemma matching_key (pool : chord_pool) (function_target name : string) :
  matching pool function_target name -> In name (dict_keys pool).
Proof.
  intros (d & Hin & _). unfold dict_keys. apply in_map_iff. exists (name, d). auto.
Qed.

Lemma random_sample_nonempty {A} (population : list A) (k : nat) (t : tape) :
  population <> [] -> (0 < k)%nat -> fst (random_sample population k t) <> [].
Proof.
  intros Hne Hk. destruct k as [|k]; [lia|]. destruct population as [|p ps]; [congruence|].
  cbn [random_sample]. rewrite bind_run.
  pose proof (randbelow_range (len (p :: ps)) t ltac:(unfold len; cbn [List.length]; lia)) as Hr.
  destruct (nth_error (p :: ps) (Z.to_nat (fst (randbelow (len (p :: ps)) t)))) eqn:E.
  - rewrite bind_run. discriminate.
  - exfalso. apply nth_error_None in E. unfold len in *. cbn [List.length] in *. lia.
Qed.

Lemma possible_candidates_nonempty (names : list string) (prev_name : option string) :
  names <> [] -> possible_candidates names prev_name <> [].
Proof.
  intros Hne. unfold possible_candidates.
  destruct (filter (differs prev_name) names); [exact Hne | discriminate].
Qed.

Lemma dict_keys_nonempty (pool : chord_pool) : valid_pool pool -> dict_keys pool <> [].
Proof. intros [Hne _]. destruct pool; [contradiction | discriminate]. Qed.

Section ChordNames.

Variables (pool : chord_pool) (voicing_style : string).

Hypothesis pool_valid : valid_pool pool.
Hypothesis pool_plain : plain_names pool.

Lemma pool_key_facts (name : string) :
  In name (dict_keys pool) ->
  exists d x xs, dict_get pool name = Some d /\ notes d = x :: xs /\ name <> "".
Proof.
  intros Hin. destruct (dict_keys_get pool name Hin) as [d Hd].
  destruct (valid_pool_get pool name d pool_valid Hd) as [Hn Hnotes].
  destruct (notes d) as [|x xs] eqn:E; [contradiction|].
  exists d, x, xs. auto.
Qed.

(** What the voicing of a pool chord returns. *)
Lemma voiced_names (name : string) (x : Z) (xs : list Z) :
  In name (dict_keys pool) ->
  always (_apply_voicing (x :: xs) voicing_style name (-12))
    (fun v => v_original v = x :: xs /\ v_final v <> [] /\ v_midi v <> []
              /\ v_root v = Some x /\ base_name_of (v_display v) = name).
Proof.
  intros Hin.
  eapply always_weaken;
    [apply always_conj;
     [apply apply_voicing_ok | apply apply_voicing_base_name, pool_plain, Hin]|].
  intros v [Hok Hb].
  destruct (voiced_ok_final_nonempty _ _ Hok ltac:(discriminate)) as (Hf & Hm & _ & _).
  destruct Hok as (Ho & _ & _ & _ & Hr). auto.
Qed.

Lemma voice_template_names (name : string) :
  In name (dict_keys pool) ->
  always (voice_template voicing_style pool name) (fun sel => selection_names pool sel name).
Proof.
  intros Hin. destruct (pool_key_facts name Hin) as (d & x & xs & Hd & Hn & Hname).
  unfold voice_template. rewrite Hd, Hn.
  eapply always_bind; [apply voiced_names; exact Hin|].
  intros v (Ho & Hf & Hm & Hr & Hb). apply always_ret.
  unfold selection_names. cbn [s_name s_original s_final s_midi s_display s_root].
  split; [reflexivity|]. split; [exact Hin|]. split; [exact Hname|].
  split; [exists (v_display v); auto|].
  rewrite Ho, Hr. repeat split; try assumption; discriminate.
Qed.

Lemma voice_choice_names (name : string) :
  In name (dict_keys pool) ->
  always (voice_choice pool voicing_style (-12) (Some name))
    (fun sel => selection_names pool sel name).
Proof.
  intros Hin. destruct (pool_key_facts name Hin) as (d & x & xs & Hd & Hn & Hname).
  unfold voice_choice. rewrite (proj2 (truthy_some name) Hname), Hd, Hn.
  eapply always_bind; [apply voiced_names; exact Hin|].
  intros v (Ho & Hf & Hm & Hr & Hb). apply always_ret.
  unfold selection_names, selection_of_voiced.
  cbn [s_name s_original s_final s_midi s_display s_root].
  split; [rewrite Hb; reflexivity|]. split; [exact Hin|]. split; [exact Hname|].
  split; [exists (v_display v); auto|].
  rewrite Ho, Hr. repeat split; try assumption; discriminate.
Qed.

End ChordNames.

(** No name of a pool that the entry point builds holds a slash. *)
Lemma pool_for_plain_names (pool_style : string) (is_minor_key : bool)
    (key_root_name complexity : string) :
  In key_root_name NOTE_NAMES ->
  exists root,
    ROOT_NOTES_MIDI key_root_name = Some root
    /\ plain_names (pool_for pool_style is_minor_key key_root_name root complexity).
Proof.
  intros Hin. simpl in Hin.
  repeat (destruct Hin as [<- | Hin];
          [eexists; split; [reflexivity|];
           apply plain_namesb_sound; pool_cases pool_style is_minor_key complexity;
           vm_compute; reflexivity|]).
  contradiction.
Qed.

Section FinderNames.

Variables (pool : chord_pool) (voicing_style chord_bias key_root_name : string).

Hypothesis pool_valid : valid_pool pool.
Hypothesis pool_plain : plain_names pool.

(** The selection made of an evaluated candidate names the candidate. *)
Lemma selection_of_best_names (c : string) (prev : list Z) (w : best) (m : bool) :
  In c (dict_keys pool) ->
  evaluation_of pool prev chord_bias key_root_name voicing_style c (w, m) ->
  selection_names pool (selection_of_best w (-12)) c.
Proof.
  intros Hin (data & root & v & Hd & Hroot & Hout & Hfin & He).
  injection He as -> _.
  destruct (pool_key_facts pool pool_valid c Hin) as (d & x & xs & Hd' & Hn & Hname).
  assert (d = data) by congruence. subst d. rewrite Hn in Hout.
  destruct (always_outcome _ _ v
              (voiced_names pool voicing_style pool_plain c x xs Hin) Hout)
    as (Ho & Hf & Hm & Hr & Hb).
  unfold selection_names, selection_of_best.
  cbn [s_name s_original s_final s_midi s_display s_root
       b_name_disp b_orig_notes b_notes_voiced b_root].
  split; [rewrite Hb; reflexivity|]. split; [exact Hin|]. split; [exact Hname|].
  split; [exists (v_display v); auto|].
  split; [rewrite Ho; discriminate|]. split; [exact Hf|].
  split; [apply transpose_notes_nonempty; exact Hf | discriminate].
Qed.

(** The chord that the finder returns is a pool chord, and not the
    previous one when there is a previous chord and the pool has
    another name. *)
Lemma find_next_smooth_chord_names (prev_notes_voiced : option (list Z))
    (prev_name : option string) :
  always (_find_next_smooth_chord pool (dict_keys pool) prev_notes_voiced prev_name chord_bias
            key_root_name voicing_style (-12))
    (fun sel => exists name,
       selection_names pool sel name
       /\ forall p, prev_notes_voiced <> None -> prev_name = Some p ->
                    has_other_name pool p -> name <> p).
Proof.
  pose proof (dict_keys_nonempty pool pool_valid) as Hkeys.
  unfold _find_next_smooth_chord. destruct prev_notes_voiced as [prev|].
  - pose proof (possible_candidates_nonempty (dict_keys pool) prev_name Hkeys) as Hposs.
    pose proof (possible_candidates_incl (dict_keys pool) prev_name) as Hpincl.
    assert (Hexcl : forall p, prev_name = Some p -> has_other_name pool p ->
                              ~ In p (possible_candidates (dict_keys pool) prev_name)).
    { intros p -> Hother. apply possible_candidates_exclude. exact Hother. }
    destruct (possible_candidates (dict_keys pool) prev_name) as [|c0 cs];
      [congruence|].
    intros t. rewrite bind_run.
    set (num_samp := Nat.min num_candidates_smooth (List.length (c0 :: cs))).
    set (candidates := fst (random_sample (c0 :: cs) num_samp t)).
    assert (Hincl : incl candidates (c0 :: cs)) by apply random_sample_incl.
    assert (Hne : candidates <> []).
    { apply random_sample_nonempty; [discriminate|].
      unfold num_samp, num_candidates_smooth. cbn [List.length]. lia. }
    rewrite bind_run.
    destruct (scan_trace pool prev chord_bias key_root_name voicing_style candidates scan_init
                (snd (random_sample (c0 :: cs) num_samp t)))
      as (evals & Hall & Hcov & Hrun).
    rewrite Hrun.
    assert (Hevals : evals <> []).
    { destruct candidates as [|c cands] eqn:Ec; [congruence|].
      assert (Hc : In c (dict_keys pool)) by (apply Hpincl, Hincl; left; reflexivity).
      destruct (pool_key_facts pool pool_valid c Hc) as (d & x & xs & Hd & Hn & _).
      destruct (Hcov c d (or_introl eq_refl) Hd ltac:(rewrite Hn; discriminate)) as [e He].
      intros E. rewrite E in He. exact He. }
    pose proof (scan_evals_inv (map snd evals) [] scan_init winner_inv_init) as Hinv.
    cbn [app] in Hinv.
    destruct (choose_winner_min pool (dict_keys pool) prev_name voicing_style
                (scan_evals (map snd evals) scan_init) (map snd evals)
                (snd (foldM (scan_candidate pool (get_average_pitch prev) (py_max prev)
                               chord_bias key_root_name voicing_style (-12))
                        candidates scan_init (snd (random_sample (c0 :: cs) num_samp t))))
                Hinv) as (w & [[m Hin] _] & Hres).
    + destruct evals; [contradiction | discriminate].
    + intros b m Hin. apply in_map_iff in Hin. destruct Hin as ((c & e) & He & Hin).
      cbn [snd] in He. subst e. rewrite Forall_forall in Hall.
      destruct (Hall _ Hin) as [_ (data & root & v & _ & _ & _ & Hv & [= -> _])].
      exact Hv.
    + rewrite Hres.
      assert (Hin' : In (w, m) (map snd evals)) by (apply winner_scope_incl; exact Hin).
      apply in_map_iff in Hin'. destruct Hin' as ((c & e) & He & Hce).
      cbn [snd] in He. subst e. rewrite Forall_forall in Hall.
      destruct (Hall _ Hce) as [Hc Heval]. cbn [fst snd] in Hc, Heval.
      exists c. split.
      * eapply selection_of_best_names; [apply Hpincl, Hincl, Hc | exact Heval].
      * intros p _ Hp Hother ->. apply (Hexcl p Hp Hother). apply Hincl. exact Hc.
  - unfold choice_or_none.
    destruct (dict_keys pool) as [|k ks] eqn:Ek; [congruence|]. rewrite <- Ek.
    eapply always_bind; [apply always_random_choice; rewrite Ek; discriminate|].
    intros r (x & -> & Hx).
    eapply always_weaken;
      [apply (voice_choice_names pool voicing_style pool_valid pool_plain x Hx)|].
    intros sel Hsel. exists x. split; [exact Hsel|].
    intros p Hnone. congruence.
Qed.

End FinderNames.

Lemma template_function_not_smooth (prog_style : string) (current_slot : Z) (func : string) :
  template_function prog_style current_slot = Some func ->
  String.eqb prog_style "Smooth Random" = false.
Proof.
  unfold template_function.
  destruct (String.eqb_spec prog_style "Pop (I-vi-IV-V)") as [-> | _]; [reflexivity|].
  destruct (String.eqb_spec prog_style "Pachelbel-ish") as [-> | _]; [reflexivity|].
  destruct (String.eqb_spec prog_style "ii-V-I Focused") as [-> | _]; [reflexivity|].
  discriminate.
Qed.

Section StepNames.

Variables (prog_style chord_rate_str voicing_style chord_bias : string).
Variables (pool : chord_pool) (key_type key_root_name : string).

Hypothesis pool_valid : valid_pool pool.
Hypothesis pool_plain : plain_names pool.

(** A good selection is not replaced. *)
Lemma handle_failed_good (st : gen_state) (sel : selection) (name : string) :
  selection_names pool sel name ->
  handle_failed voicing_style pool (dict_keys pool) st sel = ret (Some sel).
Proof.
  intros (Hn & _ & Hne & _ & Ho & Hf & _ & _). unfold handle_failed.
  rewrite Hn, (proj2 (truthy_some name) Hne).
  destruct (s_original sel); [contradiction|]. destruct (s_final sel); [contradiction|].
  reflexivity.
Qed.

(** A good selection is stored as a slot. *)
Lemma store_chord_names (st : gen_state) (sel : selection) (name : string) :
  selection_names pool sel name ->
  exists s,
    progression_data (store_chord chord_rate_str st sel) = progression_data st ++ [s]
    /\ slot_names pool s name
    /\ previous_chord_name_base (store_chord chord_rate_str st sel) = Some name
    /\ previous_chord_final_notes (store_chord chord_rate_str st sel) <> None.
Proof.
  intros (Hn & Hin & Hne & (disp & Hd & Hb) & Ho & Hf & Hm & Hr). unfold store_chord.
  rewrite Hn, (proj2 (truthy_some name) Hne), Hd.
  destruct (s_root sel) as [root|]; [|contradiction].
  destruct (s_original sel); [contradiction|]. destruct (s_midi sel); [contradiction|].
  destruct (s_final sel); [contradiction|].
  cbn [is_empty negb andb progression_data previous_chord_name_base
       previous_chord_final_notes].
  eexists. split; [reflexivity|]. split; [split; [exact Hin | exact Hb]|].
  split; [rewrite (pool_plain name Hin); reflexivity | discriminate].
Qed.

Lemma progression_step_names (current_slot : Z) (st : gen_state) :
  always (progression_step prog_style chord_rate_str voicing_style chord_bias pool
            (dict_keys pool) key_type key_root_name current_slot st)
    (named_step pool prog_style current_slot st).
Proof.
  unfold progression_step.
  set (good := fun sel : selection =>
         exists name,
           selection_names pool sel name
           /\ follows_template pool prog_style current_slot name
           /\ (previous_chord_final_notes st <> None ->
               avoids_previous pool prog_style current_slot
                 (previous_chord_name_base st) name)).
  assert (Hfinder :
    left_to_finder pool prog_style current_slot ->
    always (_find_next_smooth_chord pool (dict_keys pool) (previous_chord_final_notes st)
              (previous_chord_name_base st) chord_bias key_root_name voicing_style (-12))
      good).
  { intros Hleft.
    eapply always_weaken;
      [apply (find_next_smooth_chord_names pool voicing_style chord_bias key_root_name
                pool_valid pool_plain)|].
    intros sel (name & Hsel & Hprev). exists name. split; [exact Hsel|]. split.
    - intros func Hf (m & Hm). exfalso. exact (Hleft func Hf m Hm).
    - intros Hnotes _ p Hp Hother. exact (Hprev p Hnotes Hp Hother). }
  eapply always_bind with
    (P := fun chord_name =>
            match chord_name with
            | Some name => exists func, template_function prog_style current_slot = Some func
                                        /\ matching pool func name
            | None => left_to_finder pool prog_style current_slot
            end).
  { destruct (template_function prog_style current_slot) as [func|] eqn:Et.
    - eapply always_weaken; [apply find_chord_by_function_cases|].
      intros [name|] Hr.
      + exists func. split; [reflexivity | exact Hr].
      + intros func' Hf. rewrite Et in Hf. injection Hf as <-. exact Hr.
    - apply always_ret. intros func' Hf. rewrite Et in Hf. discriminate. }
  intros chord_name Hc.
  eapply always_bind with (P := good).
  { destruct chord_name as [name|].
    - destruct Hc as (func & Et & Hr).
      assert (Hin : In name (dict_keys pool)) by (eapply matching_key; exact Hr).
      destruct (pool_key_facts pool pool_valid name Hin) as (_ & _ & _ & _ & _ & Hne).
      rewrite (proj2 (truthy_some name) Hne), (template_function_not_smooth _ _ _ Et).
      cbn [negb orb].
      eapply always_weaken;
        [apply (voice_template_names pool voicing_style pool_valid pool_plain name Hin)|].
      intros sel Hsel. exists name. split; [exact Hsel|]. split.
      + intros func' Hf _. rewrite Et in Hf. injection Hf as <-. exact Hr.
      + intros _ Hleft. exfalso. exact (Hleft func Et name Hr).
    - cbn [PyStr.truthy negb orb]. apply Hfinder. exact Hc. }
  intros sel (name & Hsel & Ht & Hs).
  rewrite (handle_failed_good st sel name Hsel).
  intros t. rewrite bind_run. unfold ret. cbn [fst snd].
  destruct (store_chord_names st sel name Hsel) as (s & Hdata & Hslot & Hname & Hnotes).
  exists (store_chord chord_rate_str st sel), s, name.
  repeat split; try assumption; apply Hslot.
Qed.

End StepNames.

Lemma nth_error_firstn_lt {A} (n i : nat) (l : list A) :
  (i < n)%nat -> nth_error (firstn n l) i = nth_error l i.
Proof.
  revert i l. induction n as [|n IH]; intros i l Hi; [lia|].
  destruct l as [|x l]; [reflexivity|]. destruct i as [|i]; [reflexivity|].
  cbn [firstn nth_error]. apply IH. lia.
Qed.

Section LoopNames.

Variables (prog_style chord_rate_str voicing_style cadence_str chord_bias : string).
Variables (pool : chord_pool) (key_type key_root_name : string) (is_minor : bool).

Hypothesis pool_valid : valid_pool pool.
Hypothesis pool_plain : plain_names pool.

Lemma progression_loop_names (remaining : nat) :
  forall (current_slot : Z) (st : gen_state),
    always (progression_loop prog_style chord_rate_str voicing_style chord_bias pool
              (dict_keys pool) key_type key_root_name remaining current_slot st)
      (fun st' => exists ext,
         progression_data st' = progression_data st ++ ext
         /\ List.length ext = remaining
         /\ named_slots pool prog_style current_slot st ext).
Proof.
  induction remaining as [|n IH]; intros current_slot st; cbn [progression_loop].
  - apply always_ret. exists []. rewrite app_nil_r.
    split; [reflexivity|]. split; [reflexivity|].
    split; [|split].
    + intros [|k] s H; discriminate.
    + intros [|k] s1 s2 H; discriminate.
    + intros s H; discriminate.
  - eapply always_bind;
      [apply (progression_step_names prog_style chord_rate_str voicing_style chord_bias pool
                key_type key_root_name pool_valid pool_plain)|].
    intros r (st1 & s & name & -> & Hdata & [Hin Hbase] & Hprev & Hnotes & Htempl & Havoid).
    eapply always_weaken; [apply IH|].
    intros st' (ext & Hext & Hlen & Ha & Hb & Hc).
    exists (s :: ext).
    split; [rewrite Hext, Hdata, <- app_assoc; reflexivity|].
    split; [cbn [List.length]; lia|].
    split; [|split].
    + intros [|k] s' Hk; cbn [nth_error] in Hk.
      * injection Hk as <-. rewrite Hbase, Z.add_0_r.
        split; [split; [exact Hin | exact Hbase] | exact Htempl].
      * destruct (Ha k s' Hk) as [Hs Ht]. split; [exact Hs|].
        replace (current_slot + Z.of_nat (S k)) with (current_slot + 1 + Z.of_nat k) by lia.
        exact Ht.
    + intros [|k] s1 s2 H1 H2; cbn [nth_error] in H1, H2.
      * injection H1 as <-. rewrite Hbase, <- Hprev.
        replace (current_slot + Z.of_nat 1) with (current_slot + 1) by lia.
        apply Hc; [exact H2 | exact Hnotes].
      * replace (current_slot + Z.of_nat (S (S k)))
          with (current_slot + 1 + Z.of_nat (S k)) by lia.
        exact (Hb k s1 s2 H1 H2).
    + intros s' H0 Hn. cbn [nth_error] in H0. injection H0 as <-.
      rewrite Hbase. apply Havoid. exact Hn.
Qed.

(** The slots of a generated progression, those that a cadence may
    overwrite apart. *)
Lemma generate_progression_names (num_bars : Z) (t : tape) :
  let data := fst (_generate_progression num_bars prog_style chord_rate_str voicing_style
                     cadence_str chord_bias pool (dict_keys pool) key_type key_root_name
                     is_minor t) in
  exists ext,
    named_slots pool prog_style 0 (mk_gen_state [] None None) ext
    /\ List.length data = List.length ext
    /\ forall i, cadence_str = "Any" \/ (i + 2 < List.length data)%nat ->
                 nth_error data i = nth_error ext i.
Proof.
  cbv zeta. unfold _generate_progression. rewrite bind_run.
  destruct (progression_loop_names
              (Z.to_nat (num_bars * chords_per_bar_of chord_rate_str)) 0
              (mk_gen_state [] None None) t) as (ext & Hext & _ & Hnamed).
  cbn [progression_data app] in Hext.
  exists ext. split; [exact Hnamed|].
  rewrite Hext. split; [apply apply_cadence_length|].
  intros i [-> | Hi].
  - unfold apply_cadence. cbn [String.eqb Ascii.eqb Bool.eqb negb andb]. reflexivity.
  - rewrite apply_cadence_length in Hi.
    rewrite <- (nth_error_firstn_lt (List.length ext - 2) i) by lia.
    rewrite apply_cadence_frame. apply nth_error_firstn_lt. lia.
Qed.

End LoopNames.

(** X29: on a valid pool whose names hold no slash, a template style
    follows its template: whenever the pool offers a chord for the
    function that the template asks for at a slot, the chord stored in
    that slot has that function — in every slot that the cadence cannot
    overwrite (all of them with cadence "Any", all but the last two
    otherwise), whatever the voicing and the draws. *)
Theorem template_progression_follows_functions
    (num_bars : Z) (prog_style chord_rate_str voicing_style cadence_str chord_bias : string)
    (pool : chord_pool) (key_type key_root_name : string) (is_minor : bool) (t : tape)
    (i : nat) (s : slot) (func : string) :
  valid_pool pool -> plain_names pool ->
  nth_error (fst (_generate_progression num_bars prog_style chord_rate_str voicing_style
                    cadence_str chord_bias pool (dict_keys pool) key_type key_root_name
                    is_minor t)) i = Some s ->
  cadence_str = "Any"
  \/ (i + 2 < List.length
                (fst (_generate_progression num_bars prog_style chord_rate_str voicing_style
                        cadence_str chord_bias pool (dict_keys pool) key_type key_root_name
                        is_minor t)))%nat ->
  template_function prog_style (Z.of_nat i) = Some func ->
  (exists m, matching pool func m) ->
  In (base_name_of (display_name s)) (dict_keys pool)
  /\ matching pool func (base_name_of (display_name s)).
Proof.
  intros Hvalid Hplain Hs Hcad Ht Hm.
  destruct (generate_progression_names prog_style chord_rate_str voicing_style cadence_str
              chord_bias pool key_type key_root_name is_minor Hvalid Hplain num_bars t)
    as (ext & (Ha & _ & _) & _ & Hnth).
  rewrite (Hnth i Hcad) in Hs.
  destruct (Ha i s Hs) as [[Hin _] Hfollow]. split; [exact Hin|].
  apply Hfollow; assumption.
Qed.

(** X30: on a valid pool whose names hold no slash, a slot that is
    left to the smooth chord finder (every slot of "Smooth Random", and
    the slots of a template style whose function the pool does not
    offer) never repeats the chord of the slot before it, as long as
    the pool has another chord — in every slot that the cadence cannot
    overwrite, whatever the voicing, the bias and the draws. *)
Theorem smooth_progression_never_repeats
    (num_bars : Z) (prog_style chord_rate_str voicing_style cadence_str chord_bias : string)
    (pool : chord_pool) (key_type key_root_name : string) (is_minor : bool) (t : tape)
    (i : nat) (s1 s2 : slot) :
  valid_pool pool -> plain_names pool ->
  nth_error (fst (_generate_progression num_bars prog_style chord_rate_str voicing_style
                    cadence_str chord_bias pool (dict_keys pool) key_type key_root_name
                    is_minor t)) i = Some s1 ->
  nth_error (fst (_generate_progression num_bars prog_style chord_rate_str voicing_style
                    cadence_str chord_bias pool (dict_keys pool) key_type key_root_name
                    is_minor t)) (S i) = Some s2 ->
  cadence_str = "Any"
  \/ (S i + 2 < List.length
                  (fst (_generate_progression num_bars prog_style chord_rate_str voicing_style
                          cadence_str chord_bias pool (dict_keys pool) key_type key_root_name
                          is_minor t)))%nat ->
  left_to_finder pool prog_style (Z.of_nat (S i)) ->
  has_other_name pool (base_name_of (display_name s1)) ->
  base_name_of (display_name s1) <> base_name_of (display_name s2).
Proof.
  intros Hvalid Hplain H1 H2 Hcad Hleft Hother.
  destruct (generate_progression_names prog_style chord_rate_str voicing_style cadence_str
              chord_bias pool key_type key_root_name is_minor Hvalid Hplain num_bars t)
    as (ext & (_ & Hb & _) & _ & Hnth).
  rewrite (Hnth (S i) Hcad) in H2.
  rewrite (Hnth i) in H1 by (destruct Hcad as [-> | Hc]; [left; reflexivity | right; lia]).
  intros E. symmetry in E. revert E.
  apply (Hb i s1 s2 H1 H2); [exact Hleft | reflexivity | exact Hother].
Qed.

(** The second bar of a Pop progression in C major is the chord of
    function vi. *)
Lemma template_progression_follows_functions_witness :
  let pool := generate_chorgi_major_chord_pool "C" 60 "Standard (Triads/7ths)" in
  In "Am" (dict_keys pool) /\ matching pool "vi" "Am".
Proof.
  intros pool.
  apply (template_progression_follows_functions 4 "Pop (I-vi-IV-V)" "1 / Bar"
           "Allow Inversions" "Any" "Standard" pool "major" "C" false
           [1; 2; 3; 4; 5; 6; 7; 8; 9] 1
           (mk_slot "Am" [69; 72; 76] [57; 60; 64] (Some 69) 4) "vi").
  - apply valid_poolb_sound. vm_compute. reflexivity.
  - apply plain_namesb_sound. vm_compute. reflexivity.
  - vm_compute. reflexivity.
  - left. reflexivity.
  - reflexivity.
  - exists "Am". exists (mk_chord [69; 72; 76] "vi").
    split; [vm_compute; tauto | reflexivity].
Defined.

(** The first two bars of a Smooth Random progression in C major. *)
Lemma smooth_progression_never_repeats_witness :
  base_name_of "Cmaj7/Inv3" <> base_name_of "Fmaj7/Inv2".
Proof.
  apply (smooth_progression_never_repeats 4 "Smooth Random" "1 / Bar" "Allow Inversions" "Any"
           "Darker" (generate_chorgi_major_chord_pool "C" 60 "Standard (Triads/7ths)")
           "major" "C" false
           [1; 2; 3; 4; 5; 6; 7; 8; 9; 10; 11; 12; 13; 14; 15; 16; 17; 18; 19; 20; 21; 22] 0
           (mk_slot "Cmaj7/Inv3" [60; 64; 67; 71] [59; 60; 64; 67] (Some 60) 4)
           (mk_slot "Fmaj7/Inv2" [65; 69; 72; 76] [60; 64; 65; 69] (Some 65) 4)).
  - apply valid_poolb_sound. vm_compute. reflexivity.
  - apply plain_namesb_sound. vm_compute. reflexivity.
  - vm_compute. reflexivity.
  - vm_compute. reflexivity.
  - left. reflexivity.
  - intros func H. discriminate.
  - exists "Cmaj". split; [vm_compute; tauto | discriminate].
Defined.

(** ** Worked examples *)

Example inversion_first_of_triad : calculate_inversion [60; 64; 67] 1 = [64; 67; 72].
Proof. reflexivity. Qed.

Example inversion_negative_index : calculate_inversion [67; 60; 64] (-1) = [60; 64; 67].
Proof. reflexivity. Qed.

Example drop2_of_seventh : calculate_drop2_voicing [60; 64; 67; 71] = [55; 60; 64; 71].
Proof. reflexivity. Qed.

(** In A minor the dominant is looked up under "V(hm)"; the seventh
    chord is preferred over the triad of the same function. *)
Example find_dominant_in_minor :
  let pool := generate_chorgi_minor_chord_pool "A" 69 "Standard (Triads/7ths)" in
  function_matches_of pool "V" = ["Em"; "E7"]
  /\ fst (_find_chord_by_function pool "V" "minor" true [5]) = Some "E7"
  /\ fst (_find_chord_by_function pool "v(hm)" "minor" false [4]) = Some "Em"
  /\ fst (_find_chord_by_function pool "bII" "minor" true [0]) = None.
Proof. repeat split; reflexivity. Qed.

(** A run of the smooth finder after a C major triad, "Darker" bias:
    of the five sampled candidates only Dm keeps its top note within
    three semitones of the previous one, and it is returned. *)
Example smooth_chord_after_c_major :
  let pool := generate_chorgi_major_chord_pool "C" 60 "Standard (Triads/7ths)" in
  let t := [0; 1; 2; 3; 4; 5] in
  fst (random_sample (possible_candidates (dict_keys pool) (Some "Cmaj")) 5 t)
    = ["Cmaj7"; "Dm"; "Em"; "Fmaj"; "Fmaj7"]
  /\ fst (_find_next_smooth_chord pool (dict_keys pool) (Some [60; 64; 67]) (Some "Cmaj")
            "Darker" "C" "Root Position" (-12) t)
     = mk_selection (Some "Dm") [62; 65; 69] [62; 65; 69] [50; 53; 57] (Some "Dm") (Some 62).
Proof. split; vm_compute; reflexivity. Qed.

(** The bias tests on pool names.  A name that contains "maj" also
    contains "m", so the "Lighter" test rejects the major chords of the
    pools. *)
Example bias_tests_on_pool_names :
  is_dark "Am" = true /\ is_dark "Bdim" = true /\ is_dark "Cmaj7" = false
  /\ is_dark "G7" = false
  /\ is_light "Cmaj" "C" = false /\ is_light "Cmaj7" "C" = false /\ is_light "G7" "C" = false.
Proof. repeat split; reflexivity. Qed.

Example melody_of_two_bars :
  map event_pitch
    (fst (generate_melody_chord_focus (get_major_scale_notes 60) "Legato" "Medium" "Mid" "None"
            [ mk_slot "Cmaj" [60; 64; 67] [48; 52; 55] (Some 60) 4;
              mk_slot "G7" [67; 71; 74; 77] [55; 59; 62; 65] (Some 67) 4 ]
            [0; 1; 2; 3; 4; 5; 6; 7; 8; 9; 10; 11; 12; 13; 14; 15; 16; 17; 18; 19; 20]))
  = [79; 72; 69; 72; 72; 76; 79; 79; 79; 79].
Proof. vm_compute. reflexivity. Qed.

Example snap_moves_to_nearest_class :
  snap_to_scale (pcs_of (get_major_scale_notes 60)) 60 84 66 = Some 65
  /\ snap_to_scale (pcs_of (get_major_scale_notes 60)) 60 84 58 = Some 69
  /\ snap_to_scale (pcs_of (get_major_scale_notes 60)) 60 84 100 = Some 76.
Proof. repeat split; reflexivity. Qed.

(** The spread voicing of a seventh chord raises its fifth. *)
Example spread_of_seventh : calculate_spread_voicing [60; 64; 67; 71] = [60; 64; 71; 79].
Proof. reflexivity. Qed.

Example converge_on_five_notes :
  fst (get_converge_diverge_pattern 5 [0]) = [0; 4; 1; 3; 2; 0; 4; 1].
Proof. reflexivity. Qed.

Example diverge_on_four_notes :
  fst (get_converge_diverge_pattern 4 [1]) = [1; 2; 0; 3; 1; 2; 0; 3].
Proof. reflexivity. Qed.

(** A slot root above 84 is clamped by the 808 bass, not folded: the
    root 100 (E) is played as 48 (C). *)
Example bass_808_clamps_high_root :
  map event_pitch (generate_bass_808 [mk_slot "E" [100] [88] (Some 100) 4] []) = [48]
  /\ 48 mod 12 <> 100 mod 12.
Proof. split; [reflexivity | discriminate]. Qed.

(** In B major the Pop bass, taking the octave on the F sharp chord,
    stops at 60: a C, which is not a note of the key. *)
Example bass_pop_octave_stops_at_60 :
  map event_pitch
    (fst (generate_bass_pop [mk_slot "F#maj" [78; 82; 85] [66; 70; 73] (Some 78) 4]
            (get_major_scale_notes 71) [0; 0; 0; 0]))
  = [54; 60; 54; 60]
  /\ in_pcs (pcs_of (get_major_scale_notes 71)) 60 = false.
Proof. split; reflexivity. Qed.

(** In D major the walking bass, stepping up from 59 to 61, is clamped
    to 60: a C natural. *)
Example bass_walking_clamped_to_60 :
  map event_pitch
    (fst (generate_bass_walking [mk_slot "C#dim" [73; 76; 79] [61; 64; 67] (Some 73) 5]
            (get_major_scale_notes 62) [3; 3; 3; 2]))
  = [49; 52; 55; 59; 60]
  /\ in_pcs (pcs_of (get_major_scale_notes 62)) 60 = false.
Proof. split; reflexivity. Qed.

(** An arpeggio over one bar of C major, up and down over two octaves. *)
Example arpeggio_of_one_chord :
  map arp_pitch
    (fst (_generate_arpeggio "Up-Down" "+1 Octave" (get_major_scale_notes 60) 100
            [mk_slot "C" [60; 64; 67] [48; 52; 55] (Some 60) 2]
            [0; 5; 1; 3; 0; 10; 0; 0; 1; 1]))
  = [60; 64; 67; 72; 76].
Proof. reflexivity. Qed.

(** The file of a run with bass and melody: three tracks. *)
Example midi_file_of_a_run :
  fst (_execute_write_midi_file "C" "Chorgi"
         [mk_slot "Cmaj" [60; 64; 67] [48; 52; 55] (Some 60) 4] []
         [(72, 0%Q, (1 # 2)%Q)] [(36, 0%Q, 3%Q)] true true true "Legato" "Medium" 120 true [3])
  = mk_midi_file 3
      [ addTrackName 0 0 "Chords (C Chorgi)"; addTempo 0 0 120; addText 0 0 "Cmaj";
        addNote 0 0 48 0 4 85; addNote 0 0 52 0 4 85; addNote 0 0 55 0 4 85;
        addTrackName 1 0 "Bass (C Chorgi)"; addNote 1 0 36 0 3 110;
        addTrackName 2 0 "Melody (C Chorgi Legato Medium)";
        addNote 2 0 72 0 (1 # 2) 98 ].
Proof. reflexivity. Qed.
